(** * A shallow embedding of the jsCSP solver (src/csp.js)

    The development follows the source file top to bottom: JavaScript
    objects used as dictionaries, the problem model, the two consistency
    loops (AC-3 and GAC), the support oracle, the heuristics, the
    backtracking driver and the validation layer.  A second part models
    the object store, to reason about which objects [CSP.solve] writes;
    the last part shows that the solver on the store returns what the
    solver on values returns.

    Conventions of the embedding:
    - a JavaScript object used as a dictionary is an association list of
      its own properties in enumeration order ([for ... in] order):
      array-index keys in ascending numeric order first, then the other
      keys in insertion order.  Names of variables are strings;
    - a read [o[k]] of a name that [o] does not hold goes to
      [Object.prototype].  [solve] makes two such reads on objects it
      creates with [{}]: [assigned[key]] in [backtrack] and [index[v]]
      in [buildNaryIndex]; both are modelled with the names that
      [Object.prototype] defines ([objectPrototype]).  Every other read
      of a variable's name is made on a mapping that holds the name
      (the names of the constraints are checked by [validateProblem],
      and the mappings of the search hold every declared variable), is
      guarded by [Array.isArray], or is made on the prototype-less
      [score] object; on a mapping that does not hold the name, those
      reads are taken to see [undefined].  A variable named [__proto__],
      which an assignment [out[k] = ...] would not store as a property,
      is not modelled;
    - the values of the domains are of any type [V]; the solver never
      compares them, and only turns them into property keys
      ([String(val)]) to file the scores of [orderValues];
    - a binary predicate is a total function to [bool] (the truthiness of
      the value the JavaScript predicate returns): an exception of a
      binary predicate is not caught by the solver and ends [solve];
    - an n-ary predicate returns [option bool]: [None] stands for a
      raised exception, which [hasSupport] catches;
    - predicates are deterministic and do not write to the solver's
      objects;
    - the loops that the source writes as [while (queue.length)] and the
      recursion of [backtrack] are iterated with fuel; [None] means that
      the fuel ran out, and the development shows that the fuel the
      callers pass is always enough;
    - [Array.prototype.sort] is stable, as ECMAScript 2019 requires;
    - the optional progress callback is scheduled with [setTimeout] and
      runs after [solve] has returned; it is left out, with the step
      counter that only feeds its delay. *)

From Stdlib Require Import String Ascii Bool Arith NArith Lia List Permutation.
From Stdlib Require Import DecimalString.
Import ListNotations.
Local Open Scope string_scope.
Local Open Scope list_scope.

Set Implicit Arguments.

(** ** JavaScript objects as ordered dictionaries *)

Module Obj.

Definition t (A : Type) : Type := list (string * A).

Definition digit (c : ascii) : option N :=
  let n := N_of_ascii c in
  if (48 <=? n)%N && (n <=? 57)%N then Some (n - 48)%N else None.

Fixpoint digits (s : string) (acc : N) : option N :=
  match s with
  | EmptyString => Some acc
  | String c r =>
      match digit c with
      | Some d => digits r (acc * 10 + d)%N
      | None => None
      end
  end.

(** [arrayIndex k] is [Some n] when [k] is the canonical decimal spelling
    of an integer [n] below [2^32 - 1]: the keys an object enumerates
    first, in numeric order. *)
Definition arrayIndex (k : string) : option N :=
  match k with
  | EmptyString => None
  | String c r =>
      if (N_of_ascii c =? 48)%N then
        match r with EmptyString => Some 0%N | _ => None end
      else
        match digits k 0 with
        | Some n => if (n <? 4294967295)%N then Some n else None
        | None => None
        end
  end.

Section Ops.
Context {A : Type}.

(** [o[k]]: [None] is JavaScript's [undefined]. *)
Fixpoint get (k : string) (o : t A) : option A :=
  match o with
  | [] => None
  | (k', x) :: r => if String.eqb k k' then Some x else get k r
  end.

Definition has (k : string) (o : t A) : bool :=
  match get k o with Some _ => true | None => false end.

Fixpoint replace (k : string) (v : A) (o : t A) : t A :=
  match o with
  | [] => []
  | (k', x) :: r =>
      if String.eqb k k' then (k, v) :: r else (k', x) :: replace k v r
  end.

Fixpoint insertIndex (n : N) (k : string) (v : A) (o : t A) : t A :=
  match o with
  | [] => [(k, v)]
  | (k', x) :: r =>
      match arrayIndex k' with
      | Some m => if (m <? n)%N then (k', x) :: insertIndex n k v r
                  else (k, v) :: o
      | None => (k, v) :: o
      end
  end.

Definition insertNew (k : string) (v : A) (o : t A) : t A :=
  match arrayIndex k with
  | Some n => insertIndex n k v o
  | None => o ++ [(k, v)]
  end.

(** [o[k] = v]: an existing property keeps its place. *)
Definition set (k : string) (v : A) (o : t A) : t A :=
  if has k o then replace k v o else insertNew k v o.

(** [delete o[k]]. *)
Fixpoint del (k : string) (o : t A) : t A :=
  match o with
  | [] => []
  | (k', x) :: r => if String.eqb k k' then del k r else (k', x) :: del k r
  end.

Definition keys (o : t A) : list string := map fst o.

(** [for (const k in src) out[k] = src[k]] *)
Definition assignAll (src : t A) (out : t A) : t A :=
  fold_left (fun out kd => set (fst kd) (snd kd) out) src out.

End Ops.
End Obj.

(** The names that [Object.prototype] defines, in Node.js: the members
    of the standard and its Annex B.  On an object created with [{}]
    that has no own property of the name, a read finds the inherited
    member: a function, or for [__proto__] the prototype itself; each is
    truthy, and none is an array. *)
Definition objectPrototype : list string :=
  ["constructor"; "__defineGetter__"; "__defineSetter__"; "hasOwnProperty";
   "__lookupGetter__"; "__lookupSetter__"; "isPrototypeOf";
   "propertyIsEnumerable"; "toString"; "valueOf"; "__proto__";
   "toLocaleString"].

Definition inherited (k : string) : bool :=
  existsb (String.eqb k) objectPrototype.

(** ** The problem model *)

Inductive Result (A : Type) : Type :=
| FAILURE
| Value (a : A).
Arguments FAILURE {A}.
Arguments Value {A} a.

(** What [solve] throws: the four errors of [validateProblem], and the
    [TypeError] of a call of [push] on a value that has none. *)
Inductive Error : Type :=
| InvalidDomain (v : string)
| UnknownVariable (name : string)
| MissingVars
| MissingPredicate
| TypeError.

Inductive Outcome (A : Type) : Type :=
| Threw (e : Error)
| Returned (r : Result A).
Arguments Threw {A} e.
Arguments Returned {A} r.

(** A score of [orderValues]: a count, or [-Infinity]. *)
Inductive Score : Type :=
| NegInfinity
| Count (n : nat).

Notation "x <- e ;; k" :=
  (match e with Some x => k | None => None end)
  (at level 61, e at next level, right associativity, only parsing).

Fixpoint insertBy {A : Type} (gt : A -> A -> bool) (x : A) (l : list A) : list A :=
  match l with
  | [] => [x]
  | y :: r => if gt x y then y :: insertBy gt x r else x :: l
  end.

(** [Array.prototype.sort] with a consistent comparator is a stable sort;
    [gt a b] says that the comparator is positive on [(a, b)]. *)
Definition sortBy {A : Type} (gt : A -> A -> bool) (l : list A) : list A :=
  fold_right (insertBy gt) [] l.

Definition getOrNil {A : Type} (k : string) (o : Obj.t (list A)) : list A :=
  match Obj.get k o with Some l => l | None => [] end.

(** [Subseq l' l]: [l'] is [l] with some elements left out. *)
Inductive Subseq {A : Type} : list A -> list A -> Prop :=
| Subseq_nil : Subseq [] []
| Subseq_skip x l' l : Subseq l' l -> Subseq l' (x :: l)
| Subseq_keep x l' l : Subseq l' l -> Subseq (x :: l') (x :: l).

Section Solver.
Context {V : Type}.

(** [String(val)]: the property key under which [orderValues] files the
    score of a value. *)
Variable toKey : V -> string.

Definition Vars : Type := Obj.t (list V).

(** [[head, tail, predicate]]. *)
Definition BinaryConstraint : Type := (string * string * (V -> V -> bool))%type.

(** [{ vars, predicate }]; [cid] is the identity of the object, which
    [queue.indexOf] compares. *)
Record NaryConstraint : Type := {
  cid : nat;
  cvars : list string;
  cpredicate : Obj.t V -> option bool
}.

(** A domain as the caller wrote it: an array, or any other value. *)
Inductive RawDomain : Type :=
| RawArray (dom : list V)
| RawOther.

(** An element of the caller's list of binary constraints: an array of
    three or more elements whose third is a function, or anything else.
    An n-ary constraint likewise: an object with an array [vars] and a
    function [predicate], or anything else.  [normalizeProblem] drops
    the second kind. *)
Inductive RawBinary : Type :=
| RawTriple (head tail : string) (predicate : V -> V -> bool)
| RawBinaryOther.

Inductive RawNary : Type :=
| RawNaryObject (C : NaryConstraint)
| RawNaryOther.

(** The caller's description; [None] is a field that is missing or,
    for the two lists, not an array. *)
Record RawProblem : Type := {
  rawVariables : option (Obj.t RawDomain);
  rawConstraints : option (list RawBinary);
  rawNaryConstraints : option (list RawNary)
}.

Record Problem : Type := {
  variables : Obj.t RawDomain;
  constraints : list BinaryConstraint;
  naryConstraints : list NaryConstraint;
  _naryIndex : option (Obj.t (list NaryConstraint))
}.

(** [Array.isArray] and [.slice()] at the two types a domain has: as the
    caller wrote it, and in the search state, where it is always an
    array.  [slice] is only reached on arrays. *)
Class ArrayLike (D : Type) : Type := {
  isArray : D -> bool;
  slice : D -> list V
}.

#[export] Instance ArrayLike_list : ArrayLike (list V) := {
  isArray := fun _ => true;
  slice := fun l => l
}.

#[export] Instance ArrayLike_raw : ArrayLike RawDomain := {
  isArray := fun d => match d with RawArray _ => true | RawOther => false end;
  slice := fun d => match d with RawArray l => l | RawOther => [] end
}.

(** ** Helpers: cloning and checks *)

Definition cloneVars {D : Type} `{ArrayLike D} (variables : Obj.t D) : Vars :=
  fold_left (fun out kd => Obj.set (fst kd) (slice (snd kd)) out) variables [].

Definition cloneAssignment (assigned : Vars) : Vars :=
  Obj.assignAll assigned [].

Definition finished (unassigned : Vars) : bool :=
  Nat.eqb (length (Obj.keys unassigned)) 0.

Definition anyEmpty (vars : Vars) : bool :=
  existsb (fun kd => Nat.eqb (length (snd kd)) 0) vars.

Definition partialAssignment (assigned unassigned : Vars) : Vars :=
  let partial := Obj.assignAll unassigned [] in
  Obj.assignAll assigned partial.

(** ** Consistency: AC-3 *)

Definition incomingConstraints (constraints : list BinaryConstraint)
  (node : string) : list BinaryConstraint :=
  filter (fun c => String.eqb (fst (fst c)) node) constraints.

Definition validTailValues (predicate : V -> V -> bool) (hv tv : list V) : list V :=
  filter (fun t => existsb (fun h => predicate h t) hv) tv.

(** [removeInconsistentValues], called where both domains are present:
    the new mapping and the [removed] flag. *)
Definition removeInconsistentValues (tail : string) (predicate : V -> V -> bool)
  (hv tv : list V) (vars : Vars) : Vars * bool :=
  let valid := validTailValues predicate hv tv in
  (Obj.set tail valid vars, negb (Nat.eqb (length valid) (length tv))).

Inductive Ac3Step : Type :=
| Ac3Done
| Ac3Fail (vars : Vars)
| Ac3Next (vars : Vars) (queue : list BinaryConstraint).

(** One turn of the [while (queue.length)] loop of [runAC3]. *)
Definition ac3Step (constraints : list BinaryConstraint) (variables : Vars)
  (queue : list BinaryConstraint) : Ac3Step :=
  match queue with
  | [] => Ac3Done
  | (head, tail, predicate) :: rest =>
      match Obj.get head variables, Obj.get tail variables with
      | Some hv, Some tv =>
          let (vars', removed) :=
            removeInconsistentValues tail predicate hv tv variables in
          if removed then
            if Nat.eqb (length (getOrNil tail vars')) 0 then Ac3Fail vars'
            else Ac3Next vars' (rest ++ incomingConstraints constraints tail)
          else Ac3Next vars' rest
      | _, _ => Ac3Next variables rest
      end
  end.

Fixpoint ac3Loop (fuel : nat) (constraints : list BinaryConstraint)
  (variables : Vars) (queue : list BinaryConstraint) : option (bool * Vars) :=
  match fuel with
  | 0 => None
  | S fuel' =>
      match ac3Step constraints variables queue with
      | Ac3Done => Some (true, variables)
      | Ac3Fail vars' => Some (false, vars')
      | Ac3Next vars' queue' => ac3Loop fuel' constraints vars' queue'
      end
  end.

Definition totalSize (vars : Vars) : nat :=
  fold_right (fun kd n => length (snd kd) + n) 0 vars.

(** [Shrunk before after]: the two mappings have the same variables, and
    each domain of [after] is a subsequence of the one in [before]. *)
Definition Shrunk (before after : Vars) : Prop :=
  forall k,
    match Obj.get k before, Obj.get k after with
    | Some d, Some d' => Subseq d' d
    | None, None => True
    | _, _ => False
    end.

(** The arc [c] has nothing to remove in [vars]. *)
Definition arcConsistent (c : BinaryConstraint) (vars : Vars) : Prop :=
  forall hv tv,
    Obj.get (fst (fst c)) vars = Some hv ->
    Obj.get (snd (fst c)) vars = Some tv ->
    forall t, In t tv -> existsb (fun h => snd c h t) hv = true.

(** The invariant of the AC-3 work queue: an arc that is not waiting in
    the queue is consistent. *)
Definition ac3Invariant (constraints : list BinaryConstraint) (vars : Vars)
  (queue : list BinaryConstraint) : Prop :=
  forall c, In c constraints -> In c queue \/ arcConsistent c vars.

(** The verdict of [runAC3] and the mapping it leaves behind. *)
Definition runAC3 (variables : Vars) (constraints : list BinaryConstraint)
  : option (bool * Vars) :=
  ac3Loop (S (totalSize variables * length constraints + length constraints))
    constraints variables constraints.

(** ** The n-ary adjacency index *)

(** [(index[v] = index[v] || []).push(C)].  Where [index] holds [v], the
    constraint is appended to its entry.  Where it does not, [index[v]]
    is [undefined] and a new entry is made, unless [Object.prototype]
    defines [v]: then [index[v]] is the inherited member, which is
    truthy and has no [push], and the call throws. *)
Definition fileUnder (C : NaryConstraint) (index : Obj.t (list NaryConstraint))
  (v : string) : Error + Obj.t (list NaryConstraint) :=
  match Obj.get v index with
  | Some entry => inr (Obj.set v (entry ++ [C]) index)
  | None => if inherited v then inl TypeError else inr (Obj.set v [C] index)
  end.

(** The inner loop of [buildNaryIndex], over [C.vars]. *)
Fixpoint fileAll (C : NaryConstraint) (vars : list string)
  (index : Obj.t (list NaryConstraint)) : Error + Obj.t (list NaryConstraint) :=
  match vars with
  | [] => inr index
  | v :: vars' =>
      match fileUnder C index v with
      | inl e => inl e
      | inr index' => fileAll C vars' index'
      end
  end.

(** The outer loop of [buildNaryIndex]. *)
Fixpoint indexFrom (naryConstraints : list NaryConstraint)
  (index : Obj.t (list NaryConstraint)) : Error + Obj.t (list NaryConstraint) :=
  match naryConstraints with
  | [] => inr index
  | C :: rest =>
      match fileAll C (cvars C) index with
      | inl e => inl e
      | inr index' => indexFrom rest index'
      end
  end.

(** [buildNaryIndex] returns the index, or throws. *)
Definition buildNaryIndex (naryConstraints : list NaryConstraint)
  : Error + Obj.t (list NaryConstraint) :=
  indexFrom naryConstraints [].

(** The index as a function of the list of constraints: under each
    name, the constraints that list it.  It is the index that
    [buildNaryIndex] returns when it returns ([buildNaryIndex_adjacency]
    below). *)
Definition adjacency (naryConstraints : list NaryConstraint)
  : Obj.t (list NaryConstraint) :=
  fold_left
    (fun index C =>
       fold_left (fun index v => Obj.set v (getOrNil v index ++ [C]) index)
         (cvars C) index)
    naryConstraints [].

(** ** The support oracle *)

(** The first loop of [hasSupport]: the other participants, or [None]
    where the source returns [false] at once. *)
Fixpoint collectOthers (focusVar : string) (vars : list string)
  (variables : Vars) : option (list string) :=
  match vars with
  | [] => Some []
  | v :: rest =>
      if String.eqb v focusVar then collectOthers focusVar rest variables
      else
        match Obj.get v variables with
        | None => None
        | Some dom =>
            if Nat.eqb (length dom) 0 then None
            else
              others <- collectOthers focusVar rest variables ;;
              Some (v :: others)
        end
  end.

(** The comparator of [others.sort] is positive on [(a, b)]: [da - db > 0],
    where a missing domain counts as [Infinity]. *)
Definition largerDomain (variables : Vars) (a b : string) : bool :=
  match Obj.get a variables, Obj.get b variables with
  | Some da, Some db => Nat.ltb (length db) (length da)
  | None, Some _ => true
  | _, None => false
  end.

(** The [for] loop of [dfs(i)] over the domain of level [i]; [next] is
    [dfs(i + 1)].  The tuple object [assign] is shared by all levels, so
    it is threaded through. *)
Fixpoint eachValue (next : Obj.t V -> bool * Obj.t V) (vname : string)
  (dom : list V) (assign : Obj.t V) : bool * Obj.t V :=
  match dom with
  | [] => (false, Obj.del vname assign)
  | x :: dom' =>
      let (found, assign') := next (Obj.set vname x assign) in
      if found then (true, assign') else eachValue next vname dom' assign'
  end.

(** [dfs(i)] over the levels [i, i+1, ...]: each level is a name of [order]
    with its entry of [domains]. *)
Fixpoint dfs (predicate : Obj.t V -> option bool)
  (levels : list (string * list V)) (assign : Obj.t V) : bool * Obj.t V :=
  match levels with
  | [] =>
      (match predicate assign with
       | Some b => b
       | None => false
       end, assign)
  | (vname, dom) :: rest => eachValue (dfs predicate rest) vname dom assign
  end.

Definition hasSupport (focusVar : string) (focusVal : V) (C : NaryConstraint)
  (variables : Vars) : bool :=
  match collectOthers focusVar (cvars C) variables with
  | None => false
  | Some others =>
      let others := sortBy (largerDomain variables) others in
      let order := focusVar :: others in
      let domains := [focusVal] :: map (fun v => getOrNil v variables) others in
      fst (dfs (cpredicate C) (combine order domains) [])
  end.

(** The verdict of [dfs] on an assembled tuple: the truthiness of what
    the predicate returns, and [false] when it raises. *)
Definition verdict (predicate : Obj.t V -> option bool) (tuple : Obj.t V) : bool :=
  match predicate tuple with
  | Some b => b
  | None => false
  end.

(** The tuples that the [for] loop of [dfs(i)] hands to the predicate
    when none of them satisfies it, in the order in which it assembles
    them, and the tuple object as the loop leaves it; [next] lists the
    tuples of [dfs(i + 1)]. *)
Fixpoint eachTuples (next : Obj.t V -> list (Obj.t V) * Obj.t V) (vname : string)
  (dom : list V) (assign : Obj.t V) : list (Obj.t V) * Obj.t V :=
  match dom with
  | [] => ([], Obj.del vname assign)
  | x :: dom' =>
      let (first, assign') := next (Obj.set vname x assign) in
      let (others, assign'') := eachTuples next vname dom' assign' in
      (first ++ others, assign'')
  end.

Fixpoint tuples (levels : list (string * list V)) (assign : Obj.t V)
  : list (Obj.t V) * Obj.t V :=
  match levels with
  | [] => ([assign], assign)
  | (vname, dom) :: rest => eachTuples (tuples rest) vname dom assign
  end.

(** The tuples that [hasSupport] assembles for a focus value, in order:
    none when another participant has no domain or an empty one. *)
Definition candidateTuples (focusVar : string) (focusVal : V) (C : NaryConstraint)
  (variables : Vars) : list (Obj.t V) :=
  match collectOthers focusVar (cvars C) variables with
  | None => []
  | Some others =>
      let others := sortBy (largerDomain variables) others in
      let order := focusVar :: others in
      let domains := [focusVal] :: map (fun v => getOrNil v variables) others in
      fst (tuples (combine order domains) [])
  end.

(** [C] with another predicate. *)
Definition withPredicate (C : NaryConstraint)
  (predicate : Obj.t V -> option bool) : NaryConstraint :=
  {| cid := cid C; cvars := cvars C; cpredicate := predicate |}.

(** The predicate that answers [false] where [predicate] raises. *)
Definition failClosed (predicate : Obj.t V -> option bool)
  : Obj.t V -> option bool :=
  fun tuple =>
    match predicate tuple with
    | Some b => Some b
    | None => Some false
    end.

(** A predicate that reads its tuple only through its properties. *)
Definition Extensional (predicate : Obj.t V -> option bool) : Prop :=
  forall tuple tuple',
    (forall k, Obj.get k tuple = Obj.get k tuple') ->
    predicate tuple = predicate tuple'.

(** [tuple] binds [focusVar] to [focusVal], every other participant of
    [C] to a value of its current domain, and nothing else. *)
Definition SupportTuple (focusVar : string) (focusVal : V) (C : NaryConstraint)
  (variables : Vars) (tuple : Obj.t V) : Prop :=
  Obj.get focusVar tuple = Some focusVal /\
  (forall o, In o (cvars C) -> o <> focusVar ->
     exists dom val,
       Obj.get o variables = Some dom /\ In val dom /\ Obj.get o tuple = Some val) /\
  (forall k, k <> focusVar -> ~ In k (cvars C) -> Obj.get k tuple = None).

(** Every value of every participant of [C] has a support. *)
Definition gacStable (C : NaryConstraint) (variables : Vars) : Prop :=
  forall x dom,
    In x (cvars C) -> Obj.get x variables = Some dom ->
    forall val, In val dom -> hasSupport x val C variables = true.

(** ** Consistency: GAC *)

(** The loop over [C.vars] of [runGAC]: [None] where it returns [false]
    (with the mapping at that point), else the mapping and [changedAny]. *)
Fixpoint reviseVars (C : NaryConstraint) (vars : list string)
  (variables : Vars) (changedAny : bool) : Vars * option bool :=
  match vars with
  | [] => (variables, Some changedAny)
  | varName :: vars' =>
      match Obj.get varName variables with
      | None => reviseVars C vars' variables changedAny
      | Some dom =>
          let newDom := filter (fun val => hasSupport varName val C variables) dom in
          if Nat.eqb (length newDom) (length dom)
          then reviseVars C vars' variables changedAny
          else
            let variables' := Obj.set varName newDom variables in
            if Nat.eqb (length newDom) 0 then (variables', None)
            else reviseVars C vars' variables' true
      end
  end.

(** [queue.indexOf(Rc) === -1] *)
Definition notQueued (Rc : NaryConstraint) (queue : list NaryConstraint) : bool :=
  negb (existsb (fun Q => Nat.eqb (cid Q) (cid Rc)) queue).

Definition pushRelated (related queue : list NaryConstraint) : list NaryConstraint :=
  fold_left (fun queue Rc => if notQueued Rc queue then queue ++ [Rc] else queue)
    related queue.

Definition reenqueue (index : Obj.t (list NaryConstraint)) (vars : list string)
  (queue : list NaryConstraint) : list NaryConstraint :=
  fold_left (fun queue v2 => pushRelated (getOrNil v2 index) queue) vars queue.

Inductive GacStep : Type :=
| GacDone
| GacFail (vars : Vars)
| GacNext (vars : Vars) (queue : list NaryConstraint).

(** One turn of the [while (queue.length)] loop of [runGAC].  The guard
    on the shape of [C] always passes here: a [NaryConstraint] has its
    array of names and its predicate. *)
Definition gacStep (index : Obj.t (list NaryConstraint)) (variables : Vars)
  (queue : list NaryConstraint) : GacStep :=
  match queue with
  | [] => GacDone
  | C :: rest =>
      match reviseVars C (cvars C) variables false with
      | (vars', None) => GacFail vars'
      | (vars', Some changedAny) =>
          GacNext vars' (if changedAny then reenqueue index (cvars C) rest else rest)
      end
  end.

Fixpoint gacLoop (fuel : nat) (index : Obj.t (list NaryConstraint))
  (variables : Vars) (queue : list NaryConstraint) : option (bool * Vars) :=
  match fuel with
  | 0 => None
  | S fuel' =>
      match gacStep index variables queue with
      | GacDone => Some (true, variables)
      | GacFail vars' => Some (false, vars')
      | GacNext vars' queue' => gacLoop fuel' index vars' queue'
      end
  end.

Definition indexSize (index : Obj.t (list NaryConstraint)) : nat :=
  length (concat (map snd index)).

(** [csp._naryIndex || buildNaryIndex(csp.naryConstraints)].  [solve]
    stores the index before the search, so that [runGAC] never builds
    it; where the field is missing, the index is taken to be the one
    that [buildNaryIndex] returns, [adjacency]. *)
Definition naryIndexOf (csp : Problem) : Obj.t (list NaryConstraint) :=
  match _naryIndex csp with
  | Some index => index
  | None => adjacency (naryConstraints csp)
  end.

Definition runGAC (variables : Vars) (csp : Problem) : option (bool * Vars) :=
  let index := naryIndexOf csp in
  gacLoop (S (totalSize variables * indexSize index + length (naryConstraints csp)))
    index variables (naryConstraints csp).

(** The body of [enforceConsistency]: the verdict, and the mapping
    [variables] as the pass leaves it. *)
Definition consistencyPass (assigned unassigned : Vars) (csp : Problem)
  : option (bool * Vars) :=
  let variables := partialAssignment assigned unassigned in
  r1 <- (if Nat.eqb (length (constraints csp)) 0 then Some (true, variables)
         else runAC3 variables (constraints csp)) ;;
  if negb (fst r1) then Some (false, snd r1)
  else if Nat.eqb (length (naryConstraints csp)) 0 then Some (true, snd r1)
  else runGAC (snd r1) csp.

Definition enforceConsistency (assigned unassigned : Vars) (csp : Problem)
  : option (Result Vars) :=
  r <- consistencyPass assigned unassigned csp ;;
  Some (if fst r then Value (snd r) else FAILURE).


(** Two entries of the list with the same [cid] are the same object. *)
Definition DistinctIdentities (naryConstraints : list NaryConstraint) : Prop :=
  forall C C', In C naryConstraints -> In C' naryConstraints ->
    cid C = cid C' -> C = C'.

(** The index [runGAC] reads is the one [solve] builds. *)
Definition WellIndexed (csp : Problem) : Prop :=
  naryIndexOf csp = adjacency (naryConstraints csp).

(** ** Heuristics *)

(** The [for ... in] loop of [selectUnassignedVariable]; [minLen = None]
    is [Infinity]. *)
Fixpoint selectLoop (entries : Vars) (minKey : option string)
  (minLen : option nat) : option string :=
  match entries with
  | [] => minKey
  | (key, dom) :: rest =>
      let len := length dom in
      let smaller :=
        match minLen with Some m => Nat.ltb len m | None => true end in
      if smaller then
        if Nat.eqb len 1 then Some key
        else selectLoop rest (Some key) (Some len)
      else selectLoop rest minKey minLen
  end.

Definition selectUnassignedVariable (unassigned : Vars) : option string :=
  selectLoop unassigned None None.

Definition countValues (vars : Vars) : nat :=
  fold_left (fun sum kd => sum + length (snd kd)) vars 0.

(** The scoring loop of [orderValues]. *)
Fixpoint scoreValues (nextKey : string) (assigned unassigned : Vars)
  (csp : Problem) (baseValues : list V) (score : Obj.t Score)
  : option (Obj.t Score) :=
  match baseValues with
  | [] => Some score
  | val :: rest =>
      let A := Obj.set nextKey [val] (cloneAssignment assigned) in
      let U := Obj.del nextKey (cloneVars unassigned) in
      res <- enforceConsistency A U csp ;;
      let s :=
        match res with
        | FAILURE => NegInfinity
        | Value r => if anyEmpty r then NegInfinity else Count (countValues r)
        end in
      scoreValues nextKey assigned unassigned csp rest (Obj.set (toKey val) s score)
  end.

(** [sb - sa > 0], where [None] is [undefined] and the difference of two
    [-Infinity] is [NaN]. *)
Definition scoreGreater (sb sa : option Score) : bool :=
  match sb, sa with
  | Some (Count b), Some (Count a) => Nat.ltb a b
  | Some (Count _), Some NegInfinity => true
  | _, _ => false
  end.

Definition orderValues (nextKey : string) (assigned unassigned : Vars)
  (csp : Problem) : option (list V) :=
  let baseValues := getOrNil nextKey unassigned in
  if Nat.leb (length baseValues) 1 then Some baseValues
  else
    score <- scoreValues nextKey assigned unassigned csp baseValues [] ;;
    Some (sortBy
            (fun a b => scoreGreater (Obj.get (toKey b) score) (Obj.get (toKey a) score))
            baseValues).

(** ** Core search *)

(** The truthiness of [assigned[key]]: [assigned] is created with [{}]
    and its own properties are arrays, so the read is truthy when
    [assigned] holds [key], and also when it does not but
    [Object.prototype] defines [key]. *)
Definition readsTruthy (key : string) (assigned : Vars) : bool :=
  Obj.has key assigned || inherited key.

(** The split of [consistent] into [newAssigned] and [newUnassigned],
    on the test [if (assigned[key])]. *)
Definition splitConsistent (assigned consistent : Vars) : Vars * Vars :=
  fold_left
    (fun acc kd =>
       if readsTruthy (fst kd) assigned
       then (Obj.set (fst kd) (snd kd) (fst acc), snd acc)
       else (fst acc, Obj.set (fst kd) (snd kd) (snd acc)))
    consistent ([], []).

(** The [for] loop of [backtrack] over the ordered values; [unassigned]
    is the mapping after [delete unassigned[nextKey]], [recurse] the
    recursive call. *)
Fixpoint tryValues (recurse : Vars -> Vars -> option (Result Vars))
  (nextKey : string) (unassigned : Vars) (csp : Problem)
  (values : list V) (assigned : Vars) : option (Result Vars) :=
  match values with
  | [] => Some FAILURE
  | val :: rest =>
      let assigned1 := Obj.set nextKey [val] assigned in
      consistent <- enforceConsistency assigned1 unassigned csp ;;
      match consistent with
      | FAILURE =>
          tryValues recurse nextKey unassigned csp rest (Obj.del nextKey assigned1)
      | Value consistent =>
          let (newAssigned, newUnassigned) := splitConsistent assigned1 consistent in
          if anyEmpty consistent
          then tryValues recurse nextKey unassigned csp rest (Obj.del nextKey assigned1)
          else
            result <- recurse newAssigned newUnassigned ;;
            match result with
            | Value _ => Some result
            | FAILURE =>
                tryValues recurse nextKey unassigned csp rest (Obj.del nextKey assigned1)
            end
      end
  end.

Fixpoint backtrack (fuel : nat) (_assigned unassigned : Vars) (csp : Problem)
  : option (Result Vars) :=
  match fuel with
  | 0 => None
  | S fuel' =>
      let assigned := cloneAssignment _assigned in
      if finished unassigned then Some (Value assigned)
      else
        match selectUnassignedVariable unassigned with
        | None => Some FAILURE
        | Some nextKey =>
            values <- orderValues nextKey assigned unassigned csp ;;
            tryValues (fun a u => backtrack fuel' a u csp) nextKey
              (Obj.del nextKey unassigned) csp values assigned
        end
  end.

(** Every domain of the mapping holds exactly one value. *)
Definition Singletons (vars : Vars) : Prop :=
  forall k dom, Obj.get k vars = Some dom -> length dom = 1.

(** No name of the mapping is one that [Object.prototype] defines. *)
Definition OwnNames {D : Type} (vars : Obj.t D) : Prop :=
  forall k, In k (Obj.keys vars) -> inherited k = false.

(** Every arc is consistent and every n-ary constraint is stable. *)
Definition Solved (csp : Problem) (vars : Vars) : Prop :=
  (forall c, In c (constraints csp) -> arcConsistent c vars) /\
  (forall C, In C (naryConstraints csp) -> gacStable C vars).

(** ** Validation and normalization *)

Definition normalizeProblem (csp : RawProblem) : Problem :=
  {| variables :=
       fold_left
         (fun out kd =>
            Obj.set (fst kd)
              (if isArray (snd kd) then RawArray (slice (snd kd)) else RawArray [])
              out)
         (match rawVariables csp with Some vs => vs | None => [] end) [];
     constraints :=
       match rawConstraints csp with
       | Some cs =>
           flat_map
             (fun c =>
                match c with
                | RawTriple head tail predicate => [(head, tail, predicate)]
                | RawBinaryOther => []
                end) cs
       | None => []
       end;
     naryConstraints :=
       match rawNaryConstraints csp with
       | Some cs =>
           flat_map
             (fun C =>
                match C with
                | RawNaryObject C => [C]
                | RawNaryOther => []
                end) cs
       | None => []
       end;
     _naryIndex := None |}.

Definition varsSetHas (varsSet : list string) (v : string) : bool :=
  existsb (String.eqb v) varsSet.

Fixpoint firstError {A : Type} (check : A -> option Error) (l : list A)
  : option Error :=
  match l with
  | [] => None
  | x :: r =>
      match check x with
      | Some e => Some e
      | None => firstError check r
      end
  end.

(** [validateProblem] returns the error it throws, if any.  The tests on
    [typeof pred] have nothing left to reject: a constraint of the model
    carries its predicate.  [varsSet] holds the declared names, which
    are strings; the names of the constraints are strings too (the
    source would not find a name given as a number in [varsSet], and
    throws on it: such a description is not a [RawProblem]). *)
Definition validateProblem (csp : Problem) : option Error :=
  let varsSet := Obj.keys (variables csp) in
  match firstError
          (fun kd => if isArray (snd kd) then None else Some (InvalidDomain (fst kd)))
          (variables csp) with
  | Some e => Some e
  | None =>
      match firstError
              (fun c : BinaryConstraint =>
                 let '(head, tail, _) := c in
                 if negb (varsSetHas varsSet head) then Some (UnknownVariable head)
                 else if negb (varsSetHas varsSet tail) then Some (UnknownVariable tail)
                 else None)
              (constraints csp) with
      | Some e => Some e
      | None =>
          firstError
            (fun C =>
               if Nat.eqb (length (cvars C)) 0 then Some MissingVars
               else firstError
                      (fun v => if negb (varsSetHas varsSet v)
                                then Some (UnknownVariable v) else None)
                      (cvars C))
            (naryConstraints csp)
      end
  end.

(** ** Public API *)

(** The problem after [csp._naryIndex = index]. *)
Definition withIndex (csp : Problem) (index : Obj.t (list NaryConstraint))
  : Problem :=
  {| variables := variables csp;
     constraints := constraints csp;
     naryConstraints := naryConstraints csp;
     _naryIndex := Some index |}.

(** The problem with the index of its constraints. *)
Definition withNaryIndex (csp : Problem) : Problem :=
  withIndex csp (adjacency (naryConstraints csp)).

(** The last loop of [solve]: [v[0]], which is [undefined] ([None]) on an
    empty array. *)
Definition unwrap (result : Vars) : Obj.t (option V) :=
  map (fun kv => (fst kv, hd_error (snd kv))) result.

Definition solve (csp : RawProblem) : option (Outcome (Obj.t (option V))) :=
  let csp := normalizeProblem csp in
  match validateProblem csp with
  | Some e => Some (Threw e)
  | None =>
      match buildNaryIndex (naryConstraints csp) with
      | inl e => Some (Threw e)
      | inr index =>
          let csp := withIndex csp index in
          result <- backtrack (S (length (variables csp))) []
                      (cloneVars (variables csp)) csp ;;
          match result with
          | FAILURE => Some (Returned FAILURE)
          | Value result => Some (Returned (Value (unwrap result)))
          end
      end
  end.

End Solver.


(** * The object store

    The functions above compute with values.  To say which objects
    [CSP.solve] writes, the same source is embedded once more over a
    store: objects and arrays live in cells, a reference is the index of
    a cell, and creating an object appends a cell.  Statements that only
    read (the tests on domains, [hasSupport], the heuristics'
    comparisons) are evaluated on the values they read, with the
    functions of the first part; arrays that never leave a function (the
    work queues, [baseValues], [others]) stay lists.  Constraint triples
    and n-ary constraint objects are held by value: the source has no
    statement that writes to one. *)

Module Mem.

(** The functions of the first part that are used on values read from
    the store. *)
Abbreviation valuesAnyEmpty := anyEmpty.
Abbreviation valuesSelect := selectUnassignedVariable.

Section Mem.
Context {V : Type}.

(** [String(val)], as in [orderValues]. *)
Variable toKey : V -> string.

Definition Ref : Type := nat.

(** The value of a property: a reference to an array, or a value that is
    not an array ([None] for [undefined]). *)
Inductive Slot : Type :=
| SRef (r : Ref)
| SValue (v : option V).

Inductive Cell : Type :=
| CArray (elems : list V)
| CObject (props : Obj.t Slot)
| CBinaryList (cs : list (@RawBinary V))
| CNaryList (cs : list (@RawNary V))
| CProblem (variables constraints naryConstraints : option Ref)
    (naryIndex : option (Obj.t (list (@NaryConstraint V)))).

Definition Heap : Type := list Cell.

(** A computation on the store; [None] when the fuel runs out or a
    statement meets a value of the wrong kind. *)
Definition M (A : Type) : Type := Heap -> option (A * Heap).

Definition ret {A : Type} (a : A) : M A := fun h => Some (a, h).

Definition fail {A : Type} : M A := fun _ => None.

Definition bind {A B : Type} (m : M A) (k : A -> M B) : M B :=
  fun h =>
    match m h with
    | Some (a, h') => k a h'
    | None => None
    end.

Notation "'let*' x ':=' m 'in' k" := (bind m (fun x => k))
  (at level 10, x name, m at level 100, k at level 200, only parsing).
Notation "m ';;;' k" := (bind m (fun _ => k))
  (at level 100, k at level 200, right associativity, only parsing).

Fixpoint update (r : Ref) (c : Cell) (h : Heap) : Heap :=
  match h, r with
  | [], _ => []
  | _ :: h', 0 => c :: h'
  | c' :: h', S r' => c' :: update r' c h'
  end.

Definition alloc (c : Cell) : M Ref := fun h => Some (length h, h ++ [c]).

Definition load (r : Ref) : M Cell :=
  fun h =>
    match nth_error h r with
    | Some c => Some (c, h)
    | None => None
    end.

Definition store (r : Ref) (c : Cell) : M unit :=
  fun h => if Nat.ltb r (length h) then Some (tt, update r c h) else None.

Definition loadObject (r : Ref) : M (Obj.t Slot) :=
  let* c := load r in
  match c with
  | CObject props => ret props
  | _ => fail
  end.

Definition loadArray (r : Ref) : M (list V) :=
  let* c := load r in
  match c with
  | CArray elems => ret elems
  | _ => fail
  end.

(** [o[k] = s] *)
Definition setProp (o : Ref) (k : string) (s : Slot) : M unit :=
  let* props := loadObject o in
  store o (CObject (Obj.set k s props)).

(** [delete o[k]] *)
Definition deleteProp (o : Ref) (k : string) : M unit :=
  let* props := loadObject o in
  store o (CObject (Obj.del k props)).

(** [a.slice()] *)
Definition sliceArray (a : Ref) : M Ref :=
  let* elems := loadArray a in
  alloc (CArray elems).

(** [for (const k in o) body(k, o[k])], over the properties [o] has when
    the loop starts. *)
Fixpoint forProps (body : string -> Slot -> M unit) (props : Obj.t Slot) : M unit :=
  match props with
  | [] => ret tt
  | (k, s) :: rest => body k s ;;; forProps body rest
  end.

(** The mapping that an object of domains holds, read out of the store. *)
Fixpoint loadDomains (props : Obj.t Slot) : M (@Vars V) :=
  match props with
  | [] => ret []
  | (k, SRef d) :: rest =>
      let* dom := loadArray d in
      let* doms := loadDomains rest in
      ret ((k, dom) :: doms)
  | (_, SValue _) :: _ => fail
  end.

Definition loadVars (o : Ref) : M (@Vars V) :=
  let* props := loadObject o in
  loadDomains props.

(** [out[k] = s.slice()] *)
Definition copySlice (out : Ref) (k : string) (s : Slot) : M unit :=
  match s with
  | SRef d =>
      let* d' := sliceArray d in
      setProp out k (SRef d')
  | SValue _ => fail
  end.

(** ** Helpers: cloning and checks *)

Definition cloneVars (variables : Ref) : M Ref :=
  let* out := alloc (CObject []) in
  let* props := loadObject variables in
  forProps (copySlice out) props ;;;
  ret out.

Definition cloneAssignment (assigned : Ref) : M Ref :=
  let* out := alloc (CObject []) in
  let* props := loadObject assigned in
  forProps (copySlice out) props ;;;
  ret out.

Definition finished (unassigned : Ref) : M bool :=
  let* props := loadObject unassigned in
  ret (Nat.eqb (length (Obj.keys props)) 0).

Definition anyEmpty (vars : Ref) : M bool :=
  let* view := loadVars vars in
  ret (valuesAnyEmpty view).

Definition partialAssignment (assigned unassigned : Ref) : M Ref :=
  let* partial := alloc (CObject []) in
  let* uprops := loadObject unassigned in
  forProps (copySlice partial) uprops ;;;
  let* aprops := loadObject assigned in
  forProps (copySlice partial) aprops ;;;
  ret partial.

(** ** Consistency: AC-3 + GAC *)

Fixpoint ac3Loop (fuel : nat) (constraints : list (@BinaryConstraint V))
  (variables : Ref) (queue : list (@BinaryConstraint V)) : M bool :=
  match fuel with
  | 0 => fail
  | S fuel' =>
      match queue with
      | [] => ret true
      | (head, tail, predicate) :: rest =>
          let* props := loadObject variables in
          match Obj.get head props, Obj.get tail props with
          | Some (SRef h), Some (SRef t) =>
              let* hv := loadArray h in
              let* tv := loadArray t in
              let* valid := alloc (CArray (validTailValues predicate hv tv)) in
              setProp variables tail (SRef valid) ;;;
              if negb (Nat.eqb (length (validTailValues predicate hv tv)) (length tv))
              then
                if Nat.eqb (length (validTailValues predicate hv tv)) 0 then ret false
                else ac3Loop fuel' constraints variables
                       (rest ++ incomingConstraints constraints tail)
              else ac3Loop fuel' constraints variables rest
          | None, _ | _, None => ac3Loop fuel' constraints variables rest
          | _, _ => fail
          end
      end
  end.

Definition runAC3 (variables : Ref) (constraints : list (@BinaryConstraint V)) : M bool :=
  let* view := loadVars variables in
  ac3Loop (S (totalSize view * length constraints + length constraints))
    constraints variables constraints.

(** The loop over [C.vars] of [runGAC]; [None] where it returns [false]. *)
Fixpoint reviseVars (C : @NaryConstraint V) (vars : list string)
  (variables : Ref) (changedAny : bool) : M (option bool) :=
  match vars with
  | [] => ret (Some changedAny)
  | varName :: vars' =>
      let* props := loadObject variables in
      match Obj.get varName props with
      | Some (SRef d) =>
          let* dom := loadArray d in
          let* view := loadDomains props in
          let* newDom :=
            alloc (CArray (filter (fun val => hasSupport varName val C view) dom)) in
          if Nat.eqb (length (filter (fun val => hasSupport varName val C view) dom))
               (length dom)
          then reviseVars C vars' variables changedAny
          else
            setProp variables varName (SRef newDom) ;;;
            if Nat.eqb (length (filter (fun val => hasSupport varName val C view) dom)) 0
            then ret None
            else reviseVars C vars' variables true
      | _ => reviseVars C vars' variables changedAny
      end
  end.

Fixpoint gacLoop (fuel : nat) (index : Obj.t (list (@NaryConstraint V)))
  (variables : Ref) (queue : list (@NaryConstraint V)) : M bool :=
  match fuel with
  | 0 => fail
  | S fuel' =>
      match queue with
      | [] => ret true
      | C :: rest =>
          let* changed := reviseVars C (cvars C) variables false in
          match changed with
          | None => ret false
          | Some changedAny =>
              gacLoop fuel' index variables
                (if changedAny then reenqueue index (cvars C) rest else rest)
          end
      end
  end.

Definition runGAC (variables : Ref) (csp : @Problem V) : M bool :=
  let* view := loadVars variables in
  gacLoop (S (totalSize view * indexSize (naryIndexOf csp)
              + length (naryConstraints csp)))
    (naryIndexOf csp) variables (naryConstraints csp).

Definition enforceConsistency (assigned unassigned : Ref) (csp : @Problem V)
  : M (Result Ref) :=
  let* variables := partialAssignment assigned unassigned in
  let* ok :=
    (if Nat.eqb (length (constraints csp)) 0 then ret true
     else runAC3 variables (constraints csp)) in
  if negb ok then ret FAILURE
  else
    let* ok :=
      (if Nat.eqb (length (naryConstraints csp)) 0 then ret true
       else runGAC variables csp) in
    if negb ok then ret FAILURE else ret (Value variables).

(** ** Heuristics *)

Definition selectUnassignedVariable (unassigned : Ref) : M (option string) :=
  let* view := loadVars unassigned in
  ret (valuesSelect view).

Fixpoint scoreValues (nextKey : string) (assigned unassigned : Ref)
  (csp : @Problem V) (baseValues : list V) (score : Obj.t Score)
  : M (Obj.t Score) :=
  match baseValues with
  | [] => ret score
  | val :: rest =>
      let* A := cloneAssignment assigned in
      let* U := cloneVars unassigned in
      let* single := alloc (CArray [val]) in
      setProp A nextKey (SRef single) ;;;
      deleteProp U nextKey ;;;
      let* res := enforceConsistency A U csp in
      let* s :=
        (match res with
         | FAILURE => ret NegInfinity
         | Value r =>
             let* view := loadVars r in
             ret (if valuesAnyEmpty view then NegInfinity else Count (countValues view))
         end) in
      scoreValues nextKey assigned unassigned csp rest (Obj.set (toKey val) s score)
  end.

Definition orderValues (nextKey : string) (assigned unassigned : Ref)
  (csp : @Problem V) : M (list V) :=
  let* props := loadObject unassigned in
  let* baseValues :=
    (match Obj.get nextKey props with
     | Some (SRef d) => loadArray d
     | _ => ret []
     end) in
  if Nat.leb (length baseValues) 1 then ret baseValues
  else
    let* score := scoreValues nextKey assigned unassigned csp baseValues [] in
    ret (sortBy
           (fun a b => scoreGreater (Obj.get (toKey b) score) (Obj.get (toKey a) score))
           baseValues).

(** ** Core search *)

Fixpoint tryValues (recurse : Ref -> Ref -> M (Result Ref))
  (nextKey : string) (unassigned : Ref) (csp : @Problem V)
  (values : list V) (assigned : Ref) : M (Result Ref) :=
  match values with
  | [] => ret FAILURE
  | val :: rest =>
      let* single := alloc (CArray [val]) in
      setProp assigned nextKey (SRef single) ;;;
      let* consistent := enforceConsistency assigned unassigned csp in
      match consistent with
      | FAILURE =>
          deleteProp assigned nextKey ;;;
          tryValues recurse nextKey unassigned csp rest assigned
      | Value consistent =>
          let* newAssigned := alloc (CObject []) in
          let* newUnassigned := alloc (CObject []) in
          let* cprops := loadObject consistent in
          let* aprops := loadObject assigned in
          forProps
            (fun key s =>
               if Obj.has key aprops || inherited key
               then copySlice newAssigned key s
               else copySlice newUnassigned key s)
            cprops ;;;
          let* empty := anyEmpty consistent in
          if empty then
            deleteProp assigned nextKey ;;;
            tryValues recurse nextKey unassigned csp rest assigned
          else
            let* result := recurse newAssigned newUnassigned in
            match result with
            | Value _ => ret result
            | FAILURE =>
                deleteProp assigned nextKey ;;;
                tryValues recurse nextKey unassigned csp rest assigned
            end
      end
  end.

Fixpoint backtrack (fuel : nat) (_assigned unassigned : Ref) (csp : @Problem V)
  : M (Result Ref) :=
  match fuel with
  | 0 => fail
  | S fuel' =>
      let* assigned := cloneAssignment _assigned in
      let* done := finished unassigned in
      if done then ret (Value assigned)
      else
        let* nextKey := selectUnassignedVariable unassigned in
        match nextKey with
        | None => ret FAILURE
        | Some nextKey =>
            let* values := orderValues nextKey assigned unassigned csp in
            let* props := loadObject unassigned in
            let savedDom :=
              match Obj.get nextKey props with
              | Some s => s
              | None => SValue None
              end in
            deleteProp unassigned nextKey ;;;
            let* result :=
              tryValues (fun a u => backtrack fuel' a u csp) nextKey unassigned
                csp values assigned in
            match result with
            | Value _ => ret result
            | FAILURE =>
                setProp unassigned nextKey savedDom ;;;
                ret FAILURE
            end
        end
  end.

(** ** Validation and normalization *)

(** [Array.isArray(dom) ? dom.slice() : []] *)
Definition normalizeDomain (s : Slot) : M Ref :=
  match s with
  | SRef d =>
      let* c := load d in
      match c with
      | CArray elems => alloc (CArray elems)
      | _ => alloc (CArray [])
      end
  | SValue _ => alloc (CArray [])
  end.

Definition keepTriples (cs : list (@RawBinary V)) : list (@RawBinary V) :=
  filter (fun c => match c with RawTriple _ _ _ => true | RawBinaryOther => false end) cs.

Definition keepObjects (cs : list (@RawNary V)) : list (@RawNary V) :=
  filter (fun C => match C with RawNaryObject _ => true | RawNaryOther => false end) cs.

(** The fields of the caller's object are absent ([None], for
    [undefined]) or refer to a cell.  A [variables] field that refers to
    a cell which is not an object of properties is a value of the wrong
    kind; a [constraints] or [naryConstraints] field that is not a list
    of the expected kind yields the empty list, as every element of it
    fails the test of the filter. *)
Definition normalizeProblem (csp : Ref) : M Ref :=
  let* c := load csp in
  match c with
  | CProblem variables constraints naryConstraints _ =>
      let* outVariables := alloc (CObject []) in
      (match variables with
       | Some vs =>
           let* vc := load vs in
           match vc with
           | CObject props =>
               forProps
                 (fun k s =>
                    let* dom := normalizeDomain s in
                    setProp outVariables k (SRef dom))
                 props
           | _ => fail
           end
       | None => ret tt
       end) ;;;
      let* outConstraints :=
        (match constraints with
         | Some cs =>
             let* cc := load cs in
             match cc with
             | CBinaryList l => alloc (CBinaryList (keepTriples l))
             | _ => alloc (CBinaryList [])
             end
         | None => alloc (CBinaryList [])
         end) in
      let* outNary :=
        (match naryConstraints with
         | Some ns =>
             let* nc := load ns in
             match nc with
             | CNaryList l => alloc (CNaryList (keepObjects l))
             | _ => alloc (CNaryList [])
             end
         | None => alloc (CNaryList [])
         end) in
      alloc (CProblem (Some outVariables) (Some outConstraints) (Some outNary) None)
  | _ => fail
  end.

(** The domains of a normalized problem, as [validateProblem] sees them. *)
Fixpoint loadRawDomains (props : Obj.t Slot) : M (Obj.t (@RawDomain V)) :=
  match props with
  | [] => ret []
  | (k, s) :: rest =>
      let* d :=
        (match s with
         | SRef r =>
             let* c := load r in
             ret (match c with CArray elems => RawArray elems | _ => RawOther end)
         | SValue _ => ret RawOther
         end) in
      let* ds := loadRawDomains rest in
      ret ((k, d) :: ds)
  end.

(** The fields of the normalized problem object, read out of the store. *)
Definition loadProblem (csp : Ref) : M (Ref * @Problem V) :=
  let* c := load csp in
  match c with
  | CProblem (Some vs) (Some cs) (Some ns) index =>
      let* props := loadObject vs in
      let* doms := loadRawDomains props in
      let* cc := load cs in
      let* nc := load ns in
      match cc, nc with
      | CBinaryList lc, CNaryList ln =>
          ret (vs,
               {| variables := doms;
                  constraints :=
                    flat_map
                      (fun c =>
                         match c with
                         | RawTriple head tail predicate => [(head, tail, predicate)]
                         | RawBinaryOther => []
                         end) lc;
                  naryConstraints :=
                    flat_map
                      (fun C =>
                         match C with
                         | RawNaryObject C => [C]
                         | RawNaryOther => []
                         end) ln;
                  _naryIndex := index |})
      | _, _ => fail
      end
  | _ => fail
  end.

(** [csp._naryIndex = index] *)
Definition setNaryIndex (csp : Ref)
  (index : Obj.t (list (@NaryConstraint V))) : M unit :=
  let* c := load csp in
  match c with
  | CProblem vs cs ns _ => store csp (CProblem vs cs ns (Some index))
  | _ => fail
  end.

(** ** Public API *)

(** [result[key] = Array.isArray(v) ? v[0] : v], for every key. *)
Definition unwrapProp (result : Ref) (key : string) (s : Slot) : M unit :=
  match s with
  | SRef d =>
      let* c := load d in
      match c with
      | CArray elems => setProp result key (SValue (hd_error elems))
      | _ => setProp result key s
      end
  | SValue _ => setProp result key s
  end.

Definition solve (csp : Ref) : M (Outcome Ref) :=
  let* csp := normalizeProblem csp in
  let* loaded := loadProblem csp in
  match validateProblem (snd loaded) with
  | Some e => ret (Threw e)
  | None =>
      match buildNaryIndex (naryConstraints (snd loaded)) with
      | inl e => ret (Threw e)
      | inr index =>
          setNaryIndex csp index ;;;
          let* empty := alloc (CObject []) in
          let* unassigned := cloneVars (fst loaded) in
          let* result :=
            backtrack (S (length (variables (snd loaded)))) empty unassigned
              (withIndex (snd loaded) index) in
          match result with
          | FAILURE => ret (Returned FAILURE)
          | Value result =>
              let* props := loadObject result in
              forProps (unwrapProp result) props ;;;
              ret (Returned (Value result))
          end
      end
  end.

(** The object at [r], with the value of each property read out of the
    store. *)
Definition loadRecord (r : Ref) : M (Obj.t (option V)) :=
  let* props := loadObject r in
  ret (map (fun ks =>
              (fst ks, match snd ks with SValue v => v | SRef _ => None end)) props).

(** ** What a computation leaves alone *)

(** [Frame base h h']: the store [h'] has all the cells of [h], and
    those below [base] hold what they held. *)
Definition Frame (base : nat) (h h' : Heap) : Prop :=
  length h <= length h' /\ forall r, r < base -> nth_error h' r = nth_error h r.

(** [Safe base m P]: run from a store with at least [base] cells, [m]
    leaves the cells below [base] alone and returns a value in [P]. *)
Definition Safe {A : Type} (base : nat) (m : M A) (P : A -> Prop) : Prop :=
  forall h a h', base <= length h -> m h = Some (a, h') -> Frame base h h' /\ P a.

(** A result that is not an object of the first [base] cells. *)
Definition FreshResult (base : nat) (r : Result Ref) : Prop :=
  match r with
  | FAILURE => True
  | Value o => base <= o
  end.

(** ** The store and the values it holds *)

Definition arrayAt (h : Heap) (r : Ref) (dom : list V) : Prop :=
  nth_error h r = Some (CArray dom).

(** The properties [props] hold the domains [vars]: the same names in the
    same order, each bound to an array with the elements of the domain. *)
Definition ReprProps (h : Heap) (props : Obj.t Slot) (vars : @Vars V) : Prop :=
  Forall2
    (fun ks kd =>
       fst ks = fst kd /\ exists r, snd ks = SRef r /\ arrayAt h r (snd kd))
    props vars.

(** The object at [o] holds the mapping [vars]. *)
Definition Repr (h : Heap) (o : Ref) (vars : @Vars V) : Prop :=
  exists props, nth_error h o = Some (CObject props) /\ ReprProps h props vars.

(** [Keeps W h h']: [h'] has the cells of [h]; the arrays hold what they
    held, and so do all cells but those of [W]. *)
Definition Keeps (W : list Ref) (h h' : Heap) : Prop :=
  length h <= length h' /\
  (forall r c, nth_error h r = Some c -> ~ In r W -> nth_error h' r = Some c) /\
  (forall r dom, arrayAt h r dom -> arrayAt h' r dom).

(** The domains [vars], as the fields of a normalized problem hold them. *)
Definition arrayDomains (vars : @Vars V) : Obj.t (@RawDomain V) :=
  map (fun kd => (fst kd, RawArray (snd kd))) vars.

(** The result [r] on the store is the result [res] on values. *)
Definition ReprResult (h : Heap) (res : Result (@Vars V)) (r : Result Ref) : Prop :=
  match res with
  | FAILURE => r = FAILURE
  | Value vars => exists o, r = Value o /\ Repr h o vars
  end.

(** The value of a property as [normalizeProblem] and [validateProblem]
    see it. *)
Definition rawDomainAt (h : Heap) (s : Slot) : @RawDomain V :=
  match s with
  | SRef r =>
      match nth_error h r with
      | Some (CArray elems) => RawArray elems
      | _ => RawOther
      end
  | SValue _ => RawOther
  end.

(** The problem object at [csp] holds the description [raw]. *)
Definition ReprRaw (h : Heap) (csp : Ref) (raw : @RawProblem V) : Prop :=
  exists variables constraints naryConstraints index,
    nth_error h csp = Some (CProblem variables constraints naryConstraints index) /\
    match variables, rawVariables raw with
    | Some vs, Some rvs =>
        exists props,
          nth_error h vs = Some (CObject props) /\
          rvs = map (fun ks => (fst ks, rawDomainAt h (snd ks))) props /\
          NoDup (Obj.keys props) /\
          (forall k r, In (k, SRef r) props -> r < length h)
    | Some vs, None => False
    | None, None => True
    | None, Some _ => False
    end /\
    match constraints, rawConstraints raw with
    | Some cs, Some rcs => nth_error h cs = Some (CBinaryList rcs)
    | Some cs, None =>
        exists c, nth_error h cs = Some c /\ forall l, c <> CBinaryList l
    | None, None => True
    | None, Some _ => False
    end /\
    match naryConstraints, rawNaryConstraints raw with
    | Some ns, Some rns => nth_error h ns = Some (CNaryList rns)
    | Some ns, None =>
        exists c, nth_error h ns = Some c /\ forall l, c <> CNaryList l
    | None, None => True
    | None, Some _ => False
    end.

End Mem.
End Mem.
(** ** Worked examples, over numbers *)

Module Examples.

(** [String(n)] *)
Definition natKey (n : nat) : string := NilEmpty.string_of_uint (Nat.to_uint n).

Definition allDifferentSum6 (tuple : Obj.t nat) : option bool :=
  match Obj.get "a" tuple, Obj.get "b" tuple, Obj.get "c" tuple with
  | Some a, Some b, Some c =>
      Some (negb (Nat.eqb a b) && negb (Nat.eqb b c) && negb (Nat.eqb a c)
            && Nat.eqb (a + b + c) 6)
  | _, _, _ => None
  end.

Definition tripleConstraint : NaryConstraint :=
  {| cid := 0; cvars := ["a"; "b"; "c"]; cpredicate := allDifferentSum6 |}.

(** Three variables over [1, 2, 3], with [a < b], all different, sum 6. *)
Definition tripleProblem : RawProblem :=
  {| rawVariables :=
       Some [("a", RawArray [1; 2; 3]); ("b", RawArray [1; 2; 3]);
             ("c", RawArray [1; 2; 3])];
     rawConstraints := Some [RawTriple "a" "b" Nat.ltb];
     rawNaryConstraints := Some [RawNaryObject tripleConstraint] |}.

Definition tripleSolution : Obj.t (option nat) :=
  [("a", Some 1); ("b", Some 2); ("c", Some 3)].



(** A variable whose domain is the number 5 instead of an array. *)
Definition badDomainProblem : RawProblem (V := nat) :=
  {| rawVariables := Some [("x", RawOther)];
     rawConstraints := Some [];
     rawNaryConstraints := Some [] |}.

(** The same description, handed to [validateProblem] as it is. *)
Definition badDomainUnnormalized : Problem (V := nat) :=
  {| variables := [("x", RawOther)];
     constraints := [];
     naryConstraints := [];
     _naryIndex := None |}.

(** [h !== t] *)
Definition differ (h t : nat) : bool := negb (Nat.eqb h t).

(** A variable with a single value, and two variables that must differ
    and are named after members of [Object.prototype]:
    [{ variables: { a: [1], toString: [1, 2], valueOf: [1, 2] },
       constraints: [['toString', 'valueOf', (h, t) => h !== t]] }]. *)
Definition inheritedNames : RawProblem :=
  {| rawVariables :=
       Some [("a", RawArray [1]); ("toString", RawArray [1; 2]);
             ("valueOf", RawArray [1; 2])];
     rawConstraints := Some [RawTriple "toString" "valueOf" differ];
     rawNaryConstraints := Some [] |}.

(** The same problem with names of its own. *)
Definition ownNames : RawProblem :=
  {| rawVariables :=
       Some [("a", RawArray [1]); ("p", RawArray [1; 2]); ("q", RawArray [1; 2])];
     rawConstraints := Some [RawTriple "p" "q" differ];
     rawNaryConstraints := Some [] |}.

(** [x + y = 3], by a predicate that raises when [y] is 0 (and when it
    is handed a tuple without [x] or without [y]). *)
Definition raisesOnZero : NaryConstraint :=
  {| cid := 0; cvars := ["x"; "y"];
     cpredicate := fun tuple =>
       match Obj.get "x" tuple, Obj.get "y" tuple with
       | Some x, Some y => if Nat.eqb y 0 then None else Some (Nat.eqb (x + y) 3)
       | _, _ => None
       end |}.

(** For [x = 2], the first tuple has [y = 0]. *)
Definition raisesVars : Vars := [("x", [2]); ("y", [0; 1; 2])].

(** [x = y] as an arc that prunes [y], and [x = 1] as an n-ary constraint:
    GAC shrinks [x] after AC-3 has finished with [y]. *)
Definition onlyOne : NaryConstraint :=
  {| cid := 0; cvars := ["x"];
     cpredicate := fun tuple =>
       match Obj.get "x" tuple with
       | Some v => Some (Nat.eqb v 1)
       | None => None
       end |}.

Definition mixedProblem : Problem :=
  {| variables := [("x", RawArray [1; 2]); ("y", RawArray [1; 2])];
     constraints := [("x", "y", Nat.eqb)];
     naryConstraints := [onlyOne];
     _naryIndex := Some (adjacency [onlyOne]) |}.

Definition mixedVars : Vars := [("x", [1; 2]); ("y", [1; 2])].

(** Only the arc [x < y]. *)
Definition arcProblem : Problem (V := nat) :=
  {| variables := [("x", RawArray [1; 2; 3]); ("y", RawArray [1; 2; 3])];
     constraints := [("x", "y", Nat.ltb)];
     naryConstraints := [];
     _naryIndex := None |}.

Definition arcVars : Vars := [("x", [1; 2; 3]); ("y", [1; 2; 3])].


(** The description [tripleProblem] as the caller's objects: three domain
    arrays, the variables object, the two constraint lists and the
    problem object, which is cell 6. *)
Definition tripleHeap : Mem.Heap :=
  [Mem.CArray [1; 2; 3]; Mem.CArray [1; 2; 3]; Mem.CArray [1; 2; 3];
   Mem.CObject [("a", Mem.SRef 0); ("b", Mem.SRef 1); ("c", Mem.SRef 2)];
   Mem.CBinaryList [RawTriple "a" "b" Nat.ltb];
   Mem.CNaryList [RawNaryObject tripleConstraint];
   Mem.CProblem (Some 3) (Some 4) (Some 5) None].

(** A caller's mapping [{ x: [1] }] in cell 1, and an empty object. *)
Definition ownMappingHeap : Mem.Heap (V := nat) :=
  [Mem.CArray [1]; Mem.CObject [("x", Mem.SRef 0)]; Mem.CObject []].

End Examples.

From Stdlib Require Import Sorted.

(** * Solutions of a problem

    What the search is for, stated apart from the solver: an assignment
    of one value to each variable, as an object from names to values. *)

Section Solutions.
Context {V : Type}.

(** [sol] gives every variable of the mapping a value of its domain. *)
Definition Within (sol : Obj.t V) (vars : @Vars V) : Prop :=
  forall k dom,
    Obj.get k vars = Some dom -> exists v, Obj.get k sol = Some v /\ In v dom.

(** Every binary predicate is true on the values of its head and tail. *)
Definition SatisfiesBinary (sol : Obj.t V) (cs : list (@BinaryConstraint V)) : Prop :=
  forall head tail predicate,
    In (head, tail, predicate) cs ->
    exists vh vt,
      Obj.get head sol = Some vh /\ Obj.get tail sol = Some vt /\
      predicate vh vt = true.

(** The n-ary predicate of [C] is true on the tuple that binds each
    participant of [C] to its value, and nothing else. *)
Definition SatisfiesNary (sol : Obj.t V) (C : @NaryConstraint V) : Prop :=
  exists tuple,
    (forall k, In k (cvars C) -> Obj.get k tuple = Obj.get k sol) /\
    (forall k, ~ In k (cvars C) -> Obj.get k tuple = None) /\
    cpredicate C tuple = Some true.


(** Every name the constraints of [csp] mention has a domain in [vars]. *)
Definition Covered (csp : @Problem V) (vars : @Vars V) : Prop :=
  forall C v, In C (naryConstraints csp) -> In v (cvars C) ->
    Obj.has v vars = true.

(** Every domain of [vars] is made of values of the domain the variable
    has in [orig]. *)
Definition DrawnFrom (orig vars : @Vars V) : Prop :=
  forall k dom,
    Obj.get k vars = Some dom ->
    exists d, Obj.get k orig = Some d /\ incl dom d.

End Solutions.
(** ** More worked examples *)

Module Examples2.


End Examples2.

(** * The puzzle generator (src/gencw.js)

    [gencw.js] builds N x N arithmetic squares and hands them to
    [CSP.solve]: the first N - 1 cells of a row or column, combined left
    to right with the operators of the line, must give the last cell.
    The functions embedded here are the ones that compute: [id],
    [evaluate] and [buildPuzzleConstraints].  The command line, the
    random choices and the printing are left out.

    Conventions:
    - the numbers of a puzzle are integers, values of [Z]: the default
      range, or a range of integers given on the command line, and the
      clues [randInt] draws from it (a bound with a fraction, which
      [Number] accepts, is not modelled).  JavaScript computes on
      doubles: sums, differences and products of integers are exact as
      long as they stay within 2^53 in magnitude, and so are the
      remainder and an exact quotient.  [evaluate] is embedded with the
      arithmetic of [Z]; it is the function of the source where no
      intermediate result leaves that range, which [ExactRange] ensures
      for the lines of a puzzle.  The array of a range is embedded as a
      list of any length; the source cannot build one of 2^32 values or
      more;
    - a value read from an object may be [undefined], and arithmetic on
      it gives [NaN]: [JsNum] has both;
    - [GRID_N] is a natural number. *)

From Stdlib Require Import ZArith DecimalNat.

Module Gencw.

(** A value that reaches [evaluate]. *)
Inductive JsNum : Type :=
| Undefined
| NaN
| Num (z : Z).

(** [String(n)] for a loop index. *)
Definition numberToString (n : nat) : string :=
  NilEmpty.string_of_uint (Nat.to_uint n).

(** [`r${r}c${c}`] *)
Definition id (r c : nat) : string :=
  "r" ++ numberToString r ++ "c" ++ numberToString c.

(** [currentVal += nextVal], and likewise for [-=] and [*=]: a number
    on numbers, [NaN] as soon as one side is [undefined] or [NaN].  The
    result is the integer result; the source has it as long as it is
    within [maxExact] in magnitude, and a rounded value beyond. *)
Definition arith (f : Z -> Z -> Z) (currentVal nextVal : JsNum) : JsNum :=
  match currentVal, nextVal with
  | Num a, Num b => Num (f a b)
  | _, _ => NaN
  end.

(** One turn of the loop of [evaluate]: the new [currentVal], or [None]
    where the source returns [null]. *)
Definition step (op : string) (currentVal nextVal : JsNum) : option JsNum :=
  if String.eqb op "+" then Some (arith Z.add currentVal nextVal)
  else if String.eqb op "−" then Some (arith Z.sub currentVal nextVal)
  else if String.eqb op "×" then Some (arith Z.mul currentVal nextVal)
  else if String.eqb op "÷" then
    match currentVal, nextVal with
    | Num a, Num b =>
        (* nextVal === 0 || currentVal % nextVal !== 0 *)
        if Z.eqb b 0 || negb (Z.eqb (Z.rem a b) 0) then None
        else Some (Num (Z.quot a b))
    | _, _ =>
        (* the remainder is NaN, and NaN !== 0 *)
        None
    end
  else None.

(** The loop of [evaluate] from turn [i] on: [rest] holds
    [operands[i + 1]] and what follows. *)
Fixpoint evaluateFrom (currentVal : JsNum) (rest : list JsNum) (ops : list string)
  : option JsNum :=
  match ops with
  | [] => Some currentVal
  | op :: ops' =>
      let nextVal := hd Undefined rest in
      match step op currentVal nextVal with
      | Some currentVal' => evaluateFrom currentVal' (tl rest) ops'
      | None => None
      end
  end.

(** [evaluate(operands, ops)]; [None] is [null]. *)
Definition evaluate (operands : list JsNum) (ops : list string) : option JsNum :=
  if negb (Nat.eqb (length operands) (length ops + 1)) then None
  else evaluateFrom (hd Undefined operands) (tl operands) ops.

(** [evaluate(...) === result] *)
Definition strictEq (value : option JsNum) (result : JsNum) : bool :=
  match value, result with
  | Some Undefined, Undefined => true
  | Some (Num a), Num b => Z.eqb a b
  | _, _ => false
  end.

(** The fields of [config] that [buildPuzzleConstraints] reads. *)
Record Config : Type := {
  GRID_N : nat;
  MIN_N : Z;
  MAX_N : Z
}.

(** [{ rows, cols }]: the operators of each row and of each column. *)
Record OpLayout : Type := {
  rows : list (list string);
  cols : list (list string)
}.

(** [Array.from({ length: MAX_N - MIN_N + 1 }, (_, i) => i + MIN_N)]; a
    length that is not positive gives the empty array. *)
Definition fullDomain (config : Config) : list Z :=
  map (fun i => (Z.of_nat i + MIN_N config)%Z)
    (seq 0 (Z.to_nat (MAX_N config - MIN_N config + 1))).

(** The cells in the order of the two nested loops. *)
Definition cells (n : nat) : list (nat * nat) :=
  flat_map (fun r => map (fun c => (r, c)) (seq 0 n)) (seq 0 n).

(** The domain the first pair of loops gives the cell [(r, c)]. *)
Definition cellDomain (config : Config) (clues : Obj.t Z) (r c : nat) : list Z :=
  match Obj.get (id r c) clues with
  | Some clue => [clue]
  | None => fullDomain config
  end.

(** The first pair of loops: [variables[cellId]] for every cell. *)
Definition puzzleVariables (config : Config) (clues : Obj.t Z)
  : Obj.t (@RawDomain Z) :=
  fold_left
    (fun variables rc =>
       let cellId := id (fst rc) (snd rc) in
       match Obj.get cellId clues with
       | Some clue => Obj.set cellId (RawArray [clue]) variables
       | None => Obj.set cellId (RawArray (fullDomain config)) variables
       end)
    (cells (GRID_N config)) [].

(** The predicate of a row or column: [lineOps] is [ops.rows[r]] (or
    [ops.cols[c]]); where that is [undefined], [evaluate] raises when it
    reads its length. *)
Definition linePredicate (vars : list string) (lineOps : option (list string))
  (assign : Obj.t Z) : option bool :=
  let values :=
    map (fun v => match Obj.get v assign with Some z => Num z | None => Undefined end)
      vars in
  let operands := removelast values in
  let result := last values Undefined in
  match lineOps with
  | Some ops => Some (strictEq (evaluate operands ops) result)
  | None => None
  end.

Definition rowConstraint (n : nat) (ops : OpLayout) (r : nat) : @NaryConstraint Z :=
  let vars := map (fun c => id r c) (seq 0 n) in
  {| cid := r; cvars := vars; cpredicate := linePredicate vars (nth_error (rows ops) r) |}.

Definition colConstraint (n : nat) (ops : OpLayout) (c : nat) : @NaryConstraint Z :=
  let vars := map (fun r => id r c) (seq 0 n) in
  {| cid := n + c; cvars := vars;
     cpredicate := linePredicate vars (nth_error (cols ops) c) |}.

(** [buildPuzzleConstraints(config, ops, clues)]: the object handed to
    [csp.solve].  The constraint objects are created one after the
    other: [cid] numbers them. *)
Definition buildPuzzleConstraints (config : Config) (ops : OpLayout)
  (clues : Obj.t Z) : @RawProblem Z :=
  let n := GRID_N config in
  {| rawVariables := Some (puzzleVariables config clues);
     rawConstraints := Some [];
     rawNaryConstraints :=
       Some (map (fun r => RawNaryObject (rowConstraint n ops r)) (seq 0 n)
             ++ map (fun c => RawNaryObject (colConstraint n ops c)) (seq 0 n)) |}.

(** [Number.MAX_SAFE_INTEGER + 1]: up to this magnitude the integers
    are doubles, and an integer result is computed exactly. *)
Definition maxExact : Z := 2 ^ 53.

(** A bound on the magnitude of every value a cell can take: the bounds
    of the range and the clues (and at least 2). *)
Definition magnitude (config : Config) (clues : Obj.t Z) : Z :=
  fold_right (fun kc m => Z.max (Z.abs (snd kc)) m)
    (Z.max 2 (Z.max (Z.abs (MIN_N config)) (Z.abs (MAX_N config)))) clues.

(** The range of the puzzle is one on which the source computes as the
    model does: the lines are short enough, for the magnitude of the
    values, that [evaluate] stays exact (a line combines [GRID_N - 1]
    operands), and the range has fewer than 2^32 values, so that an
    array holds them. *)
Definition ExactRange (config : Config) (clues : Obj.t Z) : Prop :=
  (magnitude config clues ^ Z.of_nat (Nat.max 1 (GRID_N config - 1)) <= maxExact)%Z /\
  (MAX_N config - MIN_N config + 1 < 2 ^ 32)%Z.

(** The character [ch] does not occur in [s]. *)
Fixpoint freeOf (ch : ascii) (s : string) : Prop :=
  match s with
  | EmptyString => True
  | String ch' s' => ch' <> ch /\ freeOf ch s'
  end.

(** [String(val)] for the values of a puzzle. *)
Definition numberKey (z : Z) : string := NilEmpty.string_of_int (Z.to_int z).

(** A 3 x 3 square over 1..4 in which every line is a sum. *)
Definition sumConfig : Config := {| GRID_N := 3; MIN_N := 1; MAX_N := 4 |}.

Definition sumOps : OpLayout :=
  {| rows := [["+"]; ["+"]; ["+"]]; cols := [["+"]; ["+"]; ["+"]] |}.

(** The clue [r0c0 = 1]. *)
Definition sumClues : Obj.t Z := [("r0c0", 1%Z)].

End Gencw.

(** * The earlier variant of the solver (src/unnamed/part_000) *)

Module Legacy.

(** The [for ... in] loop of the earlier [selectUnassignedVariable]:
    [minLen = None] is [Number.POSITIVE_INFINITY], and the loop has no
    [break]. *)
Fixpoint selectLoop {V : Type} (entries : @Vars V) (minKey : option string)
  (minLen : option nat) : option string :=
  match entries with
  | [] => minKey
  | (key, dom) :: rest =>
      let len := length dom in
      let smaller :=
        match minLen with Some m => Nat.ltb len m | None => true end in
      if smaller then selectLoop rest (Some key) (Some len)
      else selectLoop rest minKey minLen
  end.

Definition selectUnassignedVariable {V : Type} (unassigned : @Vars V)
  : option string :=
  selectLoop unassigned None None.

(** How a call ends: it returns, or it throws an exception that nothing
    in the file catches ([part_000] has no [try]).  The exceptions are
    the one the constraint's predicate raises, and the [TypeError] of
    reading [length] of [undefined]. *)
Inductive Exception : Type :=
| PredicateError
| LengthOfUndefined.

Inductive Completion (A : Type) : Type :=
| Returns (a : A)
| Throws (e : Exception).
Arguments Returns {A} a.
Arguments Throws {A} e.

(** The [for] loop of [dfs(idx, partial)] over the domain of
    [others[idx]]; [next] is [dfs(idx + 1, partial)].  The object
    [partial] is shared by all levels, and no level deletes from it. *)
Fixpoint eachValue {V : Type} (next : Obj.t V -> Completion bool * Obj.t V)
  (v : string) (dom : list V) (partial : Obj.t V) : Completion bool * Obj.t V :=
  match dom with
  | [] => (Returns false, partial)
  | x :: dom' =>
      match next (Obj.set v x partial) with
      | (Returns true, partial') => (Returns true, partial')
      | (Returns false, partial') => eachValue next v dom' partial'
      | (Throws e, partial') => (Throws e, partial')
      end
  end.

(** [dfs(idx, partial)], for the names [others[idx], others[idx + 1], ...].
    Past the last name the tuple is a copy of [partial] with the focus
    value, and [dfs] returns what the predicate returns (its
    truthiness): what the predicate raises leaves [dfs].  A name without
    a domain reads [undefined], whose [length] is a [TypeError]. *)
Fixpoint dfs {V : Type} (focusVar : string) (focusVal : V)
  (predicate : Obj.t V -> option bool) (variables : @Vars V)
  (others : list string) (partial : Obj.t V) : Completion bool * Obj.t V :=
  match others with
  | [] =>
      let tuple := Obj.set focusVar focusVal (Obj.assignAll partial []) in
      (match predicate tuple with
       | Some b => Returns b
       | None => Throws PredicateError
       end, partial)
  | v :: rest =>
      match Obj.get v variables with
      | Some dom =>
          eachValue (dfs focusVar focusVal predicate variables rest) v dom partial
      | None => (Throws LengthOfUndefined, partial)
      end
  end.

(** The earlier [hasSupport].  The comparator of [others.sort] reads
    [variables[a].length]: it is called when there are two names or
    more, and then on each of them.  [None] marks what the model leaves
    out: a name without a domain that [Object.prototype] defines, where
    [variables[v]] is the inherited member. *)
Definition hasSupport {V : Type} (focusVar : string) (focusVal : V)
  (C : @NaryConstraint V) (variables : @Vars V) : option (Completion bool) :=
  let others := filter (fun v => negb (String.eqb v focusVar)) (cvars C) in
  let missing := fun v => negb (Obj.has v variables) in
  if existsb (fun v => missing v && inherited v) others then None
  else if Nat.leb 2 (length others) && existsb missing others
  then Some (Throws LengthOfUndefined)
  else Some (fst (dfs focusVar focusVal (cpredicate C) variables
                    (sortBy (largerDomain variables) others) [])).

End Legacy.

(** * Facts about objects *)

Unset Implicit Arguments.

Module ObjFacts.
Import Obj.

Section Facts.
Context {A : Type}.
Implicit Types (o : Obj.t A) (k : string) (v : A).

Lemma eqb_sym_false k k' : k <> k' -> String.eqb k' k = false.
Proof. intros H. apply String.eqb_neq. congruence. Qed.

Lemma has_true k o : has k o = true <-> exists v, get k o = Some v.
Proof.
  unfold has. destruct (get k o) as [x|]; split; intros H; eauto; try discriminate.
  destruct H as [? H]; discriminate.
Qed.

Lemma has_false k o : has k o = false <-> get k o = None.
Proof. unfold has. destruct (get k o); split; congruence. Qed.

Lemma get_In k v o : get k o = Some v -> In (k, v) o.
Proof.
  induction o as [|[k' x] r IH]; simpl; [discriminate|].
  destruct (String.eqb_spec k k') as [->|Hne]; intros H.
  - left. congruence.
  - right. auto.
Qed.

Lemma get_None_keys k o : get k o = None <-> ~ In k (keys o).
Proof.
  induction o as [|[k' x] r IH]; simpl.
  - tauto.
  - destruct (String.eqb_spec k k') as [->|Hne].
    + split; [discriminate | intros H; exfalso; apply H; auto].
    + rewrite IH. split; intros H; [intros [E|E]; [congruence | tauto] | tauto].
Qed.

Lemma get_Some_keys k v o : get k o = Some v -> In k (keys o).
Proof. intros H. apply get_In in H. apply (in_map fst) in H. exact H. Qed.

Lemma keys_get k o : In k (keys o) -> exists v, get k o = Some v.
Proof.
  intros H. destruct (get k o) as [v|] eqn:E; eauto.
  apply get_None_keys in E. contradiction.
Qed.

Lemma In_get k v o : NoDup (keys o) -> In (k, v) o -> get k o = Some v.
Proof.
  induction o as [|[k' x] r IH]; simpl; [tauto|].
  intros Hnd [E|Hin].
  - inversion E; subst. now rewrite String.eqb_refl.
  - inversion Hnd as [|? ? Hni Hnd']; subst.
    destruct (String.eqb_spec k k') as [->|Hne].
    + exfalso. apply Hni. apply (in_map fst) in Hin. exact Hin.
    + auto.
Qed.

(** *** replace *)

Lemma keys_replace k v o : keys (replace k v o) = keys o.
Proof.
  induction o as [|[k' x] r IH]; simpl; auto.
  destruct (String.eqb_spec k k') as [->|Hne]; simpl; congruence.
Qed.

Lemma get_replace_eq k v o : has k o = true -> get k (replace k v o) = Some v.
Proof.
  unfold has. induction o as [|[k' x] r IH]; simpl; [discriminate|].
  destruct (String.eqb_spec k k') as [->|Hne]; simpl.
  - now rewrite String.eqb_refl.
  - intros H. destruct (String.eqb_spec k k'); [contradiction | auto].
Qed.

Lemma get_replace_ne k k' v o : k' <> k -> get k' (replace k v o) = get k' o.
Proof.
  intros Hne. induction o as [|[k0 x] r IH]; simpl; auto.
  destruct (String.eqb_spec k k0) as [->|Hne0]; simpl.
  - now rewrite !(proj2 (String.eqb_neq _ _) Hne).
  - now rewrite IH.
Qed.

Lemma replace_same k v o : get k o = Some v -> replace k v o = o.
Proof.
  induction o as [|[k' x] r IH]; simpl; auto.
  destruct (String.eqb_spec k k') as [->|Hne]; intros H.
  - congruence.
  - now rewrite IH.
Qed.

(** *** insertion of a new key *)

Lemma get_insertIndex_eq n k v o :
  get k o = None -> get k (insertIndex n k v o) = Some v.
Proof.
  induction o as [|[k' x] r IH]; simpl; intros H.
  - now rewrite String.eqb_refl.
  - destruct (String.eqb_spec k k') as [->|Hne]; [discriminate|].
    destruct (arrayIndex k') as [m|];
      [destruct (m <? n)%N|]; simpl;
      rewrite ?String.eqb_refl, ?(proj2 (String.eqb_neq _ _) Hne); auto.
Qed.

Lemma get_insertIndex_ne n k k' v o :
  k' <> k -> get k' (insertIndex n k v o) = get k' o.
Proof.
  intros Hne. induction o as [|[k0 x] r IH]; simpl.
  - now rewrite (proj2 (String.eqb_neq _ _) Hne).
  - destruct (arrayIndex k0) as [m|];
      [destruct (m <? n)%N|]; simpl;
      rewrite ?(proj2 (String.eqb_neq _ _) Hne), ?IH; auto.
Qed.

Lemma keys_insertIndex n k v o : Permutation (keys (insertIndex n k v o)) (k :: keys o).
Proof.
  induction o as [|[k0 x] r IH]; simpl; auto.
  destruct (arrayIndex k0) as [m|]; [destruct (m <? n)%N|]; simpl; auto.
  rewrite IH. apply perm_swap.
Qed.

Lemma get_app k o1 o2 :
  get k (o1 ++ o2) = match get k o1 with Some x => Some x | None => get k o2 end.
Proof.
  induction o1 as [|[k' x] r IH]; simpl; auto.
  destruct (String.eqb k k'); auto.
Qed.

Lemma get_insertNew_eq k v o : get k o = None -> get k (insertNew k v o) = Some v.
Proof.
  intros H. unfold insertNew. destruct (arrayIndex k).
  - now apply get_insertIndex_eq.
  - rewrite get_app, H. simpl. now rewrite String.eqb_refl.
Qed.

Lemma get_insertNew_ne k k' v o : k' <> k -> get k' (insertNew k v o) = get k' o.
Proof.
  intros Hne. unfold insertNew. destruct (arrayIndex k).
  - now apply get_insertIndex_ne.
  - rewrite get_app. simpl. rewrite (proj2 (String.eqb_neq _ _) Hne).
    destruct (get k' o); auto.
Qed.

Lemma keys_insertNew k v o : Permutation (keys (insertNew k v o)) (k :: keys o).
Proof.
  unfold insertNew. destruct (arrayIndex k).
  - apply keys_insertIndex.
  - unfold keys. rewrite map_app. simpl.
    rewrite Permutation_app_comm. reflexivity.
Qed.

(** *** set and delete *)

Lemma get_set_eq k v o : get k (set k v o) = Some v.
Proof.
  unfold set. destruct (has k o) eqn:E.
  - now apply get_replace_eq.
  - apply get_insertNew_eq. now apply has_false.
Qed.

Lemma get_set_ne k k' v o : k' <> k -> get k' (set k v o) = get k' o.
Proof.
  intros Hne. unfold set. destruct (has k o).
  - now apply get_replace_ne.
  - now apply get_insertNew_ne.
Qed.

Lemma get_set k k' v o :
  get k' (set k v o) = if String.eqb k' k then Some v else get k' o.
Proof.
  destruct (String.eqb_spec k' k) as [->|Hne].
  - apply get_set_eq.
  - now apply get_set_ne.
Qed.

Lemma set_present k v w o : get k o = Some w -> set k v o = replace k v o.
Proof. intros H. unfold set, has. now rewrite H. Qed.

Lemma set_same k v o : get k o = Some v -> set k v o = o.
Proof. intros H. rewrite (set_present _ _ _ _ H). now apply replace_same. Qed.

Lemma keys_set_present k v w o : get k o = Some w -> keys (set k v o) = keys o.
Proof. intros H. rewrite (set_present _ _ _ _ H). apply keys_replace. Qed.

Lemma In_keys_set k k' v o : In k' (keys (set k v o)) <-> k' = k \/ In k' (keys o).
Proof.
  split.
  - intros H. apply keys_get in H. destruct H as [x H].
    rewrite get_set in H. destruct (String.eqb_spec k' k); auto.
    right. eapply get_Some_keys; eauto.
  - intros H. destruct (String.eqb_spec k' k) as [->|Hne].
    + eapply get_Some_keys. apply get_set_eq.
    + destruct H as [H|H]; [contradiction|].
      apply keys_get in H. destruct H as [x H].
      eapply get_Some_keys. rewrite get_set_ne; eauto.
Qed.

Lemma NoDup_keys_set k v o : NoDup (keys o) -> NoDup (keys (set k v o)).
Proof.
  intros H. unfold set. destruct (has k o) eqn:E.
  - now rewrite keys_replace.
  - apply has_false, get_None_keys in E.
    eapply Permutation_NoDup.
    + symmetry. apply keys_insertNew.
    + now constructor.
Qed.

Lemma get_del_eq k o : get k (del k o) = None.
Proof.
  induction o as [|[k' x] r IH]; simpl; auto.
  destruct (String.eqb_spec k k') as [->|Hne]; simpl; auto.
  now rewrite (proj2 (String.eqb_neq _ _) Hne).
Qed.

Lemma get_del_ne k k' o : k' <> k -> get k' (del k o) = get k' o.
Proof.
  intros Hne. induction o as [|[k0 x] r IH]; simpl; auto.
  destruct (String.eqb_spec k k0) as [->|Hne0]; simpl.
  - now rewrite (proj2 (String.eqb_neq _ _) Hne).
  - now rewrite IH.
Qed.

Lemma get_del k k' o : get k' (del k o) = if String.eqb k' k then None else get k' o.
Proof.
  destruct (String.eqb_spec k' k) as [->|Hne].
  - apply get_del_eq.
  - now apply get_del_ne.
Qed.

Lemma In_del k kv o : In kv (del k o) <-> In kv o /\ fst kv <> k.
Proof.
  induction o as [|[k' x] r IH]; simpl.
  - tauto.
  - destruct (String.eqb_spec k k') as [->|Hne]; simpl; rewrite IH.
    + split; [tauto|]. intros [[E|H] Hk]; [subst kv; simpl in Hk; congruence | tauto].
    + split; [|tauto]. intros [E|H]; [|tauto].
      subst kv. simpl. split; [auto|congruence].
Qed.

Lemma length_del k o : length (del k o) <= length o.
Proof.
  induction o as [|[k' x] r IH]; simpl; auto.
  destruct (String.eqb k k'); simpl; lia.
Qed.

Lemma length_del_present k o : In k (keys o) -> length (del k o) < length o.
Proof.
  induction o as [|[k' x] r IH]; simpl; [tauto|].
  destruct (String.eqb_spec k k') as [->|Hne]; simpl.
  - intros _. pose proof (length_del k' r). lia.
  - intros [E|H]; [congruence|]. apply IH in H. lia.
Qed.

Lemma NoDup_keys_del k o : NoDup (keys o) -> NoDup (keys (del k o)).
Proof.
  induction o as [|[k' x] r IH]; simpl; auto.
  intros H. inversion H as [|? ? Hni Hnd]; subst.
  destruct (String.eqb k k'); simpl; auto.
  constructor; auto.
  intros Hin. apply Hni. apply keys_get in Hin. destruct Hin as [y Hy].
  destruct (String.eqb_spec k' k) as [->|Hne].
  - now rewrite get_del_eq in Hy.
  - rewrite get_del_ne in Hy by auto. eapply get_Some_keys; eauto.
Qed.

(** *** building an object property by property *)

Lemma NoDup_keys_assignAll (l init : Obj.t A) : NoDup (keys init) -> NoDup (keys (assignAll l init)).
Proof.
  unfold assignAll. revert init. induction l as [|[k x] r IH]; simpl; auto.
  intros init H. apply IH. now apply NoDup_keys_set.
Qed.

Lemma get_assignAll k (l init : Obj.t A) :
  NoDup (keys l) ->
  get k (assignAll l init) = match get k l with Some x => Some x | None => get k init end.
Proof.
  unfold assignAll. revert init. induction l as [|[k' x] r IH]; simpl; auto.
  intros init H. inversion H as [|? ? Hni Hnd]; subst.
  rewrite IH by auto.
  destruct (String.eqb_spec k k') as [->|Hne].
  - apply get_None_keys in Hni. rewrite Hni. apply get_set_eq.
  - rewrite get_set_ne by auto. reflexivity.
Qed.

Lemma In_keys_assignAll k (l init : Obj.t A) :
  In k (keys (assignAll l init)) <-> In k (keys l) \/ In k (keys init).
Proof.
  unfold assignAll. revert init. induction l as [|[k' x] r IH]; simpl.
  - tauto.
  - intros init. rewrite IH, In_keys_set. intuition congruence.
Qed.

End Facts.
End ObjFacts.

(** * Facts about lists and domains *)

Section ListFacts.
Context {A : Type}.

Lemma Subseq_refl (l : list A) : Subseq l l.
Proof. induction l; [apply Subseq_nil | apply Subseq_keep; auto]. Qed.

Lemma Subseq_trans (l1 l2 l3 : list A) : Subseq l1 l2 -> Subseq l2 l3 -> Subseq l1 l3.
Proof.
  intros H12 H23. revert l1 H12.
  induction H23 as [|x l2 l3 H IH|x l2 l3 H IH]; intros l1 H12.
  - exact H12.
  - apply Subseq_skip. auto.
  - inversion H12; subst.
    + apply Subseq_skip. auto.
    + apply Subseq_keep. auto.
Qed.

Lemma Subseq_filter (f : A -> bool) (l : list A) : Subseq (filter f l) l.
Proof.
  induction l as [|x l IH]; simpl; [apply Subseq_nil|].
  destruct (f x); [apply Subseq_keep | apply Subseq_skip]; auto.
Qed.

Lemma Subseq_length (l' l : list A) : Subseq l' l -> length l' <= length l.
Proof. induction 1; simpl; lia. Qed.

Lemma Subseq_In (l' l : list A) x : Subseq l' l -> In x l' -> In x l.
Proof. induction 1; simpl; intuition. Qed.

Lemma Subseq_same_length (l' l : list A) : Subseq l' l -> length l' = length l -> l' = l.
Proof.
  induction 1 as [|x l' l H IH|x l' l H IH]; simpl; intros E; auto.
  - apply Subseq_length in H. lia.
  - f_equal. apply IH. lia.
Qed.

Lemma Subseq_singleton (l : list A) x : Subseq l [x] -> l <> [] -> l = [x].
Proof.
  intros H Hne. inversion H as [|y l1 l2 H1|y l1 l2 H1]; subst.
  - inversion H1; subst. congruence.
  - inversion H1; subst. reflexivity.
Qed.

Lemma filter_length_le (f : A -> bool) (l : list A) : length (filter f l) <= length l.
Proof. apply Subseq_length, Subseq_filter. Qed.

Lemma filter_same_length (f : A -> bool) (l : list A) :
  length (filter f l) = length l -> filter f l = l.
Proof. apply Subseq_same_length, Subseq_filter. Qed.

Lemma filter_all (f : A -> bool) (l : list A) :
  (forall x, In x l -> f x = true) -> filter f l = l.
Proof.
  induction l as [|x l IH]; simpl; auto.
  intros H. rewrite (H x) by auto. f_equal. auto.
Qed.

Lemma filter_id_all (f : A -> bool) (l : list A) :
  filter f l = l -> forall x, In x l -> f x = true.
Proof.
  intros E x Hx. rewrite <- E in Hx. apply filter_In in Hx. tauto.
Qed.

Lemma length_zero_nil (l : list A) : Nat.eqb (length l) 0 = true <-> l = [].
Proof. destruct l; simpl; split; congruence. Qed.

End ListFacts.

Section DomainFacts.
Context {V : Type}.
Implicit Types (vars : @Vars V) (k : string) (d : list V).

Lemma Shrunk_refl vars : Shrunk vars vars.
Proof. intros k. destruct (Obj.get k vars); auto. apply Subseq_refl. Qed.

Lemma Shrunk_trans vars1 vars2 vars3 :
  Shrunk vars1 vars2 -> Shrunk vars2 vars3 -> Shrunk vars1 vars3.
Proof.
  intros H12 H23 k. specialize (H12 k). specialize (H23 k).
  destruct (Obj.get k vars1), (Obj.get k vars2), (Obj.get k vars3);
    try tauto. eapply Subseq_trans; eauto.
Qed.

Lemma Shrunk_set vars k d d' :
  Obj.get k vars = Some d -> Subseq d' d -> Shrunk vars (Obj.set k d' vars).
Proof.
  intros Hk Hs k'. rewrite ObjFacts.get_set.
  destruct (String.eqb_spec k' k) as [->|Hne].
  - now rewrite Hk.
  - destruct (Obj.get k' vars); auto. apply Subseq_refl.
Qed.

Lemma Shrunk_get vars vars' k d' :
  Shrunk vars vars' -> Obj.get k vars' = Some d' ->
  exists d, Obj.get k vars = Some d /\ Subseq d' d.
Proof.
  intros H Hk. specialize (H k). rewrite Hk in H.
  destruct (Obj.get k vars) as [d|]; [eauto | contradiction].
Qed.

Lemma Shrunk_get_before vars vars' k d :
  Shrunk vars vars' -> Obj.get k vars = Some d ->
  exists d', Obj.get k vars' = Some d' /\ Subseq d' d.
Proof.
  intros H Hk. specialize (H k). rewrite Hk in H.
  destruct (Obj.get k vars') as [d'|]; [eauto | contradiction].
Qed.

Lemma totalSize_replace vars k d d' :
  Obj.get k vars = Some d ->
  totalSize (Obj.replace k d' vars) + length d = totalSize vars + length d'.
Proof.
  induction vars as [|[k' x] r IH]; simpl; [discriminate|].
  destruct (String.eqb_spec k k') as [->|Hne]; simpl; intros H.
  - inversion H; subst. lia.
  - apply IH in H. lia.
Qed.

Lemma totalSize_set vars k d d' :
  Obj.get k vars = Some d ->
  totalSize (Obj.set k d' vars) + length d = totalSize vars + length d'.
Proof.
  intros H. rewrite (ObjFacts.set_present _ _ _ _ H). now apply totalSize_replace.
Qed.

End DomainFacts.

(** * AC-3 *)

Section AC3Facts.
Context {V : Type}.
Implicit Types (vars : @Vars V) (cs queue rest : list (@BinaryConstraint V)).

(** What one turn of the loop does, case by case. *)
Lemma ac3Step_cases cs vars queue :
  match ac3Step cs vars queue with
  | Ac3Done => queue = []
  | Ac3Fail vars' =>
      exists h t p rest hv tv,
        queue = (h, t, p) :: rest /\
        Obj.get h vars = Some hv /\ Obj.get t vars = Some tv /\
        validTailValues p hv tv = [] /\ tv <> [] /\
        vars' = Obj.set t [] vars
  | Ac3Next vars' queue' =>
      exists h t p rest,
        queue = (h, t, p) :: rest /\
        (((Obj.get h vars = None \/ Obj.get t vars = None) /\
          vars' = vars /\ queue' = rest) \/
         (exists hv tv,
            Obj.get h vars = Some hv /\ Obj.get t vars = Some tv /\
            vars' = Obj.set t (validTailValues p hv tv) vars /\
            ((validTailValues p hv tv = tv /\ queue' = rest) \/
             (length (validTailValues p hv tv) < length tv /\
              validTailValues p hv tv <> [] /\
              queue' = rest ++ incomingConstraints cs t))))
  end.
Proof.
  unfold ac3Step. destruct queue as [|[[h t] p] rest]; [reflexivity|].
  destruct (Obj.get h vars) as [hv|] eqn:Hh.
  2:{ exists h, t, p, rest. split; auto. }
  destruct (Obj.get t vars) as [tv|] eqn:Ht.
  2:{ exists h, t, p, rest. split; auto. }
  unfold removeInconsistentValues.
  remember (validTailValues p hv tv) as valid eqn:Hvalid.
  assert (Hle : length valid <= length tv)
    by (subst valid; apply filter_length_le).
  destruct (Nat.eqb_spec (length valid) (length tv)) as [E|E]; simpl.
  - exists h, t, p, rest. split; [reflexivity|]. right. exists hv, tv.
    rewrite <- Hvalid.
    split; [assumption|]. split; [assumption|]. split; [reflexivity|].
    left. split; [|reflexivity].
    subst valid. now apply filter_same_length.
  - unfold getOrNil. rewrite ObjFacts.get_set_eq.
    destruct (Nat.eqb_spec (length valid) 0) as [Z|Z].
    + exists h, t, p, rest, hv, tv. rewrite <- Hvalid.
      assert (Hnil : valid = []) by (destruct valid; simpl in *; congruence).
      rewrite Hnil in *.
      split; [reflexivity|]. split; [assumption|]. split; [assumption|].
      split; [reflexivity|]. split; [|reflexivity].
      intros Htv. rewrite Htv in E. simpl in E. congruence.
    + exists h, t, p, rest. split; [reflexivity|]. right. exists hv, tv.
      rewrite <- Hvalid.
      split; [assumption|]. split; [assumption|]. split; [reflexivity|].
      right. split; [lia|]. split; [|reflexivity].
      intros Hv. rewrite Hv in Z. simpl in Z. congruence.
Qed.

Lemma ac3Step_shrunk cs vars queue :
  match ac3Step cs vars queue with
  | Ac3Done => True
  | Ac3Fail vars' => Shrunk vars vars'
  | Ac3Next vars' _ => Shrunk vars vars'
  end.
Proof.
  pose proof (ac3Step_cases cs vars queue) as H.
  destruct (ac3Step cs vars queue) as [|vars'|vars' queue']; auto.
  - destruct H as (h & t & p & rest & hv & tv & _ & _ & Ht & Hv & _ & ->).
    eapply Shrunk_set; eauto. rewrite <- Hv. apply Subseq_filter.
  - destruct H as (h & t & p & rest & _ & [(_ & -> & _)|(hv & tv & _ & Ht & -> & _)]).
    + apply Shrunk_refl.
    + eapply Shrunk_set; eauto. apply Subseq_filter.
Qed.

(** Every turn that goes on strictly lowers
    [totalSize vars * length cs + length queue]. *)
Lemma ac3Step_measure cs vars queue vars' queue' :
  ac3Step cs vars queue = Ac3Next vars' queue' ->
  totalSize vars' * length cs + length queue'
  < totalSize vars * length cs + length queue.
Proof.
  intros E. pose proof (ac3Step_cases cs vars queue) as H. rewrite E in H.
  destruct H as (h & t & p & rest & -> & [(_ & -> & ->)|(hv & tv & _ & Ht & -> & Hc)]).
  - simpl. lia.
  - pose proof (totalSize_set vars t tv (validTailValues p hv tv) Ht) as Hs.
    destruct Hc as [(Hv & ->)|(Hlt & _ & ->)].
    + rewrite Hv in *. simpl.
      assert (totalSize (Obj.set t tv vars) = totalSize vars) as -> by lia. lia.
    + rewrite length_app. simpl.
      assert (length (incomingConstraints cs t) <= length cs)
        by apply filter_length_le.
      nia.
Qed.

Lemma ac3Loop_terminates cs fuel vars queue :
  totalSize vars * length cs + length queue < fuel ->
  exists r, ac3Loop fuel cs vars queue = Some r.
Proof.
  revert vars queue. induction fuel as [|fuel IH]; intros vars queue Hf; [lia|].
  simpl. destruct (ac3Step cs vars queue) as [|vars'|vars' queue'] eqn:E; eauto.
  apply IH. apply ac3Step_measure in E. lia.
Qed.

Lemma ac3Loop_mono cs fuel fuel' vars queue r :
  ac3Loop fuel cs vars queue = Some r -> fuel <= fuel' ->
  ac3Loop fuel' cs vars queue = Some r.
Proof.
  revert fuel' vars queue. induction fuel as [|fuel IH]; intros fuel' vars queue H Hle;
    [discriminate|].
  destruct fuel' as [|fuel']; [lia|]. simpl in *.
  destruct (ac3Step cs vars queue); auto. apply IH; auto. lia.
Qed.

Lemma ac3Loop_shrunk cs fuel vars queue ok vars' :
  ac3Loop fuel cs vars queue = Some (ok, vars') -> Shrunk vars vars'.
Proof.
  revert vars queue. induction fuel as [|fuel IH]; intros vars queue H; [discriminate|].
  simpl in H. pose proof (ac3Step_shrunk cs vars queue) as Hs.
  destruct (ac3Step cs vars queue) as [|v1|v1 q1].
  - inversion H; subst. apply Shrunk_refl.
  - inversion H; subst. exact Hs.
  - eapply Shrunk_trans; eauto.
Qed.

Lemma runAC3_terminates vars cs : exists r, runAC3 vars cs = Some r.
Proof. unfold runAC3. apply ac3Loop_terminates. lia. Qed.

Lemma runAC3_shrunk vars cs ok vars' :
  runAC3 vars cs = Some (ok, vars') -> Shrunk vars vars'.
Proof. apply ac3Loop_shrunk. Qed.

(** *** The loop ends on arc-consistent domains *)

Lemma arcConsistent_absent c vars :
  Obj.get (fst (fst c)) vars = None \/ Obj.get (snd (fst c)) vars = None ->
  arcConsistent c vars.
Proof. intros [H|H] hv tv Hh Ht; congruence. Qed.

Lemma validTailValues_In p (hv tv : list V) t :
  In t (validTailValues p hv tv) <-> In t tv /\ existsb (fun h => p h t) hv = true.
Proof. unfold validTailValues. apply filter_In. Qed.

(** Removing values from the tail of an arc keeps every arc consistent
    whose head is another variable. *)
Lemma arcConsistent_shrink_tail c vars t tv tv' :
  arcConsistent c vars ->
  Obj.get t vars = Some tv -> (forall x, In x tv' -> In x tv) ->
  fst (fst c) <> t ->
  arcConsistent c (Obj.set t tv' vars).
Proof.
  intros Hc Ht Hsub Hne hv' tv0 Hh Ht0.
  rewrite ObjFacts.get_set_ne in Hh by auto.
  rewrite ObjFacts.get_set in Ht0.
  destruct (String.eqb_spec (snd (fst c)) t) as [E|E].
  - inversion Ht0; subst tv0. intros x Hx. apply (Hc hv' tv); auto. congruence.
  - now apply Hc.
Qed.

Lemma ac3Step_invariant cs vars queue vars' queue' :
  ac3Invariant cs vars queue ->
  ac3Step cs vars queue = Ac3Next vars' queue' ->
  ac3Invariant cs vars' queue'.
Proof.
  intros Inv E. pose proof (ac3Step_cases cs vars queue) as H. rewrite E in H.
  destruct H as (h & t & p & rest & -> & [(Hab & -> & ->)|(hv & tv & Hh & Ht & -> & Hc)]).
  - intros c Hc. destruct (Inv c Hc) as [[<-|Hin]|Hcons]; auto.
    right. now apply arcConsistent_absent.
  - destruct Hc as [(Hv & ->)|(Hlt & Hne & ->)].
    + rewrite Hv, (ObjFacts.set_same _ _ _ Ht).
      intros c Hc. destruct (Inv c Hc) as [[<-|Hin]|Hcons]; auto.
      right. intros hv0 tv0 Hh0 Ht0 x Hx. simpl in *.
      assert (hv0 = hv) by congruence. assert (tv0 = tv) by congruence. subst.
      rewrite <- Hv in Hx. apply validTailValues_In in Hx. tauto.
    + intros c Hc.
      destruct (String.eqb_spec (fst (fst c)) t) as [Et|Et].
      { left. apply in_or_app. right. unfold incomingConstraints.
        apply filter_In. split; auto. now apply String.eqb_eq. }
      destruct (Inv c Hc) as [[<-|Hin]|Hcons].
      * right. simpl in Et. intros hv0 tv0 Hh0 Ht0 x Hx. simpl in *.
        rewrite ObjFacts.get_set_ne in Hh0 by auto.
        rewrite ObjFacts.get_set_eq in Ht0.
        assert (hv0 = hv) by congruence. inversion Ht0; subst.
        apply validTailValues_In in Hx. tauto.
      * left. apply in_or_app. auto.
      * right. eapply arcConsistent_shrink_tail; eauto.
        intros x Hx. apply validTailValues_In in Hx. tauto.
Qed.

Lemma ac3Loop_consistent cs fuel vars queue vars' :
  ac3Invariant cs vars queue ->
  ac3Loop fuel cs vars queue = Some (true, vars') ->
  forall c, In c cs -> arcConsistent c vars'.
Proof.
  revert vars queue. induction fuel as [|fuel IH]; intros vars queue Inv H; [discriminate|].
  simpl in H. pose proof (ac3Step_cases cs vars queue) as Hc.
  destruct (ac3Step cs vars queue) as [|v1|v1 q1] eqn:E.
  - inversion H; subst. intros c Hin. destruct (Inv c Hin) as [[]|]; auto.
  - discriminate.
  - eapply IH; [|exact H]. eapply ac3Step_invariant; eauto.
Qed.

(** A successful run of [runAC3] leaves every arc consistent. *)
Lemma runAC3_consistent vars cs vars' :
  runAC3 vars cs = Some (true, vars') ->
  forall c, In c cs -> arcConsistent c vars'.
Proof.
  apply ac3Loop_consistent. intros c Hc. now left.
Qed.

(** On arc-consistent domains the loop removes nothing. *)
Lemma ac3Loop_fixpoint cs fuel vars queue :
  (forall c, In c queue -> arcConsistent c vars) ->
  length queue < fuel ->
  ac3Loop fuel cs vars queue = Some (true, vars).
Proof.
  revert queue. induction fuel as [|fuel IH]; intros queue Hq Hf; [lia|].
  simpl. pose proof (ac3Step_cases cs vars queue) as Hc.
  destruct (ac3Step cs vars queue) as [|v1|v1 q1] eqn:E.
  - reflexivity.
  - exfalso. destruct Hc as (h & t & p & rest & hv & tv & -> & Hh & Ht & Hv & Hne & _).
    assert (Hcons : arcConsistent (h, t, p) vars) by (apply Hq; now left).
    destruct tv as [|x tv]; [congruence|].
    specialize (Hcons hv (x :: tv) Hh Ht x (or_introl eq_refl)). simpl in Hcons.
    assert (In x (validTailValues p hv (x :: tv)))
      by (apply validTailValues_In; simpl; auto).
    rewrite Hv in H. contradiction.
  - destruct Hc as (h & t & p & rest & -> & [(_ & -> & ->)|(hv & tv & Hh & Ht & -> & Hc)]).
    + apply IH; [|simpl in Hf; lia]. intros c Hc. apply Hq. now right.
    + assert (Hcons : arcConsistent (h, t, p) vars) by (apply Hq; now left).
      assert (Hv : validTailValues p hv tv = tv).
      { apply filter_all. intros x Hx. apply (Hcons hv tv Hh Ht x Hx). }
      rewrite Hv in *. rewrite (ObjFacts.set_same _ _ _ Ht).
      destruct Hc as [(_ & ->)|(Hlt & _)]; [|lia].
      apply IH; [|simpl in Hf; lia]. intros c Hc. apply Hq. now right.
Qed.

Lemma runAC3_fixpoint vars cs :
  (forall c, In c cs -> arcConsistent c vars) ->
  runAC3 vars cs = Some (true, vars).
Proof. intros H. unfold runAC3. apply ac3Loop_fixpoint; auto. lia. Qed.

End AC3Facts.

(** * The support oracle *)

Section SupportFacts.
Context {V : Type}.
Implicit Types (vars : @Vars V) (C : @NaryConstraint V)
  (assign tuple : Obj.t V) (levels : list (string * list V)).

Lemma insertBy_perm {A : Type} (gt : A -> A -> bool) x (l : list A) :
  Permutation (insertBy gt x l) (x :: l).
Proof.
  induction l as [|y r IH]; simpl; auto.
  destruct (gt x y); auto.
  rewrite IH. apply perm_swap.
Qed.

Lemma sortBy_perm {A : Type} (gt : A -> A -> bool) (l : list A) :
  Permutation (sortBy gt l) l.
Proof.
  induction l as [|x r IH]; simpl; auto.
  rewrite insertBy_perm. now constructor.
Qed.

Lemma sortBy_In {A : Type} (gt : A -> A -> bool) (l : list A) x :
  In x (sortBy gt l) <-> In x l.
Proof.
  split; apply Permutation_in; [|symmetry]; apply sortBy_perm.
Qed.

Lemma insertBy_ext {A : Type} (gt gt' : A -> A -> bool) x (l : list A) :
  (forall y, In y l -> gt x y = gt' x y) -> insertBy gt x l = insertBy gt' x l.
Proof.
  induction l as [|y r IH]; simpl; auto.
  intros H. rewrite (H y) by auto. destruct (gt' x y); auto.
  f_equal. apply IH. auto.
Qed.

Lemma sortBy_ext {A : Type} (gt gt' : A -> A -> bool) (l : list A) :
  (forall x y, In x l -> In y l -> gt x y = gt' x y) -> sortBy gt l = sortBy gt' l.
Proof.
  induction l as [|x r IH]; simpl; auto.
  intros H. rewrite IH by auto.
  apply insertBy_ext. intros y Hy. apply sortBy_In in Hy. auto.
Qed.

Lemma combine_map_self {A B : Type} (f : A -> B) (l : list A) :
  combine l (map f l) = map (fun a => (a, f a)) l.
Proof. induction l; simpl; congruence. Qed.

(** *** The depth-first search *)

Lemma eachValue_ext next next' vname (dom : list V) assign :
  (forall a, next a = next' a) ->
  eachValue next vname dom assign = eachValue next' vname dom assign.
Proof.
  intros H. revert assign. induction dom as [|x dom IH]; intros assign; simpl; auto.
  rewrite H. destruct (next' (Obj.set vname x assign)) as [[] a']; auto.
Qed.

(** The search writes only the properties named by its levels. *)
Lemma dfs_frame predicate levels assign k :
  ~ In k (map fst levels) ->
  Obj.get k (snd (dfs predicate levels assign)) = Obj.get k assign.
Proof.
  revert assign. induction levels as [|[vname dom] rest IH]; intros assign Hk; simpl; auto.
  simpl in Hk.
  assert (Hne : k <> vname) by (intros ->; apply Hk; auto).
  assert (Hr : ~ In k (map fst rest)) by tauto.
  revert assign. induction dom as [|x dom IHd]; intros assign; simpl.
  - now apply ObjFacts.get_del_ne.
  - specialize (IH (Obj.set vname x assign) Hr).
    destruct (dfs predicate rest (Obj.set vname x assign)) as [found a'].
    simpl in IH. destruct found; simpl.
    + rewrite IH. now apply ObjFacts.get_set_ne.
    + rewrite IHd, IH. now apply ObjFacts.get_set_ne.
Qed.

(** When the search succeeds, the tuple it stops on satisfies the
    predicate and binds each level to a value of its domain. *)
Lemma dfs_sound predicate levels assign :
  fst (dfs predicate levels assign) = true ->
  let tuple := snd (dfs predicate levels assign) in
  predicate tuple = Some true /\
  (forall k, ~ In k (map fst levels) -> Obj.get k tuple = Obj.get k assign) /\
  (forall k, In k (map fst levels) ->
     exists dom val, In (k, dom) levels /\ In val dom /\ Obj.get k tuple = Some val).
Proof.
  revert assign. induction levels as [|[vname dom] rest IH]; intros assign; simpl.
  - destruct (predicate assign) as [[]|]; simpl; try discriminate.
    intros _. split; [reflexivity|]. split; [auto|tauto].
  - assert (Hin : forall dom' a,
               incl dom' dom ->
               fst (eachValue (dfs predicate rest) vname dom' a) = true ->
               let tuple := snd (eachValue (dfs predicate rest) vname dom' a) in
               predicate tuple = Some true /\
               (forall k, ~ (vname = k \/ In k (map fst rest)) ->
                  Obj.get k tuple = Obj.get k a) /\
               (forall k, vname = k \/ In k (map fst rest) ->
                  exists dom0 val,
                    ((vname, dom) = (k, dom0) \/ In (k, dom0) rest) /\
                    In val dom0 /\ Obj.get k tuple = Some val)).
    { induction dom' as [|x dom' IHd]; intros a Hincl; simpl; [discriminate|].
      pose proof (IH (Obj.set vname x a)) as IHx.
      pose proof (fun k => dfs_frame predicate rest (Obj.set vname x a) k) as Hfr.
      destruct (dfs predicate rest (Obj.set vname x a)) as [found a'].
      simpl in IHx, Hfr. destruct found; simpl.
      - intros _. destruct (IHx eq_refl) as (Hp & Hf & Hb).
        split; [exact Hp|]. split.
        + intros k Hk. rewrite Hf by tauto. apply ObjFacts.get_set_ne.
          intros ->. tauto.
        + intros k Hk.
          destruct (in_dec string_dec k (map fst rest)) as [Hr|Hr].
          * destruct (Hb k Hr) as (d0 & val & H1 & H2 & H3). exists d0, val. tauto.
          * destruct Hk as [<-|Hk]; [|contradiction].
            exists dom, x. split; [auto|]. split; [apply Hincl; now left|].
            rewrite Hf by auto. apply ObjFacts.get_set_eq.
      - intros Hf. assert (Hincl' : incl dom' dom) by (intros y Hy; apply Hincl; now right).
        destruct (IHd a' Hincl' Hf) as (Hp & Hf' & Hb).
        split; [exact Hp|]. split; [|exact Hb].
        intros k Hk. rewrite Hf' by auto. rewrite Hfr by tauto.
        apply ObjFacts.get_set_ne. intros ->. tauto. }
    intros Hf. apply (Hin dom assign (incl_refl _) Hf).
Qed.

(** The search finds every tuple that an extensional predicate accepts. *)
Lemma dfs_complete predicate levels assign tuple :
  Extensional predicate ->
  predicate tuple = Some true ->
  (forall k, ~ In k (map fst levels) -> Obj.get k tuple = Obj.get k assign) ->
  (forall k dom, In (k, dom) levels -> exists val, In val dom /\ Obj.get k tuple = Some val) ->
  fst (dfs predicate levels assign) = true.
Proof.
  intros Hext Hp. revert assign.
  induction levels as [|[vname dom] rest IH]; intros assign Hfr Hb; simpl.
  - rewrite (Hext assign tuple), Hp; auto. intros k. symmetry. apply Hfr. tauto.
  - destruct (Hb vname dom (or_introl eq_refl)) as (val & Hval & Hget).
    assert (Hrest : forall k dom0, In (k, dom0) rest ->
                      exists val0, In val0 dom0 /\ Obj.get k tuple = Some val0)
      by (intros k d0 Hk; apply (Hb k d0); now right).
    assert (Hin : forall dom' a,
               In val dom' ->
               (forall k, ~ In k (map fst ((vname, dom) :: rest)) ->
                  Obj.get k tuple = Obj.get k a) ->
               fst (eachValue (dfs predicate rest) vname dom' a) = true).
    { induction dom' as [|x dom' IHd]; intros a Hv Ha; simpl; [contradiction|].
      pose proof (fun k => dfs_frame predicate rest (Obj.set vname x a) k) as Hfr'.
      destruct (dfs predicate rest (Obj.set vname x a)) as [found a'] eqn:E.
      simpl in Hfr'. destruct found; simpl; [reflexivity|].
      destruct Hv as [->|Hv].
      - exfalso. assert (Ht : fst (dfs predicate rest (Obj.set vname val a)) = true).
        { apply IH; auto. intros k Hk. rewrite ObjFacts.get_set.
          destruct (String.eqb_spec k vname) as [->|Hne]; auto.
          apply Ha. simpl. intuition congruence. }
        rewrite E in Ht. discriminate.
      - apply IHd; auto. intros k Hk. rewrite Hfr' by (simpl in Hk; tauto).
        rewrite ObjFacts.get_set_ne by (simpl in Hk; intros ->; tauto).
        now apply Ha. }
    apply Hin; auto.
Qed.

Lemma dfs_failClosed predicate levels assign :
  dfs (failClosed predicate) levels assign = dfs predicate levels assign.
Proof.
  revert assign. induction levels as [|[vname dom] rest IH]; intros assign; simpl.
  - unfold failClosed. destruct (predicate assign); reflexivity.
  - now apply eachValue_ext.
Qed.

Lemma dfs_all_raise predicate levels assign :
  (forall tuple, predicate tuple = None) ->
  fst (dfs predicate levels assign) = false.
Proof.
  intros Hp. revert assign. induction levels as [|[vname dom] rest IH]; intros assign; simpl.
  - now rewrite Hp.
  - revert assign. induction dom as [|x dom IHd]; intros assign; simpl; auto.
    specialize (IH (Obj.set vname x assign)).
    destruct (dfs predicate rest (Obj.set vname x assign)) as [found a'].
    simpl in IH. subst found. apply IHd.
Qed.

(** *** The tuples of the search *)

Lemma eachValue_tuples predicate next nextT vname (dom : list V) assign :
  (forall a,
     fst (next a) = existsb (verdict predicate) (fst (nextT a)) /\
     (fst (next a) = false -> snd (next a) = snd (nextT a))) ->
  fst (eachValue next vname dom assign)
  = existsb (verdict predicate) (fst (eachTuples nextT vname dom assign)) /\
  (fst (eachValue next vname dom assign) = false ->
   snd (eachValue next vname dom assign) = snd (eachTuples nextT vname dom assign)).
Proof.
  intros H. revert assign. induction dom as [|x dom IH]; intros assign; simpl.
  - split; reflexivity.
  - destruct (H (Obj.set vname x assign)) as [Hf Hs].
    destruct (next (Obj.set vname x assign)) as [found a'].
    destruct (nextT (Obj.set vname x assign)) as [first aT].
    simpl in Hf, Hs.
    destruct (eachTuples nextT vname dom aT) as [others a''] eqn:Et. simpl.
    rewrite existsb_app, <- Hf.
    destruct found; simpl.
    + split; [reflexivity | discriminate].
    + rewrite (Hs eq_refl). specialize (IH aT). rewrite Et in IH. exact IH.
Qed.

(** [dfs] answers [true] exactly when one of the tuples it assembles has
    the verdict [true]; a tuple on which the predicate raises is passed
    over like one on which it returns [false]. *)
Lemma dfs_tuples predicate levels assign :
  fst (dfs predicate levels assign)
  = existsb (verdict predicate) (fst (tuples levels assign)) /\
  (fst (dfs predicate levels assign) = false ->
   snd (dfs predicate levels assign) = snd (tuples levels assign)).
Proof.
  revert assign. induction levels as [|[vname dom] rest IH]; intros assign; simpl.
  - unfold verdict. rewrite orb_false_r. split; reflexivity.
  - apply eachValue_tuples. exact IH.
Qed.

Lemma eachTuples_length nextT vname (dom : list V) assign n :
  (forall a, length (fst (nextT a)) = n) ->
  length (fst (eachTuples nextT vname dom assign)) = length dom * n.
Proof.
  intros H. revert assign. induction dom as [|x dom IH]; intros assign; simpl;
    [reflexivity|].
  specialize (H (Obj.set vname x assign)).
  destruct (nextT (Obj.set vname x assign)) as [first aT]. simpl in H.
  specialize (IH aT). destruct (eachTuples nextT vname dom aT) as [others a''].
  simpl in *. rewrite length_app. lia.
Qed.

(** The search assembles one tuple for each choice of a value at each
    level. *)
Lemma tuples_length levels assign :
  length (fst (tuples levels assign))
  = fold_right Nat.mul 1 (map (fun l => length (snd l)) levels).
Proof.
  revert assign. induction levels as [|[vname dom] rest IH]; intros assign; simpl;
    [reflexivity|].
  apply eachTuples_length. exact IH.
Qed.

Lemma tuples_frame levels assign k :
  ~ In k (map fst levels) ->
  Obj.get k (snd (tuples levels assign)) = Obj.get k assign.
Proof.
  revert assign. induction levels as [|[vname dom] rest IH]; intros assign Hk; simpl; auto.
  simpl in Hk.
  assert (Hne : k <> vname) by (intros ->; apply Hk; auto).
  assert (Hr : ~ In k (map fst rest)) by tauto.
  revert assign. induction dom as [|x dom IHd]; intros assign; simpl.
  - now apply ObjFacts.get_del_ne.
  - specialize (IH (Obj.set vname x assign) Hr).
    destruct (tuples rest (Obj.set vname x assign)) as [first a'].
    simpl in IH. specialize (IHd a').
    destruct (eachTuples (tuples rest) vname dom a') as [others a''].
    simpl in *. rewrite IHd, IH. now apply ObjFacts.get_set_ne.
Qed.

(** Each tuple of the search binds every level to a value of its domain,
    and holds what the tuple object held for the other names. *)
Lemma tuples_sound levels assign tuple :
  In tuple (fst (tuples levels assign)) ->
  (forall k, ~ In k (map fst levels) -> Obj.get k tuple = Obj.get k assign) /\
  (forall k, In k (map fst levels) ->
     exists dom val, In (k, dom) levels /\ In val dom /\ Obj.get k tuple = Some val).
Proof.
  revert assign. induction levels as [|[vname dom] rest IH]; intros assign; simpl.
  - intros [<-|[]]. split; [auto | tauto].
  - assert (Hin : forall dom' a,
               incl dom' dom ->
               In tuple (fst (eachTuples (tuples rest) vname dom' a)) ->
               (forall k, ~ (vname = k \/ In k (map fst rest)) ->
                  Obj.get k tuple = Obj.get k a) /\
               (forall k, vname = k \/ In k (map fst rest) ->
                  exists dom0 val,
                    ((vname, dom) = (k, dom0) \/ In (k, dom0) rest) /\
                    In val dom0 /\ Obj.get k tuple = Some val)).
    { induction dom' as [|x dom' IHd]; intros a Hincl; simpl; [intros []|].
      pose proof (IH (Obj.set vname x a)) as IHx.
      pose proof (fun k => tuples_frame rest (Obj.set vname x a) k) as Hfr.
      destruct (tuples rest (Obj.set vname x a)) as [first a'].
      simpl in IHx, Hfr.
      assert (Hincl' : incl dom' dom) by (intros y Hy; apply Hincl; now right).
      specialize (IHd a' Hincl').
      destruct (eachTuples (tuples rest) vname dom' a') as [others a''].
      simpl in *. intros Ht. apply in_app_or in Ht. destruct Ht as [Ht|Ht].
      - destruct (IHx Ht) as (Hf & Hb). split.
        + intros k Hk. rewrite Hf by tauto. apply ObjFacts.get_set_ne.
          intros ->. tauto.
        + intros k Hk.
          destruct (in_dec string_dec k (map fst rest)) as [Hr|Hr].
          * destruct (Hb k Hr) as (d0 & val & H1 & H2 & H3). exists d0, val. tauto.
          * destruct Hk as [<-|Hk]; [|contradiction].
            exists dom, x. split; [auto|]. split; [apply Hincl; now left|].
            rewrite Hf by auto. apply ObjFacts.get_set_eq.
      - destruct (IHd Ht) as (Hf' & Hb). split; [|exact Hb].
        intros k Hk. rewrite Hf' by auto. rewrite Hfr by tauto.
        apply ObjFacts.get_set_ne. intros ->. tauto. }
    intros Ht. apply (Hin dom assign (incl_refl _) Ht).
Qed.

Lemma product_perm {A : Type} (f : A -> nat) (l l' : list A) :
  Permutation l l' ->
  fold_right Nat.mul 1 (map f l) = fold_right Nat.mul 1 (map f l').
Proof.
  induction 1; simpl; lia.
Qed.

(** *** The other participants *)

Lemma collectOthers_Some focusVar vs vars others :
  collectOthers focusVar vs vars = Some others ->
  others = filter (fun v => negb (String.eqb v focusVar)) vs /\
  (forall o, In o others ->
     exists dom, Obj.get o vars = Some dom /\ dom <> []).
Proof.
  revert others. induction vs as [|v vs IH]; intros others; simpl.
  - intros H. inversion H. split; [reflexivity | intros o []].
  - destruct (String.eqb v focusVar); simpl; [apply IH|].
    destruct (Obj.get v vars) as [dom|] eqn:Hv; [|discriminate].
    destruct (Nat.eqb_spec (length dom) 0) as [Z|Z]; [discriminate|].
    destruct (collectOthers focusVar vs vars) as [os|]; [|discriminate].
    intros H. inversion H; subst. destruct (IH os eq_refl) as (-> & Hos).
    split; [reflexivity|]. intros o [<-|Ho]; auto.
    exists dom. split; auto. intros ->. simpl in Z. congruence.
Qed.

Lemma collectOthers_None focusVar vs vars :
  collectOthers focusVar vs vars = None ->
  exists o, In o vs /\ o <> focusVar /\
            (Obj.get o vars = None \/ Obj.get o vars = Some []).
Proof.
  induction vs as [|v vs IH]; simpl; [discriminate|].
  destruct (String.eqb_spec v focusVar) as [->|Hne].
  - intros H. destruct (IH H) as (o & Ho & Hr). exists o. tauto.
  - destruct (Obj.get v vars) as [dom|] eqn:Hv.
    + destruct (Nat.eqb_spec (length dom) 0) as [Z|Z].
      * intros _. exists v. split; [auto|]. split; [auto|]. right.
        destruct dom; simpl in Z; congruence.
      * destruct (collectOthers focusVar vs vars); [discriminate|].
        intros _. destruct (IH eq_refl) as (o & Ho & Hr). exists o. tauto.
    + intros _. exists v. auto.
Qed.

Lemma collectOthers_missing focusVar vs vars o :
  In o vs -> o <> focusVar ->
  Obj.get o vars = None \/ Obj.get o vars = Some [] ->
  collectOthers focusVar vs vars = None.
Proof.
  intros Ho Hne Hd.
  destruct (collectOthers focusVar vs vars) as [others|] eqn:E; auto.
  apply collectOthers_Some in E. destruct E as (-> & Hos).
  destruct (Hos o) as (dom & Hdom & Hnil).
  - apply filter_In. split; auto. apply Bool.negb_true_iff. now apply String.eqb_neq.
  - destruct Hd as [Hd|Hd]; congruence.
Qed.

Lemma collectOthers_ext focusVar vs vars vars' :
  (forall o, In o vs -> o <> focusVar -> Obj.get o vars = Obj.get o vars') ->
  collectOthers focusVar vs vars = collectOthers focusVar vs vars'.
Proof.
  induction vs as [|v vs IH]; simpl; auto.
  intros H. rewrite IH by auto.
  destruct (String.eqb_spec v focusVar) as [->|Hne]; auto.
  rewrite (H v) by auto. reflexivity.
Qed.

(** *** [hasSupport] *)

(** The oracle reads only the domains of the other participants. *)
Lemma hasSupport_ext focusVar focusVal C vars vars' :
  (forall o, In o (cvars C) -> o <> focusVar -> Obj.get o vars = Obj.get o vars') ->
  hasSupport focusVar focusVal C vars = hasSupport focusVar focusVal C vars'.
Proof.
  intros H. unfold hasSupport.
  rewrite <- (collectOthers_ext focusVar (cvars C) vars vars' H).
  destruct (collectOthers focusVar (cvars C) vars) as [others|] eqn:E; auto.
  apply collectOthers_Some in E. destruct E as (E & _).
  assert (Hin : forall o, In o others -> Obj.get o vars = Obj.get o vars').
  { intros o Ho. rewrite E in Ho. apply filter_In in Ho. destruct Ho as (Ho & Hne).
    apply H; auto. apply Bool.negb_true_iff in Hne. now apply String.eqb_neq. }
  assert (Hs : sortBy (largerDomain vars) others = sortBy (largerDomain vars') others).
  { apply sortBy_ext. intros x y Hx Hy. unfold largerDomain.
    now rewrite (Hin x Hx), (Hin y Hy). }
  assert (Hm : map (fun v => getOrNil v vars) (sortBy (largerDomain vars) others)
               = map (fun v => getOrNil v vars') (sortBy (largerDomain vars) others)).
  { apply map_ext_in. intros o Ho. apply sortBy_In in Ho.
    unfold getOrNil. now rewrite (Hin o Ho). }
  cbv zeta. rewrite <- Hs, Hm. reflexivity.
Qed.

Lemma hasSupport_levels focusVar focusVal vars (others : list string) k dom :
  In (k, dom)
    (combine (focusVar :: others)
       ([focusVal] :: map (fun v => getOrNil v vars) others)) <->
  (k = focusVar /\ dom = [focusVal]) \/ (In k others /\ dom = getOrNil k vars).
Proof.
  simpl. rewrite combine_map_self, in_map_iff. split.
  - intros [E|(o & E & Ho)]; inversion E; subst; auto.
  - intros [(-> & ->)|(Ho & ->)]; [now left|]. right. exists k. auto.
Qed.

Lemma hasSupport_keys focusVar focusVal vars (others : list string) :
  map fst (combine (focusVar :: others)
             ([focusVal] :: map (fun v => getOrNil v vars) others))
  = focusVar :: others.
Proof.
  simpl. f_equal. rewrite combine_map_self, map_map. simpl. apply map_id.
Qed.

Lemma hasSupport_sound focusVar focusVal C vars :
  hasSupport focusVar focusVal C vars = true ->
  exists tuple,
    SupportTuple focusVar focusVal C vars tuple /\ cpredicate C tuple = Some true.
Proof.
  unfold hasSupport.
  destruct (collectOthers focusVar (cvars C) vars) as [others|] eqn:E; [|discriminate].
  apply collectOthers_Some in E. destruct E as (E & Hdom).
  set (sorted := sortBy (largerDomain vars) others).
  intros H. apply dfs_sound in H. cbv zeta in H.
  set (tuple := snd (dfs (cpredicate C)
                       (combine (focusVar :: sorted)
                          ([focusVal] :: map (fun v => getOrNil v vars) sorted)) [])) in *.
  destruct H as (Hp & Hf & Hb). rewrite hasSupport_keys in Hf, Hb.
  assert (Hoth : forall o, In o sorted <-> In o (cvars C) /\ o <> focusVar).
  { intros o. unfold sorted. rewrite sortBy_In, E, filter_In, Bool.negb_true_iff.
    now rewrite String.eqb_neq. }
  exists tuple. split; [|exact Hp]. split; [|split].
  - destruct (Hb focusVar (or_introl eq_refl)) as (d & val & Hin & Hval & Hget).
    apply hasSupport_levels in Hin. destruct Hin as [(_ & ->)|(Hin & _)].
    + destruct Hval as [<-|[]]. exact Hget.
    + apply Hoth in Hin. tauto.
  - intros o Ho Hne.
    assert (Hs : In o sorted) by (apply Hoth; auto).
    destruct (Hb o (or_intror Hs)) as (d & val & Hin & Hval & Hget).
    apply hasSupport_levels in Hin. destruct Hin as [(-> & _)|(_ & ->)]; [congruence|].
    destruct (Hdom o) as (dom & Hd & _).
    { unfold sorted in Hs. now apply sortBy_In in Hs. }
    unfold getOrNil in Hval. rewrite Hd in Hval. exists dom, val. auto.
  - intros k Hne Hk. rewrite Hf; [reflexivity|].
    intros [<-|Hin]; [congruence|]. apply Hoth in Hin. tauto.
Qed.

(** Every tuple that [hasSupport] assembles binds the focus variable to
    the focus value and every other participant to a value of its
    domain. *)
Lemma candidateTuples_support focusVar focusVal C vars tuple :
  In tuple (candidateTuples focusVar focusVal C vars) ->
  SupportTuple focusVar focusVal C vars tuple.
Proof.
  unfold candidateTuples.
  destruct (collectOthers focusVar (cvars C) vars) as [others|] eqn:E; [|intros []].
  apply collectOthers_Some in E. destruct E as (E & Hdom).
  set (sorted := sortBy (largerDomain vars) others).
  intros H. apply tuples_sound in H.
  destruct H as (Hf & Hb). rewrite hasSupport_keys in Hf, Hb.
  assert (Hoth : forall o, In o sorted <-> In o (cvars C) /\ o <> focusVar).
  { intros o. unfold sorted. rewrite sortBy_In, E, filter_In, Bool.negb_true_iff.
    now rewrite String.eqb_neq. }
  split; [|split].
  - destruct (Hb focusVar (or_introl eq_refl)) as (d & val & Hin & Hval & Hget).
    apply hasSupport_levels in Hin. destruct Hin as [(_ & ->)|(Hin & _)].
    + destruct Hval as [<-|[]]. exact Hget.
    + apply Hoth in Hin. tauto.
  - intros o Ho Hne.
    assert (Hs : In o sorted) by (apply Hoth; auto).
    destruct (Hb o (or_intror Hs)) as (d & val & Hin & Hval & Hget).
    apply hasSupport_levels in Hin. destruct Hin as [(-> & _)|(_ & ->)]; [congruence|].
    destruct (Hdom o) as (dom & Hd & _).
    { unfold sorted in Hs. now apply sortBy_In in Hs. }
    unfold getOrNil in Hval. rewrite Hd in Hval. exists dom, val. auto.
  - intros k Hne Hk. rewrite Hf; [reflexivity|].
    intros [<-|Hin]; [congruence|]. apply Hoth in Hin. tauto.
Qed.

Lemma hasSupport_complete focusVar focusVal C vars tuple :
  Extensional (cpredicate C) ->
  SupportTuple focusVar focusVal C vars tuple ->
  cpredicate C tuple = Some true ->
  hasSupport focusVar focusVal C vars = true.
Proof.
  intros Hext (Hx & Ho & Hk) Hp. unfold hasSupport.
  destruct (collectOthers focusVar (cvars C) vars) as [others|] eqn:E.
  - apply collectOthers_Some in E. destruct E as (E & Hdom).
    set (sorted := sortBy (largerDomain vars) others).
    assert (Hoth : forall o, In o sorted <-> In o (cvars C) /\ o <> focusVar).
    { intros o. unfold sorted. rewrite sortBy_In, E, filter_In, Bool.negb_true_iff.
      now rewrite String.eqb_neq. }
    apply (dfs_complete _ _ _ tuple Hext Hp).
    + rewrite hasSupport_keys. intros k Hnk. simpl.
      apply Hk.
      * intros ->. apply Hnk. now left.
      * intros Hin. apply Hnk. right. apply Hoth. split; auto.
        intros ->. apply Hnk. now left.
    + intros k dom Hin. apply hasSupport_levels in Hin.
      destruct Hin as [(-> & ->)|(Hin & ->)].
      * exists focusVal. split; [now left | exact Hx].
      * apply Hoth in Hin. destruct Hin as (Hin & Hne).
        destruct (Ho k Hin Hne) as (d & val & Hd & Hval & Hget).
        exists val. unfold getOrNil. rewrite Hd. auto.
  - exfalso. apply collectOthers_None in E.
    destruct E as (o & Hin & Hne & Hd).
    destruct (Ho o Hin Hne) as (d & val & Hdom & Hval & _).
    destruct Hd as [Hd|Hd]; rewrite Hd in Hdom; [discriminate|].
    inversion Hdom; subst. contradiction.
Qed.

End SupportFacts.

(** * GAC *)

Section GACFacts.
Context {V : Type}.
Implicit Types (vars : @Vars V) (C Rc : @NaryConstraint V)
  (queue related : list (@NaryConstraint V))
  (index : Obj.t (list (@NaryConstraint V))).

(** What the loop over [C.vars] does to the mapping. *)
Lemma reviseVars_spec C vs vars changedAny :
  let r := reviseVars C vs vars changedAny in
  Shrunk vars (fst r) /\
  Obj.keys (fst r) = Obj.keys vars /\
  (forall k, ~ In k vs -> Obj.get k (fst r) = Obj.get k vars) /\
  match snd r with
  | None => True
  | Some ch =>
      (fst r = vars /\ ch = changedAny /\
       forall x dom, In x vs -> Obj.get x vars = Some dom ->
         forall val, In val dom -> hasSupport x val C vars = true) \/
      (ch = true /\ totalSize (fst r) < totalSize vars)
  end.
Proof.
  revert vars changedAny. induction vs as [|x vs IH]; intros vars changedAny; simpl.
  - split; [apply Shrunk_refl|]. split; [reflexivity|]. split; [reflexivity|].
    left. split; [reflexivity|]. split; [reflexivity|]. intros ? ? [].
  - destruct (Obj.get x vars) as [dom|] eqn:Hx.
    2:{ destruct (IH vars changedAny) as (Hs & Hk & Hf & Hr).
        split; [exact Hs|]. split; [exact Hk|]. split; [intros k Hn; apply Hf; tauto|].
        destruct (snd (reviseVars C vs vars changedAny)); auto.
        destruct Hr as [(E & Hc & Hst)|Hr]; [left|right; exact Hr].
        split; [exact E|]. split; [exact Hc|].
        intros y d [<-|Hy] Hd; [congruence | eauto]. }
    remember (filter (fun val => hasSupport x val C vars) dom) as newDom eqn:Hnew.
    assert (Hle : length newDom <= length dom) by (subst; apply filter_length_le).
    destruct (Nat.eqb_spec (length newDom) (length dom)) as [E|E].
    + destruct (IH vars changedAny) as (Hs & Hk & Hf & Hr).
      split; [exact Hs|]. split; [exact Hk|]. split; [intros k Hn; apply Hf; tauto|].
      destruct (snd (reviseVars C vs vars changedAny)); auto.
      destruct Hr as [(E' & Hc & Hst)|Hr]; [left|right; exact Hr].
      split; [exact E'|]. split; [exact Hc|].
      intros y d [<-|Hy] Hd; [|eauto].
      assert (d = dom) by congruence. subst d.
      intros val Hval. subst newDom. apply filter_same_length in E.
      apply (filter_id_all _ _ E val Hval).
    + pose proof (totalSize_set vars x dom newDom Hx) as Hsz.
      assert (Hsh : Shrunk vars (Obj.set x newDom vars)).
      { eapply Shrunk_set; eauto. subst. apply Subseq_filter. }
      destruct (Nat.eqb_spec (length newDom) 0) as [Z|Z]; simpl.
      * split; [exact Hsh|]. split; [eapply ObjFacts.keys_set_present; eauto|].
        split; [|exact I]. intros k Hn. apply ObjFacts.get_set_ne. intuition congruence.
      * destruct (IH (Obj.set x newDom vars) true) as (Hs & Hk & Hf & Hr).
        split; [eapply Shrunk_trans; eauto|].
        split; [rewrite Hk; eapply ObjFacts.keys_set_present; eauto|].
        split.
        { intros k Hn. rewrite Hf by tauto. apply ObjFacts.get_set_ne. intuition congruence. }
        destruct (snd (reviseVars C vs (Obj.set x newDom vars) true)); auto.
        right. destruct Hr as [(E' & Hc & _)|(Hc & Hlt)]; split; auto.
        -- rewrite E'. lia.
        -- lia.
Qed.

(** *** Re-enqueueing *)

Lemma notQueued_true Rc queue :
  notQueued Rc queue = true <-> ~ In (cid Rc) (map cid queue).
Proof.
  unfold notQueued. rewrite Bool.negb_true_iff. split.
  - intros H Hin. apply in_map_iff in Hin. destruct Hin as (Q & E & HQ).
    assert (existsb (fun Q => Nat.eqb (cid Q) (cid Rc)) queue = true).
    { apply existsb_exists. exists Q. split; auto. now apply Nat.eqb_eq. }
    congruence.
  - intros H. destruct (existsb _ queue) eqn:E; auto.
    apply existsb_exists in E. destruct E as (Q & HQ & E).
    apply Nat.eqb_eq in E. exfalso. apply H. rewrite <- E. now apply in_map.
Qed.

Lemma pushRelated_spec (all : list (@NaryConstraint V)) related queue0 pushed :
  incl related all ->
  NoDup (map cid pushed) ->
  (forall c, In c pushed -> In c all /\ ~ In (cid c) (map cid queue0)) ->
  exists pushed',
    pushRelated related (queue0 ++ pushed) = queue0 ++ pushed' /\
    NoDup (map cid pushed') /\
    (forall c, In c pushed' -> In c all /\ ~ In (cid c) (map cid queue0)) /\
    incl pushed pushed' /\
    (forall c, In c related -> In (cid c) (map cid (queue0 ++ pushed'))).
Proof.
  unfold pushRelated. revert pushed.
  induction related as [|Rc related IH]; intros pushed Hall Hnd Hp; simpl.
  - exists pushed. split; [reflexivity|]. split; [exact Hnd|]. split; [exact Hp|].
    split; [apply incl_refl | intros c []].
  - assert (Hall' : incl related all) by (intros c Hc; apply Hall; now right).
    destruct (notQueued Rc (queue0 ++ pushed)) eqn:E.
    + apply notQueued_true in E. rewrite map_app, in_app_iff in E.
      rewrite <- app_assoc.
      destruct (IH (pushed ++ [Rc]) Hall') as (p' & E' & Hnd' & Hp' & Hincl & Hrel).
      * rewrite map_app. simpl.
        apply NoDup_app_remove_l with (l := []). simpl.
        apply Permutation_NoDup with (l := cid Rc :: map cid pushed).
        -- apply Permutation_cons_append.
        -- constructor; tauto.
      * intros c Hc. apply in_app_iff in Hc. destruct Hc as [Hc|[<-|[]]]; auto.
        split; [apply Hall; now left | tauto].
      * exists p'. split; [exact E'|]. split; [exact Hnd'|]. split; [exact Hp'|].
        split; [intros c Hc; apply Hincl, in_or_app; now left|].
        intros c [<-|Hc]; [|auto].
        rewrite map_app, in_app_iff. right. apply in_map, Hincl, in_or_app.
        right. now left.
    + destruct (IH pushed Hall' Hnd Hp) as (p' & E' & Hnd' & Hp' & Hincl & Hrel).
      exists p'. split; [exact E'|]. split; [exact Hnd'|]. split; [exact Hp'|].
      split; [exact Hincl|].
      intros c [<-|Hc]; [|auto].
      destruct (in_dec Nat.eq_dec (cid Rc) (map cid (queue0 ++ pushed))) as [Hin|Hin].
      * rewrite map_app, in_app_iff in *. destruct Hin as [Hin|Hin]; auto.
        right. apply in_map_iff in Hin. destruct Hin as (Q & EQ & HQ).
        rewrite <- EQ. apply in_map, Hincl, HQ.
      * apply notQueued_true in Hin. congruence.
Qed.

Lemma getOrNil_incl_index index v :
  incl (getOrNil v index) (concat (map snd index)).
Proof.
  unfold getOrNil. destruct (Obj.get v index) as [l|] eqn:E; [|intros c []].
  apply ObjFacts.get_In in E. intros c Hc. apply in_concat.
  exists l. split; auto. apply in_map_iff. exists (v, l). auto.
Qed.

Lemma reenqueue_spec index vs queue0 pushed :
  NoDup (map cid pushed) ->
  (forall c, In c pushed ->
     In c (concat (map snd index)) /\ ~ In (cid c) (map cid queue0)) ->
  exists pushed',
    reenqueue index vs (queue0 ++ pushed) = queue0 ++ pushed' /\
    NoDup (map cid pushed') /\
    (forall c, In c pushed' ->
       In c (concat (map snd index)) /\ ~ In (cid c) (map cid queue0)) /\
    incl pushed pushed' /\
    (forall v c, In v vs -> In c (getOrNil v index) ->
       In (cid c) (map cid (queue0 ++ pushed'))).
Proof.
  unfold reenqueue. revert pushed.
  induction vs as [|v vs IH]; intros pushed Hnd Hp; simpl.
  - exists pushed. split; [reflexivity|]. split; [exact Hnd|]. split; [exact Hp|].
    split; [apply incl_refl | intros ? ? []].
  - destruct (pushRelated_spec (concat (map snd index)) (getOrNil v index)
                queue0 pushed (getOrNil_incl_index index v) Hnd Hp)
      as (p1 & E1 & Hnd1 & Hp1 & Hincl1 & Hrel1).
    rewrite E1.
    destruct (IH p1 Hnd1 Hp1) as (p2 & E2 & Hnd2 & Hp2 & Hincl2 & Hrel2).
    exists p2. split; [exact E2|]. split; [exact Hnd2|]. split; [exact Hp2|].
    split; [intros c Hc; apply Hincl2, Hincl1, Hc|].
    intros v' c [<-|Hv] Hc; [|eauto].
    specialize (Hrel1 c Hc). rewrite map_app, in_app_iff in *.
    destruct Hrel1 as [H|H]; auto.
    right. apply in_map_iff in H. destruct H as (Q & EQ & HQ).
    rewrite <- EQ. apply in_map, Hincl2, HQ.
Qed.

(** Re-enqueueing appends at most as many constraints as the index
    holds, and covers every constraint the index relates to [vs]. *)
Lemma reenqueue_bound index vs queue :
  exists pushed,
    reenqueue index vs queue = queue ++ pushed /\
    length pushed <= indexSize index /\
    (forall c, In c pushed -> In c (concat (map snd index))) /\
    (forall v c, In v vs -> In c (getOrNil v index) ->
       In (cid c) (map cid (queue ++ pushed))).
Proof.
  destruct (reenqueue_spec index vs queue [] (NoDup_nil _)) as (p & E & Hnd & Hp & _ & Hrel).
  { intros c []. }
  rewrite app_nil_r in E. exists p. split; [exact E|]. split; [|split].
  - unfold indexSize. rewrite <- (length_map cid p), <- (length_map cid (concat _)).
    apply NoDup_incl_length; auto.
    intros i Hi. apply in_map_iff in Hi. destruct Hi as (c & <- & Hc).
    apply in_map. now apply Hp.
  - intros c Hc. now apply Hp.
  - exact Hrel.
Qed.

(** *** The loop *)

Lemma gacStep_measure index vars queue vars' queue' :
  gacStep index vars queue = GacNext vars' queue' ->
  totalSize vars' * indexSize index + length queue'
  < totalSize vars * indexSize index + length queue.
Proof.
  unfold gacStep. destruct queue as [|C rest]; [discriminate|].
  pose proof (reviseVars_spec C (cvars C) vars false) as H. cbv zeta in H.
  destruct (reviseVars C (cvars C) vars false) as [v1 [ch|]]; [|discriminate].
  simpl in H. destruct H as (_ & _ & _ & Hr).
  intros E. inversion E; subst; clear E.
  destruct Hr as [(-> & -> & _)|(-> & Hlt)]; simpl; [lia|].
  destruct (reenqueue_bound index (cvars C) rest) as (p & -> & Hlen & _).
  rewrite length_app. nia.
Qed.

Lemma gacStep_shrunk index vars queue :
  match gacStep index vars queue with
  | GacDone => True
  | GacFail vars' => Shrunk vars vars' /\ Obj.keys vars' = Obj.keys vars
  | GacNext vars' _ => Shrunk vars vars' /\ Obj.keys vars' = Obj.keys vars
  end.
Proof.
  unfold gacStep. destruct queue as [|C rest]; [exact I|].
  pose proof (reviseVars_spec C (cvars C) vars false) as H. cbv zeta in H.
  destruct (reviseVars C (cvars C) vars false) as [v1 [ch|]]; simpl in H; tauto.
Qed.

Lemma gacLoop_terminates index fuel vars queue :
  totalSize vars * indexSize index + length queue < fuel ->
  exists r, gacLoop fuel index vars queue = Some r.
Proof.
  revert vars queue. induction fuel as [|fuel IH]; intros vars queue Hf; [lia|].
  simpl. destruct (gacStep index vars queue) as [|vars'|vars' queue'] eqn:E; eauto.
  apply IH. apply gacStep_measure in E. lia.
Qed.

Lemma gacLoop_mono index fuel fuel' vars queue r :
  gacLoop fuel index vars queue = Some r -> fuel <= fuel' ->
  gacLoop fuel' index vars queue = Some r.
Proof.
  revert fuel' vars queue. induction fuel as [|fuel IH]; intros fuel' vars queue H Hle;
    [discriminate|].
  destruct fuel' as [|fuel']; [lia|]. simpl in *.
  destruct (gacStep index vars queue); auto. apply IH; auto. lia.
Qed.

Lemma gacLoop_shrunk index fuel vars queue ok vars' :
  gacLoop fuel index vars queue = Some (ok, vars') ->
  Shrunk vars vars' /\ Obj.keys vars' = Obj.keys vars.
Proof.
  revert vars queue. induction fuel as [|fuel IH]; intros vars queue H; [discriminate|].
  simpl in H. pose proof (gacStep_shrunk index vars queue) as Hs.
  destruct (gacStep index vars queue) as [|v1|v1 q1].
  - inversion H; subst. split; [apply Shrunk_refl | reflexivity].
  - inversion H; subst. exact Hs.
  - destruct (IH _ _ H) as (H1 & H2). destruct Hs as (H3 & H4).
    split; [eapply Shrunk_trans; eauto | congruence].
Qed.

Lemma runGAC_terminates vars (csp : @Problem V) : exists r, runGAC vars csp = Some r.
Proof. unfold runGAC. apply gacLoop_terminates. lia. Qed.

Lemma runGAC_shrunk vars (csp : @Problem V) ok vars' :
  runGAC vars csp = Some (ok, vars') ->
  Shrunk vars vars' /\ Obj.keys vars' = Obj.keys vars.
Proof. apply gacLoop_shrunk. Qed.

End GACFacts.

(** * GAC ends on stable domains *)

Section GACStable.
Context {V : Type}.
Implicit Types (vars : @Vars V) (C Rc : @NaryConstraint V)
  (queue nary : list (@NaryConstraint V))
  (index : Obj.t (list (@NaryConstraint V))).

Lemma gacStable_ext C vars vars' :
  (forall k, In k (cvars C) -> Obj.get k vars = Obj.get k vars') ->
  gacStable C vars -> gacStable C vars'.
Proof.
  intros H Hs x dom Hx Hd val Hval.
  rewrite <- (hasSupport_ext x val C vars vars') by auto.
  apply (Hs x dom); auto. now rewrite H.
Qed.

Lemma reviseVars_stable C vs vars changedAny :
  (forall x dom, In x vs -> Obj.get x vars = Some dom ->
     forall val, In val dom -> hasSupport x val C vars = true) ->
  reviseVars C vs vars changedAny = (vars, Some changedAny).
Proof.
  induction vs as [|x vs IH]; intros H; simpl; auto.
  destruct (Obj.get x vars) as [dom|] eqn:Hx.
  - rewrite filter_all by (intros val Hval; apply (H x dom); auto; now left).
    rewrite Nat.eqb_refl. apply IH. intros y d Hy. apply H. now right.
  - apply IH. intros y d Hy. apply H. now right.
Qed.

Lemma shared_or_disjoint (l1 l2 : list string) :
  (exists v, In v l1 /\ In v l2) \/ (forall v, In v l1 -> ~ In v l2).
Proof.
  induction l1 as [|x l1 IH].
  - right. intros v [].
  - destruct (in_dec string_dec x l2) as [Hx|Hx].
    + left. exists x. split; [now left | exact Hx].
    + destruct IH as [(v & H1 & H2)|IH].
      * left. exists v. split; [now right | exact H2].
      * right. intros v [<-|Hv]; auto.
Qed.

(** *** The adjacency index *)

Lemma indexVars_spec C (vs : list string) index v c :
  let index' :=
    fold_left (fun index v => Obj.set v (getOrNil v index ++ [C]) index) vs index in
  In c (getOrNil v index') <-> In c (getOrNil v index) \/ (c = C /\ In v vs).
Proof.
  revert index. induction vs as [|x vs IH]; intros index; simpl.
  - tauto.
  - rewrite IH. unfold getOrNil at 1. rewrite ObjFacts.get_set.
    destruct (String.eqb_spec v x) as [->|Hne].
    + rewrite in_app_iff. simpl. intuition.
    + fold (getOrNil v index). intuition congruence.
Qed.

Lemma adjacency_spec nary v c :
  In c (getOrNil v (adjacency nary)) <-> In c nary /\ In v (cvars c).
Proof.
  unfold adjacency.
  assert (H : forall index,
             In c (getOrNil v
                     (fold_left
                        (fun index C =>
                           fold_left
                             (fun index v => Obj.set v (getOrNil v index ++ [C]) index)
                             (cvars C) index) nary index)) <->
             In c (getOrNil v index) \/ (In c nary /\ In v (cvars c))).
  { induction nary as [|C nary IH]; intros index; simpl.
    - tauto.
    - rewrite IH, indexVars_spec. intuition (subst; auto). }
  rewrite H. unfold getOrNil. simpl. tauto.
Qed.

Lemma index_entries index c :
  In c (concat (map snd index)) -> NoDup (Obj.keys index) ->
  exists v, In c (getOrNil v index).
Proof.
  intros Hc Hnd. apply in_concat in Hc. destruct Hc as (l & Hl & Hc).
  apply in_map_iff in Hl. destruct Hl as ([v l'] & <- & Hin).
  exists v. unfold getOrNil. now rewrite (ObjFacts.In_get _ _ _ Hnd Hin).
Qed.

Lemma indexVars_NoDup C (vs : list string) index :
  NoDup (Obj.keys index) ->
  NoDup (Obj.keys
           (fold_left (fun index v => Obj.set v (getOrNil v index ++ [C]) index) vs index)).
Proof.
  revert index. induction vs as [|x vs IH]; intros index H; simpl; auto.
  apply IH. now apply ObjFacts.NoDup_keys_set.
Qed.

Lemma adjacency_NoDup nary : NoDup (Obj.keys (adjacency nary)).
Proof.
  unfold adjacency.
  assert (H : forall index,
             NoDup (Obj.keys index) ->
             NoDup (Obj.keys
                      (fold_left
                         (fun index C =>
                            fold_left
                              (fun index v => Obj.set v (getOrNil v index ++ [C]) index)
                              (cvars C) index) nary index))).
  { induction nary as [|C nary IH]; intros index Hi; simpl; auto.
    apply IH. now apply indexVars_NoDup. }
  apply H. constructor.
Qed.

Lemma adjacency_sound nary c :
  In c (concat (map snd (adjacency nary))) -> In c nary.
Proof.
  intros Hc. apply index_entries in Hc; [|apply adjacency_NoDup].
  destruct Hc as (v & Hv). apply adjacency_spec in Hv. tauto.
Qed.

(** *** The invariant of the work queue *)

Section Invariant.
Variable nary : list (@NaryConstraint V).
Variable index : Obj.t (list (@NaryConstraint V)).

(** [cid] is the identity of a constraint object. *)
Hypothesis identity : forall C C', In C nary -> In C' nary -> cid C = cid C' -> C = C'.
Hypothesis index_complete :
  forall C v, In C nary -> In v (cvars C) -> In C (getOrNil v index).
Hypothesis index_sound : forall C, In C (concat (map snd index)) -> In C nary.

Lemma gacStep_invariant vars queue vars' queue' :
  (forall Q, In Q queue -> In Q nary) ->
  (forall C, In C nary ->
     (exists Q, In Q queue /\ cid Q = cid C) \/ gacStable C vars) ->
  gacStep index vars queue = GacNext vars' queue' ->
  (forall Q, In Q queue' -> In Q nary) /\
  (forall C, In C nary ->
     (exists Q, In Q queue' /\ cid Q = cid C) \/ gacStable C vars').
Proof.
  intros Hq Inv. unfold gacStep. destruct queue as [|C0 rest]; [discriminate|].
  pose proof (reviseVars_spec C0 (cvars C0) vars false) as H. cbv zeta in H.
  destruct (reviseVars C0 (cvars C0) vars false) as [v1 [ch|]] eqn:Er; [|discriminate].
  simpl in H. destruct H as (_ & _ & Hfr & Hr).
  intros E. inversion E; subst; clear E.
  assert (H0 : In C0 nary) by (apply Hq; now left).
  destruct Hr as [(-> & -> & Hst)|(-> & Hlt)].
  - split; [intros Q HQ; apply Hq; now right|].
    intros C HC. destruct (Inv C HC) as [(Q & [<-|HQ] & E)|Hs]; eauto.
    right. rewrite <- (identity C0 C H0 HC E). exact Hst.
  - destruct (reenqueue_bound index (cvars C0) rest) as (p & -> & _ & Hp & Hrel).
    split.
    + intros Q HQ. apply in_app_iff in HQ. destruct HQ as [HQ|HQ].
      * apply Hq. now right.
      * apply index_sound, Hp, HQ.
    + intros C HC.
      destruct (shared_or_disjoint (cvars C) (cvars C0)) as [(v & Hv & Hv0)|Hdis].
      * left. specialize (Hrel v C Hv0 (index_complete C v HC Hv)).
        apply in_map_iff in Hrel. destruct Hrel as (Q & E & HQ). eauto.
      * destruct (Inv C HC) as [(Q & [<-|HQ] & E)|Hs].
        -- exfalso. assert (C = C0) by (symmetry; now apply identity). subst C.
           destruct (cvars C0) as [|x xs] eqn:Ev.
           ++ simpl in Er. discriminate Er.
           ++ apply (Hdis x); now left.
        -- left. exists Q. split; [apply in_or_app; now left | exact E].
        -- right. eapply gacStable_ext; [|exact Hs].
           intros k Hk. symmetry. apply Hfr. now apply Hdis.
Qed.

Lemma gacLoop_stable fuel vars queue vars' :
  (forall Q, In Q queue -> In Q nary) ->
  (forall C, In C nary ->
     (exists Q, In Q queue /\ cid Q = cid C) \/ gacStable C vars) ->
  gacLoop fuel index vars queue = Some (true, vars') ->
  forall C, In C nary -> gacStable C vars'.
Proof.
  revert vars queue. induction fuel as [|fuel IH]; intros vars queue Hq Inv H; [discriminate|].
  simpl in H. destruct (gacStep index vars queue) as [|v1|v1 q1] eqn:E.
  - inversion H; subst. unfold gacStep in E.
    destruct queue as [|C0 rest].
    + intros C HC. destruct (Inv C HC) as [(Q & [] & _)|Hs]; exact Hs.
    + destruct (reviseVars C0 (cvars C0) vars' false) as [? [?|]]; discriminate.
  - discriminate.
  - destruct (gacStep_invariant vars queue v1 q1 Hq Inv E) as (Hq' & Inv').
    eapply IH; eauto.
Qed.

End Invariant.

(** On stable domains the loop removes nothing. *)
Lemma gacLoop_fixpoint index fuel vars queue :
  (forall C, In C queue -> gacStable C vars) ->
  length queue < fuel ->
  gacLoop fuel index vars queue = Some (true, vars).
Proof.
  revert queue. induction fuel as [|fuel IH]; intros queue Hq Hf; [lia|].
  simpl. unfold gacStep. destruct queue as [|C rest]; [reflexivity|].
  rewrite reviseVars_stable by (apply (Hq C); now left).
  apply IH; [|simpl in Hf; lia]. intros C' HC'. apply Hq. now right.
Qed.

End GACStable.

(** * The consistency pass *)

Section PassFacts.
Context {V : Type}.
Implicit Types (vars A U : @Vars V) (csp : @Problem V).

Lemma ac3Step_keys cs vars queue :
  match ac3Step cs vars queue with
  | Ac3Done => True
  | Ac3Fail vars' => Obj.keys vars' = Obj.keys vars
  | Ac3Next vars' _ => Obj.keys vars' = Obj.keys vars
  end.
Proof.
  pose proof (ac3Step_cases cs vars queue) as H.
  destruct (ac3Step cs vars queue) as [|vars'|vars' queue']; auto.
  - destruct H as (h & t & p & rest & hv & tv & _ & _ & Ht & _ & _ & ->).
    eapply ObjFacts.keys_set_present; eauto.
  - destruct H as (h & t & p & rest & _ & [(_ & -> & _)|(hv & tv & _ & Ht & -> & _)]).
    + reflexivity.
    + eapply ObjFacts.keys_set_present; eauto.
Qed.

Lemma ac3Loop_keys cs fuel vars queue ok vars' :
  ac3Loop fuel cs vars queue = Some (ok, vars') -> Obj.keys vars' = Obj.keys vars.
Proof.
  revert vars queue. induction fuel as [|fuel IH]; intros vars queue H; [discriminate|].
  simpl in H. pose proof (ac3Step_keys cs vars queue) as Hk.
  destruct (ac3Step cs vars queue) as [|v1|v1 q1].
  - inversion H; subst. reflexivity.
  - inversion H; subst. exact Hk.
  - rewrite (IH _ _ H). exact Hk.
Qed.

Lemma partialAssignment_NoDup A U : NoDup (Obj.keys (partialAssignment A U)).
Proof.
  unfold partialAssignment. do 2 apply ObjFacts.NoDup_keys_assignAll. constructor.
Qed.

Lemma partialAssignment_get A U k :
  NoDup (Obj.keys A) -> NoDup (Obj.keys U) ->
  Obj.get k (partialAssignment A U)
  = match Obj.get k A with Some d => Some d | None => Obj.get k U end.
Proof.
  intros HA HU. unfold partialAssignment.
  rewrite !ObjFacts.get_assignAll by auto. simpl.
  destruct (Obj.get k A); auto. destruct (Obj.get k U); auto.
Qed.

Lemma partialAssignment_keys A U k :
  In k (Obj.keys (partialAssignment A U)) <-> In k (Obj.keys A) \/ In k (Obj.keys U).
Proof.
  unfold partialAssignment. rewrite !ObjFacts.In_keys_assignAll. simpl. tauto.
Qed.

Lemma consistencyPass_terminates A U csp :
  exists r, consistencyPass A U csp = Some r.
Proof.
  unfold consistencyPass.
  destruct (Nat.eqb (length (constraints csp)) 0).
  - simpl. destruct (Nat.eqb (length (naryConstraints csp)) 0); eauto.
    apply runGAC_terminates.
  - destruct (runAC3_terminates (partialAssignment A U) (constraints csp)) as ([ok v] & ->).
    simpl. destruct ok; simpl; eauto.
    destruct (Nat.eqb (length (naryConstraints csp)) 0); eauto.
    apply runGAC_terminates.
Qed.

(** The two phases of a pass: the mapping after AC-3, then after GAC. *)
Lemma consistencyPass_phases A U csp ok vars' :
  consistencyPass A U csp = Some (ok, vars') ->
  exists mid,
    Shrunk (partialAssignment A U) mid /\ Shrunk mid vars' /\
    Obj.keys mid = Obj.keys (partialAssignment A U) /\
    Obj.keys vars' = Obj.keys mid /\
    (ok = true ->
     (forall c, In c (constraints csp) -> arcConsistent c mid) /\
     (WellIndexed csp -> DistinctIdentities (naryConstraints csp) ->
      forall C, In C (naryConstraints csp) -> gacStable C vars')).
Proof.
  unfold consistencyPass.
  set (partial := partialAssignment A U).
  assert (Hgac : forall mid ok vars',
            (if Nat.eqb (length (naryConstraints csp)) 0 then Some (true, mid)
             else runGAC mid csp) = Some (ok, vars') ->
            Shrunk mid vars' /\ Obj.keys vars' = Obj.keys mid /\
            (ok = true -> WellIndexed csp -> DistinctIdentities (naryConstraints csp) ->
             forall C, In C (naryConstraints csp) -> gacStable C vars')).
  { intros mid ok0 v0. destruct (Nat.eqb_spec (length (naryConstraints csp)) 0) as [Z|Z].
    - intros H. inversion H; subst. split; [apply Shrunk_refl|]. split; [reflexivity|].
      intros _ _ _ C HC. destruct (naryConstraints csp); [destruct HC | discriminate].
    - intros H. destruct (runGAC_shrunk _ _ _ _ H) as (H1 & H2).
      split; [exact H1|]. split; [exact H2|].
      intros -> Hidx Hid. unfold runGAC in H.
      assert (Hc : forall C v, In C (naryConstraints csp) -> In v (cvars C) ->
                     In C (getOrNil v (naryIndexOf csp))).
      { intros C v HC Hv. rewrite Hidx. apply adjacency_spec. auto. }
      assert (Hsd : forall C, In C (concat (map snd (naryIndexOf csp))) ->
                      In C (naryConstraints csp)).
      { intros C HC. rewrite Hidx in HC. eapply adjacency_sound; eauto. }
      refine (gacLoop_stable (naryConstraints csp) (naryIndexOf csp) Hid Hc Hsd
                _ mid (naryConstraints csp) v0 _ _ H); auto.
      intros C HC. left. exists C. auto. }
  destruct (Nat.eqb_spec (length (constraints csp)) 0) as [Z|Z].
  - simpl. intros H. destruct (Hgac _ _ _ H) as (H1 & H2 & H3).
    exists partial. split; [apply Shrunk_refl|]. split; [exact H1|].
    split; [reflexivity|]. split; [exact H2|].
    intros Hok. split; [|now apply H3].
    intros c Hc. destruct (constraints csp); [destruct Hc | discriminate].
  - destruct (runAC3 partial (constraints csp)) as [[ok1 mid]|] eqn:E1; [|discriminate].
    simpl. pose proof (runAC3_shrunk _ _ _ _ E1) as Hs1.
    pose proof (ac3Loop_keys _ _ _ _ _ _ E1) as Hk1.
    destruct ok1; simpl.
    + intros H. destruct (Hgac _ _ _ H) as (H1 & H2 & H3).
      exists mid. split; [exact Hs1|]. split; [exact H1|].
      split; [exact Hk1|]. split; [exact H2|].
      intros Hok. split; [|now apply H3].
      now apply (runAC3_consistent partial (constraints csp)).
    + intros H. inversion H; subst.
      exists vars'. split; [exact Hs1|]. split; [apply Shrunk_refl|].
      split; [exact Hk1|]. split; [reflexivity|]. discriminate.
Qed.

Lemma consistencyPass_shrunk A U csp ok vars' :
  consistencyPass A U csp = Some (ok, vars') ->
  Shrunk (partialAssignment A U) vars' /\
  Obj.keys vars' = Obj.keys (partialAssignment A U).
Proof.
  intros H. destruct (consistencyPass_phases _ _ _ _ _ H) as (mid & H1 & H2 & H3 & H4 & _).
  split; [eapply Shrunk_trans; eauto | congruence].
Qed.

Lemma enforceConsistency_Value A U csp vars' :
  enforceConsistency A U csp = Some (Value vars') ->
  consistencyPass A U csp = Some (true, vars').
Proof.
  unfold enforceConsistency.
  destruct (consistencyPass A U csp) as [[[] v]|]; simpl; intros H; inversion H; auto.
Qed.


End PassFacts.

(** * Helpers of the search *)

Section HelperFacts.
Context {V : Type}.
Implicit Types (vars A U : @Vars V) (csp : @Problem V).

Lemma get_foldSet {D E : Type} (f : D -> E) (l : Obj.t D) (init : Obj.t E) k :
  NoDup (Obj.keys l) ->
  Obj.get k (fold_left (fun out kd => Obj.set (fst kd) (f (snd kd)) out) l init)
  = match Obj.get k l with Some x => Some (f x) | None => Obj.get k init end.
Proof.
  revert init. induction l as [|[k' x] r IH]; simpl; auto.
  intros init H. inversion H as [|? ? Hni Hnd]; subst.
  rewrite IH by auto.
  destruct (String.eqb_spec k k') as [->|Hne].
  - apply ObjFacts.get_None_keys in Hni. rewrite Hni. apply ObjFacts.get_set_eq.
  - rewrite ObjFacts.get_set_ne by auto. reflexivity.
Qed.

Lemma keys_foldSet {D E : Type} (f : D -> E) (l : Obj.t D) (init : Obj.t E) k :
  In k (Obj.keys (fold_left (fun out kd => Obj.set (fst kd) (f (snd kd)) out) l init))
  <-> In k (Obj.keys l) \/ In k (Obj.keys init).
Proof.
  revert init. induction l as [|[k' x] r IH]; simpl.
  - tauto.
  - intros init. rewrite IH, ObjFacts.In_keys_set. simpl. intuition congruence.
Qed.

Lemma NoDup_foldSet {D E : Type} (f : D -> E) (l : Obj.t D) (init : Obj.t E) :
  NoDup (Obj.keys init) ->
  NoDup (Obj.keys (fold_left (fun out kd => Obj.set (fst kd) (f (snd kd)) out) l init)).
Proof.
  revert init. induction l as [|[k' x] r IH]; simpl; auto.
  intros init H. apply IH. now apply ObjFacts.NoDup_keys_set.
Qed.

Lemma cloneVars_get {D : Type} `{ArrayLike V D} (o : Obj.t D) k :
  NoDup (Obj.keys o) ->
  Obj.get k (cloneVars o) = option_map slice (Obj.get k o).
Proof.
  intros Hnd. unfold cloneVars. rewrite get_foldSet by auto.
  destruct (Obj.get k o); reflexivity.
Qed.

Lemma cloneVars_keys {D : Type} `{ArrayLike V D} (o : Obj.t D) k :
  In k (Obj.keys (cloneVars o)) <-> In k (Obj.keys o).
Proof. unfold cloneVars. rewrite keys_foldSet. simpl. tauto. Qed.

Lemma cloneVars_NoDup {D : Type} `{ArrayLike V D} (o : Obj.t D) :
  NoDup (Obj.keys (cloneVars o)).
Proof. unfold cloneVars. apply NoDup_foldSet. constructor. Qed.

Lemma cloneAssignment_get A k :
  NoDup (Obj.keys A) -> Obj.get k (cloneAssignment A) = Obj.get k A.
Proof.
  intros Hnd. unfold cloneAssignment. rewrite ObjFacts.get_assignAll by auto.
  destruct (Obj.get k A); reflexivity.
Qed.

Lemma cloneAssignment_NoDup A : NoDup (Obj.keys (cloneAssignment A)).
Proof. apply ObjFacts.NoDup_keys_assignAll. constructor. Qed.

Lemma keys_same_get {E : Type} (o o' : Obj.t E) :
  (forall k, Obj.get k o = Obj.get k o') ->
  forall k, In k (Obj.keys o) <-> In k (Obj.keys o').
Proof.
  intros H k. split; intros Hk; apply ObjFacts.keys_get in Hk; destruct Hk as [x Hx];
    [rewrite H in Hx | rewrite <- H in Hx]; eapply ObjFacts.get_Some_keys; eauto.
Qed.

Lemma finished_true U : finished U = true <-> U = [].
Proof. unfold finished. destruct U; simpl; split; congruence. Qed.

Lemma anyEmpty_false vars :
  anyEmpty vars = false <-> forall k dom, In (k, dom) vars -> dom <> [].
Proof.
  unfold anyEmpty. split.
  - intros H k dom Hin ->.
    assert (existsb (fun kd : string * list V => Nat.eqb (length (snd kd)) 0) vars = true)
      by (apply existsb_exists; exists (k, []); auto).
    congruence.
  - intros H. destruct (existsb _ vars) eqn:E; auto.
    apply existsb_exists in E. destruct E as ([k dom] & Hin & Hz). simpl in Hz.
    apply length_zero_nil in Hz. exfalso. eapply H; eauto.
Qed.

Lemma selectLoop_In (entries : @Vars V) minKey minLen k :
  selectLoop entries minKey minLen = Some k ->
  In k (Obj.keys entries) \/ minKey = Some k.
Proof.
  revert minKey minLen. induction entries as [|[key dom] rest IH]; intros minKey minLen; simpl.
  - auto.
  - destruct (match minLen with Some m => Nat.ltb (length dom) m | None => true end).
    + destruct (Nat.eqb (length dom) 1).
      * intros H. inversion H. auto.
      * intros H. apply IH in H. destruct H as [H|H]; [auto|]. inversion H. auto.
    + intros H. apply IH in H. tauto.
Qed.

Lemma selectLoop_Some (entries : @Vars V) key minLen :
  exists k, selectLoop entries (Some key) minLen = Some k.
Proof.
  revert key minLen. induction entries as [|[key' dom] rest IH]; intros key minLen; simpl; eauto.
  destruct (match minLen with Some m => Nat.ltb (length dom) m | None => true end); auto.
  destruct (Nat.eqb (length dom) 1); eauto.
Qed.

Lemma selectUnassignedVariable_In U k :
  selectUnassignedVariable U = Some k -> In k (Obj.keys U).
Proof.
  intros H. apply selectLoop_In in H. destruct H as [H|H]; [exact H | discriminate].
Qed.

Lemma selectUnassignedVariable_Some U :
  U <> [] -> exists k, selectUnassignedVariable U = Some k.
Proof.
  unfold selectUnassignedVariable. destruct U as [|[key dom] rest]; [congruence|].
  intros _. simpl. destruct (Nat.eqb (length dom) 1); eauto. apply selectLoop_Some.
Qed.

(** *** The split of the pruned mapping *)

Lemma splitConsistent_spec (assigned consistent : @Vars V) :
  NoDup (Obj.keys consistent) ->
  (forall k, Obj.get k (fst (splitConsistent assigned consistent))
             = if readsTruthy k assigned then Obj.get k consistent else None) /\
  (forall k, Obj.get k (snd (splitConsistent assigned consistent))
             = if readsTruthy k assigned then None else Obj.get k consistent) /\
  NoDup (Obj.keys (fst (splitConsistent assigned consistent))) /\
  NoDup (Obj.keys (snd (splitConsistent assigned consistent))).
Proof.
  unfold splitConsistent.
  assert (H : forall (l : @Vars V) na nu,
             NoDup (Obj.keys l) -> NoDup (Obj.keys na) -> NoDup (Obj.keys nu) ->
             let r := fold_left
                        (fun acc kd =>
                           if readsTruthy (fst kd) assigned
                           then (Obj.set (fst kd) (snd kd) (fst acc), snd acc)
                           else (fst acc, Obj.set (fst kd) (snd kd) (snd acc)))
                        l (na, nu) in
             (forall k, Obj.get k (fst r)
                        = match (if readsTruthy k assigned then Obj.get k l else None) with
                          | Some d => Some d
                          | None => Obj.get k na
                          end) /\
             (forall k, Obj.get k (snd r)
                        = match (if readsTruthy k assigned then None else Obj.get k l) with
                          | Some d => Some d
                          | None => Obj.get k nu
                          end) /\
             NoDup (Obj.keys (fst r)) /\ NoDup (Obj.keys (snd r))).
  { induction l as [|[k' d] l IH]; intros na nu Hl Hna Hnu; simpl.
    - repeat split; auto; intros k; destruct (readsTruthy k assigned); reflexivity.
    - inversion Hl as [|? ? Hni Hnd]; subst. apply ObjFacts.get_None_keys in Hni.
      destruct (readsTruthy k' assigned) eqn:Hk'; simpl.
      + destruct (IH (Obj.set k' d na) nu Hnd (ObjFacts.NoDup_keys_set _ _ _ Hna) Hnu)
          as (H1 & H2 & H3 & H4).
        split; [|split; [|split; assumption]].
        * intros k. rewrite H1. destruct (String.eqb_spec k k') as [->|Hne].
          -- rewrite Hk', Hni. apply ObjFacts.get_set_eq.
          -- rewrite ObjFacts.get_set_ne by auto. reflexivity.
        * intros k. rewrite H2. destruct (String.eqb_spec k k') as [->|Hne].
          -- rewrite Hk'. reflexivity.
          -- reflexivity.
      + destruct (IH na (Obj.set k' d nu) Hnd Hna (ObjFacts.NoDup_keys_set _ _ _ Hnu))
          as (H1 & H2 & H3 & H4).
        split; [|split; [|split; assumption]].
        * intros k. rewrite H1. destruct (String.eqb_spec k k') as [->|Hne].
          -- rewrite Hk'. reflexivity.
          -- reflexivity.
        * intros k. rewrite H2. destruct (String.eqb_spec k k') as [->|Hne].
          -- rewrite Hk', Hni. apply ObjFacts.get_set_eq.
          -- rewrite ObjFacts.get_set_ne by auto. reflexivity. }
  intros Hnd.
  specialize (H consistent [] [] Hnd (NoDup_nil _) (NoDup_nil _)). cbv zeta in H.
  destruct H as (H1 & H2 & H3 & H4).
  split; [|split; [|split; assumption]].
  - intros k. rewrite H1. destruct (readsTruthy k assigned); [destruct (Obj.get k consistent)|]; reflexivity.
  - intros k. rewrite H2. destruct (readsTruthy k assigned); [|destruct (Obj.get k consistent)]; reflexivity.
Qed.

(** Where no name of [consistent] is one that [Object.prototype]
    defines, the split goes by the properties that [assigned] holds. *)
Lemma splitConsistent_own (assigned consistent : @Vars V) :
  NoDup (Obj.keys consistent) ->
  (forall k, In k (Obj.keys consistent) -> inherited k = false) ->
  (forall k, Obj.get k (fst (splitConsistent assigned consistent))
             = if Obj.has k assigned then Obj.get k consistent else None) /\
  (forall k, Obj.get k (snd (splitConsistent assigned consistent))
             = if Obj.has k assigned then None else Obj.get k consistent) /\
  NoDup (Obj.keys (fst (splitConsistent assigned consistent))) /\
  NoDup (Obj.keys (snd (splitConsistent assigned consistent))).
Proof.
  intros Hnd Hown.
  destruct (splitConsistent_spec assigned consistent Hnd) as (H1 & H2 & H3 & H4).
  assert (Hk : forall k, Obj.get k consistent <> None ->
                         readsTruthy k assigned = Obj.has k assigned).
  { intros k Hk. unfold readsTruthy. rewrite Hown; [apply orb_false_r|].
    destruct (Obj.get k consistent) as [d|] eqn:E; [|congruence].
    eapply ObjFacts.get_Some_keys; eauto. }
  split; [|split; [|split; assumption]].
  - intros k. rewrite H1. destruct (Obj.get k consistent) as [d|] eqn:E.
    + rewrite Hk by congruence. reflexivity.
    + destruct (readsTruthy k assigned), (Obj.has k assigned); reflexivity.
  - intros k. rewrite H2. destruct (Obj.get k consistent) as [d|] eqn:E.
    + rewrite Hk by congruence. reflexivity.
    + destruct (readsTruthy k assigned), (Obj.has k assigned); reflexivity.
Qed.

Lemma arcConsistent_ext c vars vars' :
  (forall k, Obj.get k vars = Obj.get k vars') ->
  arcConsistent c vars -> arcConsistent c vars'.
Proof.
  intros H Hc hv tv Hh Ht. apply Hc; now rewrite H.
Qed.

Lemma Solved_ext csp vars vars' :
  (forall k, Obj.get k vars = Obj.get k vars') ->
  Solved csp vars -> Solved csp vars'.
Proof.
  intros H (H1 & H2). split.
  - intros c Hc. eapply arcConsistent_ext; eauto.
  - intros C HC. eapply gacStable_ext; [|apply H2; exact HC]. auto.
Qed.

Lemma get_unwrap (result : @Vars V) k :
  Obj.get k (unwrap result) = option_map (@hd_error V) (Obj.get k result).
Proof.
  unfold unwrap. induction result as [|[k' d] r IH]; simpl; auto.
  destruct (String.eqb k k'); auto.
Qed.

Lemma keys_unwrap (result : @Vars V) : Obj.keys (unwrap result) = Obj.keys result.
Proof. unfold unwrap, Obj.keys. rewrite map_map. reflexivity. Qed.

End HelperFacts.

(** * Soundness of the search *)

Section Soundness.
Context {V : Type}.
Variable toKey : V -> string.
Variable csp : @Problem V.
Hypothesis Hidx : WellIndexed csp.
Hypothesis Hid : DistinctIdentities (naryConstraints csp).
Implicit Types (vars A U : @Vars V).

Lemma Singletons_set A k (v : V) : Singletons A -> Singletons (Obj.set k [v] A).
Proof.
  intros H k' d. rewrite ObjFacts.get_set.
  destruct (String.eqb k' k); [intros E; inversion E; reflexivity | apply H].
Qed.

Lemma Singletons_del A k : Singletons A -> Singletons (Obj.del k A).
Proof.
  intros H k' d. rewrite ObjFacts.get_del.
  destruct (String.eqb k' k); [discriminate | apply H].
Qed.

Lemma Singletons_ext A A' :
  (forall k, Obj.get k A = Obj.get k A') -> Singletons A -> Singletons A'.
Proof. intros H HA k d Hk. apply (HA k). now rewrite H. Qed.

Lemma singleton_shape (d : list V) : length d = 1 -> exists x, d = [x].
Proof. destruct d as [|x [|y d]]; simpl; try discriminate. eauto. Qed.

Lemma has_keys {E : Type} (o : Obj.t E) k : Obj.has k o = true <-> In k (Obj.keys o).
Proof.
  rewrite ObjFacts.has_true. split.
  - intros [v Hv]. eapply ObjFacts.get_Some_keys; eauto.
  - apply ObjFacts.keys_get.
Qed.

(** The state that [backtrack] hands to its recursive call. *)
Lemma split_invariant assigned1 U' consistent :
  NoDup (Obj.keys assigned1) -> NoDup (Obj.keys U') -> Singletons assigned1 ->
  OwnNames assigned1 -> OwnNames U' ->
  enforceConsistency assigned1 U' csp = Some (Value consistent) ->
  anyEmpty consistent = false ->
  let newAssigned := fst (splitConsistent assigned1 consistent) in
  let newUnassigned := snd (splitConsistent assigned1 consistent) in
  NoDup (Obj.keys newAssigned) /\ NoDup (Obj.keys newUnassigned) /\
  Singletons newAssigned /\
  (newUnassigned = [] -> Solved csp newAssigned) /\
  (forall k, In k (Obj.keys newAssigned) \/ In k (Obj.keys newUnassigned)
             <-> In k (Obj.keys assigned1) \/ In k (Obj.keys U')).
Proof.
  intros HA HU Hsing HoA HoU Henf Hne. cbv zeta.
  apply enforceConsistency_Value in Henf.
  destruct (consistencyPass_phases _ _ _ _ _ Henf)
    as (mid & Hs1 & Hs2 & Hk1 & Hk2 & Hok).
  destruct (Hok eq_refl) as (Harc & Hgac). clear Hok.
  specialize (Hgac Hidx Hid).
  pose proof (partialAssignment_NoDup assigned1 U') as Hnp.
  assert (Hnc : NoDup (Obj.keys consistent)) by (rewrite Hk2, Hk1; exact Hnp).
  assert (Hoc : forall k, In k (Obj.keys consistent) -> inherited k = false).
  { intros k Hk. rewrite Hk2, Hk1 in Hk. apply partialAssignment_keys in Hk.
    destruct Hk as [Hk|Hk]; [now apply HoA | now apply HoU]. }
  destruct (splitConsistent_own assigned1 consistent Hnc Hoc) as (H1 & H2 & H3 & H4).
  assert (Hnonempty : forall k d, Obj.get k consistent = Some d -> d <> []).
  { intros k d Hd. apply ObjFacts.get_In in Hd.
    exact (proj1 (anyEmpty_false consistent) Hne k d Hd). }
  assert (Hassigned : forall k d,
            Obj.has k assigned1 = true -> Obj.get k consistent = Some d ->
            exists x, d = [x] /\ Obj.get k mid = Some [x]).
  { intros k d Hh Hd.
    destruct (Shrunk_get _ _ _ _ Hs2 Hd) as (dm & Hdm & Hsub2).
    destruct (Shrunk_get _ _ _ _ Hs1 Hdm) as (dp & Hdp & Hsub1).
    rewrite partialAssignment_get in Hdp by auto.
    apply ObjFacts.has_true in Hh. destruct Hh as [da Hda]. rewrite Hda in Hdp.
    inversion Hdp; subst dp. destruct (singleton_shape da (Hsing k da Hda)) as [x ->].
    assert (dm <> []).
    { intros ->. inversion Hsub2; subst. eapply Hnonempty; eauto. }
    apply Subseq_singleton in Hsub1; auto. subst dm.
    apply Subseq_singleton in Hsub2; [|eapply Hnonempty; eauto]. subst d.
    exists x. auto. }
  split; [exact H3|]. split; [exact H4|]. split; [|split].
  - intros k d Hd. rewrite H1 in Hd.
    destruct (Obj.has k assigned1) eqn:Hh; [|discriminate].
    destruct (Hassigned k d Hh Hd) as (x & -> & _). reflexivity.
  - intros Hnil.
    assert (Hall : forall k d, Obj.get k consistent = Some d -> Obj.has k assigned1 = true).
    { intros k d Hd. destruct (Obj.has k assigned1) eqn:Hh; auto.
      specialize (H2 k). rewrite Hh, Hd, Hnil in H2. discriminate. }
    assert (Hna : forall k, Obj.get k consistent
                            = Obj.get k (fst (splitConsistent assigned1 consistent))).
    { intros k. rewrite H1. destruct (Obj.get k consistent) as [d|] eqn:Hd.
      - now rewrite (Hall k d Hd).
      - destruct (Obj.has k assigned1); reflexivity. }
    assert (Hmid : forall k, Obj.get k mid = Obj.get k consistent).
    { intros k. pose proof (Hs2 k) as Hk.
      destruct (Obj.get k consistent) as [d|] eqn:Hd.
      - destruct (Hassigned k d (Hall k d Hd) Hd) as (x & -> & Hm). exact Hm.
      - destruct (Obj.get k mid); [contradiction | reflexivity]. }
    apply (Solved_ext csp consistent _ Hna). split.
    + intros c Hc. apply (arcConsistent_ext c mid consistent Hmid). now apply Harc.
    + exact Hgac.
  - intros k.
    assert (Hc : In k (Obj.keys consistent)
                 <-> In k (Obj.keys assigned1) \/ In k (Obj.keys U')).
    { rewrite Hk2, Hk1. apply partialAssignment_keys. }
    rewrite <- Hc. split.
    + intros [Hk|Hk]; apply ObjFacts.keys_get in Hk; destruct Hk as [d Hd].
      * rewrite H1 in Hd. destruct (Obj.has k assigned1); [|discriminate].
        eapply ObjFacts.get_Some_keys; eauto.
      * rewrite H2 in Hd. destruct (Obj.has k assigned1); [discriminate|].
        eapply ObjFacts.get_Some_keys; eauto.
    + intros Hk. apply ObjFacts.keys_get in Hk. destruct Hk as [d Hd].
      destruct (Obj.has k assigned1) eqn:Hh.
      * left. apply (ObjFacts.get_Some_keys k d). now rewrite H1, Hh.
      * right. apply (ObjFacts.get_Some_keys k d). now rewrite H2, Hh.
Qed.

Lemma tryValues_sound recurse nextKey U' values assigned result :
  (forall a u r,
     NoDup (Obj.keys a) -> NoDup (Obj.keys u) -> Singletons a ->
     OwnNames a -> OwnNames u ->
     (u = [] -> Solved csp a) ->
     recurse a u = Some (Value r) ->
     Solved csp r /\ Singletons r /\ NoDup (Obj.keys r) /\
     (forall k, In k (Obj.keys r) <-> In k (Obj.keys a) \/ In k (Obj.keys u))) ->
  NoDup (Obj.keys assigned) -> NoDup (Obj.keys U') -> Singletons assigned ->
  OwnNames assigned -> OwnNames U' -> inherited nextKey = false ->
  tryValues recurse nextKey U' csp values assigned = Some (Value result) ->
  Solved csp result /\ Singletons result /\ NoDup (Obj.keys result) /\
  (forall k, In k (Obj.keys result)
             <-> k = nextKey \/ In k (Obj.keys assigned) \/ In k (Obj.keys U')).
Proof.
  intros Hrec. revert assigned.
  induction values as [|val rest IH]; intros assigned HA HU Hsing HoA HoU Hon; simpl;
    [discriminate|].
  set (assigned1 := Obj.set nextKey [val] assigned).
  assert (HA1 : NoDup (Obj.keys assigned1)) by now apply ObjFacts.NoDup_keys_set.
  assert (Hs1 : Singletons assigned1) by now apply Singletons_set.
  assert (Ho1 : OwnNames assigned1).
  { intros k Hk. unfold assigned1 in Hk. apply ObjFacts.In_keys_set in Hk.
    destruct Hk as [->|Hk]; [exact Hon | now apply HoA]. }
  assert (Hnext : tryValues recurse nextKey U' csp rest (Obj.del nextKey assigned1)
                  = Some (Value result) ->
                  Solved csp result /\ Singletons result /\ NoDup (Obj.keys result) /\
                  (forall k, In k (Obj.keys result)
                             <-> k = nextKey \/ In k (Obj.keys assigned) \/ In k (Obj.keys U'))).
  { intros H. apply IH in H.
    - destruct H as (R1 & R2 & R3 & R4). repeat (split; [assumption|]).
      intros k. rewrite R4. split.
      + intros [->|[Hk|Hk]]; auto.
        apply ObjFacts.keys_get in Hk. destruct Hk as [d Hd].
        rewrite ObjFacts.get_del in Hd.
        destruct (String.eqb_spec k nextKey) as [->|Hne]; [discriminate|].
        unfold assigned1 in Hd. rewrite ObjFacts.get_set_ne in Hd by auto.
        right. left. eapply ObjFacts.get_Some_keys; eauto.
      + intros [->|[Hk|Hk]]; auto.
        destruct (String.eqb_spec k nextKey) as [->|Hne]; auto.
        right. left. apply ObjFacts.keys_get in Hk. destruct Hk as [d Hd].
        apply (ObjFacts.get_Some_keys k d).
        rewrite ObjFacts.get_del_ne by auto.
        unfold assigned1. now rewrite ObjFacts.get_set_ne by auto.
    - now apply ObjFacts.NoDup_keys_del.
    - exact HU.
    - now apply Singletons_del.
    - intros k Hk. apply ObjFacts.keys_get in Hk. destruct Hk as [d Hd].
      rewrite ObjFacts.get_del in Hd. destruct (String.eqb k nextKey); [discriminate|].
      apply Ho1. eapply ObjFacts.get_Some_keys; eauto.
    - exact HoU.
    - exact Hon. }
  destruct (enforceConsistency assigned1 U' csp) as [[|consistent]|] eqn:Henf;
    [exact Hnext | | discriminate].
  pose proof (fun Hne => split_invariant assigned1 U' consistent HA1 HU Hs1 Ho1 HoU
                           Henf Hne) as Hinv.
  destruct (splitConsistent assigned1 consistent) as [newAssigned newUnassigned].
  destruct (anyEmpty consistent); [exact Hnext|].
  specialize (Hinv eq_refl). cbv zeta in Hinv. simpl in Hinv.
  destruct Hinv as (I1 & I2 & I3 & I4 & I5).
  destruct (recurse newAssigned newUnassigned) as [[|r]|] eqn:Er;
    [exact Hnext | | discriminate].
  intros H. inversion H; subst r.
  assert (J1 : OwnNames newAssigned).
  { intros k Hk. destruct (proj1 (I5 k) (or_introl Hk)); [now apply Ho1 | now apply HoU]. }
  assert (J2 : OwnNames newUnassigned).
  { intros k Hk. destruct (proj1 (I5 k) (or_intror Hk)); [now apply Ho1 | now apply HoU]. }
  destruct (Hrec _ _ _ I1 I2 I3 J1 J2 I4 Er) as (R1 & R2 & R3 & R4).
  repeat (split; [assumption|]).
  intros k. rewrite R4, I5. unfold assigned1. rewrite ObjFacts.In_keys_set. tauto.
Qed.

Lemma backtrack_sound fuel A U result :
  NoDup (Obj.keys A) -> NoDup (Obj.keys U) -> Singletons A ->
  OwnNames A -> OwnNames U ->
  (U = [] -> Solved csp A) ->
  backtrack toKey fuel A U csp = Some (Value result) ->
  Solved csp result /\ Singletons result /\ NoDup (Obj.keys result) /\
  (forall k, In k (Obj.keys result) <-> In k (Obj.keys A) \/ In k (Obj.keys U)).
Proof.
  revert A U result.
  induction fuel as [|fuel IH]; intros A U result HA HU Hsing HoA HoU Hsol;
    [discriminate|].
  simpl.
  pose proof (cloneAssignment_get A) as Hclone.
  destruct (finished U) eqn:Hfin.
  - apply finished_true in Hfin. subst U. intros H. inversion H; subst result.
    split; [|split; [|split]].
    + apply (Solved_ext csp A); [intros k; symmetry; now apply Hclone | now apply Hsol].
    + apply (Singletons_ext A); [intros k; symmetry; now apply Hclone | exact Hsing].
    + apply cloneAssignment_NoDup.
    + intros k. simpl.
      rewrite (keys_same_get (cloneAssignment A) A) by (intros k'; now apply Hclone).
      tauto.
  - destruct (selectUnassignedVariable U) as [nextKey|] eqn:Hsel; [|discriminate].
    apply selectUnassignedVariable_In in Hsel.
    destruct (orderValues toKey nextKey (cloneAssignment A) U csp) as [values|];
      [|discriminate].
    intros H. apply tryValues_sound in H.
    + destruct H as (R1 & R2 & R3 & R4). repeat (split; [assumption|]).
      intros k. rewrite R4.
      rewrite (keys_same_get (cloneAssignment A) A) by (intros k'; now apply Hclone).
      split.
      * intros [->|[Hk|Hk]]; auto.
        right. apply ObjFacts.keys_get in Hk. destruct Hk as [d Hd].
        rewrite ObjFacts.get_del in Hd. destruct (String.eqb k nextKey); [discriminate|].
        eapply ObjFacts.get_Some_keys; eauto.
      * intros [Hk|Hk]; auto.
        destruct (String.eqb_spec k nextKey) as [->|Hne]; auto.
        right. right. apply ObjFacts.keys_get in Hk. destruct Hk as [d Hd].
        apply (ObjFacts.get_Some_keys k d). now rewrite ObjFacts.get_del_ne.
    + intros a u r. apply IH.
    + apply cloneAssignment_NoDup.
    + now apply ObjFacts.NoDup_keys_del.
    + apply (Singletons_ext A); [intros k; symmetry; now apply Hclone | exact Hsing].
    + intros k Hk. apply HoA.
      now rewrite <- (keys_same_get (cloneAssignment A) A) by (intros k'; now apply Hclone).
    + intros k Hk. apply HoU. apply ObjFacts.keys_get in Hk. destruct Hk as [d Hd].
      rewrite ObjFacts.get_del in Hd. destruct (String.eqb k nextKey); [discriminate|].
      eapply ObjFacts.get_Some_keys; eauto.
    + now apply HoU.
Qed.

End Soundness.

(** * Validation *)

Section ValidationFacts.
Context {V : Type}.
Implicit Types (csp : @Problem V) (raw : @RawProblem V).

Lemma firstError_None {E : Type} (check : E -> option Error) (l : list E) :
  firstError check l = None <-> forall x, In x l -> check x = None.
Proof.
  induction l as [|x r IH]; simpl.
  - split; [intros _ ? [] | reflexivity].
  - destruct (check x) eqn:E0.
    + split; [discriminate|]. intros H. rewrite <- E0. apply H. now left.
    + rewrite IH. split.
      * intros H y [<-|Hy]; auto.
      * intros H y Hy. apply H. now right.
Qed.

Lemma varsSetHas_true (varsSet : list string) v :
  varsSetHas varsSet v = true <-> In v varsSet.
Proof.
  unfold varsSetHas. rewrite existsb_exists. split.
  - intros (x & Hx & E). apply String.eqb_eq in E. now subst.
  - intros H. exists v. split; [exact H | apply String.eqb_refl].
Qed.

(** What a problem that passes [validateProblem] satisfies. *)
Lemma validateProblem_None csp :
  validateProblem csp = None ->
  (forall k d, In (k, d) (variables csp) -> isArray d = true) /\
  (forall head tail predicate, In (head, tail, predicate) (constraints csp) ->
     In head (Obj.keys (variables csp)) /\ In tail (Obj.keys (variables csp))) /\
  (forall C, In C (naryConstraints csp) ->
     cvars C <> [] /\ forall v, In v (cvars C) -> In v (Obj.keys (variables csp))).
Proof.
  unfold validateProblem.
  destruct (firstError _ (variables csp)) eqn:E1; [discriminate|].
  destruct (firstError _ (constraints csp)) eqn:E2; [discriminate|].
  intros E3. split; [|split].
  - intros k d Hin. pose proof (proj1 (firstError_None _ _) E1 (k, d) Hin) as H.
    destruct d; simpl in *; [reflexivity | discriminate].
  - intros head tail predicate Hin.
    pose proof (proj1 (firstError_None _ _) E2 (head, tail, predicate) Hin) as H.
    simpl in H.
    destruct (varsSetHas (Obj.keys (variables csp)) head) eqn:Hh; [|discriminate].
    destruct (varsSetHas (Obj.keys (variables csp)) tail) eqn:Ht; [|discriminate].
    split; now apply varsSetHas_true.
  - intros C HC. pose proof (proj1 (firstError_None _ _) E3 C HC) as H. simpl in H.
    destruct (Nat.eqb_spec (length (cvars C)) 0) as [Z|Z]; [discriminate|].
    split; [intros Hnil; rewrite Hnil in Z; simpl in Z; congruence|].
    intros v Hv. pose proof (proj1 (firstError_None _ _) H v Hv) as Hc. simpl in Hc.
    destruct (varsSetHas (Obj.keys (variables csp)) v) eqn:Hh; [|discriminate].
    now apply varsSetHas_true.
Qed.

(** [normalizeProblem] turns every domain into an array. *)
Lemma normalizeProblem_arrays raw k d :
  In (k, d) (variables (normalizeProblem raw)) -> isArray d = true.
Proof.
  unfold normalizeProblem. simpl.
  assert (H : forall (l : Obj.t (@RawDomain V)) init,
             (forall k d, In (k, d) init -> isArray d = true) ->
             NoDup (Obj.keys init) ->
             forall k d,
               In (k, d)
                 (fold_left
                    (fun out kd =>
                       Obj.set (fst kd)
                         (if isArray (snd kd) then RawArray (slice (snd kd))
                          else RawArray []) out) l init) ->
               isArray d = true).
  { induction l as [|[k0 d0] l IH]; intros init Hinit Hnd k' d'; simpl.
    - apply Hinit.
    - apply IH.
      + intros k1 d1 Hin.
        apply ObjFacts.In_get in Hin; [|now apply ObjFacts.NoDup_keys_set].
        rewrite ObjFacts.get_set in Hin. destruct (String.eqb k1 k0).
        * inversion Hin. destruct (match d0 with RawArray _ => true | RawOther => false end);
            reflexivity.
        * apply ObjFacts.get_In in Hin. eapply Hinit; eauto.
      + now apply ObjFacts.NoDup_keys_set. }
  apply H; [intros ? ? [] | constructor].
Qed.

Lemma normalizeProblem_NoDup raw : NoDup (Obj.keys (variables (normalizeProblem raw))).
Proof.
  exact (NoDup_foldSet
           (fun d : @RawDomain V =>
              if isArray d then RawArray (slice d) else RawArray [])
           _ [] (NoDup_nil _)).
Qed.

End ValidationFacts.

(** * The index [solve] builds *)

Section IndexFacts.
Context {V : Type}.
Variable toKey : V -> string.
Implicit Types (C : @NaryConstraint V) (index : Obj.t (list (@NaryConstraint V))).

Lemma OwnNames_set {D : Type} (o : Obj.t D) k (d : D) :
  OwnNames o -> inherited k = false -> OwnNames (Obj.set k d o).
Proof.
  intros Ho Hk k' Hin. apply ObjFacts.In_keys_set in Hin.
  destruct Hin as [->|Hin]; [exact Hk | now apply Ho].
Qed.

(** The inner loop throws on the first name that [Object.prototype]
    defines, and otherwise files [C] under every name. *)
Lemma fileAll_spec C vars index :
  OwnNames index ->
  let filed := fold_left (fun index v => Obj.set v (getOrNil v index ++ [C]) index)
                 vars index in
  fileAll C vars index
  = (if existsb inherited vars then inl TypeError else inr filed) /\
  (existsb inherited vars = false -> OwnNames filed).
Proof.
  revert index. induction vars as [|v vars IH]; intros index Ho; cbv zeta; simpl.
  - split; [reflexivity | intros _; exact Ho].
  - unfold fileUnder, getOrNil.
    destruct (Obj.get v index) as [entry|] eqn:Hg.
    + assert (Hv : inherited v = false)
        by (apply Ho; eapply ObjFacts.get_Some_keys; eauto).
      rewrite Hv. simpl. apply IH. now apply OwnNames_set.
    + destruct (inherited v) eqn:Hv; simpl.
      * split; [reflexivity | discriminate].
      * apply IH. now apply OwnNames_set.
Qed.

Lemma indexFrom_spec (nary : list (@NaryConstraint V)) index :
  OwnNames index ->
  indexFrom nary index
  = if existsb inherited (flat_map (@cvars V) nary) then inl TypeError
    else inr (fold_left
                (fun index C =>
                   fold_left (fun index v => Obj.set v (getOrNil v index ++ [C]) index)
                     (cvars C) index)
                nary index).
Proof.
  revert index. induction nary as [|C nary IH]; intros index Ho; simpl; [reflexivity|].
  destruct (fileAll_spec C (cvars C) index Ho) as [E Hown]. cbv zeta in E, Hown.
  rewrite E, existsb_app.
  destruct (existsb inherited (cvars C)); simpl; [reflexivity|].
  apply IH. now apply Hown.
Qed.

(** [buildNaryIndex] throws exactly when a constraint lists a name that
    [Object.prototype] defines; otherwise it returns [adjacency]. *)
Lemma buildNaryIndex_adjacency (nary : list (@NaryConstraint V)) :
  buildNaryIndex nary
  = if existsb inherited (flat_map (@cvars V) nary) then inl TypeError
    else inr (adjacency nary).
Proof.
  unfold buildNaryIndex, adjacency. apply indexFrom_spec. intros k [].
Qed.

(** The steps of [solve], with the index written out. *)
Lemma solve_steps (raw : @RawProblem V) :
  solve toKey raw
  = let csp := normalizeProblem raw in
    match validateProblem csp with
    | Some e => Some (Threw e)
    | None =>
        if existsb inherited (flat_map (@cvars V) (naryConstraints csp))
        then Some (Threw TypeError)
        else
          match backtrack toKey (S (length (variables (withNaryIndex csp)))) []
                  (cloneVars (variables (withNaryIndex csp))) (withNaryIndex csp) with
          | Some FAILURE => Some (Returned FAILURE)
          | Some (Value result) => Some (Returned (Value (unwrap result)))
          | None => None
          end
    end.
Proof.
  unfold solve. cbv zeta.
  destruct (validateProblem (normalizeProblem raw)); [reflexivity|].
  rewrite buildNaryIndex_adjacency.
  destruct (existsb inherited _); reflexivity.
Qed.

End IndexFacts.
(** * Soundness of [solve] *)

Section SolveSound.
Context {V : Type}.
Variable toKey : V -> string.

(** X23. Soundness of [solve] on names of the problem's own: when no
    declared variable has a name that [Object.prototype] defines and
    [CSP.solve] returns an assignment (a result other than the failure
    sentinel), the problem has passed validation, the assignment has
    exactly the declared variables, each bound to one value, every
    binary predicate is true on the values of its head and tail, and
    every n-ary predicate is true on the tuple that binds each
    participant to its value and nothing else. *)
Theorem solve_sound (raw : @RawProblem V) (sol : Obj.t (option V)) :
  OwnNames (variables (normalizeProblem raw)) ->
  DistinctIdentities (naryConstraints (normalizeProblem raw)) ->
  solve toKey raw = Some (Returned (Value sol)) ->
  let csp := normalizeProblem raw in
  validateProblem csp = None /\
  NoDup (Obj.keys sol) /\
  (forall k, In k (Obj.keys sol) <-> In k (Obj.keys (variables csp))) /\
  (forall k, In k (Obj.keys (variables csp)) ->
     exists v, Obj.get k sol = Some (Some v)) /\
  (forall head tail predicate,
     In (head, tail, predicate) (constraints csp) ->
     exists vh vt,
       Obj.get head sol = Some (Some vh) /\ Obj.get tail sol = Some (Some vt) /\
       predicate vh vt = true) /\
  (forall C, In C (naryConstraints csp) ->
     exists tuple,
       cpredicate C tuple = Some true /\
       (forall k, In k (cvars C) ->
          exists v, Obj.get k tuple = Some v /\ Obj.get k sol = Some (Some v)) /\
       (forall k, ~ In k (cvars C) -> Obj.get k tuple = None)).
Proof.
  intros Hown Hid. rewrite solve_steps. cbv zeta.
  set (csp := normalizeProblem raw) in *.
  destruct (validateProblem csp) as [e|] eqn:Hval; [discriminate|].
  destruct (existsb inherited _); [discriminate|].
  destruct (backtrack toKey _ [] _ (withNaryIndex csp)) as [[|result]|] eqn:Hb;
    try discriminate.
  intros H. inversion H; subst sol; clear H.
  apply (backtrack_sound toKey (withNaryIndex csp) eq_refl Hid) in Hb.
  2:{ constructor. }
  2:{ apply cloneVars_NoDup. }
  2:{ intros k d Hd. discriminate. }
  2:{ intros k []. }
  2:{ intros k Hk. apply Hown. exact (proj1 (cloneVars_keys (variables csp) k) Hk). }
  2:{ intros _. split.
      - intros c _ hv tv Hh. discriminate.
      - intros C _ x dom _ Hx. discriminate. }
  destruct Hb as ((Harc & Hgac) & Hsing & Hnd & Hkeys).
  destruct (validateProblem_None csp Hval) as (_ & Hbin & Hnary).
  assert (Hk : forall k, In k (Obj.keys result) <-> In k (Obj.keys (variables csp))).
  { intros k. rewrite Hkeys. simpl. rewrite cloneVars_keys. tauto. }
  assert (Hv : forall k, In k (Obj.keys (variables csp)) ->
                 exists v, Obj.get k result = Some [v]).
  { intros k Hin. apply Hk, ObjFacts.keys_get in Hin. destruct Hin as [d Hd].
    destruct (singleton_shape d (Hsing k d Hd)) as [v ->]. eauto. }
  split; [reflexivity|].
  split; [now rewrite keys_unwrap|].
  split; [intros k; now rewrite keys_unwrap|].
  split; [|split].
  - intros k Hin. destruct (Hv k Hin) as [v Hr]. exists v.
    now rewrite get_unwrap, Hr.
  - intros head tail predicate Hin.
    destruct (Hbin head tail predicate Hin) as (Hh & Ht).
    destruct (Hv head Hh) as [vh Hvh]. destruct (Hv tail Ht) as [vt Hvt].
    exists vh, vt. rewrite !get_unwrap, Hvh, Hvt.
    split; [reflexivity|]. split; [reflexivity|].
    pose proof (Harc (head, tail, predicate) Hin [vh] [vt] Hvh Hvt vt (or_introl eq_refl))
      as Hp.
    simpl in Hp. now rewrite Bool.orb_false_r in Hp.
  - intros C HC. destruct (Hnary C HC) as (Hne & Hdecl).
    destruct (cvars C) as [|x xs] eqn:Hvars; [congruence|].
    assert (Hx : In x (cvars C)) by (rewrite Hvars; now left).
    destruct (Hv x (Hdecl x (or_introl eq_refl))) as [v Hxv].
    pose proof (Hgac C HC x [v] Hx Hxv v (or_introl eq_refl)) as Hsup.
    apply hasSupport_sound in Hsup. destruct Hsup as (tuple & (T1 & T2 & T3) & Hp).
    exists tuple. split; [exact Hp|]. rewrite Hvars in T2, T3. split.
    + intros k Hin. destruct (String.eqb_spec k x) as [->|Hnx].
      * exists v. now rewrite get_unwrap, Hxv.
      * destruct (T2 k Hin Hnx) as (dom & val & Hd & Hmem & Ht).
        destruct (Hv k (Hdecl k Hin)) as [v' Hkv].
        rewrite Hkv in Hd. inversion Hd; subst dom. destruct Hmem as [<-|[]].
        exists v'. now rewrite get_unwrap, Hkv.
    + intros k Hn. apply T3; [|exact Hn]. intros ->. apply Hn. now left.
Qed.

End SolveSound.

(** C1. Soundness of [solve] fails on variables named after members of
    [Object.prototype].  The problem below passes validation, and
    [CSP.solve] returns an assignment that gives [toString] and
    [valueOf] the same value, although the arc between them requires
    different values: [backtrack] files both as assigned, on the test
    [if (assigned[key])], as soon as [a] is assigned, and never tries
    their values.  With names of its own the same problem is solved. *)
Theorem solve_inherited_names :
  validateProblem (normalizeProblem Examples.inheritedNames) = None /\
  solve Examples.natKey Examples.inheritedNames
  = Some (Returned (Value [("toString", Some 1); ("valueOf", Some 1); ("a", Some 1)])) /\
  constraints (normalizeProblem Examples.inheritedNames)
  = [("toString", "valueOf", Examples.differ)] /\
  Examples.differ 1 1 = false /\
  splitConsistent [("a", [1])]
    [("toString", [1; 2]); ("valueOf", [1; 2]); ("a", [1])]
  = ([("toString", [1; 2]); ("valueOf", [1; 2]); ("a", [1])], []) /\
  solve Examples.natKey Examples.ownNames
  = Some (Returned (Value [("a", Some 1); ("p", Some 1); ("q", Some 2)])).
Proof.
  repeat split; vm_compute; reflexivity.
Qed.


(** * Completeness of the search without constraints *)

Section Ordering.
Context {V : Type}.
Variable toKey : V -> string.
Implicit Types (vars A U : @Vars V) (csp : @Problem V).

Lemma enforceConsistency_returns A U csp :
  exists r, enforceConsistency A U csp = Some r.
Proof.
  unfold enforceConsistency.
  destruct (consistencyPass_terminates A U csp) as [r ->]. eauto.
Qed.

Lemma scoreValues_total nextKey A U csp baseValues score :
  exists s, scoreValues toKey nextKey A U csp baseValues score = Some s.
Proof.
  revert score. induction baseValues as [|val rest IH]; intros score; simpl; eauto.
  destruct (enforceConsistency_returns
              (Obj.set nextKey [val] (cloneAssignment A))
              (Obj.del nextKey (cloneVars U)) csp) as [r ->].
  apply IH.
Qed.

(** [orderValues] returns the values of the domain, reordered. *)
Lemma orderValues_perm nextKey A U csp :
  exists values,
    orderValues toKey nextKey A U csp = Some values /\
    Permutation values (getOrNil nextKey U).
Proof.
  unfold orderValues. destruct (Nat.leb (length (getOrNil nextKey U)) 1).
  - eauto.
  - destruct (scoreValues_total nextKey A U csp (getOrNil nextKey U) []) as [s ->].
    eexists. split; [reflexivity|]. apply sortBy_perm.
Qed.

(** *** The search always returns *)

Lemma tryValues_total recurse nextKey U' csp values assigned :
  (forall a u, length u <= length U' -> exists r, recurse a u = Some r) ->
  exists r, tryValues recurse nextKey U' csp values assigned = Some r.
Proof.
  intros Hrec. revert assigned. induction values as [|val rest IH]; intros assigned; simpl.
  - eauto.
  - set (assigned1 := Obj.set nextKey [val] assigned).
    destruct (enforceConsistency_returns assigned1 U' csp) as [[|consistent] Henf];
      rewrite Henf; [apply IH|].
    apply enforceConsistency_Value in Henf.
    destruct (consistencyPass_shrunk _ _ _ _ _ Henf) as (_ & Hk).
    assert (Hnc : NoDup (Obj.keys consistent))
      by (rewrite Hk; apply partialAssignment_NoDup).
    destruct (splitConsistent_spec assigned1 consistent Hnc) as (_ & S2 & _ & S4).
    destruct (splitConsistent assigned1 consistent) as [newAssigned newUnassigned].
    simpl in S2, S4.
    destruct (anyEmpty consistent); [apply IH|].
    assert (Hlen : length newUnassigned <= length U').
    { rewrite <- (length_map fst newUnassigned), <- (length_map fst U').
      apply NoDup_incl_length; [exact S4|].
      intros k Hin. apply ObjFacts.keys_get in Hin. destruct Hin as [d Hd].
      rewrite S2 in Hd. destruct (readsTruthy k assigned1) eqn:Hh; [discriminate|].
      apply orb_false_elim in Hh. destruct Hh as [Hh _].
      apply ObjFacts.get_Some_keys in Hd. rewrite Hk in Hd.
      apply partialAssignment_keys in Hd. destruct Hd as [Hd|Hd]; [|exact Hd].
      apply ObjFacts.keys_get in Hd. destruct Hd as [x Hx].
      unfold Obj.has in Hh. rewrite Hx in Hh. discriminate. }
    destruct (Hrec newAssigned newUnassigned Hlen) as [[|r] ->]; [apply IH | eauto].
Qed.

Lemma backtrack_total fuel A U csp :
  length U < fuel -> exists r, backtrack toKey fuel A U csp = Some r.
Proof.
  revert A U. induction fuel as [|fuel IH]; intros A U Hf; [lia|]. simpl.
  destruct (finished U); [eauto|].
  destruct (selectUnassignedVariable U) as [nextKey|] eqn:Hsel; [|eauto].
  apply selectUnassignedVariable_In in Hsel.
  destruct (orderValues_perm nextKey (cloneAssignment A) U csp) as (values & -> & _).
  apply tryValues_total. intros a u Hu. apply IH.
  pose proof (ObjFacts.length_del_present nextKey U Hsel). lia.
Qed.

(** [solve] returns or throws: the fuel it passes to [backtrack], one
    more than the number of variables, is enough. *)
Lemma solve_total (raw : @RawProblem V) : exists outcome, solve toKey raw = Some outcome.
Proof.
  rewrite solve_steps. cbv zeta.
  destruct (validateProblem (normalizeProblem raw)); [eauto|].
  destruct (existsb inherited _); [eauto|].
  destruct (backtrack_total
              (S (length (variables (withNaryIndex (normalizeProblem raw))))) []
              (cloneVars (variables (withNaryIndex (normalizeProblem raw))))
              (withNaryIndex (normalizeProblem raw))) as [[|result] ->]; eauto.
  apply Nat.lt_succ_r.
  change (variables (withNaryIndex (normalizeProblem raw)))
    with (variables (normalizeProblem raw)).
  rewrite <- (length_map fst (cloneVars (variables (normalizeProblem raw)))).
  rewrite <- (length_map fst (variables (normalizeProblem raw))).
  apply NoDup_incl_length; [apply cloneVars_NoDup|].
  intros k Hk. exact (proj1 (cloneVars_keys (variables (normalizeProblem raw)) k) Hk).
Qed.

End Ordering.

Section Completeness.
Context {V : Type}.
Variable toKey : V -> string.
Variable csp : @Problem V.
Hypothesis Hbin : constraints csp = [].
Hypothesis Hnary : naryConstraints csp = [].
Implicit Types (vars A U : @Vars V).



End Completeness.

(** * Completeness of [solve] without constraints *)

Section SolveComplete.
Context {V : Type}.
Variable toKey : V -> string.


End SolveComplete.

(** * The earlier support oracle (src/unnamed/part_000) *)

Module LegacyOracle.

Section Facts.
Context {V : Type}.
Implicit Types (vars : @Vars V) (C : @NaryConstraint V) (partial : Obj.t V).

(** With domains that are present and not empty, the search reaches a
    first tuple; when the predicate raises on it, the exception leaves
    [dfs] at once. *)
Lemma dfs_raises focusVar (focusVal : V) predicate vars others partial :
  (forall tuple, predicate tuple = None) ->
  (forall o, In o others -> exists dom, Obj.get o vars = Some dom /\ dom <> []) ->
  fst (Legacy.dfs focusVar focusVal predicate vars others partial)
  = Legacy.Throws Legacy.PredicateError.
Proof.
  intros Hp. revert partial.
  induction others as [|v rest IH]; intros partial Hdom; simpl.
  - now rewrite Hp.
  - destruct (Hdom v (or_introl eq_refl)) as (dom & -> & Hne).
    destruct dom as [|x dom]; [congruence|]. simpl.
    specialize (IH (Obj.set v x partial) (fun o Ho => Hdom o (or_intror Ho))).
    destruct (Legacy.dfs focusVar focusVal predicate vars rest (Obj.set v x partial))
      as [c partial'].
    simpl in IH. subst c. reflexivity.
Qed.

Lemma hasSupport_raises focusVar (focusVal : V) C vars :
  (forall tuple, cpredicate C tuple = None) ->
  (forall o, In o (cvars C) -> o <> focusVar ->
     exists dom, Obj.get o vars = Some dom /\ dom <> []) ->
  Legacy.hasSupport focusVar focusVal C vars
  = Some (Legacy.Throws Legacy.PredicateError).
Proof.
  intros Hp Hdom. unfold Legacy.hasSupport. cbv zeta.
  set (others := filter (fun v => negb (String.eqb v focusVar)) (cvars C)).
  assert (Hothers : forall o, In o others ->
            exists dom, Obj.get o vars = Some dom /\ dom <> []).
  { intros o Ho. unfold others in Ho. apply filter_In in Ho. destruct Ho as (Ho & Hne).
    apply Hdom; [exact Ho|]. apply Bool.negb_true_iff in Hne.
    now apply String.eqb_neq in Hne. }
  assert (Hhas : forall o, In o others -> negb (Obj.has o vars) = false).
  { intros o Ho. destruct (Hothers o Ho) as (dom & Hg & _).
    unfold Obj.has. now rewrite Hg. }
  assert (E1 : existsb (fun v => negb (Obj.has v vars) && inherited v) others = false).
  { apply Bool.not_true_is_false. intros E.
    apply existsb_exists in E. destruct E as (o & Ho & Hc).
    rewrite (Hhas o Ho) in Hc. discriminate. }
  assert (E2 : existsb (fun v => negb (Obj.has v vars)) others = false).
  { apply Bool.not_true_is_false. intros E.
    apply existsb_exists in E. destruct E as (o & Ho & Hc).
    rewrite (Hhas o Ho) in Hc. discriminate. }
  rewrite E1, E2, Bool.andb_false_r. f_equal.
  apply dfs_raises; [exact Hp|].
  intros o Ho. apply Hothers. now apply sortBy_In in Ho.
Qed.

End Facts.
End LegacyOracle.

(** * The support oracle and the consistency pass *)

Section OracleAndPass.
Context {V : Type}.
Implicit Types (vars A U : @Vars V) (C : @NaryConstraint V) (csp : @Problem V).

(** C3. Fail-closed predicate evaluation in [src/csp.js].  [hasSupport]
    answers [true] exactly when one of the tuples it assembles has a
    truthy verdict, where a tuple on which the predicate raises counts
    like one on which it returns a falsy value.  It assembles one tuple
    for every choice of values of the other participants, each with the
    focus value and a value of its domain for every other participant.
    A tuple on which the predicate returns a truthy value gives [true]
    whatever the predicate does on the tuples before it, and when the
    predicate raises or returns a falsy value on every tuple the answer
    is [false].  The answer is a boolean: no error leaves the oracle,
    which answers as for the predicate that returns [false] wherever the
    original raises.  The earlier variant of [part_000] has no error
    handling: with a predicate that always raises, and domains of the
    other participants that are present and not empty, the exception of
    the predicate leaves its [hasSupport], where the oracle of
    [src/csp.js] answers [false]. *)
Theorem hasSupport_fail_closed focusVar (focusVal : V) C vars :
  hasSupport focusVar focusVal C vars
  = existsb (verdict (cpredicate C)) (candidateTuples focusVar focusVal C vars) /\
  (forall tuple, cpredicate C tuple = None -> verdict (cpredicate C) tuple = false) /\
  (forall others,
     collectOthers focusVar (cvars C) vars = Some others ->
     length (candidateTuples focusVar focusVal C vars)
     = fold_right Nat.mul 1 (map (fun o => length (getOrNil o vars)) others)) /\
  (forall tuple,
     In tuple (candidateTuples focusVar focusVal C vars) ->
     SupportTuple focusVar focusVal C vars tuple) /\
  (forall tuple,
     In tuple (candidateTuples focusVar focusVal C vars) ->
     cpredicate C tuple = Some true ->
     hasSupport focusVar focusVal C vars = true) /\
  ((forall tuple,
      In tuple (candidateTuples focusVar focusVal C vars) ->
      cpredicate C tuple = None \/ cpredicate C tuple = Some false) ->
   hasSupport focusVar focusVal C vars = false) /\
  hasSupport focusVar focusVal C vars
  = hasSupport focusVar focusVal (withPredicate C (failClosed (cpredicate C))) vars /\
  ((forall tuple, cpredicate C tuple = None) ->
   (forall o, In o (cvars C) -> o <> focusVar ->
      exists dom, Obj.get o vars = Some dom /\ dom <> []) ->
   hasSupport focusVar focusVal C vars = false /\
   Legacy.hasSupport focusVar focusVal C vars
   = Some (Legacy.Throws Legacy.PredicateError)).
Proof.
  assert (Heq : hasSupport focusVar focusVal C vars
                = existsb (verdict (cpredicate C))
                    (candidateTuples focusVar focusVal C vars)).
  { unfold hasSupport, candidateTuples.
    destruct (collectOthers focusVar (cvars C) vars); [|reflexivity].
    cbv zeta. apply dfs_tuples. }
  assert (Hnone : (forall tuple,
                     In tuple (candidateTuples focusVar focusVal C vars) ->
                     cpredicate C tuple = None \/ cpredicate C tuple = Some false) ->
                  hasSupport focusVar focusVal C vars = false).
  { intros Hall. rewrite Heq.
    destruct (existsb (verdict (cpredicate C))
                (candidateTuples focusVar focusVal C vars)) eqn:E; [|reflexivity].
    apply existsb_exists in E. destruct E as (tuple & Hin & Hv).
    unfold verdict in Hv. destruct (Hall tuple Hin) as [Hp|Hp]; rewrite Hp in Hv;
      discriminate. }
  split; [exact Heq|]. split; [|split; [|split; [|split; [|split; [|split]]]]].
  - intros tuple Hp. unfold verdict. now rewrite Hp.
  - intros others Hc. unfold candidateTuples. rewrite Hc. cbv zeta.
    rewrite tuples_length. cbn [combine map fold_right snd length].
    rewrite combine_map_self, map_map. cbn [snd]. rewrite Nat.mul_1_l.
    apply product_perm, sortBy_perm.
  - intros tuple. apply candidateTuples_support.
  - intros tuple Hin Hp. rewrite Heq. apply existsb_exists.
    exists tuple. split; [exact Hin|]. unfold verdict. now rewrite Hp.
  - exact Hnone.
  - unfold hasSupport. simpl.
    destruct (collectOthers focusVar (cvars C) vars); [|reflexivity].
    cbv zeta. now rewrite dfs_failClosed.
  - intros Hp Hdom. split.
    + apply Hnone. intros tuple _. left. apply Hp.
    + now apply LegacyOracle.hasSupport_raises.
Qed.

(** C4. Support Oracle correctness: for a predicate that reads its tuple
    through its properties, [hasSupport] answers [true] exactly when some
    tuple binds the focus variable to the focus value and every other
    participant to a value of its current domain, and the predicate
    returns a truthy value on it.  When another participant's domain is
    missing or empty, the answer is [false]. *)
Theorem hasSupport_correct focusVar (focusVal : V) C vars :
  Extensional (cpredicate C) ->
  (hasSupport focusVar focusVal C vars = true <->
   exists tuple,
     SupportTuple focusVar focusVal C vars tuple /\ cpredicate C tuple = Some true) /\
  (forall o, In o (cvars C) -> o <> focusVar ->
     Obj.get o vars = None \/ Obj.get o vars = Some [] ->
     hasSupport focusVar focusVal C vars = false).
Proof.
  intros Hext. split.
  - split.
    + apply hasSupport_sound.
    + intros (tuple & Ht & Hp). eapply hasSupport_complete; eauto.
  - intros o Ho Hne Hd. unfold hasSupport.
    now rewrite (collectOthers_missing focusVar (cvars C) vars o Ho Hne Hd).
Qed.

(** C7. Domain monotonicity: a consistency pass always ends, and whether
    it ends in success or in failure, the mapping it leaves has the
    variables of the input mapping, each with a domain that is a
    subsequence of its input domain, hence no longer. *)
Theorem consistencyPass_monotone A U csp :
  exists ok vars',
    consistencyPass A U csp = Some (ok, vars') /\
    Shrunk (partialAssignment A U) vars' /\
    Obj.keys vars' = Obj.keys (partialAssignment A U) /\
    (forall k dom',
       Obj.get k vars' = Some dom' ->
       exists dom,
         Obj.get k (partialAssignment A U) = Some dom /\
         Subseq dom' dom /\ length dom' <= length dom /\
         (forall v, In v dom' -> In v dom)).
Proof.
  destruct (consistencyPass_terminates A U csp) as [[ok vars'] H].
  exists ok, vars'. split; [exact H|].
  destruct (consistencyPass_shrunk _ _ _ _ _ H) as (Hs & Hk).
  split; [exact Hs|]. split; [exact Hk|].
  intros k dom' Hd. destruct (Shrunk_get _ _ _ _ Hs Hd) as (dom & Hdom & Hsub).
  exists dom. split; [exact Hdom|]. split; [exact Hsub|].
  split; [now apply Subseq_length|]. intros v. now apply Subseq_In.
Qed.

(** C10. Termination of consistency propagation: [enforceConsistency]
    returns for every problem and mapping.  Each turn of the AC-3 loop
    that goes on strictly lowers [size * |constraints| + |queue|], each
    turn of the GAC loop strictly lowers [size * |index| + |queue|],
    where [size] is the total size of the domains; so both loops halt
    within the fuel their callers pass, and more fuel changes nothing. *)
Theorem enforceConsistency_terminates A U csp :
  (exists r, enforceConsistency A U csp = Some r) /\
  (forall vars cs queue vars' queue',
     ac3Step cs vars queue = Ac3Next vars' queue' ->
     totalSize vars' * length cs + length queue'
     < totalSize vars * length cs + length queue) /\
  (forall vars index queue vars' queue',
     gacStep index vars queue = GacNext vars' queue' ->
     totalSize vars' * indexSize index + length queue'
     < totalSize vars * indexSize index + length queue) /\
  (forall vars cs,
     exists r, runAC3 vars cs = Some r /\
               forall fuel, totalSize vars * length cs + length cs < fuel ->
                            ac3Loop fuel cs vars cs = Some r) /\
  (forall vars,
     exists r, runGAC vars csp = Some r /\
               forall fuel,
                 totalSize vars * indexSize (naryIndexOf csp)
                 + length (naryConstraints csp) < fuel ->
                 gacLoop fuel (naryIndexOf csp) vars (naryConstraints csp) = Some r).
Proof.
  split; [|split; [|split; [|split]]].
  - unfold enforceConsistency.
    destruct (consistencyPass_terminates A U csp) as [r ->]. eauto.
  - intros vars cs queue vars' queue'. apply ac3Step_measure.
  - intros vars index queue vars' queue'. apply gacStep_measure.
  - intros vars cs. destruct (runAC3_terminates vars cs) as [r Hr].
    exists r. split; [exact Hr|]. intros fuel Hf.
    unfold runAC3 in Hr. eapply ac3Loop_mono; [exact Hr | lia].
  - intros vars. destruct (runGAC_terminates vars csp) as [r Hr].
    exists r. split; [exact Hr|]. intros fuel Hf.
    unfold runGAC in Hr. eapply gacLoop_mono; [exact Hr | lia].
Qed.


End OracleAndPass.

(** * Idempotence of the consistency pass *)

Section Idempotence.
Context {V : Type}.
Implicit Types (vars A U : @Vars V) (csp : @Problem V).

(** C5, as amended.  For a problem whose constraints are all of one kind
    (no n-ary constraint, or no binary constraint), running
    [enforceConsistency] on the mapping that a successful pass returned,
    however it is split into assigned and unassigned variables, succeeds
    and returns the same domain for every variable. *)
Theorem enforceConsistency_idempotent_one_kind A U csp vars1 A' U' :
  naryConstraints csp = [] \/
  (constraints csp = [] /\ WellIndexed csp /\
   DistinctIdentities (naryConstraints csp)) ->
  enforceConsistency A U csp = Some (Value vars1) ->
  (forall k, Obj.get k (partialAssignment A' U') = Obj.get k vars1) ->
  exists vars2,
    enforceConsistency A' U' csp = Some (Value vars2) /\
    forall k, Obj.get k vars2 = Obj.get k vars1.
Proof.
  intros Hkind H1 Hsame. apply enforceConsistency_Value in H1.
  exists (partialAssignment A' U'). split; [|exact Hsame].
  assert (Hsym : forall k, Obj.get k vars1 = Obj.get k (partialAssignment A' U'))
    by (intros k; symmetry; apply Hsame).
  unfold enforceConsistency, consistencyPass in *.
  destruct Hkind as [Hn|(Hb & Hidx & Hid)].
  - rewrite Hn in *. simpl in *.
    destruct (Nat.eqb (length (constraints csp)) 0); [reflexivity|].
    destruct (runAC3 (partialAssignment A U) (constraints csp)) as [[ok1 mid]|] eqn:E1;
      [|discriminate].
    destruct ok1; simpl in H1; inversion H1; subst mid.
    rewrite runAC3_fixpoint; [reflexivity|].
    intros c Hc. apply (arcConsistent_ext c vars1 _ Hsym).
    now apply (runAC3_consistent _ _ _ E1).
  - rewrite Hb in *. simpl in *.
    destruct (Nat.eqb (length (naryConstraints csp)) 0); [reflexivity|].
    unfold runGAC in *. rewrite gacLoop_fixpoint; [reflexivity | | lia].
    intros C HC. apply (gacStable_ext C vars1 _ (fun k _ => Hsym k)).
    refine (gacLoop_stable (naryConstraints csp) (naryIndexOf csp) Hid _ _
              _ _ (naryConstraints csp) vars1 _ _ H1 C HC).
    + intros C0 v HC0 Hv. rewrite Hidx. apply adjacency_spec. auto.
    + intros C0 HC0. rewrite Hidx in HC0. eapply adjacency_sound; eauto.
    + auto.
    + intros C0 HC0. left. exists C0. auto.
Qed.

End Idempotence.

(** C5, as stated, fails: on [mixedProblem] the first pass keeps both
    values of [y], and a second pass on its result removes one. *)
Lemma enforceConsistency_not_idempotent :
  exists vars1 vars2,
    enforceConsistency [] Examples.mixedVars Examples.mixedProblem = Some (Value vars1) /\
    enforceConsistency [] vars1 Examples.mixedProblem = Some (Value vars2) /\
    Obj.get "y" vars1 = Some [1; 2] /\
    Obj.get "y" vars2 = Some [1].
Proof.
  exists [("x", [1]); ("y", [1; 2])], [("x", [1]); ("y", [1])].
  repeat split; vm_compute; reflexivity.
Qed.

Lemma enforceConsistency_idempotent_one_kind_witness :
  enforceConsistency [] Examples.arcVars Examples.arcProblem
  = Some (Value [("x", [1; 2; 3]); ("y", [2; 3])]) /\
  exists vars2,
    enforceConsistency [] [("x", [1; 2; 3]); ("y", [2; 3])] Examples.arcProblem
    = Some (Value vars2) /\
    forall k, Obj.get k vars2 = Obj.get k [("x", [1; 2; 3]); ("y", [2; 3])].
Proof.
  split; [vm_compute; reflexivity|].
  apply (enforceConsistency_idempotent_one_kind
           [] Examples.arcVars Examples.arcProblem [("x", [1; 2; 3]); ("y", [2; 3])]
           [] [("x", [1; 2; 3]); ("y", [2; 3])]).
  - left. reflexivity.
  - vm_compute. reflexivity.
  - intros k. reflexivity.
Defined.

(** * Validation of domains *)

(** C2.  A domain that is not an array does not make [solve] throw:
    [normalizeProblem] has replaced it by an empty array before
    [validateProblem] looks at it, and [solve] returns the failure
    sentinel.  The check that would throw is in [validateProblem], which
    rejects the same description when it sees it as the caller wrote it;
    after [normalizeProblem] it never fires. *)
Theorem solve_bad_domain :
  solve Examples.natKey Examples.badDomainProblem = Some (Returned FAILURE) /\
  validateProblem Examples.badDomainUnnormalized = Some (InvalidDomain "x") /\
  (forall (V : Type) (raw : @RawProblem V) v,
     validateProblem (normalizeProblem raw) <> Some (InvalidDomain v)).
Proof.
  split; [vm_compute; reflexivity|]. split; [vm_compute; reflexivity|].
  intros V raw v. unfold validateProblem.
  assert (E : firstError
                (fun kd : string * @RawDomain V =>
                   if isArray (snd kd) then None else Some (InvalidDomain (fst kd)))
                (variables (normalizeProblem raw)) = None).
  { apply firstError_None. intros [k d] Hin.
    pose proof (normalizeProblem_arrays raw k d Hin) as Ha.
    destruct d; simpl in *; [reflexivity | discriminate]. }
  rewrite E.
  assert (Hfe : forall (E0 : Type) (check : E0 -> option Error) (l : list E0) e,
            firstError check l = Some e -> exists x, In x l /\ check x = Some e).
  { intros E0 check l e. induction l as [|x l IH]; simpl; [discriminate|].
    destruct (check x) eqn:Ec.
    - intros H. inversion H; subst. exists x. auto.
    - intros H. destruct (IH H) as (y & Hy & Hc). exists y. auto. }
  destruct (firstError _ (constraints (normalizeProblem raw))) as [e|] eqn:E2.
  - intros H. inversion H; subst e. apply Hfe in E2.
    destruct E2 as ([[h t] p] & _ & Hc).
    destruct (varsSetHas _ h); simpl in Hc; [|discriminate].
    destruct (varsSetHas _ t); simpl in Hc; discriminate.
  - intros H. apply Hfe in H. destruct H as (C & _ & Hc).
    destruct (Nat.eqb (length (cvars C)) 0); [discriminate|].
    apply Hfe in Hc. destruct Hc as (x & _ & Hc).
    destruct (varsSetHas _ x); simpl in Hc; discriminate.
Qed.

(** * The theorems at concrete inputs *)

Lemma tripleProblem_identities :
  DistinctIdentities (naryConstraints (normalizeProblem Examples.tripleProblem)).
Proof. intros C C' [<-|[]] [<-|[]] _. reflexivity. Defined.

Lemma tripleProblem_ownNames :
  OwnNames (variables (normalizeProblem Examples.tripleProblem)).
Proof. intros k [<-|[<-|[<-|[]]]]; reflexivity. Defined.

Lemma solve_sound_witness :
  solve Examples.natKey Examples.tripleProblem
  = Some (Returned (Value Examples.tripleSolution)) /\
  (exists vh vt,
     Obj.get "a" Examples.tripleSolution = Some (Some vh) /\
     Obj.get "b" Examples.tripleSolution = Some (Some vt) /\
     Nat.ltb vh vt = true) /\
  (exists tuple,
     Examples.allDifferentSum6 tuple = Some true /\
     (forall k, In k ["a"; "b"; "c"] ->
        exists v, Obj.get k tuple = Some v /\
                  Obj.get k Examples.tripleSolution = Some (Some v)) /\
     (forall k, ~ In k ["a"; "b"; "c"] -> Obj.get k tuple = None)).
Proof.
  assert (Hs : solve Examples.natKey Examples.tripleProblem
               = Some (Returned (Value Examples.tripleSolution)))
    by (vm_compute; reflexivity).
  split; [exact Hs|].
  destruct (solve_sound Examples.natKey Examples.tripleProblem Examples.tripleSolution
              tripleProblem_ownNames tripleProblem_identities Hs)
    as (_ & _ & _ & _ & Hbin & Hnary).
  split.
  - apply (Hbin "a" "b" Nat.ltb). left. reflexivity.
  - apply (Hnary Examples.tripleConstraint). left. reflexivity.
Defined.


Lemma allDifferentSum6_extensional : Extensional Examples.allDifferentSum6.
Proof.
  intros tuple tuple' H. unfold Examples.allDifferentSum6. now rewrite !H.
Defined.

Lemma hasSupport_correct_witness :
  (hasSupport "a" 1 Examples.tripleConstraint
     [("a", [1; 2; 3]); ("b", [1; 2; 3]); ("c", [1; 2; 3])] = true <->
   exists tuple,
     SupportTuple "a" 1 Examples.tripleConstraint
       [("a", [1; 2; 3]); ("b", [1; 2; 3]); ("c", [1; 2; 3])] tuple /\
     Examples.allDifferentSum6 tuple = Some true) /\
  hasSupport "a" 1 Examples.tripleConstraint [("a", [1]); ("b", []); ("c", [3])] = false.
Proof.
  split.
  - apply (hasSupport_correct "a" 1 Examples.tripleConstraint
             [("a", [1; 2; 3]); ("b", [1; 2; 3]); ("c", [1; 2; 3])]
             allDifferentSum6_extensional).
  - apply (proj2 (hasSupport_correct "a" 1 Examples.tripleConstraint
                    [("a", [1]); ("b", []); ("c", [3])]
                    allDifferentSum6_extensional) "b").
    + right. left. reflexivity.
    + discriminate.
    + right. reflexivity.
Defined.

Lemma hasSupport_fail_closed_witness :
  candidateTuples "x" 2 Examples.raisesOnZero Examples.raisesVars
  = [[("x", 2); ("y", 0)]; [("x", 2); ("y", 1)]; [("x", 2); ("y", 2)]] /\
  cpredicate Examples.raisesOnZero [("x", 2); ("y", 0)] = None /\
  hasSupport "x" 2 Examples.raisesOnZero Examples.raisesVars = true /\
  hasSupport "x" 5 Examples.raisesOnZero Examples.raisesVars = false.
Proof.
  split; [reflexivity|]. split; [reflexivity|]. split.
  - apply (proj1 (proj2 (proj2 (proj2 (proj2
             (hasSupport_fail_closed "x" 2 Examples.raisesOnZero Examples.raisesVars)))))
             [("x", 2); ("y", 1)]).
    + right. left. reflexivity.
    + reflexivity.
  - apply (proj1 (proj2 (proj2 (proj2 (proj2 (proj2
             (hasSupport_fail_closed "x" 5 Examples.raisesOnZero Examples.raisesVars))))))).
    intros tuple [<-|[<-|[<-|[]]]]; [left | right | right]; reflexivity.
Defined.

(** The earlier variant has no [try]: on the same input the error of the
    predicate leaves [hasSupport], although the next tuple satisfies
    the constraint. *)
Lemma hasSupport_legacy_propagates :
  Legacy.hasSupport "x" 2 Examples.raisesOnZero Examples.raisesVars
  = Some (Legacy.Throws Legacy.PredicateError) /\
  cpredicate Examples.raisesOnZero [("y", 0); ("x", 2)] = None /\
  cpredicate Examples.raisesOnZero [("y", 1); ("x", 2)] = Some true /\
  hasSupport "x" 2 Examples.raisesOnZero Examples.raisesVars = true.
Proof. repeat split; vm_compute; reflexivity. Qed.


(** * What [solve] writes *)

Module MemFacts.
Import Mem.

Section Facts.
Context {V : Type}.
Variable toKey : V -> string.
Implicit Types (h : @Heap V) (base : nat) (c : @Cell V).

Lemma Frame_refl base h : Frame base h h.
Proof. split; auto. Qed.

Lemma Frame_trans base h1 h2 h3 :
  Frame base h1 h2 -> Frame base h2 h3 -> Frame base h1 h3.
Proof.
  intros (L1 & F1) (L2 & F2). split; [lia|].
  intros r Hr. rewrite F2, F1; auto.
Qed.

Lemma nth_error_update r c h r' :
  r' <> r -> nth_error (update r c h) r' = nth_error h r'.
Proof.
  revert r r'. induction h as [|c0 h IH]; intros r r' Hne.
  - destruct r; reflexivity.
  - destruct r as [|r]; destruct r' as [|r']; simpl; auto; try congruence.
Qed.

Lemma length_update r c h : length (update r c h) = length h.
Proof.
  revert r. induction h as [|c0 h IH]; intros r.
  - destruct r; reflexivity.
  - destruct r; simpl; auto.
Qed.

(** ** The rules of the store *)

Lemma Safe_ret {A : Type} base (a : A) (P : A -> Prop) :
  P a -> Safe base (@ret V A a) P.
Proof.
  intros Ha h a' h' _ H. inversion H; subst. split; [apply Frame_refl | exact Ha].
Qed.

Lemma Safe_fail {A : Type} base (P : A -> Prop) : Safe base (@fail V A) P.
Proof. intros h a h' _ H. discriminate. Qed.

Lemma Safe_bind {A B : Type} base (m : @M V A) (k : A -> @M V B)
  (P : A -> Prop) (Q : B -> Prop) :
  Safe base m P -> (forall a, P a -> Safe base (k a) Q) -> Safe base (bind m k) Q.
Proof.
  intros Hm Hk h b h' Hb H. unfold bind in H.
  destruct (m h) as [[a h1]|] eqn:E; [|discriminate].
  destruct (Hm h a h1 Hb E) as (F1 & Pa).
  assert (Hb1 : base <= length h1) by (destruct F1; lia).
  destruct (Hk a Pa h1 b h' Hb1 H) as (F2 & Qb).
  split; [eapply Frame_trans; eauto | exact Qb].
Qed.

Lemma Safe_weaken {A : Type} base (m : @M V A) (P Q : A -> Prop) :
  Safe base m P -> (forall a, P a -> Q a) -> Safe base m Q.
Proof.
  intros Hm HPQ h a h' Hb H. destruct (Hm h a h' Hb H). auto.
Qed.

Lemma Safe_alloc base c : Safe base (alloc c) (fun r => base <= r).
Proof.
  intros h r h' Hb H. unfold alloc in H. inversion H; subst. split; [|exact Hb].
  split; [rewrite length_app; lia|].
  intros r Hr. apply nth_error_app1. lia.
Qed.

Lemma Safe_load base r : Safe base (@load V r) (fun _ => True).
Proof.
  intros h c h' _ H. unfold load in H.
  destruct (nth_error h r); inversion H; subst. split; [apply Frame_refl | exact I].
Qed.

Lemma Safe_store base r c : base <= r -> Safe base (store r c) (fun _ => True).
Proof.
  intros Hr h u h' _ H. unfold store in H.
  destruct (Nat.ltb r (length h)); inversion H; subst. split; [|exact I].
  split; [rewrite length_update; lia|].
  intros r' Hr'. apply nth_error_update. lia.
Qed.

Lemma Safe_loadObject base r : Safe base (@loadObject V r) (fun _ => True).
Proof.
  unfold loadObject. eapply Safe_bind; [apply Safe_load|].
  intros c _. destruct c; try apply Safe_fail. now apply Safe_ret.
Qed.

Lemma Safe_loadArray base r : Safe base (@loadArray V r) (fun _ => True).
Proof.
  unfold loadArray. eapply Safe_bind; [apply Safe_load|].
  intros c _. destruct c; try apply Safe_fail. now apply Safe_ret.
Qed.

Lemma Safe_setProp base o k (s : @Slot V) :
  base <= o -> Safe base (setProp o k s) (fun _ => True).
Proof.
  intros Ho. unfold setProp. eapply Safe_bind; [apply Safe_loadObject|].
  intros props _. now apply Safe_store.
Qed.

Lemma Safe_deleteProp base o k :
  base <= o -> Safe base (@deleteProp V o k) (fun _ => True).
Proof.
  intros Ho. unfold deleteProp. eapply Safe_bind; [apply Safe_loadObject|].
  intros props _. now apply Safe_store.
Qed.

Lemma Safe_sliceArray base a : Safe base (@sliceArray V a) (fun r => base <= r).
Proof.
  unfold sliceArray. eapply Safe_bind; [apply Safe_loadArray|].
  intros elems _. apply Safe_alloc.
Qed.

Lemma Safe_forProps base (body : string -> @Slot V -> @M V unit) props :
  (forall k s, Safe base (body k s) (fun _ => True)) ->
  Safe base (forProps body props) (fun _ => True).
Proof.
  intros Hbody. induction props as [|[k s] rest IH]; simpl.
  - now apply Safe_ret.
  - eapply Safe_bind; [apply Hbody|]. intros _ _. exact IH.
Qed.

Lemma Safe_loadDomains base (props : Obj.t (@Slot V)) :
  Safe base (loadDomains props) (fun _ => True).
Proof.
  induction props as [|[k [d|v]] rest IH]; simpl.
  - now apply Safe_ret.
  - eapply Safe_bind; [apply Safe_loadArray|]. intros dom _.
    eapply Safe_bind; [exact IH|]. intros doms _. now apply Safe_ret.
  - apply Safe_fail.
Qed.

Lemma Safe_loadVars base o : Safe base (@loadVars V o) (fun _ => True).
Proof.
  unfold loadVars. eapply Safe_bind; [apply Safe_loadObject|].
  intros props _. apply Safe_loadDomains.
Qed.

Lemma Safe_copySlice base out k (s : @Slot V) :
  base <= out -> Safe base (copySlice out k s) (fun _ => True).
Proof.
  intros Ho. destruct s as [d|v]; simpl; [|apply Safe_fail].
  eapply Safe_bind; [apply Safe_sliceArray|]. intros d' _. now apply Safe_setProp.
Qed.

(** ** Helpers: cloning and checks *)

Lemma Safe_cloneVars base variables :
  Safe base (@cloneVars V variables) (fun out => base <= out).
Proof.
  unfold cloneVars. eapply Safe_bind; [apply Safe_alloc|]. intros out Hout.
  eapply Safe_bind; [apply Safe_loadObject|]. intros props _.
  eapply Safe_bind; [apply Safe_forProps; intros; now apply Safe_copySlice|].
  intros _ _. now apply Safe_ret.
Qed.

Lemma Safe_cloneAssignment base assigned :
  Safe base (@cloneAssignment V assigned) (fun out => base <= out).
Proof. apply Safe_cloneVars. Qed.

Lemma Safe_finished base unassigned :
  Safe base (@finished V unassigned) (fun _ => True).
Proof.
  unfold finished. eapply Safe_bind; [apply Safe_loadObject|].
  intros props _. now apply Safe_ret.
Qed.

Lemma Safe_anyEmpty base vars : Safe base (@Mem.anyEmpty V vars) (fun _ => True).
Proof.
  unfold Mem.anyEmpty. eapply Safe_bind; [apply Safe_loadVars|].
  intros view _. now apply Safe_ret.
Qed.

Lemma Safe_partialAssignment base assigned unassigned :
  Safe base (@Mem.partialAssignment V assigned unassigned) (fun out => base <= out).
Proof.
  unfold Mem.partialAssignment. eapply Safe_bind; [apply Safe_alloc|].
  intros partial Hp.
  eapply Safe_bind; [apply Safe_loadObject|]. intros uprops _.
  eapply Safe_bind; [apply Safe_forProps; intros; now apply Safe_copySlice|].
  intros _ _.
  eapply Safe_bind; [apply Safe_loadObject|]. intros aprops _.
  eapply Safe_bind; [apply Safe_forProps; intros; now apply Safe_copySlice|].
  intros _ _. now apply Safe_ret.
Qed.

(** ** Consistency: AC-3 + GAC *)

Lemma Safe_ac3Loop base fuel cs variables queue :
  base <= variables ->
  Safe base (@Mem.ac3Loop V fuel cs variables queue) (fun _ => True).
Proof.
  intros Hv. revert queue. induction fuel as [|fuel IH]; intros queue; simpl.
  - apply Safe_fail.
  - destruct queue as [|[[head tail] predicate] rest]; [now apply Safe_ret|].
    eapply Safe_bind; [apply Safe_loadObject|]. intros props _.
    destruct (Obj.get head props) as [[hr|hv]|]; destruct (Obj.get tail props) as [[tr|tv]|];
      try apply Safe_fail; try apply IH.
    eapply Safe_bind; [apply Safe_loadArray|]. intros hv _.
    eapply Safe_bind; [apply Safe_loadArray|]. intros tv _.
    eapply Safe_bind; [apply Safe_alloc|]. intros valid _.
    eapply Safe_bind; [now apply Safe_setProp|]. intros _ _.
    destruct (negb _); [|apply IH].
    destruct (Nat.eqb _ 0); [now apply Safe_ret | apply IH].
Qed.

Lemma Safe_runAC3 base variables cs :
  base <= variables -> Safe base (@Mem.runAC3 V variables cs) (fun _ => True).
Proof.
  intros Hv. unfold Mem.runAC3. eapply Safe_bind; [apply Safe_loadVars|].
  intros view _. now apply Safe_ac3Loop.
Qed.

Lemma Safe_reviseVars base C vars variables changedAny :
  base <= variables ->
  Safe base (@Mem.reviseVars V C vars variables changedAny) (fun _ => True).
Proof.
  intros Hv. revert changedAny. induction vars as [|varName vars IH]; intros changedAny; simpl.
  - now apply Safe_ret.
  - eapply Safe_bind; [apply Safe_loadObject|]. intros props _.
    destruct (Obj.get varName props) as [[d|v]|]; try apply IH.
    eapply Safe_bind; [apply Safe_loadArray|]. intros dom _.
    eapply Safe_bind; [apply Safe_loadDomains|]. intros view _.
    eapply Safe_bind; [apply Safe_alloc|]. intros newDom _.
    destruct (Nat.eqb _ (length dom)); [apply IH|].
    eapply Safe_bind; [now apply Safe_setProp|]. intros _ _.
    destruct (Nat.eqb _ 0); [now apply Safe_ret | apply IH].
Qed.

Lemma Safe_gacLoop base fuel index variables queue :
  base <= variables ->
  Safe base (@Mem.gacLoop V fuel index variables queue) (fun _ => True).
Proof.
  intros Hv. revert queue. induction fuel as [|fuel IH]; intros queue; simpl.
  - apply Safe_fail.
  - destruct queue as [|C rest]; [now apply Safe_ret|].
    eapply Safe_bind; [now apply Safe_reviseVars|]. intros changed _.
    destruct changed as [changedAny|]; [apply IH | now apply Safe_ret].
Qed.

Lemma Safe_runGAC base variables csp :
  base <= variables -> Safe base (@Mem.runGAC V variables csp) (fun _ => True).
Proof.
  intros Hv. unfold Mem.runGAC. eapply Safe_bind; [apply Safe_loadVars|].
  intros view _. now apply Safe_gacLoop.
Qed.

Lemma Safe_enforceConsistency base assigned unassigned csp :
  Safe base (@Mem.enforceConsistency V assigned unassigned csp) (FreshResult base).
Proof.
  unfold Mem.enforceConsistency.
  eapply Safe_bind; [apply Safe_partialAssignment|]. intros variables Hv.
  eapply Safe_bind with (P := fun _ => True).
  { destruct (Nat.eqb _ 0); [now apply Safe_ret | now apply Safe_runAC3]. }
  intros ok _. destruct (negb ok); [now apply Safe_ret|].
  eapply Safe_bind with (P := fun _ => True).
  { destruct (Nat.eqb _ 0); [now apply Safe_ret | now apply Safe_runGAC]. }
  intros ok2 _. destruct (negb ok2); now apply Safe_ret.
Qed.

(** ** Heuristics *)

Lemma Safe_selectUnassignedVariable base unassigned :
  Safe base (@Mem.selectUnassignedVariable V unassigned) (fun _ => True).
Proof.
  unfold Mem.selectUnassignedVariable. eapply Safe_bind; [apply Safe_loadVars|].
  intros view _. now apply Safe_ret.
Qed.

Lemma Safe_scoreValues base nextKey assigned unassigned csp baseValues score :
  Safe base (Mem.scoreValues toKey nextKey assigned unassigned csp baseValues score)
    (fun _ => True).
Proof.
  revert score. induction baseValues as [|val rest IH]; intros score; simpl.
  - now apply Safe_ret.
  - eapply Safe_bind; [apply Safe_cloneAssignment|]. intros A HA.
    eapply Safe_bind; [apply Safe_cloneVars|]. intros U HU.
    eapply Safe_bind; [apply Safe_alloc|]. intros single _.
    eapply Safe_bind; [now apply Safe_setProp|]. intros _ _.
    eapply Safe_bind; [now apply Safe_deleteProp|]. intros _ _.
    eapply Safe_bind; [apply Safe_enforceConsistency|]. intros res _.
    eapply Safe_bind with (P := fun _ => True); [|intros s _; apply IH].
    destruct res as [|r]; [now apply Safe_ret|].
    eapply Safe_bind; [apply Safe_loadVars|]. intros view _. now apply Safe_ret.
Qed.

Lemma Safe_orderValues base nextKey assigned unassigned csp :
  Safe base (Mem.orderValues toKey nextKey assigned unassigned csp) (fun _ => True).
Proof.
  unfold Mem.orderValues. eapply Safe_bind; [apply Safe_loadObject|]. intros props _.
  eapply Safe_bind with (P := fun _ => True).
  { destruct (Obj.get nextKey props) as [[d|v]|];
      [apply Safe_loadArray | now apply Safe_ret | now apply Safe_ret]. }
  intros baseValues _. destruct (Nat.leb _ 1); [now apply Safe_ret|].
  eapply Safe_bind; [apply Safe_scoreValues|]. intros score _. now apply Safe_ret.
Qed.

(** ** Core search *)

Lemma Safe_tryValues base recurse nextKey unassigned csp values assigned :
  base <= assigned ->
  (forall a u, base <= a -> base <= u -> Safe base (recurse a u) (FreshResult base)) ->
  Safe base (@Mem.tryValues V recurse nextKey unassigned csp values assigned)
    (FreshResult base).
Proof.
  intros Ha Hrec. induction values as [|val rest IH]; simpl.
  - now apply Safe_ret.
  - assert (Hback : Safe base
                      (bind (deleteProp assigned nextKey)
                         (fun _ => Mem.tryValues recurse nextKey unassigned csp rest assigned))
                      (FreshResult base)).
    { eapply Safe_bind; [now apply Safe_deleteProp|]. intros _ _. exact IH. }
    eapply Safe_bind; [apply Safe_alloc|]. intros single _.
    eapply Safe_bind; [now apply Safe_setProp|]. intros _ _.
    eapply Safe_bind; [apply Safe_enforceConsistency|]. intros [|consistent] _;
      [exact Hback|].
    eapply Safe_bind; [apply Safe_alloc|]. intros newAssigned HnA.
    eapply Safe_bind; [apply Safe_alloc|]. intros newUnassigned HnU.
    eapply Safe_bind; [apply Safe_loadObject|]. intros cprops _.
    eapply Safe_bind; [apply Safe_loadObject|]. intros aprops _.
    eapply Safe_bind.
    { apply Safe_forProps. intros k s.
      destruct (Obj.has k aprops || inherited k); now apply Safe_copySlice. }
    intros _ _.
    eapply Safe_bind; [apply Safe_anyEmpty|]. intros empty _.
    destruct empty; [exact Hback|].
    eapply Safe_bind; [now apply Hrec|]. intros [|r] Hr; [exact Hback|].
    now apply Safe_ret.
Qed.

Lemma Safe_backtrack base fuel _assigned unassigned csp :
  base <= unassigned ->
  Safe base (Mem.backtrack toKey fuel _assigned unassigned csp) (FreshResult base).
Proof.
  revert _assigned unassigned. induction fuel as [|fuel IH];
    intros _assigned unassigned Hu; simpl.
  - apply Safe_fail.
  - eapply Safe_bind; [apply Safe_cloneAssignment|]. intros assigned Ha.
    eapply Safe_bind; [apply Safe_finished|]. intros done _.
    destruct done; [now apply Safe_ret|].
    eapply Safe_bind; [apply Safe_selectUnassignedVariable|]. intros [nextKey|] _;
      [|now apply Safe_ret].
    eapply Safe_bind; [apply Safe_orderValues|]. intros values _.
    eapply Safe_bind; [apply Safe_loadObject|]. intros props _.
    eapply Safe_bind; [now apply Safe_deleteProp|]. intros _ _.
    eapply Safe_bind.
    { apply Safe_tryValues; [exact Ha|]. intros a u _ Hu'. now apply IH. }
    intros [|r] Hr; [|now apply Safe_ret].
    eapply Safe_bind; [now apply Safe_setProp|]. intros _ _. now apply Safe_ret.
Qed.

(** ** Validation, normalization and [solve] *)

Lemma Safe_normalizeDomain base (s : @Slot V) :
  Safe base (normalizeDomain s) (fun r => base <= r).
Proof.
  destruct s as [d|v]; simpl; [|apply Safe_alloc].
  eapply Safe_bind; [apply Safe_load|]. intros c _. destruct c; apply Safe_alloc.
Qed.

Lemma Safe_normalizeProblem base csp :
  Safe base (@Mem.normalizeProblem V csp) (fun out => base <= out).
Proof.
  unfold Mem.normalizeProblem. eapply Safe_bind; [apply Safe_load|]. intros c _.
  destruct c as [| | | |variables constraints naryConstraints index]; try apply Safe_fail.
  eapply Safe_bind; [apply Safe_alloc|]. intros outVariables Hov.
  eapply Safe_bind with (P := fun _ => True).
  { destruct variables as [vs|]; [|now apply Safe_ret].
    eapply Safe_bind; [apply Safe_load|]. intros vc _.
    destruct vc; try apply Safe_fail.
    apply Safe_forProps. intros k s.
    eapply Safe_bind; [apply Safe_normalizeDomain|]. intros dom _.
    now apply Safe_setProp. }
  intros _ _.
  eapply Safe_bind with (P := fun _ => True).
  { destruct constraints as [cs|].
    - eapply Safe_bind; [apply Safe_load|]. intros cc _.
      destruct cc; (eapply Safe_weaken; [apply Safe_alloc | auto]).
    - eapply Safe_weaken; [apply Safe_alloc | auto]. }
  intros outConstraints _.
  eapply Safe_bind with (P := fun _ => True).
  { destruct naryConstraints as [ns|].
    - eapply Safe_bind; [apply Safe_load|]. intros nc _.
      destruct nc; (eapply Safe_weaken; [apply Safe_alloc | auto]).
    - eapply Safe_weaken; [apply Safe_alloc | auto]. }
  intros outNary _. apply Safe_alloc.
Qed.

Lemma Safe_loadRawDomains base (props : Obj.t (@Slot V)) :
  Safe base (loadRawDomains props) (fun _ => True).
Proof.
  induction props as [|[k s] rest IH]; simpl.
  - now apply Safe_ret.
  - eapply Safe_bind with (P := fun _ => True).
    { destruct s as [r|v]; [|now apply Safe_ret].
      eapply Safe_bind; [apply Safe_load|]. intros c _. now apply Safe_ret. }
    intros d _. eapply Safe_bind; [exact IH|]. intros ds _. now apply Safe_ret.
Qed.

Lemma Safe_loadProblem base csp : Safe base (@loadProblem V csp) (fun _ => True).
Proof.
  unfold loadProblem. eapply Safe_bind; [apply Safe_load|]. intros c _.
  destruct c as [| | | |[vs|] [cs|] [ns|] index]; try apply Safe_fail.
  eapply Safe_bind; [apply Safe_loadObject|]. intros props _.
  eapply Safe_bind; [apply Safe_loadRawDomains|]. intros doms _.
  eapply Safe_bind; [apply Safe_load|]. intros cc _.
  eapply Safe_bind; [apply Safe_load|]. intros nc _.
  destruct cc; try apply Safe_fail. destruct nc; try apply Safe_fail.
  now apply Safe_ret.
Qed.

Lemma Safe_setNaryIndex base csp index :
  base <= csp -> Safe base (@setNaryIndex V csp index) (fun _ => True).
Proof.
  intros Hc. unfold setNaryIndex. eapply Safe_bind; [apply Safe_load|]. intros c _.
  destruct c; try apply Safe_fail. now apply Safe_store.
Qed.

Lemma Safe_unwrapProp base result key (s : @Slot V) :
  base <= result -> Safe base (unwrapProp result key s) (fun _ => True).
Proof.
  intros Hr. destruct s as [d|v]; simpl; [|now apply Safe_setProp].
  eapply Safe_bind; [apply Safe_load|]. intros c _.
  destruct c; now apply Safe_setProp.
Qed.

Lemma Safe_solve base csp : Safe base (Mem.solve toKey csp) (fun _ => True).
Proof.
  unfold Mem.solve. eapply Safe_bind; [apply Safe_normalizeProblem|]. intros out Hout.
  eapply Safe_bind; [apply Safe_loadProblem|]. intros loaded _.
  destruct (validateProblem (snd loaded)); [now apply Safe_ret|].
  destruct (buildNaryIndex (naryConstraints (snd loaded))); [now apply Safe_ret|].
  eapply Safe_bind; [now apply Safe_setNaryIndex|]. intros _ _.
  eapply Safe_bind; [apply Safe_alloc|]. intros empty _.
  eapply Safe_bind; [apply Safe_cloneVars|]. intros unassigned Hu.
  eapply Safe_bind; [now apply Safe_backtrack|]. intros [|result] Hr;
    [now apply Safe_ret|].
  eapply Safe_bind; [apply Safe_loadObject|]. intros props _.
  eapply Safe_bind; [apply Safe_forProps; intros; now apply Safe_unwrapProp|].
  intros _ _. now apply Safe_ret.
Qed.

Lemma Frame_all_extends h h' :
  Frame (length h) h h' -> exists fresh, h' = h ++ fresh.
Proof.
  intros (Hl & Hf). exists (skipn (length h) h').
  rewrite <- (firstn_skipn (length h) h') at 1. f_equal.
  apply nth_error_ext. intros r.
  destruct (Nat.lt_ge_cases r (length h)) as [Hr|Hr].
  - rewrite nth_error_firstn. destruct (Nat.ltb_spec r (length h)); [|lia].
    now apply Hf.
  - rewrite (proj2 (nth_error_None h r)) by lia.
    apply nth_error_None. rewrite length_firstn. lia.
Qed.

End Facts.
End MemFacts.

(** C9. Caller input is never mutated: when [CSP.solve] returns or
    throws, the store is the store of the call followed by new cells.
    Every object that existed when [solve] was called (the caller's
    problem object, its variables object, each domain array, the two
    constraint lists) holds what it held: the same keys, the same
    elements in the same order. *)
Theorem solve_preserves_input {V : Type} (toKey : V -> string)
  (csp : Mem.Ref) (h h' : @Mem.Heap V) (outcome : Outcome Mem.Ref) :
  Mem.solve toKey csp h = Some (outcome, h') ->
  (exists fresh, h' = h ++ fresh) /\
  (forall r c, nth_error h r = Some c -> nth_error h' r = Some c).
Proof.
  intros H.
  destruct (MemFacts.Safe_solve toKey (length h) csp h outcome h' (le_n _) H)
    as (F & _).
  split; [now apply MemFacts.Frame_all_extends|].
  intros r c Hr. destruct F as (_ & F). rewrite F; [exact Hr|].
  apply nth_error_Some. congruence.
Qed.

Lemma solve_preserves_input_witness :
  exists outcome h',
    Mem.solve Examples.natKey 6 Examples.tripleHeap = Some (outcome, h') /\
    (exists fresh, h' = Examples.tripleHeap ++ fresh) /\
    nth_error h' 3
    = Some (Mem.CObject [("a", Mem.SRef 0); ("b", Mem.SRef 1); ("c", Mem.SRef 2)]).
Proof.
  destruct (Mem.solve Examples.natKey 6 Examples.tripleHeap) as [[outcome h']|] eqn:E.
  - exists outcome, h'. split; [reflexivity|].
    destruct (solve_preserves_input Examples.natKey 6 Examples.tripleHeap h' outcome E)
      as (Hext & Hkeep).
    split; [exact Hext|]. apply Hkeep. reflexivity.
  - vm_compute in E. discriminate E.
Defined.

(** On the store, [solve] returns the assignment that it returns on
    values. *)
Lemma solve_on_store_example :
  match Mem.solve Examples.natKey 6 Examples.tripleHeap with
  | Some (Returned (Value result), h') =>
      option_map fst (Mem.loadRecord result h') = Some Examples.tripleSolution
  | _ => False
  end.
Proof. vm_compute. reflexivity. Qed.

(** [backtrack] deletes the variable it selects from the mapping it is
    given: called on a caller's own object, it would empty it.  [solve]
    hands it a clone. *)
Lemma backtrack_writes_unassigned :
  match Mem.backtrack Examples.natKey 5 2 1 Examples.arcProblem Examples.ownMappingHeap with
  | Some (Value _, h') => nth_error h' 1 = Some (Mem.CObject [])
  | _ => False
  end.
Proof. vm_compute. reflexivity. Qed.

(** * The store and the values agree

    The functions of module [Mem] compute on the store what the
    functions of the first part compute on values: when an object of the
    store holds a mapping ([Repr]), the store-level function succeeds
    wherever the value-level one does, returns the same verdict, leaves
    the object holding the mapping the value-level function returns, and
    writes to no other object that existed ([Keeps]). *)

Module MemSim.
Import Mem(Ref, Slot(..), Cell(..), Heap, M, ret, fail, bind, update, alloc,
  load, store, loadObject, loadArray, setProp, deleteProp, sliceArray,
  forProps, loadDomains, loadVars, copySlice, arrayAt, ReprProps, Repr,
  Keeps, arrayDomains, ReprResult, rawDomainAt, ReprRaw).

Section Sim.
Context {V : Type}.
Variable toKey : V -> string.
Implicit Types (h : @Heap V) (c : @Cell V) (props : Obj.t (@Slot V))
  (vars A U : @Vars V) (W : list Ref).

(** ** Cells *)

Lemma nth_error_alloc_old h c r :
  r < length h -> nth_error (h ++ [c]) r = nth_error h r.
Proof. intros Hr. now apply nth_error_app1. Qed.

Lemma nth_error_alloc_new h c : nth_error (h ++ [c]) (length h) = Some c.
Proof. rewrite nth_error_app2 by lia. now rewrite Nat.sub_diag. Qed.

Lemma nth_error_update_same r c h :
  r < length h -> nth_error (update r c h) r = Some c.
Proof.
  revert r. induction h as [|c0 h IH]; intros r Hr; simpl in Hr; [lia|].
  destruct r as [|r]; simpl; auto. apply IH. lia.
Qed.

Lemma nth_error_lt h r c : nth_error h r = Some c -> r < length h.
Proof. intros H. apply nth_error_Some. congruence. Qed.

(** ** Equations of the primitives *)

Lemma load_eq h r c : nth_error h r = Some c -> load r h = Some (c, h).
Proof. intros H. unfold load. now rewrite H. Qed.

Lemma loadObject_eq h o props :
  nth_error h o = Some (CObject props) -> loadObject o h = Some (props, h).
Proof. intros H. unfold loadObject, bind. now rewrite (load_eq _ _ _ H). Qed.

Lemma loadArray_eq h r dom : arrayAt h r dom -> loadArray r h = Some (dom, h).
Proof. intros H. unfold loadArray, bind. now rewrite (load_eq _ _ _ H). Qed.

Lemma store_eq h r c c0 :
  nth_error h r = Some c0 -> store r c h = Some (tt, update r c h).
Proof.
  intros H. unfold store. apply nth_error_lt in H.
  destruct (Nat.ltb_spec r (length h)); [reflexivity | lia].
Qed.

Lemma setProp_eq h o props k s :
  nth_error h o = Some (CObject props) ->
  setProp o k s h = Some (tt, update o (CObject (Obj.set k s props)) h).
Proof.
  intros H. unfold setProp, bind. rewrite (loadObject_eq _ _ _ H).
  now apply store_eq with (c0 := CObject props).
Qed.

Lemma deleteProp_eq h o props k :
  nth_error h o = Some (CObject props) ->
  deleteProp o k h = Some (tt, update o (CObject (Obj.del k props)) h).
Proof.
  intros H. unfold deleteProp, bind. rewrite (loadObject_eq _ _ _ H).
  now apply store_eq with (c0 := CObject props).
Qed.

Lemma sliceArray_eq h r dom :
  arrayAt h r dom -> sliceArray r h = Some (length h, h ++ [CArray dom]).
Proof. intros H. unfold sliceArray, bind. now rewrite (loadArray_eq _ _ _ H). Qed.

(** ** What is kept *)

Lemma Keeps_refl W h : Keeps W h h.
Proof. repeat split; auto. Qed.

Lemma Keeps_trans W h1 h2 h3 :
  Keeps W h1 h2 -> Keeps W h2 h3 -> Keeps W h1 h3.
Proof.
  intros (L1 & K1 & A1) (L2 & K2 & A2). split; [lia|]. split; auto.
Qed.

Lemma Keeps_weaken W W' h h' :
  (forall r, In r W -> In r W') -> Keeps W h h' -> Keeps W' h h'.
Proof.
  intros Hsub (L & K & A). split; [exact L|]. split; [|exact A].
  intros r c Hr Hn. apply K; auto.
Qed.

Lemma Keeps_alloc W h c : Keeps W h (h ++ [c]).
Proof.
  split; [rewrite length_app; lia|]. split.
  - intros r c0 Hr _. rewrite nth_error_alloc_old; [exact Hr|].
    now apply nth_error_lt in Hr.
  - intros r dom Hr. unfold arrayAt in *. rewrite nth_error_alloc_old; [exact Hr|].
    now apply nth_error_lt in Hr.
Qed.

Lemma Keeps_update h o props props' :
  nth_error h o = Some (CObject props) ->
  Keeps [o] h (update o (CObject props') h).
Proof.
  intros Ho. split; [rewrite MemFacts.length_update; lia|]. split.
  - intros r c Hr Hn. rewrite MemFacts.nth_error_update; [exact Hr|].
    intros ->. apply Hn. now left.
  - intros r dom Hr. unfold arrayAt in *.
    rewrite MemFacts.nth_error_update; [exact Hr|].
    intros ->. congruence.
Qed.

Lemma Keeps_length W h h' r c : Keeps W h h' -> nth_error h r = Some c -> r < length h'.
Proof. intros (L & _) Hr. apply nth_error_lt in Hr. lia. Qed.

(** ** Representations *)

Lemma ReprProps_kept h h' props vars :
  ReprProps h props vars ->
  (forall r dom, arrayAt h r dom -> arrayAt h' r dom) ->
  ReprProps h' props vars.
Proof.
  intros H Hk. induction H as [|ks kd props vars (Hf & r & Hs & Ha) _ IH];
    constructor; auto.
  split; [exact Hf|]. exists r. auto.
Qed.

Lemma Repr_kept W h h' o vars :
  Repr h o vars -> Keeps W h h' -> ~ In o W -> Repr h' o vars.
Proof.
  intros (props & Ho & Hp) (L & K & A) Hn. exists props. split; [now apply K|].
  eapply ReprProps_kept; eauto.
Qed.

Lemma ReprProps_keys h props vars :
  ReprProps h props vars -> Obj.keys props = Obj.keys vars.
Proof.
  intros H. induction H as [|ks kd props vars (Hf & _) _ IH]; simpl; congruence.
Qed.

Lemma ReprProps_get h props vars k :
  ReprProps h props vars ->
  match Obj.get k vars with
  | Some dom => exists r, Obj.get k props = Some (SRef r) /\ arrayAt h r dom
  | None => Obj.get k props = None
  end.
Proof.
  intros H. induction H as [|[k1 s] [k2 d] props vars (Hf & r & Hs & Ha) _ IH]; simpl.
  - reflexivity.
  - simpl in Hf, Hs, Ha. subst k2 s.
    destruct (String.eqb k k1); [eauto | exact IH].
Qed.

Lemma ReprProps_has h props vars k :
  ReprProps h props vars -> Obj.has k props = Obj.has k vars.
Proof.
  intros H. pose proof (ReprProps_get h props vars k H) as Hg. unfold Obj.has.
  destruct (Obj.get k vars); [destruct Hg as (r & -> & _) | rewrite Hg]; reflexivity.
Qed.

Lemma ReprProps_replace h props vars k r dom :
  ReprProps h props vars -> arrayAt h r dom ->
  ReprProps h (Obj.replace k (SRef r) props) (Obj.replace k dom vars).
Proof.
  intros H Ha. induction H as [|[k1 s] [k2 d] props vars (Hf & Hr) Hrest IH]; simpl.
  - constructor.
  - simpl in Hf. subst k2. destruct (String.eqb k k1).
    + constructor; [|exact Hrest]. split; [reflexivity|]. exists r. auto.
    + constructor; [|exact IH]. split; [reflexivity | exact Hr].
Qed.

Lemma ReprProps_insertIndex h props vars n k r dom :
  ReprProps h props vars -> arrayAt h r dom ->
  ReprProps h (Obj.insertIndex n k (SRef r) props) (Obj.insertIndex n k dom vars).
Proof.
  intros H Ha.
  assert (Hnew : fst (k, @SRef V r) = fst (k, dom) /\
                 exists r0, snd (k, @SRef V r) = SRef r0 /\ arrayAt h r0 (snd (k, dom)))
    by (split; [reflexivity | exists r; auto]).
  induction H as [|[k1 s] [k2 d] props vars (Hf & Hr) Hrest IH]; simpl.
  - constructor; [exact Hnew | constructor].
  - simpl in Hf. subst k2. destruct (Obj.arrayIndex k1) as [m|].
    + destruct (m <? n)%N.
      * constructor; [|exact IH]. split; [reflexivity | exact Hr].
      * constructor; [exact Hnew|]. constructor; [|exact Hrest].
        split; [reflexivity | exact Hr].
    + constructor; [exact Hnew|]. constructor; [|exact Hrest].
      split; [reflexivity | exact Hr].
Qed.

Lemma ReprProps_set h props vars k r dom :
  ReprProps h props vars -> arrayAt h r dom ->
  ReprProps h (Obj.set k (SRef r) props) (Obj.set k dom vars).
Proof.
  intros H Ha. unfold Obj.set. rewrite (ReprProps_has h props vars k H).
  destruct (Obj.has k vars).
  - now apply ReprProps_replace.
  - unfold Obj.insertNew. destruct (Obj.arrayIndex k).
    + now apply ReprProps_insertIndex.
    + apply Forall2_app; [exact H|]. constructor; [|constructor].
      split; [reflexivity|]. exists r. auto.
Qed.

Lemma ReprProps_del h props vars k :
  ReprProps h props vars -> ReprProps h (Obj.del k props) (Obj.del k vars).
Proof.
  intros H. induction H as [|[k1 s] [k2 d] props vars (Hf & Hr) Hrest IH]; simpl.
  - constructor.
  - simpl in Hf. subst k2. destruct (String.eqb k k1); [exact IH|].
    constructor; [|exact IH]. split; [reflexivity | exact Hr].
Qed.

Lemma loadDomains_eq h props vars :
  ReprProps h props vars -> loadDomains props h = Some (vars, h).
Proof.
  intros H. induction H as [|[k1 s] [k2 d] props vars (Hf & r & Hs & Ha) _ IH]; simpl.
  - reflexivity.
  - simpl in Hf, Hs, Ha. subst k2 s. unfold bind.
    rewrite (loadArray_eq _ _ _ Ha), IH. reflexivity.
Qed.

Lemma loadVars_eq h o vars : Repr h o vars -> loadVars o h = Some (vars, h).
Proof.
  intros (props & Ho & Hp). unfold loadVars, bind.
  rewrite (loadObject_eq _ _ _ Ho). now apply loadDomains_eq.
Qed.

Lemma Repr_alloc_empty h : Repr (h ++ [CObject []]) (length h) [].
Proof. exists []. split; [apply nth_error_alloc_new | constructor]. Qed.

(** Writing a property of an object that holds a mapping. *)
Lemma setProp_sim h o vars k r dom :
  Repr h o vars -> arrayAt h r dom ->
  exists h',
    setProp o k (SRef r) h = Some (tt, h') /\
    Repr h' o (Obj.set k dom vars) /\ Keeps [o] h h'.
Proof.
  intros (props & Ho & Hp) Ha. eexists.
  split; [exact (setProp_eq h o props k (SRef r) Ho)|].
  pose proof (Keeps_update h o props (Obj.set k (SRef r) props) Ho) as HK.
  split; [|exact HK].
  exists (Obj.set k (SRef r) props). split.
  - apply nth_error_update_same. now apply nth_error_lt in Ho.
  - destruct HK as (_ & _ & HA).
    apply ReprProps_set; [eapply ReprProps_kept; eauto | auto].
Qed.

Lemma deleteProp_sim h o vars k :
  Repr h o vars ->
  exists h',
    deleteProp o k h = Some (tt, h') /\
    Repr h' o (Obj.del k vars) /\ Keeps [o] h h'.
Proof.
  intros (props & Ho & Hp). eexists.
  split; [exact (deleteProp_eq h o props k Ho)|].
  pose proof (Keeps_update h o props (Obj.del k props) Ho) as HK.
  split; [|exact HK].
  exists (Obj.del k props). split.
  - apply nth_error_update_same. now apply nth_error_lt in Ho.
  - destruct HK as (_ & _ & HA).
    apply ReprProps_del. eapply ReprProps_kept; eauto.
Qed.


(** ** Helpers: cloning and checks *)

Lemma Keeps_then W W' h h1 h2 :
  Keeps W h h1 -> Keeps W' h1 h2 ->
  (forall r, In r W' -> r < length h -> In r W) ->
  Keeps W h h2.
Proof.
  intros (L1 & K1 & A1) (L2 & K2 & A2) Hsub. split; [lia|]. split; [|auto].
  intros r c Hr Hn. apply K2; [now apply K1|].
  intros Hin. apply Hn, Hsub; [exact Hin|]. now apply nth_error_lt in Hr.
Qed.

(** [for (const k in src) out[k] = src[k].slice()] *)
Lemma copyLoop_sim h props vars out acc :
  ReprProps h props vars -> Repr h out acc ->
  exists h',
    forProps (copySlice out) props h = Some (tt, h') /\
    Repr h' out (Obj.assignAll vars acc) /\ Keeps [out] h h'.
Proof.
  revert h vars acc.
  induction props as [|[k s] props IH]; intros h vars acc H Hout; inversion H; subst.
  - exists h. split; [reflexivity|]. split; [exact Hout | apply Keeps_refl].
  - match goal with
    | Hx : _ /\ _ |- _ => destruct Hx as (Hf & r & Hs & Ha)
    end.
    destruct y as [k2 d]. simpl in Hf, Hs, Ha. subst k2 s.
    simpl. unfold bind at 1. unfold bind at 1.
    rewrite (sliceArray_eq _ _ _ Ha).
    pose proof (Keeps_alloc [] h (CArray d)) as K1.
    assert (Hout1 : Repr (h ++ [CArray d]) out acc)
      by (eapply Repr_kept; eauto).
    destruct (setProp_sim (h ++ [CArray d]) out acc k (length h) d Hout1
                (nth_error_alloc_new h (CArray d))) as (h2 & E2 & Hout2 & K2).
    rewrite E2.
    assert (Hrest : ReprProps h2 props l').
    { eapply ReprProps_kept; [eassumption|].
      intros r0 d0 Hr0. apply K2. now apply K1. }
    destruct (IH h2 l' (Obj.set k d acc) Hrest Hout2) as (h3 & E3 & Hout3 & K3).
    exists h3. split; [exact E3|]. split; [exact Hout3|].
    eapply Keeps_trans; [|exact K3].
    eapply Keeps_trans; [|exact K2].
    eapply Keeps_weaken; [|exact K1]. intros r0 [].
Qed.

Lemma cloneVars_sim h v vars :
  Repr h v vars ->
  exists out h',
    Mem.cloneVars v h = Some (out, h') /\
    Repr h' out (Obj.assignAll vars []) /\ Keeps [] h h' /\ length h <= out.
Proof.
  intros Hv. unfold Mem.cloneVars. unfold bind at 1. unfold alloc at 1.
  pose proof (Keeps_alloc [] h (@CObject V [])) as K1.
  destruct (Repr_kept [] _ _ _ _ Hv K1 (fun F => F)) as (props & Hp & Hr).
  unfold bind at 1. rewrite (loadObject_eq _ _ _ Hp).
  destruct (copyLoop_sim _ props vars (length h) [] Hr (Repr_alloc_empty h))
    as (h2 & E2 & Hout & K2).
  unfold bind. rewrite E2.
  exists (length h), h2. split; [reflexivity|]. split; [exact Hout|].
  split; [|lia].
  eapply Keeps_then; [exact K1 | exact K2|].
  intros r [<-|[]] Hr0. lia.
Qed.

Lemma cloneAssignment_sim h a A :
  Repr h a A ->
  exists out h',
    Mem.cloneAssignment a h = Some (out, h') /\
    Repr h' out (cloneAssignment A) /\ Keeps [] h h' /\ length h <= out.
Proof. apply cloneVars_sim. Qed.

Lemma finished_sim h u U :
  Repr h u U -> Mem.finished u h = Some (finished U, h).
Proof.
  intros (props & Hp & Hr). unfold Mem.finished, bind.
  rewrite (loadObject_eq _ _ _ Hp). unfold finished.
  now rewrite (ReprProps_keys _ _ _ Hr).
Qed.

Lemma anyEmpty_sim h o vars :
  Repr h o vars -> Mem.anyEmpty o h = Some (anyEmpty vars, h).
Proof.
  intros Hr. unfold Mem.anyEmpty, bind. now rewrite (loadVars_eq _ _ _ Hr).
Qed.

Lemma selectUnassignedVariable_sim h u U :
  Repr h u U ->
  Mem.selectUnassignedVariable u h = Some (selectUnassignedVariable U, h).
Proof.
  intros Hr. unfold Mem.selectUnassignedVariable, bind.
  now rewrite (loadVars_eq _ _ _ Hr).
Qed.

Lemma partialAssignment_sim h a u A U :
  Repr h a A -> Repr h u U ->
  exists p h',
    Mem.partialAssignment a u h = Some (p, h') /\
    Repr h' p (partialAssignment A U) /\ Keeps [] h h' /\ length h <= p.
Proof.
  intros Ha Hu. unfold Mem.partialAssignment. unfold bind at 1. unfold alloc at 1.
  pose proof (Keeps_alloc [] h (@CObject V [])) as K1.
  destruct (Repr_kept [] _ _ _ _ Hu K1 (fun F => F)) as (uprops & Hup & Hur).
  unfold bind at 1. rewrite (loadObject_eq _ _ _ Hup).
  destruct (copyLoop_sim _ uprops U (length h) [] Hur (Repr_alloc_empty h))
    as (h2 & E2 & Hp2 & K2).
  unfold bind at 1. rewrite E2.
  assert (K12 : Keeps [] h h2).
  { eapply Keeps_then; [exact K1 | exact K2|]. intros r [<-|[]] Hr0. lia. }
  destruct (Repr_kept [] _ _ _ _ Ha K12 (fun F => F)) as (aprops & Hap & Har).
  unfold bind at 1. rewrite (loadObject_eq _ _ _ Hap).
  destruct (copyLoop_sim _ aprops A (length h) _ Har Hp2) as (h3 & E3 & Hp3 & K3).
  unfold bind. rewrite E3.
  exists (length h), h3. split; [reflexivity|]. split; [exact Hp3|].
  split; [|lia].
  eapply Keeps_then; [exact K12 | exact K3|].
  intros r [<-|[]] Hr0. lia.
Qed.

(** ** Consistency: AC-3 + GAC *)

Lemma ac3Loop_sim fuel cs h variables vars queue ok vars' :
  Repr h variables vars ->
  ac3Loop fuel cs vars queue = Some (ok, vars') ->
  exists h',
    Mem.ac3Loop fuel cs variables queue h = Some (ok, h') /\
    Repr h' variables vars' /\ Keeps [variables] h h'.
Proof.
  revert h vars queue. induction fuel as [|fuel IH]; intros h vars queue Hr H;
    [discriminate|].
  simpl in H. simpl. destruct queue as [|[[head tail] predicate] rest].
  - simpl in H. inversion H; subst. exists h.
    split; [reflexivity|]. split; [exact Hr | apply Keeps_refl].
  - pose proof Hr as (props & Hp & Hprops).
    unfold bind at 1. rewrite (loadObject_eq _ _ _ Hp).
    pose proof (ReprProps_get h props vars head Hprops) as Hh.
    pose proof (ReprProps_get h props vars tail Hprops) as Ht.
    unfold ac3Step in H.
    destruct (Obj.get head vars) as [hv|] eqn:Ehv.
    + destruct Hh as (hr & Ehp & Hah). rewrite Ehp.
      destruct (Obj.get tail vars) as [tv|] eqn:Etv.
      * destruct Ht as (tr & Etp & Hat). rewrite Etp.
        unfold bind at 1. rewrite (loadArray_eq _ _ _ Hah).
        unfold bind at 1. rewrite (loadArray_eq _ _ _ Hat).
        unfold bind at 1. unfold alloc at 1.
        set (valid := validTailValues predicate hv tv) in *.
        pose proof (Keeps_alloc [] h (CArray valid)) as K1.
        assert (Hr1 : Repr (h ++ [CArray valid]) variables vars)
          by (eapply Repr_kept; eauto).
        destruct (setProp_sim _ variables vars tail (length h) valid Hr1
                    (nth_error_alloc_new h (CArray valid))) as (h2 & E2 & Hr2 & K2).
        unfold bind at 1. rewrite E2.
        assert (K12 : Keeps [variables] h h2).
        { eapply Keeps_trans; [|exact K2].
          eapply Keeps_weaken; [|exact K1]. intros r []. }
        unfold removeInconsistentValues in H. fold valid in H. cbv iota beta in H.
        unfold getOrNil in H. rewrite ObjFacts.get_set_eq in H.
        destruct (negb (Nat.eqb (length valid) (length tv))).
        -- destruct (Nat.eqb (length valid) 0).
           ++ inversion H; subst. exists h2. split; [reflexivity|]. split; auto.
           ++ destruct (IH _ _ _ Hr2 H) as (h3 & E3 & Hr3 & K3).
              exists h3. split; [exact E3|]. split; [exact Hr3|].
              eapply Keeps_trans; eauto.
        -- destruct (IH _ _ _ Hr2 H) as (h3 & E3 & Hr3 & K3).
           exists h3. split; [exact E3|]. split; [exact Hr3|].
           eapply Keeps_trans; eauto.
      * rewrite Ht. apply (IH _ _ _ Hr H).
    + rewrite Hh. destruct (Obj.get tail vars); apply (IH _ _ _ Hr H).
Qed.

Lemma runAC3_sim cs h variables vars ok vars' :
  Repr h variables vars ->
  runAC3 vars cs = Some (ok, vars') ->
  exists h',
    Mem.runAC3 variables cs h = Some (ok, h') /\
    Repr h' variables vars' /\ Keeps [variables] h h'.
Proof.
  intros Hr H. unfold Mem.runAC3, bind. rewrite (loadVars_eq _ _ _ Hr).
  now apply (ac3Loop_sim _ cs h variables vars cs).
Qed.

Lemma reviseVars_sim C vs h variables vars changedAny :
  Repr h variables vars ->
  exists h',
    Mem.reviseVars C vs variables changedAny h
    = Some (snd (reviseVars C vs vars changedAny), h') /\
    Repr h' variables (fst (reviseVars C vs vars changedAny)) /\
    Keeps [variables] h h'.
Proof.
  revert h vars changedAny.
  induction vs as [|varName vs IH]; intros h vars changedAny Hr; simpl.
  - exists h. split; [reflexivity|]. split; [exact Hr | apply Keeps_refl].
  - pose proof Hr as (props & Hp & Hprops).
    unfold bind at 1. rewrite (loadObject_eq _ _ _ Hp).
    pose proof (ReprProps_get h props vars varName Hprops) as Hg.
    destruct (Obj.get varName vars) as [dom|] eqn:Ed.
    + destruct Hg as (d & Edp & Had). rewrite Edp.
      unfold bind at 1. rewrite (loadArray_eq _ _ _ Had).
      unfold bind at 1. rewrite (loadDomains_eq _ _ _ Hprops).
      unfold bind at 1. unfold alloc at 1.
      set (newDom := filter (fun val => hasSupport varName val C vars) dom) in *.
      pose proof (Keeps_alloc [] h (CArray newDom)) as K1.
      assert (K1' : Keeps [variables] h (h ++ [CArray newDom]))
        by (eapply Keeps_weaken; [|exact K1]; intros r []).
      assert (Hr1 : Repr (h ++ [CArray newDom]) variables vars)
        by exact (Repr_kept [] _ _ _ _ Hr K1 (fun x => x)).
      destruct (Nat.eqb (length newDom) (length dom)).
      * destruct (IH _ _ changedAny Hr1) as (h2 & E2 & Hr2 & K2).
        exists h2. split; [exact E2|]. split; [exact Hr2|].
        eapply Keeps_trans; eauto.
      * destruct (setProp_sim _ variables vars varName (length h) newDom Hr1
                    (nth_error_alloc_new h (CArray newDom))) as (h2 & E2 & Hr2 & K2).
        unfold bind at 1. rewrite E2.
        assert (K12 : Keeps [variables] h h2) by (eapply Keeps_trans; eauto).
        destruct (Nat.eqb (length newDom) 0).
        -- exists h2. split; [reflexivity|]. split; [exact Hr2 | exact K12].
        -- destruct (IH _ _ true Hr2) as (h3 & E3 & Hr3 & K3).
           exists h3. split; [exact E3|]. split; [exact Hr3|].
           eapply Keeps_trans; eauto.
    + rewrite Hg. apply (IH _ _ changedAny Hr).
Qed.

Lemma gacLoop_sim fuel index h variables vars queue ok vars' :
  Repr h variables vars ->
  gacLoop fuel index vars queue = Some (ok, vars') ->
  exists h',
    Mem.gacLoop fuel index variables queue h = Some (ok, h') /\
    Repr h' variables vars' /\ Keeps [variables] h h'.
Proof.
  revert h vars queue. induction fuel as [|fuel IH]; intros h vars queue Hr H;
    [discriminate|].
  simpl in H. simpl. destruct queue as [|C rest].
  - simpl in H. inversion H; subst. exists h.
    split; [reflexivity|]. split; [exact Hr | apply Keeps_refl].
  - unfold gacStep in H.
    destruct (reviseVars_sim C (cvars C) h variables vars false Hr)
      as (h1 & E1 & Hr1 & K1).
    unfold bind at 1. rewrite E1.
    destruct (reviseVars C (cvars C) vars false) as [v1 [changedAny|]]; simpl in *.
    + destruct (IH _ _ _ Hr1 H) as (h2 & E2 & Hr2 & K2).
      exists h2. split; [exact E2|]. split; [exact Hr2|].
      eapply Keeps_trans; eauto.
    + inversion H; subst. exists h1. split; [reflexivity|]. split; auto.
Qed.

Lemma runGAC_sim csp h variables vars ok vars' :
  Repr h variables vars ->
  runGAC vars csp = Some (ok, vars') ->
  exists h',
    Mem.runGAC variables csp h = Some (ok, h') /\
    Repr h' variables vars' /\ Keeps [variables] h h'.
Proof.
  intros Hr H. unfold Mem.runGAC, bind. rewrite (loadVars_eq _ _ _ Hr).
  now apply (gacLoop_sim _ _ h variables vars (naryConstraints csp)).
Qed.

(** A pass on the store returns what the pass on values returns, in a
    new object, and writes to no object that existed. *)
Lemma enforceConsistency_sim csp h a u A U res :
  Repr h a A -> Repr h u U ->
  enforceConsistency A U csp = Some res ->
  exists r h',
    Mem.enforceConsistency a u csp h = Some (r, h') /\
    Keeps [] h h' /\
    match res with
    | FAILURE => r = FAILURE
    | Value vars => exists o, r = Value o /\ Repr h' o vars /\ length h <= o
    end.
Proof.
  intros Ha Hu H. unfold enforceConsistency, consistencyPass in H.
  unfold Mem.enforceConsistency.
  destruct (partialAssignment_sim h a u A U Ha Hu) as (p & h1 & E1 & Hp1 & K1 & Lp).
  unfold bind at 1. rewrite E1.
  assert (Hfresh : forall h2, Keeps [p] h1 h2 -> Keeps [] h h2).
  { intros h2 K2. eapply Keeps_then; [exact K1 | exact K2|].
    intros r [<-|[]] Hr. lia. }
  assert (Hgac : forall h2 vars2 res2,
            Repr h2 p vars2 -> Keeps [] h h2 -> Keeps [p] h1 h2 ->
            (r2 <- (if Nat.eqb (length (naryConstraints csp)) 0 then Some (true, vars2)
                    else runGAC vars2 csp) ;;
             Some (if fst r2 then Value (snd r2) else FAILURE)) = Some res2 ->
            exists r h',
              bind (if Nat.eqb (length (naryConstraints csp)) 0 then ret true
                    else Mem.runGAC p csp)
                (fun ok => if negb ok then ret FAILURE else ret (Value p)) h2
              = Some (r, h') /\
              Keeps [] h h' /\
              match res2 with
              | FAILURE => r = FAILURE
              | Value vars => exists o, r = Value o /\ Repr h' o vars /\ length h <= o
              end).
  { intros h2 vars2 res2 Hp2 K02 K12 H2.
    destruct (Nat.eqb (length (naryConstraints csp)) 0).
    - simpl in H2. inversion H2; subst. exists (Value p), h2.
      split; [reflexivity|]. split; [exact K02|]. exists p. auto.
    - destruct (runGAC vars2 csp) as [[ok2 v2]|] eqn:E2; [|discriminate].
      destruct (runGAC_sim csp h2 p vars2 ok2 v2 Hp2 E2) as (h3 & E3 & Hp3 & K3).
      unfold bind. rewrite E3. simpl in H2. inversion H2; subst.
      assert (K03 : Keeps [] h h3).
      { apply Hfresh. eapply Keeps_trans; eauto. }
      destruct ok2; simpl.
      + exists (Value p), h3. split; [reflexivity|]. split; [exact K03|].
        exists p. auto.
      + exists FAILURE, h3. auto. }
  destruct (Nat.eqb (length (constraints csp)) 0).
  - unfold bind at 1. unfold ret at 1. simpl negb. cbv iota.
    apply (Hgac h1 (partialAssignment A U) res Hp1 K1 (Keeps_refl _ _)).
    simpl in H. exact H.
  - destruct (runAC3 (partialAssignment A U) (constraints csp)) as [[ok1 v1]|] eqn:Eac;
      [|discriminate].
    destruct (runAC3_sim _ h1 p _ ok1 v1 Hp1 Eac) as (h2 & E2 & Hp2 & K2).
    unfold bind at 1. rewrite E2. simpl in H.
    destruct ok1; simpl in *.
    + apply (Hgac h2 v1 res Hp2 (Hfresh _ K2) K2). exact H.
    + inversion H; subst. exists FAILURE, h2. split; [reflexivity|].
      split; [now apply Hfresh | reflexivity].
Qed.

(** ** Heuristics *)

Lemma Repr_lt h o vars : Repr h o vars -> o < length h.
Proof. intros (props & Ho & _). now apply nth_error_lt in Ho. Qed.

(** Writes to objects created after [h] leave the objects of [h] alone. *)
Lemma Keeps_fresh W W' h h1 h2 :
  Keeps W h h1 -> Keeps W' h1 h2 ->
  (forall r, In r W' -> length h <= r) ->
  Keeps W h h2.
Proof.
  intros K1 K2 Hf. eapply Keeps_then; [exact K1 | exact K2|].
  intros r Hin Hlt. apply Hf in Hin. lia.
Qed.

Lemma Repr_kept_other h h' o o' vars :
  Repr h o vars -> Keeps [o'] h h' -> o <> o' -> Repr h' o vars.
Proof.
  intros Hr K Hne. apply (Repr_kept [o'] h h' o vars Hr K).
  intros [E|[]]. now apply Hne.
Qed.

Lemma Repr_kept_all h h' o vars :
  Repr h o vars -> Keeps [] h h' -> Repr h' o vars.
Proof. intros Hr K. exact (Repr_kept [] h h' o vars Hr K (fun x => x)). Qed.

Lemma Keeps_le W h h' : Keeps W h h' -> length h <= length h'.
Proof. now intros (L & _). Qed.

Lemma scoreValues_sim nextKey csp baseValues h a u A U score sc :
  Repr h a A -> Repr h u U ->
  scoreValues toKey nextKey A U csp baseValues score = Some sc ->
  exists h',
    Mem.scoreValues toKey nextKey a u csp baseValues score h = Some (sc, h') /\
    Keeps [] h h'.
Proof.
  revert h score. induction baseValues as [|val rest IH]; intros h score Ha Hu H.
  - simpl in *. inversion H; subst. exists h. split; [reflexivity | apply Keeps_refl].
  - simpl in H. simpl Mem.scoreValues.
    destruct (cloneAssignment_sim h a A Ha) as (A' & h1 & E1 & HA1 & K1 & L1).
    unfold bind at 1. rewrite E1.
    pose proof (Repr_kept_all _ _ _ _ Hu K1) as Hu1.
    destruct (cloneVars_sim h1 u U Hu1) as (U' & h2 & E2 & HU2 & K2 & L2).
    unfold bind at 1. rewrite E2.
    pose proof (Repr_kept_all _ _ _ _ HA1 K2) as HA2.
    pose proof (Repr_lt _ _ _ HA1) as LA.
    assert (Hne : A' <> U') by lia.
    unfold bind at 1. unfold alloc at 1.
    set (h3 := h2 ++ [CArray [val]]).
    pose proof (Keeps_alloc [] h2 (CArray [val])) as K3. fold h3 in K3.
    pose proof (Repr_kept_all _ _ _ _ HA2 K3) as HA3.
    pose proof (Repr_kept_all _ _ _ _ HU2 K3) as HU3.
    destruct (setProp_sim h3 A' _ nextKey (length h2) [val] HA3
                (nth_error_alloc_new h2 (CArray [val]))) as (h4 & E4 & HA4 & K4).
    unfold bind at 1. rewrite E4.
    assert (HU4 : Repr h4 U' (cloneVars U))
      by (apply (Repr_kept_other _ _ _ _ _ HU3 K4); congruence).
    destruct (deleteProp_sim h4 U' _ nextKey HU4) as (h5 & E5 & HU5 & K5).
    unfold bind at 1. rewrite E5.
    assert (HA5 : Repr h5 A' (Obj.set nextKey [val] (cloneAssignment A)))
      by (apply (Repr_kept_other _ _ _ _ _ HA4 K5); congruence).
    pose proof (Keeps_le _ _ _ K1) as Len1.
    pose proof (Keeps_le _ _ _ K2) as Len2.
    assert (K05 : Keeps [] h h5).
    { assert (K02 : Keeps [] h h2) by (eapply Keeps_trans; eauto).
      assert (K03 : Keeps [] h h3) by (eapply Keeps_trans; eauto).
      assert (K04 : Keeps [] h h4).
      { apply (Keeps_fresh [] [A'] h h3 h4 K03 K4). intros r [<-|[]]. lia. }
      apply (Keeps_fresh [] [U'] h h4 h5 K04 K5). intros r [<-|[]]. lia. }
    destruct (enforceConsistency (Obj.set nextKey [val] (cloneAssignment A))
                (Obj.del nextKey (cloneVars U)) csp) as [res|] eqn:Eres;
      [|discriminate].
    destruct (enforceConsistency_sim csp h5 A' U' _ _ res HA5 HU5 Eres)
      as (r & h6 & E6 & K6 & Hres).
    unfold bind at 1. rewrite E6. simpl in H.
    assert (K06 : Keeps [] h h6) by (eapply Keeps_trans; eauto).
    pose proof (Repr_kept_all _ _ _ _ Ha K06) as Ha6.
    pose proof (Repr_kept_all _ _ _ _ Hu K06) as Hu6.
    destruct res as [|vars].
    + subst r. unfold bind at 1. unfold ret at 1.
      destruct (IH h6 _ Ha6 Hu6 H) as (h7 & E7 & K7).
      exists h7. split; [exact E7|]. eapply Keeps_trans; eauto.
    + destruct Hres as (o & -> & Ho & _).
      unfold bind at 1. unfold bind at 1. rewrite (loadVars_eq _ _ _ Ho).
      unfold ret at 1.
      destruct (IH h6 _ Ha6 Hu6 H) as (h7 & E7 & K7).
      exists h7. split; [exact E7|]. eapply Keeps_trans; eauto.
Qed.

Lemma orderValues_sim nextKey csp h a u A U values :
  Repr h a A -> Repr h u U ->
  orderValues toKey nextKey A U csp = Some values ->
  exists h',
    Mem.orderValues toKey nextKey a u csp h = Some (values, h') /\
    Keeps [] h h'.
Proof.
  intros Ha Hu H. unfold orderValues in H. unfold Mem.orderValues.
  pose proof Hu as (props & Hp & Hprops).
  unfold bind at 1. rewrite (loadObject_eq _ _ _ Hp).
  assert (Eb : (match Obj.get nextKey props with
                | Some (SRef d) => loadArray d
                | _ => ret []
                end) h = Some (getOrNil nextKey U, h)).
  { pose proof (ReprProps_get h props U nextKey Hprops) as Hg. unfold getOrNil.
    destruct (Obj.get nextKey U) as [dom|].
    - destruct Hg as (d & -> & Had). now apply loadArray_eq.
    - now rewrite Hg. }
  unfold bind at 1. rewrite Eb.
  destruct (Nat.leb (length (getOrNil nextKey U)) 1).
  - inversion H; subst. exists h. split; [reflexivity | apply Keeps_refl].
  - destruct (scoreValues toKey nextKey A U csp (getOrNil nextKey U) [])
      as [score|] eqn:Es; [|discriminate].
    destruct (scoreValues_sim _ _ _ h a u A U [] score Ha Hu Es) as (h1 & E1 & K1).
    unfold bind. rewrite E1. simpl in H. inversion H; subst.
    exists h1. split; [reflexivity | exact K1].
Qed.

(** ** Core search *)

Lemma Keeps_step W W' h h1 h2 :
  Keeps W h h1 -> Keeps W' h1 h2 ->
  (forall r, In r W' -> In r W \/ length h <= r) ->
  Keeps W h h2.
Proof.
  intros K1 K2 Hf. eapply Keeps_then; [exact K1 | exact K2|].
  intros r Hin Hlt. destruct (Hf r Hin) as [Hw|Hl]; [exact Hw | lia].
Qed.

Lemma copySlice_sim h out acc k d dom :
  Repr h out acc -> arrayAt h d dom ->
  exists h',
    copySlice out k (SRef d) h = Some (tt, h') /\
    Repr h' out (Obj.set k dom acc) /\ Keeps [out] h h'.
Proof.
  intros Hout Ha. simpl. unfold bind at 1. rewrite (sliceArray_eq _ _ _ Ha).
  pose proof (Keeps_alloc [] h (CArray dom)) as K1.
  pose proof (Repr_kept_all _ _ _ _ Hout K1) as Hout1.
  destruct (setProp_sim (h ++ [CArray dom]) out acc k (length h) dom Hout1
              (nth_error_alloc_new h (CArray dom))) as (h2 & E2 & Hout2 & K2).
  exists h2. split; [exact E2|]. split; [exact Hout2|].
  eapply Keeps_trans; [|exact K2].
  eapply Keeps_weaken; [|exact K1]. intros r [].
Qed.

(** The loop of [backtrack] that splits [consistent]. *)
Lemma splitLoop_sim (assigned : @Vars V) (aprops cprops : Obj.t (@Slot V)) :
  (forall k, Obj.has k aprops = Obj.has k assigned) ->
  forall h consistent na nu accA accU,
    ReprProps h cprops consistent ->
    Repr h na accA -> Repr h nu accU -> na <> nu ->
    let split :=
      fold_left
        (fun acc kd =>
           if readsTruthy (fst kd) assigned
           then (Obj.set (fst kd) (snd kd) (fst acc), snd acc)
           else (fst acc, Obj.set (fst kd) (snd kd) (snd acc)))
        consistent (accA, accU) in
    exists h',
      forProps
        (fun key s =>
           if Obj.has key aprops || inherited key
           then copySlice na key s else copySlice nu key s)
        cprops h = Some (tt, h') /\
      Repr h' na (fst split) /\ Repr h' nu (snd split) /\ Keeps [na; nu] h h'.
Proof.
  intros Hhas.
  induction cprops as [|[k s] cprops IH];
    intros h consistent na nu accA accU H Hna Hnu Hne; inversion H; subst; simpl.
  - exists h. split; [reflexivity|]. split; [exact Hna|]. split; [exact Hnu|].
    apply Keeps_refl.
  - match goal with
    | Hx : _ /\ _ |- _ => destruct Hx as (Hf & r & Hs & Ha)
    end.
    destruct y as [k2 d]. simpl in Hf, Hs, Ha. subst k2 s. simpl.
    unfold readsTruthy. rewrite <- (Hhas k). unfold bind at 1.
    destruct (Obj.has k aprops || inherited k).
    + destruct (copySlice_sim h na accA k r d Hna Ha) as (h1 & E1 & Hna1 & K1).
      simpl in E1. rewrite E1.
      assert (Hrest : ReprProps h1 cprops l')
        by (eapply ReprProps_kept; [eassumption | apply K1]).
      pose proof (Repr_kept_other _ _ _ _ _ Hnu K1 (not_eq_sym Hne)) as Hnu1.
      destruct (IH h1 l' na nu _ _ Hrest Hna1 Hnu1 Hne) as (h2 & E2 & Ha2 & Hu2 & K2).
      exists h2. split; [exact E2|]. split; [exact Ha2|]. split; [exact Hu2|].
      eapply Keeps_trans; [|exact K2].
      eapply Keeps_weaken; [|exact K1]. intros x [<-|[]]. now left.
    + destruct (copySlice_sim h nu accU k r d Hnu Ha) as (h1 & E1 & Hnu1 & K1).
      simpl in E1. rewrite E1.
      assert (Hrest : ReprProps h1 cprops l')
        by (eapply ReprProps_kept; [eassumption | apply K1]).
      pose proof (Repr_kept_other _ _ _ _ _ Hna K1 Hne) as Hna1.
      destruct (IH h1 l' na nu _ _ Hrest Hna1 Hnu1 Hne) as (h2 & E2 & Ha2 & Hu2 & K2).
      exists h2. split; [exact E2|]. split; [exact Ha2|]. split; [exact Hu2|].
      eapply Keeps_trans; [|exact K2].
      eapply Keeps_weaken; [|exact K1]. intros x [<-|[]]. right. now left.
Qed.

Ltac keeps_step K1 K2 :=
  apply (Keeps_step _ _ _ _ _ K1 K2);
  let r := fresh "r" in
  let Hin := fresh "Hin" in
  intros r Hin; simpl in Hin; simpl; intuition (subst; auto; lia).

(** The [for] loop of [backtrack] writes to [assigned] and to objects it
    creates, and to nothing else. *)
Lemma tryValues_sim recurse mrecurse nextKey csp :
  (forall h a u A U res,
      Repr h a A -> Repr h u U -> a <> u ->
      recurse A U = Some res ->
      exists r h',
        mrecurse a u h = Some (r, h') /\ Keeps [u] h h' /\ ReprResult h' res r /\
        Mem.FreshResult (length h) r) ->
  forall values h a u A U res,
    Repr h a A -> Repr h u U -> a <> u ->
    tryValues recurse nextKey U csp values A = Some res ->
    exists r h',
      Mem.tryValues mrecurse nextKey u csp values a h = Some (r, h') /\
      Keeps [a] h h' /\ ReprResult h' res r /\ Mem.FreshResult (length h) r.
Proof.
  intros Hrec.
  induction values as [|val rest IH]; intros h a u A U res Ha Hu Hne H.
  - simpl in *. inversion H; subst. exists FAILURE, h.
    split; [reflexivity|]. split; [apply Keeps_refl|]. split; [reflexivity | exact I].
  - simpl in H. simpl Mem.tryValues.
    pose proof (Repr_lt _ _ _ Ha) as La.
    pose proof (Repr_lt _ _ _ Hu) as Lu.
    unfold bind at 1. unfold alloc at 1.
    set (h1 := h ++ [CArray [val]]).
    pose proof (Keeps_alloc [a] h (CArray [val])) as K1. fold h1 in K1.
    pose proof (Keeps_alloc [] h (CArray [val])) as K1'. fold h1 in K1'.
    pose proof (Repr_kept_all _ _ _ _ Ha K1') as Ha1.
    pose proof (Repr_kept_all _ _ _ _ Hu K1') as Hu1.
    destruct (setProp_sim h1 a A nextKey (length h) [val] Ha1
                (nth_error_alloc_new h (CArray [val]))) as (h2 & E2 & Ha2 & K2).
    unfold bind at 1. rewrite E2.
    pose proof (Repr_kept_other _ _ _ _ _ Hu1 K2 (not_eq_sym Hne)) as Hu2.
    assert (K02 : Keeps [a] h h2) by (eapply Keeps_trans; eauto).
    set (A1 := Obj.set nextKey [val] A) in *.
    destruct (enforceConsistency A1 U csp) as [consistent|] eqn:Ec; [|discriminate].
    destruct (enforceConsistency_sim csp h2 a u A1 U consistent Ha2 Hu2 Ec)
      as (rc & h3 & E3 & K3 & Hres).
    unfold bind at 1. rewrite E3. simpl in H.
    assert (K03 : Keeps [a] h h3) by keeps_step K02 K3.
    pose proof (Repr_kept_all _ _ _ _ Ha2 K3) as Ha3.
    pose proof (Repr_kept_all _ _ _ _ Hu2 K3) as Hu3.
    (* the rollback and the next turn of the loop *)
    assert (Hnext : forall h4,
               Keeps [a] h h4 -> Repr h4 a A1 -> Repr h4 u U ->
               tryValues recurse nextKey U csp rest (Obj.del nextKey A1) = Some res ->
               exists r h',
                 bind (deleteProp a nextKey)
                   (fun _ => Mem.tryValues mrecurse nextKey u csp rest a) h4
                 = Some (r, h') /\
                 Keeps [a] h h' /\ ReprResult h' res r /\
                 Mem.FreshResult (length h) r).
    { intros h4 K04 Ha4 Hu4 H4.
      destruct (deleteProp_sim h4 a A1 nextKey Ha4) as (h5 & E5 & Ha5 & K5).
      unfold bind. rewrite E5.
      pose proof (Repr_kept_other _ _ _ _ _ Hu4 K5 (not_eq_sym Hne)) as Hu5.
      destruct (IH h5 a u _ U res Ha5 Hu5 Hne H4) as (r & h6 & E6 & K6 & Hr6 & F6).
      assert (K05 : Keeps [a] h h5) by (eapply Keeps_trans; eauto).
      exists r, h6. split; [exact E6|].
      split; [eapply Keeps_trans; [exact K05 | exact K6]|]. split; [exact Hr6|].
      pose proof (Keeps_le _ _ _ K05). destruct r; simpl in *; [exact I | lia]. }
    destruct consistent as [|consistent].
    + subst rc. now apply Hnext.
    + destruct Hres as (o & -> & Ho & Lo).
      pose proof (Repr_lt _ _ _ Ho) as Lo3.
      unfold bind at 1. unfold alloc at 1.
      set (h4 := h3 ++ [CObject []]).
      unfold bind at 1. unfold alloc at 1.
      set (h5 := h4 ++ [CObject []]).
      assert (L4 : length h4 = S (length h3))
        by (unfold h4; rewrite length_app; simpl; lia).
      pose proof (Keeps_alloc [] h3 (@CObject V [])) as K4. fold h4 in K4.
      pose proof (Keeps_alloc [] h4 (@CObject V [])) as K5. fold h5 in K5.
      assert (K35 : Keeps [] h3 h5) by (eapply Keeps_trans; eauto).
      pose proof (Repr_kept_all _ _ _ _ Ho K35) as Ho5.
      pose proof (Repr_kept_all _ _ _ _ Ha3 K35) as Ha5.
      pose proof (Repr_kept_all _ _ _ _ Hu3 K35) as Hu5.
      assert (Hna5 : Repr h5 (length h3) []).
      { apply (Repr_kept_all h4 h5); [apply Repr_alloc_empty | exact K5]. }
      assert (Hnu5 : Repr h5 (length h4) []) by apply Repr_alloc_empty.
      pose proof Ho5 as (cprops & Hcp & Hcprops).
      unfold bind at 1. rewrite (loadObject_eq _ _ _ Hcp).
      pose proof Ha5 as (aprops & Hap & Haprops).
      unfold bind at 1. rewrite (loadObject_eq _ _ _ Hap).
      assert (Hsplit :
                exists h6,
                  forProps
                    (fun key s =>
                       if Obj.has key aprops || inherited key
                       then copySlice (length h3) key s
                       else copySlice (length h4) key s)
                    cprops h5 = Some (tt, h6) /\
                  Repr h6 (length h3) (fst (splitConsistent A1 consistent)) /\
                  Repr h6 (length h4) (snd (splitConsistent A1 consistent)) /\
                  Keeps [length h3; length h4] h5 h6).
      { assert (Hd : length h3 <> length h4) by lia.
        exact (splitLoop_sim A1 aprops cprops
                 (fun k => ReprProps_has h5 aprops A1 k Haprops)
                 h5 consistent (length h3) (length h4) [] []
                 Hcprops Hna5 Hnu5 Hd). }
      destruct Hsplit as (h6 & E6 & Hna6 & Hnu6 & K6).
      unfold bind at 1. rewrite E6.
      pose proof (Keeps_le _ _ _ K02) as Len2.
      pose proof (Keeps_le _ _ _ K3) as Len3.
      assert (Ho6 : Repr h6 o consistent).
      { apply (Repr_kept _ _ _ _ _ Ho5 K6). intros [E|[E|[]]]; lia. }
      assert (Ha6 : Repr h6 a A1).
      { apply (Repr_kept _ _ _ _ _ Ha5 K6). intros [E|[E|[]]]; lia. }
      assert (Hu6 : Repr h6 u U).
      { apply (Repr_kept _ _ _ _ _ Hu5 K6). intros [E|[E|[]]]; lia. }
      assert (K05 : Keeps [a] h h5) by keeps_step K03 K35.
      assert (K06 : Keeps [a] h h6) by keeps_step K05 K6.
      unfold bind at 1. rewrite (anyEmpty_sim _ _ _ Ho6).
      destruct (splitConsistent A1 consistent) as [newAssigned newUnassigned] eqn:Esp.
      simpl in Hna6, Hnu6.
      destruct (anyEmpty consistent).
      * now apply Hnext.
      * destruct (recurse newAssigned newUnassigned) as [result|] eqn:Erec;
          [|discriminate].
        destruct (Hrec h6 (length h3) (length h4) _ _ result Hna6 Hnu6 ltac:(lia) Erec)
          as (rr & h7 & E7 & K7 & Hr7 & F7).
        unfold bind at 1. rewrite E7. simpl in H.
        assert (K07 : Keeps [a] h h7) by keeps_step K06 K7.
        destruct result as [|vars].
        -- simpl in Hr7. subst rr. apply Hnext; [exact K07| | |exact H].
           ++ apply (Repr_kept_other _ _ _ _ _ Ha6 K7). lia.
           ++ apply (Repr_kept_other _ _ _ _ _ Hu6 K7). lia.
        -- inversion H; subst. destruct Hr7 as (o7 & -> & Ho7).
           exists (Value o7), h7. split; [reflexivity|]. split; [exact K07|].
           split; [exists o7; auto|].
           pose proof (Keeps_le _ _ _ K06). simpl in *. lia.
Qed.

(** [backtrack] on the store returns what [backtrack] on values returns;
    it writes to [unassigned] and to objects it creates. *)
Lemma backtrack_sim csp fuel :
  forall h a u A U res,
    Repr h a A -> Repr h u U -> a <> u ->
    backtrack toKey fuel A U csp = Some res ->
    exists r h',
      Mem.backtrack toKey fuel a u csp h = Some (r, h') /\
      Keeps [u] h h' /\ ReprResult h' res r /\ Mem.FreshResult (length h) r.
Proof.
  induction fuel as [|fuel IH]; intros h a u A U res Ha Hu Hne H; [discriminate|].
  simpl in H. simpl Mem.backtrack.
  pose proof (Repr_lt _ _ _ Hu) as Lu.
  destruct (cloneAssignment_sim h a A Ha) as (a' & h1 & E1 & Ha1 & K1 & L1).
  unfold bind at 1. rewrite E1.
  pose proof (Repr_kept_all _ _ _ _ Hu K1) as Hu1.
  unfold bind at 1. rewrite (finished_sim _ _ _ Hu1).
  assert (K01 : Keeps [u] h h1)
    by (eapply Keeps_weaken; [|exact K1]; intros r []).
  destruct (finished U).
  - inversion H; subst. exists (Value a'), h1. split; [reflexivity|].
    split; [exact K01|]. split; [exists a'; auto | exact L1].
  - unfold bind at 1. rewrite (selectUnassignedVariable_sim _ _ _ Hu1).
    destruct (selectUnassignedVariable U) as [nextKey|].
    + destruct (orderValues toKey nextKey (cloneAssignment A) U csp)
        as [values|] eqn:Ev; [|discriminate].
      destruct (orderValues_sim nextKey csp h1 a' u _ U values Ha1 Hu1 Ev)
        as (h2 & E2 & K2).
      unfold bind at 1. rewrite E2. simpl in H.
      pose proof (Repr_kept_all _ _ _ _ Ha1 K2) as Ha2.
      pose proof (Repr_kept_all _ _ _ _ Hu1 K2) as Hu2.
      pose proof Hu2 as (props & Hp & Hprops).
      unfold bind at 1. rewrite (loadObject_eq _ _ _ Hp).
      destruct (deleteProp_sim h2 u U nextKey Hu2) as (h3 & E3 & Hu3 & K3).
      unfold bind at 1. rewrite E3.
      assert (Hne' : a' <> u) by lia.
      pose proof (Repr_kept_other _ _ _ _ _ Ha2 K3 Hne') as Ha3.
      destruct (tryValues_sim _ (fun a u => Mem.backtrack toKey fuel a u csp)
                  nextKey csp (fun h a u A U res => IH h a u A U res)
                  values h3 a' u _ _ res Ha3 Hu3 Hne' H)
        as (r & h4 & E4 & K4 & Hr4 & F4).
      unfold bind at 1. rewrite E4.
      pose proof (Keeps_le _ _ _ K1) as Len1.
      assert (K02 : Keeps [u] h h2) by keeps_step K01 K2.
      assert (K03 : Keeps [u] h h3) by keeps_step K02 K3.
      assert (K04 : Keeps [u] h h4) by keeps_step K03 K4.
      destruct res as [|vars].
      * simpl in Hr4. subst r.
        pose proof (Repr_kept_other _ _ _ _ _ Hu3 K4 (not_eq_sym Hne')) as Hu4.
        destruct Hu4 as (props4 & Hp4 & _).
        unfold bind at 1. rewrite (setProp_eq _ _ _ nextKey _ Hp4).
        eexists FAILURE, _. split; [reflexivity|].
        split; [|split; [reflexivity | exact I]].
        pose proof (Keeps_update h4 u props4
                      (Obj.set nextKey
                         match Obj.get nextKey props with
                         | Some s => s
                         | None => SValue None
                         end props4) Hp4) as K5.
        eapply Keeps_trans; eauto.
      * destruct Hr4 as (o & -> & Ho). exists (Value o), h4.
        split; [reflexivity|]. split; [exact K04|]. split; [exists o; auto|].
        pose proof (Keeps_le _ _ _ K02). pose proof (Keeps_le _ _ _ K3).
        simpl in *. lia.
    + inversion H; subst. exists FAILURE, h1. split; [reflexivity|].
      split; [exact K01|]. split; [reflexivity | exact I].
Qed.

(** ** Validation and normalization *)

Section MapValues.
Context {A B : Type} (f : A -> B).

Let lift (o : Obj.t A) : Obj.t B := map (fun kd => (fst kd, f (snd kd))) o.

Lemma get_mapValues k (o : Obj.t A) : Obj.get k (lift o) = option_map f (Obj.get k o).
Proof.
  induction o as [|[k' x] o IH]; simpl; [reflexivity|].
  destruct (String.eqb k k'); [reflexivity | exact IH].
Qed.

Lemma has_mapValues k (o : Obj.t A) : Obj.has k (lift o) = Obj.has k o.
Proof. unfold Obj.has. rewrite get_mapValues. now destruct (Obj.get k o). Qed.

Lemma replace_mapValues k v (o : Obj.t A) :
  Obj.replace k (f v) (lift o) = lift (Obj.replace k v o).
Proof.
  induction o as [|[k' x] o IH]; simpl; [reflexivity|].
  destruct (String.eqb k k'); simpl; [reflexivity | now rewrite IH].
Qed.

Lemma insertIndex_mapValues n k v (o : Obj.t A) :
  Obj.insertIndex n k (f v) (lift o) = lift (Obj.insertIndex n k v o).
Proof.
  induction o as [|[k' x] o IH]; simpl; [reflexivity|].
  destruct (Obj.arrayIndex k') as [m|]; [|reflexivity].
  destruct (m <? n)%N; simpl; [now rewrite IH | reflexivity].
Qed.

Lemma set_mapValues k v (o : Obj.t A) :
  Obj.set k (f v) (lift o) = lift (Obj.set k v o).
Proof.
  unfold Obj.set. rewrite has_mapValues. destruct (Obj.has k o).
  - apply replace_mapValues.
  - unfold Obj.insertNew. destruct (Obj.arrayIndex k).
    + apply insertIndex_mapValues.
    + unfold lift. now rewrite map_app.
Qed.

End MapValues.

(** A property that is not yet written keeps its place when it is. *)
Lemma set_middle {A : Type} k (v x : A) (done rest : Obj.t A) :
  ~ In k (Obj.keys done) ->
  Obj.set k v (done ++ (k, x) :: rest) = done ++ (k, v) :: rest.
Proof.
  intros Hn. unfold Obj.set.
  assert (Hh : Obj.has k (done ++ (k, x) :: rest) = true).
  { unfold Obj.has. rewrite ObjFacts.get_app.
    destruct (Obj.get k done); [reflexivity|]. simpl. now rewrite String.eqb_refl. }
  rewrite Hh. clear Hh.
  induction done as [|[k' y] done IH]; simpl.
  - now rewrite String.eqb_refl.
  - destruct (String.eqb_spec k k') as [->|Hne].
    + exfalso. apply Hn. now left.
    + f_equal. apply IH. intros Hin. apply Hn. now right.
Qed.

Lemma cloneVars_arrayDomains (vars : @Vars V) :
  cloneVars (arrayDomains vars) = Obj.assignAll vars [].
Proof.
  unfold cloneVars, Obj.assignAll, arrayDomains. generalize (@nil (string * list V)).
  induction vars as [|[k d] vars IH]; intros acc; simpl; [reflexivity | apply IH].
Qed.

Lemma flat_map_keepTriples (l : list (@RawBinary V)) :
  flat_map
    (fun bc : @RawBinary V =>
       match bc with
       | RawTriple head tail predicate => [(head, tail, predicate)]
       | RawBinaryOther => []
       end) (Mem.keepTriples l)
  = flat_map
      (fun bc : @RawBinary V =>
         match bc with
         | RawTriple head tail predicate => [(head, tail, predicate)]
         | RawBinaryOther => []
         end) l.
Proof.
  induction l as [|[head tail predicate|] l IH]; simpl; [reflexivity| |exact IH].
  now rewrite IH.
Qed.

Lemma flat_map_keepObjects (l : list (@RawNary V)) :
  flat_map
    (fun C => match C with RawNaryObject C => [C] | RawNaryOther => [] end)
    (Mem.keepObjects l)
  = flat_map
      (fun C => match C with RawNaryObject C => [C] | RawNaryOther => [] end) l.
Proof.
  induction l as [|[C|] l IH]; simpl; [reflexivity| |exact IH].
  now rewrite IH.
Qed.

Lemma loadRawDomains_eq h props vars :
  ReprProps h props vars ->
  Mem.loadRawDomains props h = Some (arrayDomains vars, h).
Proof.
  intros H. induction H as [|[k s] [k' d] props vars (Hf & r & Hs & Ha) _ IH];
    [reflexivity|].
  simpl in Hf, Hs, Ha. subst k' s. simpl.
  unfold bind at 1. unfold bind at 1. rewrite (load_eq _ _ _ Ha).
  unfold ret at 1. unfold bind at 1. fold (arrayDomains vars). now rewrite IH.
Qed.

(** [Array.isArray(dom) ? dom.slice() : []], on a property of the
    caller's object. *)
Lemma normalizeDomain_eq h0 h ov s :
  Keeps [ov] h0 h -> length h0 <= ov ->
  (forall r, s = SRef r -> r < length h0) ->
  exists e,
    Mem.normalizeDomain s h = Some (length h, h ++ [CArray e]) /\
    (if isArray (rawDomainAt h0 s)
     then RawArray (slice (rawDomainAt h0 s)) else RawArray []) = RawArray e.
Proof.
  intros (L & K & _) Hov Hs. destruct s as [r|v]; simpl.
  - specialize (Hs r eq_refl).
    destruct (nth_error h0 r) as [c0|] eqn:Er;
      [|apply nth_error_None in Er; lia].
    assert (Er' : nth_error h r = Some c0).
    { apply K; [exact Er|]. intros [E|[]]. lia. }
    unfold bind. rewrite (load_eq _ _ _ Er').
    destruct c0; eexists; split; reflexivity.
  - exists []. split; reflexivity.
Qed.

(** The loop of [normalizeProblem] over the caller's variables. *)
Lemma normalizeLoop_sim h0 ov props :
  length h0 <= ov ->
  (forall k r, In (k, SRef r) props -> r < length h0) ->
  forall h acc,
    Keeps [ov] h0 h -> Repr h ov acc ->
    exists h' acc',
      forProps
        (fun k s =>
           bind (Mem.normalizeDomain s) (fun dom => setProp ov k (SRef dom)))
        props h = Some (tt, h') /\
      Repr h' ov acc' /\ Keeps [ov] h h' /\
      arrayDomains acc'
      = fold_left
          (fun out kd =>
             Obj.set (fst kd)
               (if isArray (snd kd) then RawArray (slice (snd kd)) else RawArray [])
               out)
          (map (fun ks => (fst ks, rawDomainAt h0 (snd ks))) props)
          (arrayDomains acc).
Proof.
  intros Hov. induction props as [|[k s] props IH]; intros Hrefs h acc K0 Hacc.
  - exists h, acc. split; [reflexivity|]. split; [exact Hacc|].
    split; [apply Keeps_refl | reflexivity].
  - cbn [forProps map fold_left fst snd].
    destruct (normalizeDomain_eq h0 h ov s K0 Hov) as (e & E1 & He).
    { intros r ->. apply (Hrefs k r). now left. }
    unfold bind at 1. unfold bind at 1. rewrite E1. rewrite He.
    pose proof (Keeps_alloc [ov] h (CArray e)) as K1.
    assert (Hacc1 : Repr (h ++ [CArray e]) ov acc).
    { apply (Repr_kept_all _ _ _ _ Hacc). apply Keeps_alloc. }
    destruct (setProp_sim _ ov acc k (length h) e Hacc1
                (nth_error_alloc_new h (CArray e))) as (h2 & E2 & Hacc2 & K2).
    rewrite E2.
    assert (K12 : Keeps [ov] h h2) by (eapply Keeps_trans; eauto).
    destruct (IH (fun k' r Hin => Hrefs k' r (or_intror Hin)) h2 _
                (Keeps_trans _ _ _ _ K0 K12) Hacc2)
      as (h3 & acc' & E3 & Hacc3 & K3 & Hfold).
    exists h3, acc'. split; [exact E3|]. split; [exact Hacc3|].
    split; [eapply Keeps_trans; eauto|].
    rewrite Hfold. f_equal. unfold arrayDomains.
    symmetry. apply (set_mapValues (fun d : list V => RawArray d)).
Qed.

Lemma normalizeProblem_sim h root raw :
  ReprRaw h root raw ->
  exists nroot ov h1 vars,
    Mem.normalizeProblem root h = Some (nroot, h1) /\
    Keeps [] h h1 /\ length h <= ov /\ length h <= nroot /\ nroot <> ov /\
    Repr h1 ov vars /\
    arrayDomains vars = variables (normalizeProblem raw) /\
    (exists oc on,
        nth_error h1 nroot = Some (CProblem (Some ov) (Some oc) (Some on) None)) /\
    Mem.loadProblem nroot h1 = Some ((ov, normalizeProblem raw), h1).
Proof.
  intros (vs & cs & ns & index & Hroot & Hv & Hc & Hn).
  unfold Mem.normalizeProblem. unfold bind at 1. rewrite (load_eq _ _ _ Hroot).
  unfold bind at 1. unfold alloc at 1.
  set (ov := length h). set (ha := h ++ [CObject []]).
  pose proof (Keeps_alloc [] h (@CObject V [])) as Ka. fold ha in Ka.
  (* the variables *)
  assert (Hvars :
            exists hb vars,
              (match vs with
               | Some vs =>
                   bind (load vs)
                     (fun vc =>
                        match vc with
                        | CObject props =>
                            forProps
                              (fun k s =>
                                 bind (Mem.normalizeDomain s)
                                   (fun dom => setProp ov k (SRef dom)))
                              props
                        | _ => fail
                        end)
               | None => ret tt
               end) ha = Some (tt, hb) /\
              Repr hb ov vars /\ Keeps [ov] ha hb /\
              arrayDomains vars = variables (normalizeProblem raw)).
  { unfold normalizeProblem. simpl variables.
    destruct vs as [vs|], (rawVariables raw) as [rvs|]; try contradiction.
    - destruct Hv as (props & Hvs & -> & _ & Hrefs).
      assert (Hvs' : nth_error ha vs = Some (CObject props)).
      { unfold ha. rewrite nth_error_alloc_old; [exact Hvs|].
        now apply nth_error_lt in Hvs. }
      unfold bind. rewrite (load_eq _ _ _ Hvs').
      destruct (normalizeLoop_sim h ov props (Nat.le_refl _) Hrefs ha []
                  (Keeps_alloc [ov] h (CObject [])) (Repr_alloc_empty h))
        as (hb & vars & E & Hr & K & Hfold).
      exists hb, vars. auto.
    - exists ha, []. split; [reflexivity|]. split; [apply Repr_alloc_empty|].
      split; [apply Keeps_refl | reflexivity]. }
  destruct Hvars as (hb & vars & Eb & Hvb & Kb & Hvars).
  unfold bind at 1. rewrite Eb.
  pose proof (Keeps_le _ _ _ Kb) as Lb.
  assert (La : length ha = S (length h))
    by (unfold ha; rewrite length_app; simpl; lia).
  assert (K0b : Keeps [] h hb).
  { apply (Keeps_fresh [] [ov] h ha hb Ka Kb). intros r [<-|[]]. unfold ov. lia. }
  (* the binary constraints *)
  assert (Hcons :
            exists lc,
              (match cs with
               | Some cs =>
                   bind (load cs)
                     (fun cc =>
                        match cc with
                        | CBinaryList l => alloc (CBinaryList (Mem.keepTriples l))
                        | _ => alloc (CBinaryList [])
                        end)
               | None => alloc (CBinaryList [])
               end) hb = Some (length hb, hb ++ [CBinaryList lc]) /\
              flat_map
                (fun bc : @RawBinary V =>
                   match bc with
                   | RawTriple head tail predicate => [(head, tail, predicate)]
                   | RawBinaryOther => []
                   end) lc
              = constraints (normalizeProblem raw)).
  { unfold normalizeProblem. simpl constraints.
    destruct K0b as (_ & K & _).
    destruct cs as [cs|], (rawConstraints raw) as [rcs|]; try contradiction.
    - exists (Mem.keepTriples rcs). unfold bind.
      rewrite (load_eq _ _ _ (K _ _ Hc (fun F => F))).
      split; [reflexivity | apply flat_map_keepTriples].
    - destruct Hc as (c0 & Hc0 & Hnl). exists []. unfold bind.
      rewrite (load_eq _ _ _ (K _ _ Hc0 (fun F => F))).
      split; [|reflexivity].
      destruct c0; try reflexivity. now contradiction (Hnl cs0).
    - exists []. split; reflexivity. }
  destruct Hcons as (lc & Ec & Hlc).
  unfold bind at 1. rewrite Ec.
  set (hc := hb ++ [CBinaryList lc]).
  pose proof (Keeps_alloc [] hb (CBinaryList lc)) as Kc. fold hc in Kc.
  assert (K0c : Keeps [] h hc) by (eapply Keeps_trans; eauto).
  assert (Lc : length hc = S (length hb))
    by (unfold hc; rewrite length_app; simpl; lia).
  (* the n-ary constraints *)
  assert (Hnary :
            exists ln,
              (match ns with
               | Some ns =>
                   bind (load ns)
                     (fun nc =>
                        match nc with
                        | CNaryList l => alloc (CNaryList (Mem.keepObjects l))
                        | _ => alloc (CNaryList [])
                        end)
               | None => alloc (CNaryList [])
               end) hc = Some (length hc, hc ++ [CNaryList ln]) /\
              flat_map
                (fun C => match C with RawNaryObject C => [C] | RawNaryOther => [] end)
                ln
              = naryConstraints (normalizeProblem raw)).
  { unfold normalizeProblem. simpl naryConstraints.
    destruct K0c as (_ & K & _).
    destruct ns as [ns|], (rawNaryConstraints raw) as [rns|]; try contradiction.
    - exists (Mem.keepObjects rns). unfold bind.
      rewrite (load_eq _ _ _ (K _ _ Hn (fun F => F))).
      split; [reflexivity | apply flat_map_keepObjects].
    - destruct Hn as (c0 & Hc0 & Hnl). exists []. unfold bind.
      rewrite (load_eq _ _ _ (K _ _ Hc0 (fun F => F))).
      split; [|reflexivity].
      destruct c0; try reflexivity. now contradiction (Hnl cs0).
    - exists []. split; reflexivity. }
  destruct Hnary as (ln & En & Hln).
  unfold bind at 1. rewrite En.
  set (hd := hc ++ [CNaryList ln]).
  pose proof (Keeps_alloc [] hc (CNaryList ln)) as Kd. fold hd in Kd.
  assert (Ld : length hd = S (length hc))
    by (unfold hd; rewrite length_app; simpl; lia).
  unfold alloc.
  set (cell := @CProblem V (Some ov) (Some (length hb)) (Some (length hc)) None).
  set (h1 := hd ++ [cell]).
  pose proof (Keeps_alloc [] hd cell) as K1. fold h1 in K1.
  assert (Kb1 : Keeps [] hb h1).
  { eapply Keeps_trans; [exact Kc|]. eapply Keeps_trans; eauto. }
  pose proof (Repr_kept_all _ _ _ _ Hvb Kb1) as Hv1.
  pose proof (Keeps_le _ _ _ K0b) as L0b.
  exists (length hd), ov, h1, vars.
  split; [reflexivity|].
  split; [exact (Keeps_trans _ _ _ _ K0b Kb1)|].
  split; [unfold ov; lia|]. split; [lia|]. split; [unfold ov; lia|].
  split; [exact Hv1|]. split; [exact Hvars|].
  (* reading the normalized problem back *)
  assert (H1 : nth_error h1 (length hd) = Some cell) by apply nth_error_alloc_new.
  split; [exists (length hb), (length hc); exact H1|].
  assert (Hc1 : nth_error h1 (length hb) = Some (CBinaryList lc)).
  { destruct K1 as (_ & K & _). apply K; [|auto].
    destruct Kd as (_ & K' & _). apply K'; [|auto]. apply nth_error_alloc_new. }
  assert (Hn1 : nth_error h1 (length hc) = Some (CNaryList ln)).
  { destruct K1 as (_ & K & _). apply K; [|auto]. apply nth_error_alloc_new. }
  unfold Mem.loadProblem. unfold bind at 1. rewrite (load_eq _ _ _ H1).
  unfold cell. destruct Hv1 as (props1 & Hp1 & Hprops1).
  unfold bind at 1. rewrite (loadObject_eq _ _ _ Hp1).
  unfold bind at 1. rewrite (loadRawDomains_eq _ _ _ Hprops1).
  unfold bind at 1. rewrite (load_eq _ _ _ Hc1).
  unfold bind at 1. rewrite (load_eq _ _ _ Hn1).
  unfold ret. rewrite Hvars, Hlc, Hln. reflexivity.
Qed.

(** ** Public API *)

Lemma Keeps_store h o c0 c :
  nth_error h o = Some c0 -> (forall dom, c0 <> CArray dom) ->
  Keeps [o] h (update o c h).
Proof.
  intros Ho Hna. split; [rewrite MemFacts.length_update; lia|]. split.
  - intros r c1 Hr Hn. rewrite MemFacts.nth_error_update; [exact Hr|].
    intros ->. apply Hn. now left.
  - intros r dom Hr. unfold arrayAt in *.
    rewrite MemFacts.nth_error_update; [exact Hr|].
    intros ->. rewrite Ho in Hr. inversion Hr. now apply (Hna dom).
Qed.

Lemma tryValues_NoDup recurse nextKey U csp values :
  (forall a u r, recurse a u = Some (Value r) -> NoDup (Obj.keys r)) ->
  forall A vars,
    tryValues recurse nextKey U csp values A = Some (Value vars) ->
    NoDup (Obj.keys vars).
Proof.
  intros Hrec. induction values as [|val rest IH]; intros A vars H;
    simpl in H; [discriminate|].
  destruct (enforceConsistency (Obj.set nextKey [val] A) U csp) as [[|consistent]|];
    simpl in H; [now apply IH in H| |discriminate].
  destruct (splitConsistent (Obj.set nextKey [val] A) consistent) as [nA nU].
  destruct (anyEmpty consistent); [now apply IH in H|].
  destruct (recurse nA nU) as [[|r]|] eqn:Er; simpl in H;
    [now apply IH in H| |discriminate].
  inversion H; subst. now apply Hrec in Er.
Qed.

Lemma backtrack_NoDup csp fuel :
  forall A U vars,
    backtrack toKey fuel A U csp = Some (Value vars) -> NoDup (Obj.keys vars).
Proof.
  induction fuel as [|fuel IH]; intros A U vars H; [discriminate|].
  simpl in H. destruct (finished U).
  - inversion H; subst. apply cloneAssignment_NoDup.
  - destruct (selectUnassignedVariable U) as [nextKey|]; [|discriminate].
    destruct (orderValues toKey nextKey (cloneAssignment A) U csp) as [values|];
      [|discriminate].
    simpl in H. apply (tryValues_NoDup _ _ _ _ _ (fun a u r => IH a u r) _ _ H).
Qed.

(** The last loop of [solve]: every property is replaced, in its place,
    by the first element of the array it held. *)
Lemma unwrapLoop_sim o :
  forall rest h (done : Obj.t (@Slot V)) vars,
    nth_error h o = Some (CObject (done ++ rest)) ->
    ReprProps h rest vars ->
    NoDup (Obj.keys (done ++ rest)) ->
    exists h',
      forProps (Mem.unwrapProp o) rest h = Some (tt, h') /\
      nth_error h' o
      = Some (CObject
                (done ++ map (fun kd => (fst kd, SValue (hd_error (snd kd)))) vars)) /\
      Keeps [o] h h'.
Proof.
  induction rest as [|[k s] rest IH]; intros h done vars Ho Hr Hnd;
    inversion Hr; subst.
  - exists h. split; [reflexivity|]. split; [exact Ho | apply Keeps_refl].
  - match goal with
    | Hx : _ /\ _ |- _ => destruct Hx as (Hf & r & Hs & Ha)
    end.
    destruct y as [k2 d]. simpl in Hf, Hs, Ha. subst k2 s.
    cbn [forProps Mem.unwrapProp]. unfold bind at 1. unfold bind at 1.
    rewrite (load_eq _ _ _ Ha).
    assert (Hk : ~ In k (Obj.keys done)).
    { unfold Obj.keys in Hnd. rewrite map_app in Hnd. simpl in Hnd.
      apply NoDup_remove_2 in Hnd. intros Hin. apply Hnd.
      apply in_or_app. now left. }
    rewrite (setProp_eq _ _ _ k (SValue (hd_error d)) Ho).
    rewrite (set_middle k _ _ done rest Hk).
    set (h1 := update o (CObject (done ++ (k, SValue (hd_error d)) :: rest)) h).
    pose proof (Keeps_update h o _ (done ++ (k, SValue (hd_error d)) :: rest) Ho)
      as K1. fold h1 in K1.
    assert (Ho1 : nth_error h1 o
                  = Some (CObject ((done ++ [(k, SValue (hd_error d))]) ++ rest))).
    { unfold h1. rewrite nth_error_update_same by (now apply nth_error_lt in Ho).
      now rewrite <- app_assoc. }
    assert (Hr1 : ReprProps h1 rest l')
      by (eapply ReprProps_kept; [eassumption | apply K1]).
    assert (Hnd1 : NoDup (Obj.keys ((done ++ [(k, SValue (hd_error d))]) ++ rest))).
    { rewrite <- app_assoc. unfold Obj.keys in *. rewrite map_app in *. exact Hnd. }
    destruct (IH h1 _ l' Ho1 Hr1 Hnd1) as (h2 & E2 & Ho2 & K2).
    exists h2. split; [exact E2|]. split; [|eapply Keeps_trans; eauto].
    rewrite Ho2. now rewrite <- app_assoc.
Qed.

(** [CSP.solve] on the store returns what [solve] on values returns, and
    leaves every object that existed as it was. *)
Lemma solve_sim h root raw out :
  ReprRaw h root raw ->
  solve toKey raw = Some out ->
  exists r h',
    Mem.solve toKey root h = Some (r, h') /\
    Keeps [] h h' /\
    match out with
    | Threw e => r = Threw e
    | Returned FAILURE => r = Returned FAILURE
    | Returned (Value record) =>
        exists o, r = Returned (Value o) /\ Mem.loadRecord o h' = Some (record, h')
    end.
Proof.
  intros Hraw H. rewrite solve_steps in H. cbv zeta in H. unfold Mem.solve.
  destruct (normalizeProblem_sim h root raw Hraw)
    as (nroot & ov & h1 & vars & E1 & K1 & Lov & Lroot & Hne & Hv1 & Hvars & Hcell & Eload).
  unfold bind at 1. rewrite E1. unfold bind at 1. rewrite Eload.
  cbn [fst snd].
  destruct (validateProblem (normalizeProblem raw)) as [e|].
  - inversion H; subst. exists (Threw e), h1. split; [reflexivity|]. auto.
  - rewrite buildNaryIndex_adjacency.
    destruct (existsb inherited
                (flat_map (@cvars V) (naryConstraints (normalizeProblem raw)))).
    { inversion H; subst. exists (Threw TypeError), h1. split; [reflexivity|]. auto. }
    change (withIndex (normalizeProblem raw)
              (adjacency (naryConstraints (normalizeProblem raw))))
      with (withNaryIndex (normalizeProblem raw)).
    destruct Hcell as (oc & on & Hcell).
    unfold bind at 1. unfold Mem.setNaryIndex. unfold bind at 1.
    rewrite (load_eq _ _ _ Hcell). rewrite (store_eq _ _ _ _ Hcell).
    match goal with
    | |- context [update nroot ?c h1] => set (h2 := update nroot c h1)
    end.
    assert (K2 : Keeps [nroot] h1 h2).
    { apply (Keeps_store h1 nroot _ _ Hcell). intros dom; discriminate. }
    pose proof (Repr_kept_other _ _ _ _ _ Hv1 K2 (not_eq_sym Hne)) as Hv2.
    unfold bind at 1. unfold alloc at 1.
    set (h3 := h2 ++ [CObject []]).
    pose proof (Keeps_alloc [] h2 (@CObject V [])) as K3. fold h3 in K3.
    pose proof (Repr_kept_all _ _ _ _ Hv2 K3) as Hv3.
    assert (He3 : Repr h3 (length h2) []) by apply Repr_alloc_empty.
    destruct (cloneVars_sim h3 ov vars Hv3) as (un & h4 & E4 & Hun & K4 & Lun).
    unfold bind at 1. rewrite E4.
    pose proof (Repr_kept_all _ _ _ _ He3 K4) as He4.
    assert (L3 : length h3 = S (length h2))
      by (unfold h3; rewrite length_app; simpl; lia).
    assert (Ecl : cloneVars (variables (withNaryIndex (normalizeProblem raw)))
                  = Obj.assignAll vars []).
    { change (variables (withNaryIndex (normalizeProblem raw)))
        with (variables (normalizeProblem raw)).
      rewrite <- Hvars. apply cloneVars_arrayDomains. }
    rewrite Ecl in H.
    change (variables (withNaryIndex (normalizeProblem raw)))
      with (variables (normalizeProblem raw)) in H.
    destruct (backtrack toKey (S (length (variables (normalizeProblem raw)))) []
                (Obj.assignAll vars []) (withNaryIndex (normalizeProblem raw)))
      as [res|] eqn:Eb; [|discriminate].
    destruct (backtrack_sim _ _ h4 (length h2) un _ _ res He4 Hun ltac:(lia) Eb)
      as (r & h5 & E5 & K5 & Hr5 & F5).
    unfold bind at 1. rewrite E5. simpl in H.
    pose proof (Keeps_le _ _ _ K1) as Len1.
    pose proof (Keeps_le _ _ _ K2) as Len2.
    pose proof (Keeps_le _ _ _ K4) as Len4.
    assert (K02 : Keeps [] h h2) by keeps_step K1 K2.
    assert (K03 : Keeps [] h h3) by keeps_step K02 K3.
    assert (K04 : Keeps [] h h4) by keeps_step K03 K4.
    assert (K05 : Keeps [] h h5) by keeps_step K04 K5.
    destruct res as [|result].
    + simpl in Hr5. subst r. inversion H; subst.
      exists (Returned FAILURE), h5. split; [reflexivity|]. auto.
    + destruct Hr5 as (o & -> & Ho). simpl in F5.
      pose proof (backtrack_NoDup _ _ _ _ _ Eb) as Hnd.
      destruct Ho as (props & Hp & Hprops).
      unfold bind at 1. rewrite (loadObject_eq _ _ _ Hp).
      assert (Hnd' : NoDup (Obj.keys ([] ++ props))).
      { simpl. now rewrite (ReprProps_keys _ _ _ Hprops). }
      destruct (unwrapLoop_sim o props h5 [] result Hp Hprops Hnd')
        as (h6 & E6 & Ho6 & K6).
      unfold bind at 1. rewrite E6. inversion H; subst.
      exists (Returned (Value o)), h6. split; [reflexivity|].
      split; [keeps_step K05 K6|].
      exists o. split; [reflexivity|].
      unfold Mem.loadRecord, bind. rewrite (loadObject_eq _ _ _ Ho6).
      unfold ret, unwrap. simpl app. now rewrite map_map.
Qed.

End Sim.
End MemSim.

(** On a store that holds a description of a problem, [CSP.solve]
    returns or throws: the store-level function never runs out of fuel
    and meets no value of the wrong kind. *)
Lemma solve_on_store_returns {V : Type} (toKey : V -> string)
  (h : @Mem.Heap V) (root : Mem.Ref) (raw : @RawProblem V) :
  Mem.ReprRaw h root raw ->
  exists outcome h', Mem.solve toKey root h = Some (outcome, h').
Proof.
  intros Hraw. destruct (solve_total toKey raw) as [out Hout].
  destruct (MemSim.solve_sim toKey h root raw out Hraw Hout) as (r & h' & E & _).
  eauto.
Qed.

(** The store of the examples holds the description [tripleProblem]. *)
Lemma tripleHeap_holds_tripleProblem :
  Mem.ReprRaw Examples.tripleHeap 6 Examples.tripleProblem.
Proof.
  exists (Some 3), (Some 4), (Some 5), None. split; [reflexivity|]. split.
  - exists [("a", Mem.SRef 0); ("b", Mem.SRef 1); ("c", Mem.SRef 2)].
    split; [reflexivity|]. split; [reflexivity|]. split.
    + repeat constructor; simpl; intuition discriminate.
    + intros k r [E|[E|[E|[]]]]; inversion E; subst; simpl; lia.
  - split; reflexivity.
Qed.

(** On that store [CSP.solve] returns an object that reads as
    [tripleSolution], and every cell of the caller is as it was. *)
Lemma solve_sim_example :
  exists o h',
    Mem.solve Examples.natKey 6 Examples.tripleHeap = Some (Returned (Value o), h') /\
    Mem.loadRecord o h' = Some (Examples.tripleSolution, h') /\
    Mem.Keeps [] Examples.tripleHeap h'.
Proof.
  destruct (MemSim.solve_sim Examples.natKey Examples.tripleHeap 6
              Examples.tripleProblem (Returned (Value Examples.tripleSolution))
              tripleHeap_holds_tripleProblem)
    as (r & h' & E & K & o & -> & Hrec).
  - vm_compute. reflexivity.
  - exists o, h'. auto.
Qed.

(** * Pruning keeps solutions *)

Section Pruning.
Context {V : Type}.
Implicit Types (vars A U : @Vars V) (sol : Obj.t V) (csp : @Problem V)
  (C : @NaryConstraint V).

Lemma Within_set sol vars k dom v :
  Within sol vars -> Obj.get k sol = Some v -> In v dom ->
  Within sol (Obj.set k dom vars).
Proof.
  intros H Hk Hv k' d' Hg. rewrite ObjFacts.get_set in Hg.
  destruct (String.eqb_spec k' k) as [->|Hne].
  - inversion Hg; subst. eauto.
  - now apply H.
Qed.



(** One turn of AC-3 removes no value of a solution, and so never
    empties a domain. *)
Lemma ac3Step_keeps sol cs vars queue :
  SatisfiesBinary sol cs -> incl queue cs -> Within sol vars ->
  match ac3Step cs vars queue with
  | Ac3Done => True
  | Ac3Fail _ => False
  | Ac3Next vars' queue' => Within sol vars' /\ incl queue' cs
  end.
Proof.
  intros Hsat Hq Hw. pose proof (ac3Step_cases cs vars queue) as H.
  assert (Hkeep : forall h t p rest hv tv,
             queue = (h, t, p) :: rest ->
             Obj.get h vars = Some hv -> Obj.get t vars = Some tv ->
             exists v, Obj.get t sol = Some v /\ In v (validTailValues p hv tv)).
  { intros h t p rest hv tv -> Hh Ht.
    destruct (Hsat h t p (Hq _ (or_introl eq_refl)))
      as (vh & vt & Hvh & Hvt & Hp).
    destruct (Hw _ _ Hh) as (vh' & Hvh' & Hinh).
    destruct (Hw _ _ Ht) as (vt' & Hvt' & Hint).
    rewrite Hvh in Hvh'. rewrite Hvt in Hvt'.
    inversion Hvh'; inversion Hvt'; subst vh' vt'.
    exists vt. split; [exact Hvt|]. apply validTailValues_In. split; [exact Hint|].
    apply existsb_exists. eauto. }
  destruct (ac3Step cs vars queue) as [|vars'|vars' queue']; [exact I| |].
  - destruct H as (h & t & p & rest & hv & tv & Eq & Hh & Ht & Hv & _ & _).
    destruct (Hkeep _ _ _ _ _ _ Eq Hh Ht) as (v & _ & Hin).
    rewrite Hv in Hin. destruct Hin.
  - destruct H as (h & t & p & rest & Eq &
                   [(_ & -> & ->)|(hv & tv & Hh & Ht & -> & Hcase)]).
    + split; [exact Hw|]. intros c Hc. apply Hq. subst queue. now right.
    + destruct (Hkeep _ _ _ _ _ _ Eq Hh Ht) as (v & Hv & Hin).
      split; [now apply Within_set with (v := v)|].
      assert (Hrest : incl rest cs).
      { intros c Hc. apply Hq. subst queue. now right. }
      destruct Hcase as [(_ & ->)|(_ & _ & ->)]; [exact Hrest|].
      apply incl_app; [exact Hrest|].
      intros c Hc. unfold incomingConstraints in Hc. now apply filter_In in Hc.
Qed.

Lemma ac3Loop_keeps sol cs fuel vars queue ok vars' :
  SatisfiesBinary sol cs -> incl queue cs -> Within sol vars ->
  ac3Loop fuel cs vars queue = Some (ok, vars') ->
  ok = true /\ Within sol vars'.
Proof.
  intros Hsat. revert vars queue.
  induction fuel as [|fuel IH]; intros vars queue Hq Hw H; [discriminate|].
  simpl in H. pose proof (ac3Step_keeps sol cs vars queue Hsat Hq Hw) as Hs.
  destruct (ac3Step cs vars queue) as [|v1|v1 q1].
  - inversion H; subst. auto.
  - destruct Hs.
  - destruct Hs as (Hw1 & Hq1). now apply (IH v1 q1).
Qed.

(** The tuple of a satisfied constraint supports the value of each of its
    participants. *)
Lemma solution_supports sol C vars x v :
  Extensional (cpredicate C) -> SatisfiesNary sol C -> Within sol vars ->
  (forall o, In o (cvars C) -> Obj.has o vars = true) ->
  In x (cvars C) -> Obj.get x sol = Some v ->
  hasSupport x v C vars = true.
Proof.
  intros Hext (tuple & Hin & Hout & Hp) Hw Hcov Hx Hv.
  apply (hasSupport_complete x v C vars tuple Hext); [|exact Hp].
  split; [rewrite (Hin x Hx); exact Hv|]. split.
  - intros o Ho _. specialize (Hcov o Ho). apply ObjFacts.has_true in Hcov.
    destruct Hcov as [dom Hdom]. destruct (Hw _ _ Hdom) as (val & Hval & Hiv).
    exists dom, val. split; [exact Hdom|]. split; [exact Hiv|].
    now rewrite (Hin o Ho).
  - intros k _ Hk. now apply Hout.
Qed.

(** The loop of [runGAC] over the participants of [C] removes no value
    of a solution. *)
Lemma reviseVars_keeps sol C vs vars changedAny :
  Extensional (cpredicate C) -> SatisfiesNary sol C ->
  (forall o, In o (cvars C) -> Obj.has o vars = true) ->
  incl vs (cvars C) -> Within sol vars ->
  snd (reviseVars C vs vars changedAny) <> None /\
  Within sol (fst (reviseVars C vs vars changedAny)).
Proof.
  intros Hext Hsat. revert vars changedAny.
  induction vs as [|x vs IH]; intros vars changedAny Hcov Hvs Hw; simpl.
  - split; [discriminate | exact Hw].
  - assert (Hvs' : incl vs (cvars C)) by (intros o Ho; apply Hvs; now right).
    destruct (Obj.get x vars) as [dom|] eqn:Hdom; [|now apply IH].
    set (newDom := filter (fun val => hasSupport x val C vars) dom).
    destruct (Nat.eqb (length newDom) (length dom)); [now apply IH|].
    destruct (Hw _ _ Hdom) as (v & Hv & Hiv).
    assert (Hnew : In v newDom).
    { apply filter_In. split; [exact Hiv|].
      apply (solution_supports sol C vars x v Hext Hsat Hw Hcov); [|exact Hv].
      apply Hvs. now left. }
    destruct (Nat.eqb_spec (length newDom) 0) as [E|_].
    + apply length_zero_iff_nil in E. rewrite E in Hnew. destruct Hnew.
    + apply IH; [|exact Hvs'|now apply Within_set with (v := v)].
      intros o Ho. unfold Obj.has. rewrite ObjFacts.get_set.
      destruct (String.eqb o x); [reflexivity|]. apply (Hcov o Ho).
Qed.

Lemma reenqueue_In (index : Obj.t (list (@NaryConstraint V))) vs queue Q :
  In Q (reenqueue index vs queue) ->
  In Q queue \/ In Q (concat (map snd index)).
Proof.
  destruct (reenqueue_bound index vs queue) as (pushed & -> & _ & Hp & _).
  intros H. apply in_app_or in H. destruct H as [H|H]; auto.
Qed.

Lemma gacLoop_keeps sol (nary : list (@NaryConstraint V)) index fuel :
  (forall C, In C nary -> Extensional (cpredicate C)) ->
  (forall C, In C nary -> SatisfiesNary sol C) ->
  (forall C, In C (concat (map snd index)) -> In C nary) ->
  forall vars queue ok vars',
    (forall C o, In C nary -> In o (cvars C) -> Obj.has o vars = true) ->
    incl queue nary -> Within sol vars ->
    gacLoop fuel index vars queue = Some (ok, vars') ->
    ok = true /\ Within sol vars'.
Proof.
  intros Hext Hsat Hidx.
  induction fuel as [|fuel IH]; intros vars queue ok vars' Hcov Hq Hw H;
    [discriminate|].
  simpl in H. unfold gacStep in H. destruct queue as [|C rest].
  - inversion H; subst. auto.
  - assert (HC : In C nary) by (apply Hq; now left).
    destruct (reviseVars_keeps sol C (cvars C) vars false (Hext C HC) (Hsat C HC)
                (fun o Ho => Hcov C o HC Ho) (incl_refl _) Hw) as (Hsome & Hw1).
    pose proof (reviseVars_spec C (cvars C) vars false) as Hspec. cbv zeta in Hspec.
    destruct Hspec as (_ & Hkeys & _).
    destruct (reviseVars C (cvars C) vars false) as [v1 [changedAny|]];
      simpl in *; [|congruence].
    apply (IH v1 (if changedAny then reenqueue index (cvars C) rest else rest)
             ok vars'); [| |exact Hw1|exact H].
    + intros C' o HC' Ho. specialize (Hcov C' o HC' Ho).
      apply has_keys. rewrite Hkeys. now apply has_keys.
    + assert (Hrest : incl rest nary) by (intros Q HQ; apply Hq; now right).
      destruct changedAny; [|exact Hrest].
      intros Q HQ. apply reenqueue_In in HQ. destruct HQ as [HQ|HQ]; auto.
Qed.

End Pruning.

(** * Completeness of the search *)

Section SearchComplete.
Context {V : Type}.
Variable toKey : V -> string.
Variable csp : @Problem V.
Variable sol : Obj.t V.
Variable declared : list string.
Hypothesis Hidx : WellIndexed csp.
Hypothesis Hext : forall C, In C (naryConstraints csp) -> Extensional (cpredicate C).
Hypothesis Hbin : SatisfiesBinary sol (constraints csp).
Hypothesis Hnary : forall C, In C (naryConstraints csp) -> SatisfiesNary sol C.
Hypothesis Hdecl :
  forall C v, In C (naryConstraints csp) -> In v (cvars C) -> In v declared.
Implicit Types (vars A U : @Vars V).


(** A pass that starts from domains which hold a solution succeeds, and
    the domains it returns still hold the solution. *)
Lemma enforceConsistency_keeps A U res :
  Covered csp (partialAssignment A U) ->
  Within sol (partialAssignment A U) ->
  enforceConsistency A U csp = Some res ->
  exists vars',
    res = Value vars' /\ Within sol vars' /\
    Obj.keys vars' = Obj.keys (partialAssignment A U).
Proof.
  intros Hcov Hw H. unfold enforceConsistency in H.
  destruct (consistencyPass A U csp) as [[ok vars']|] eqn:Hp; [|discriminate].
  simpl in H. destruct (consistencyPass_shrunk A U csp ok vars' Hp) as (_ & Hkeys).
  assert (Hok : ok = true /\ Within sol vars').
  { unfold consistencyPass in Hp. cbv zeta in Hp.
    assert (Hac : exists mid,
               (if Nat.eqb (length (constraints csp)) 0
                then Some (true, partialAssignment A U)
                else runAC3 (partialAssignment A U) (constraints csp))
               = Some (true, mid) /\
               Within sol mid /\ Shrunk (partialAssignment A U) mid).
    { destruct (Nat.eqb (length (constraints csp)) 0).
      - exists (partialAssignment A U). split; [reflexivity|].
        split; [exact Hw | apply Shrunk_refl].
      - destruct (runAC3 (partialAssignment A U) (constraints csp))
          as [[ok1 mid]|] eqn:Er; [|discriminate].
        pose proof (runAC3_shrunk _ _ _ _ Er) as Hsh.
        unfold runAC3 in Er.
        destruct (ac3Loop_keeps sol _ _ _ _ _ _ Hbin (incl_refl _) Hw Er) as (-> & Hm).
        exists mid. auto. }
    destruct Hac as (mid & Eac & Hm & Hsh). rewrite Eac in Hp. simpl in Hp.
    destruct (Nat.eqb (length (naryConstraints csp)) 0).
    - inversion Hp; subst. auto.
    - unfold runGAC in Hp. cbv zeta in Hp.
      apply (gacLoop_keeps sol (naryConstraints csp) (naryIndexOf csp) _
               Hext Hnary) in Hp; [exact Hp| | |apply incl_refl|exact Hm].
      + rewrite Hidx. apply adjacency_sound.
      + intros C o HC Ho. specialize (Hcov C o HC Ho).
        unfold Obj.has in *. specialize (Hsh o).
        destruct (Obj.get o (partialAssignment A U)); [|discriminate].
        destruct (Obj.get o mid); [reflexivity | contradiction]. }
  destruct Hok as (-> & Hw'). simpl in H. inversion H; subst.
  exists vars'. auto.
Qed.

(** The state of [backtrack]: the domains still hold the solution, and
    every declared variable is assigned or unassigned. *)
Let Inv A U : Prop :=
  NoDup (Obj.keys A) /\ NoDup (Obj.keys U) /\ Within sol A /\ Within sol U /\
  (forall k, In k declared -> Obj.has k A = true \/ Obj.has k U = true).



End SearchComplete.

(** * More on the loops, the heuristics and validation *)

Section LoopFacts.
Context {V : Type}.
Variable toKey : V -> string.
Implicit Types (vars A U : @Vars V) (csp : @Problem V) (C : @NaryConstraint V).

(** ** Failure means an empty domain *)

Lemma ac3Loop_false cs fuel vars queue vars' :
  ac3Loop fuel cs vars queue = Some (false, vars') ->
  exists tail, Obj.get tail vars' = Some [].
Proof.
  revert vars queue. induction fuel as [|fuel IH]; intros vars queue H; [discriminate|].
  simpl in H. pose proof (ac3Step_cases cs vars queue) as Hc.
  destruct (ac3Step cs vars queue) as [|v1|v1 q1]; [discriminate| |eauto].
  inversion H; subst.
  destruct Hc as (h & t & p & rest & hv & tv & _ & _ & _ & _ & _ & ->).
  exists t. apply ObjFacts.get_set_eq.
Qed.

Lemma reviseVars_false C vs vars changedAny :
  snd (reviseVars C vs vars changedAny) = None ->
  exists x, Obj.get x (fst (reviseVars C vs vars changedAny)) = Some [].
Proof.
  revert vars changedAny. induction vs as [|x vs IH]; intros vars changedAny; simpl;
    [discriminate|].
  destruct (Obj.get x vars) as [dom|]; [|apply IH].
  destruct (Nat.eqb (length (filter (fun val => hasSupport x val C vars) dom))
              (length dom)); [apply IH|].
  destruct (Nat.eqb_spec
              (length (filter (fun val => hasSupport x val C vars) dom)) 0) as [E|_];
    [|apply IH].
  intros _. simpl. exists x. apply length_zero_iff_nil in E. rewrite E.
  apply ObjFacts.get_set_eq.
Qed.

Lemma gacLoop_false index fuel vars queue vars' :
  gacLoop fuel index vars queue = Some (false, vars') ->
  exists x, Obj.get x vars' = Some [].
Proof.
  revert vars queue. induction fuel as [|fuel IH]; intros vars queue H; [discriminate|].
  simpl in H. unfold gacStep in H. destruct queue as [|C rest]; [discriminate|].
  pose proof (reviseVars_false C (cvars C) vars false) as Hf.
  destruct (reviseVars C (cvars C) vars false) as [v1 [changedAny|]]; simpl in *.
  - eauto.
  - inversion H; subst. now apply Hf.
Qed.

(** ** The variable [selectUnassignedVariable] picks *)

Lemma selectLoop_min (entries : @Vars V) minKey minLen k :
  selectLoop entries minKey minLen = Some k ->
  (exists dom,
      In (k, dom) entries /\
      (length dom = 1 \/
       ((forall k' dom', In (k', dom') entries -> length dom <= length dom') /\
        (forall m, minLen = Some m -> length dom < m)))) \/
  (minKey = Some k /\
   forall m, minLen = Some m ->
     forall k' dom', In (k', dom') entries -> m <= length dom').
Proof.
  revert minKey minLen.
  induction entries as [|[key dom] rest IH]; intros minKey minLen H; simpl in H.
  - right. split; [exact H|]. intros m _ k' dom' [].
  - destruct minLen as [m|].
    + destruct (Nat.ltb_spec (length dom) m) as [Hlt0|Hge0].
      * destruct (Nat.eqb_spec (length dom) 1) as [E1|N1].
        -- inversion H; subst. left. exists dom. split; [now left | now left].
        -- apply IH in H. left.
           destruct H as [(d & Hin & Hd)|(Hk & Hm)].
           ++ exists d. split; [now right|].
              destruct Hd as [Hd|(Hmin & Hlt)]; [now left|]. right.
              specialize (Hlt _ eq_refl). split.
              ** intros k' dom' [E|Hin']; [inversion E; subst; lia | eauto].
              ** intros m' Hm'. inversion Hm'; subst. lia.
           ++ inversion Hk; subst. exists dom. split; [now left|]. right. split.
              ** intros k' dom' [E|Hin']; [inversion E; subst; lia|].
                 apply (Hm _ eq_refl k' dom' Hin').
              ** intros m' Hm'. inversion Hm'; subst. exact Hlt0.
      * apply IH in H. destruct H as [(d & Hin & Hd)|(Hk & Hm)].
        -- left. exists d. split; [now right|].
           destruct Hd as [Hd|(Hmin & Hlt)]; [now left|]. right.
           specialize (Hlt _ eq_refl). split.
           ++ intros k' dom' [E|Hin']; [inversion E; subst; lia | eauto].
           ++ intros m' Hm'. inversion Hm'; subst. exact Hlt.
        -- right. split; [exact Hk|]. intros m' Hm' k' dom' [E|Hin'].
           ++ inversion E; inversion Hm'; subst. exact Hge0.
           ++ eauto.
    + destruct (Nat.eqb_spec (length dom) 1) as [E1|N1].
      * inversion H; subst. left. exists dom. split; [now left | now left].
      * apply IH in H. left.
        destruct H as [(d & Hin & Hd)|(Hk & Hm)].
        -- exists d. split; [now right|].
           destruct Hd as [Hd|(Hmin & Hlt)]; [now left|]. right.
           specialize (Hlt _ eq_refl). split.
           ++ intros k' dom' [E|Hin']; [inversion E; subst; lia | eauto].
           ++ intros m' Hm'. discriminate.
        -- inversion Hk; subst. exists dom. split; [now left|]. right. split.
           ++ intros k' dom' [E|Hin']; [inversion E; subst; lia|].
              apply (Hm _ eq_refl k' dom' Hin').
           ++ intros m' Hm'. discriminate.
Qed.

(** ** The result of [backtrack] does not depend on the fuel *)

Lemma tryValues_mono recurse recurse' nextKey U' csp values :
  (forall a u r, recurse a u = Some r -> recurse' a u = Some r) ->
  forall assigned r,
    tryValues recurse nextKey U' csp values assigned = Some r ->
    tryValues recurse' nextKey U' csp values assigned = Some r.
Proof.
  intros Hrec. induction values as [|val rest IH]; intros assigned r H; simpl in *;
    [exact H|].
  destruct (enforceConsistency (Obj.set nextKey [val] assigned) U' csp)
    as [[|consistent]|]; simpl in *; [now apply IH| |discriminate].
  destruct (splitConsistent (Obj.set nextKey [val] assigned) consistent)
    as [newAssigned newUnassigned].
  destruct (anyEmpty consistent); [now apply IH|].
  destruct (recurse newAssigned newUnassigned) as [res|] eqn:E; [|discriminate].
  rewrite (Hrec _ _ _ E). simpl in *. destruct res; [now apply IH | exact H].
Qed.

Lemma backtrack_mono csp fuel :
  forall fuel' A U r,
    fuel <= fuel' ->
    backtrack toKey fuel A U csp = Some r ->
    backtrack toKey fuel' A U csp = Some r.
Proof.
  induction fuel as [|fuel IH]; intros fuel' A U r Hle H; [discriminate|].
  destruct fuel' as [|fuel']; [lia|]. simpl in *.
  destruct (finished U); [exact H|].
  destruct (selectUnassignedVariable U) as [nextKey|]; [|exact H].
  destruct (orderValues toKey nextKey (cloneAssignment A) U csp) as [values|];
    [|discriminate].
  simpl in *. revert H. apply tryValues_mono.
  intros a u r0. apply IH. lia.
Qed.

(** ** Validation *)



End LoopFacts.

(** * The order [orderValues] gives *)

Section SortFacts.
Context {A : Type}.
Variable gt : A -> A -> bool.

Lemma insertBy_In x y (l : list A) : In y (insertBy gt x l) <-> y = x \/ In y l.
Proof.
  split.
  - intros H. apply (Permutation_in _ (insertBy_perm gt x l)) in H.
    destruct H as [->|H]; auto.
  - intros H. apply (Permutation_in _ (Permutation_sym (insertBy_perm gt x l))).
    destruct H as [->|H]; [now left | now right].
Qed.

(** Inserting into a sorted list leaves it sorted, where the comparator
    is a total preorder on the elements at hand. *)
Lemma insertBy_sorted x (l : list A) :
  (forall y, In y l -> gt x y = true -> gt y x = false) ->
  (forall y z, In y l -> In z l -> gt x y = false -> gt y z = false -> gt x z = false) ->
  StronglySorted (fun a b => gt a b = false) l ->
  StronglySorted (fun a b => gt a b = false) (insertBy gt x l).
Proof.
  intros Hasym Htrans Hs. induction Hs as [|y r Hs IH Hy]; simpl.
  - constructor; constructor.
  - destruct (gt x y) eqn:E.
    + constructor.
      * apply IH.
        -- intros z Hz. apply Hasym. now right.
        -- intros z w Hz Hw. apply Htrans; now right.
      * apply Forall_forall. intros z Hz. apply insertBy_In in Hz.
        destruct Hz as [->|Hz].
        -- apply Hasym; [now left | exact E].
        -- rewrite Forall_forall in Hy. now apply Hy.
    + constructor; [constructor; assumption|].
      constructor; [exact E|].
      apply Forall_forall. intros z Hz. rewrite Forall_forall in Hy.
      apply (Htrans y z); [now left | now right | exact E | now apply Hy].
Qed.

Lemma sortBy_sorted (l : list A) :
  (forall x y, In x l -> In y l -> gt x y = true -> gt y x = false) ->
  (forall x y z, In x l -> In y l -> In z l ->
     gt x y = false -> gt y z = false -> gt x z = false) ->
  StronglySorted (fun a b => gt a b = false) (sortBy gt l).
Proof.
  induction l as [|x l IH]; intros Hasym Htrans; simpl; [constructor|].
  apply insertBy_sorted.
  - intros y Hy. apply sortBy_In in Hy. apply Hasym; [now left | now right].
  - intros y z Hy Hz. apply sortBy_In in Hy. apply sortBy_In in Hz.
    apply Htrans; [now left | now right | now right].
  - apply IH.
    + intros a b Ha Hb. apply Hasym; now right.
    + intros a b c Ha Hb Hc. apply Htrans; now right.
Qed.

End SortFacts.

Section ScoreFacts.
Context {V : Type}.
Variable toKey : V -> string.
Implicit Types (A U : @Vars V) (csp : @Problem V).

Lemma scoreGreater_asym sa sb :
  scoreGreater sb sa = true -> scoreGreater sa sb = false.
Proof.
  destruct sa as [[|a]|], sb as [[|b]|]; simpl; try reflexivity; try discriminate.
  intros H. apply Nat.ltb_lt in H. apply Nat.ltb_ge. lia.
Qed.

Lemma scoreGreater_trans sa sb sc :
  sb <> None ->
  scoreGreater sb sa = false -> scoreGreater sc sb = false ->
  scoreGreater sc sa = false.
Proof.
  destruct sa as [[|a]|], sb as [[|b]|], sc as [[|c]|]; simpl;
    try reflexivity; try discriminate; try congruence.
  intros _ H1 H2. apply Nat.ltb_ge in H1. apply Nat.ltb_ge in H2.
  apply Nat.ltb_ge. lia.
Qed.

(** What the scoring loop files: under the key of each value, the score
    of the last value with that key. *)
Lemma scoreValues_scores nextKey A U csp baseValues init score :
  scoreValues toKey nextKey A U csp baseValues init = Some score ->
  (forall v, In v baseValues -> Obj.get (toKey v) score <> None) /\
  (forall k, ~ In k (map toKey baseValues) -> Obj.get k score = Obj.get k init) /\
  (NoDup (map toKey baseValues) ->
   forall v, In v baseValues ->
     exists res,
       enforceConsistency (Obj.set nextKey [v] (cloneAssignment A))
         (Obj.del nextKey (cloneVars U)) csp = Some res /\
       Obj.get (toKey v) score
       = Some match res with
              | FAILURE => NegInfinity
              | Value r => if anyEmpty r then NegInfinity else Count (countValues r)
              end).
Proof.
  revert init. induction baseValues as [|val rest IH]; intros init H; simpl in H.
  - inversion H; subst. split; [intros v []|]. split; [reflexivity | intros _ v []].
  - destruct (enforceConsistency (Obj.set nextKey [val] (cloneAssignment A))
                (Obj.del nextKey (cloneVars U)) csp) as [res|] eqn:Er; [|discriminate].
    simpl in H. destruct (IH _ H) as (H1 & H2 & H3).
    assert (Hval : ~ In (toKey val) (map toKey rest) ->
                   Obj.get (toKey val) score
                   = Some match res with
                          | FAILURE => NegInfinity
                          | Value r =>
                              if anyEmpty r then NegInfinity else Count (countValues r)
                          end).
    { intros Hn. rewrite (H2 _ Hn). apply ObjFacts.get_set_eq. }
    split; [|split].
    + intros v [<-|Hv]; [|now apply H1].
      destruct (in_dec string_dec (toKey val) (map toKey rest)) as [Hin|Hn].
      * apply in_map_iff in Hin. destruct Hin as (v' & Ek & Hv'). rewrite <- Ek.
        now apply H1.
      * rewrite (Hval Hn). discriminate.
    + intros k Hk. simpl in Hk. rewrite H2 by tauto.
      apply ObjFacts.get_set_ne. intros ->. apply Hk. now left.
    + intros Hnd v Hv. simpl in Hnd. inversion Hnd as [|? ? Hn Hnd']; subst.
      destruct Hv as [<-|Hv].
      * exists res. split; [exact Er | now apply Hval].
      * now apply H3.
Qed.

End ScoreFacts.

(** * The values of a result come from the domains *)

Section Drawn.
Context {V : Type}.
Variable toKey : V -> string.
Variable csp : @Problem V.
Variable orig : @Vars V.
Implicit Types (vars A U : @Vars V).

(** The domains are non-empty and made of values of the original ones. *)
Let Good A : Prop :=
  DrawnFrom orig A /\ forall k dom, Obj.get k A = Some dom -> dom <> [].

Lemma DrawnFrom_shrunk vars vars' :
  Shrunk vars vars' -> DrawnFrom orig vars -> DrawnFrom orig vars'.
Proof.
  intros Hs Hd k dom' Hg. destruct (Shrunk_get _ _ _ _ Hs Hg) as (dom & Hdom & Hsub).
  destruct (Hd _ _ Hdom) as (d & Ho & Hi). exists d. split; [exact Ho|].
  intros x Hx. apply Hi. exact (Subseq_In _ _ _ Hsub Hx).
Qed.

Lemma DrawnFrom_partial A U :
  NoDup (Obj.keys A) -> NoDup (Obj.keys U) ->
  DrawnFrom orig A -> DrawnFrom orig U -> DrawnFrom orig (partialAssignment A U).
Proof.
  intros HA HU HdA HdU k dom Hg. rewrite (partialAssignment_get A U k HA HU) in Hg.
  destruct (Obj.get k A) as [d|] eqn:E.
  - inversion Hg; subst. now apply HdA.
  - now apply HdU.
Qed.

Lemma tryValues_drawn recurse nextKey U' :
  (forall a u r,
     NoDup (Obj.keys a) -> NoDup (Obj.keys u) -> Good a -> DrawnFrom orig u ->
     recurse a u = Some (Value r) -> Good r) ->
  NoDup (Obj.keys U') -> DrawnFrom orig U' ->
  forall values assigned r,
    (forall val, In val values ->
       exists d, Obj.get nextKey orig = Some d /\ In val d) ->
    NoDup (Obj.keys assigned) -> Good assigned ->
    tryValues recurse nextKey U' csp values assigned = Some (Value r) ->
    Good r.
Proof.
  intros Hrec HndU HdU.
  induction values as [|val rest IH]; intros assigned r Hvals Hnd Hgood H;
    simpl in H; [discriminate|].
  set (assigned1 := Obj.set nextKey [val] assigned) in *.
  assert (Hnd1 : NoDup (Obj.keys assigned1)) by now apply ObjFacts.NoDup_keys_set.
  assert (Hgood1 : Good assigned1).
  { destruct Hgood as (Hd & Hne). split.
    - intros k dom Hg. unfold assigned1 in Hg. rewrite ObjFacts.get_set in Hg.
      destruct (String.eqb_spec k nextKey) as [->|_]; [|now apply Hd].
      inversion Hg; subst. destruct (Hvals val (or_introl eq_refl)) as (d & Ho & Hi).
      exists d. split; [exact Ho|]. intros x [<-|[]]. exact Hi.
    - intros k dom Hg. unfold assigned1 in Hg. rewrite ObjFacts.get_set in Hg.
      destruct (String.eqb k nextKey);
        [inversion Hg; discriminate | exact (Hne k dom Hg)]. }
  assert (Hnext : tryValues recurse nextKey U' csp rest (Obj.del nextKey assigned1)
                  = Some (Value r) -> Good r).
  { apply IH.
    - intros v Hv. apply Hvals. now right.
    - now apply ObjFacts.NoDup_keys_del.
    - destruct Hgood1 as (Hd & Hne). split.
      + intros k dom Hg. rewrite ObjFacts.get_del in Hg.
        destruct (String.eqb k nextKey); [discriminate | now apply Hd].
      + intros k dom Hg. rewrite ObjFacts.get_del in Hg.
        destruct (String.eqb k nextKey); [discriminate | exact (Hne k dom Hg)]. }
  destruct (enforceConsistency assigned1 U' csp) as [[|consistent]|] eqn:Ec;
    simpl in H; [now apply Hnext| |discriminate].
  apply enforceConsistency_Value in Ec.
  destruct (consistencyPass_shrunk _ _ _ _ _ Ec) as (Hsh & Hkeys).
  assert (Hndc : NoDup (Obj.keys consistent)).
  { rewrite Hkeys. apply partialAssignment_NoDup. }
  assert (Hdc : DrawnFrom orig consistent).
  { apply (DrawnFrom_shrunk _ _ Hsh).
    apply DrawnFrom_partial; auto. apply Hgood1. }
  destruct (splitConsistent_spec assigned1 consistent Hndc) as (HgA & HgU & HndA & HndU').
  destruct (splitConsistent assigned1 consistent) as [newAssigned newUnassigned].
  simpl in HgA, HgU, HndA, HndU'.
  destruct (anyEmpty consistent) eqn:Hany; [now apply Hnext|].
  destruct (recurse newAssigned newUnassigned) as [[|r']|] eqn:Er; simpl in H;
    [now apply Hnext| |discriminate].
  inversion H; subst r'. apply (Hrec newAssigned newUnassigned r HndA HndU'); auto.
  - split.
    + intros k dom Hg. rewrite HgA in Hg.
      destruct (readsTruthy k assigned1); [now apply Hdc | discriminate].
    + intros k dom Hg. rewrite HgA in Hg.
      destruct (readsTruthy k assigned1); [|discriminate].
      apply (proj1 (anyEmpty_false consistent) Hany k dom).
      now apply ObjFacts.get_In.
  - intros k dom Hg. rewrite HgU in Hg.
    destruct (readsTruthy k assigned1); [discriminate | now apply Hdc].
Qed.

Lemma backtrack_drawn fuel :
  forall A U r,
    NoDup (Obj.keys A) -> NoDup (Obj.keys U) -> Good A -> DrawnFrom orig U ->
    backtrack toKey fuel A U csp = Some (Value r) -> Good r.
Proof.
  induction fuel as [|fuel IH]; intros A U r HA HU Hgood HdU H; [discriminate|].
  simpl in H.
  assert (Hclone : Good (cloneAssignment A)).
  { destruct Hgood as (Hd & Hne). split; intros k dom Hg;
      rewrite (cloneAssignment_get A k HA) in Hg; eauto. }
  destruct (finished U); [inversion H; subst; exact Hclone|].
  destruct (selectUnassignedVariable U) as [nextKey|] eqn:Hsel; [|discriminate].
  destruct (orderValues_perm toKey nextKey (cloneAssignment A) U csp)
    as (values & Hv & Hperm).
  rewrite Hv in H. simpl in H.
  apply (tryValues_drawn _ nextKey (Obj.del nextKey U) IH) in H; auto.
  - now apply ObjFacts.NoDup_keys_del.
  - intros k dom Hg. rewrite ObjFacts.get_del in Hg.
    destruct (String.eqb k nextKey); [discriminate | now apply HdU].
  - intros val Hval. apply (Permutation_in _ Hperm) in Hval. unfold getOrNil in Hval.
    destruct (Obj.get nextKey U) as [dom|] eqn:Hdom; [|destruct Hval].
    destruct (HdU _ _ Hdom) as (d & Ho & Hi). exists d. auto.
  - apply cloneAssignment_NoDup.
Qed.

End Drawn.

Section SolveResult.
Context {V : Type}.
Variable toKey : V -> string.

(** The mapping [backtrack] returns to [solve], before the last loop
    unwraps it. *)
Lemma solve_result (raw : @RawProblem V) (sol : Obj.t (option V)) :
  solve toKey raw = Some (Returned (Value sol)) ->
  let csp := normalizeProblem raw in
  exists result,
    sol = unwrap result /\
    validateProblem csp = None /\
    (forall k dom, Obj.get k result = Some dom ->
       dom <> [] /\
       exists d, Obj.get k (variables csp) = Some (RawArray d) /\ incl dom d) /\
    (OwnNames (variables csp) -> DistinctIdentities (naryConstraints csp) ->
     Solved (withNaryIndex csp) result /\ Singletons result /\
     NoDup (Obj.keys result) /\
     (forall k, In k (Obj.keys result) <-> In k (Obj.keys (variables csp)))).
Proof.
  intros H csp. rewrite solve_steps in H. cbv zeta in H. fold csp in H.
  destruct (validateProblem csp) as [e|] eqn:Hval; [discriminate|].
  destruct (existsb inherited _); [discriminate|].
  destruct (backtrack toKey _ [] _ (withNaryIndex csp)) as [[|result]|] eqn:Hb;
    try discriminate.
  inversion H; subst sol; clear H. exists result.
  split; [reflexivity|]. split; [reflexivity|].
  pose proof (normalizeProblem_NoDup raw) as Hndv. fold csp in Hndv.
  assert (Hgood : DrawnFrom (cloneVars (variables csp)) result /\
                  forall k dom, Obj.get k result = Some dom -> dom <> []).
  { apply (backtrack_drawn toKey (withNaryIndex csp) (cloneVars (variables csp))
             _ [] _ result) in Hb; auto.
    - constructor.
    - apply cloneVars_NoDup.
    - split; intros k dom Hg; discriminate.
    - intros k dom Hg. exists dom. split; [exact Hg | apply incl_refl]. }
  assert (Hdom : forall k dom, Obj.get k result = Some dom ->
             dom <> [] /\
             exists d, Obj.get k (variables csp) = Some (RawArray d) /\ incl dom d).
  { intros k dom Hg. destruct Hgood as (Hd & Hne). split; [now apply (Hne k)|].
    destruct (Hd _ _ Hg) as (d & Ho & Hi).
    rewrite (cloneVars_get (variables csp) k Hndv) in Ho.
    destruct (Obj.get k (variables csp)) as [rd|] eqn:Hrd; [|discriminate].
    simpl in Ho. inversion Ho; subst d.
    pose proof (normalizeProblem_arrays raw k rd (ObjFacts.get_In _ _ _ Hrd)) as Ha.
    destruct rd as [d|]; [|discriminate]. exists d. auto. }
  assert (Hsound : OwnNames (variables csp) ->
             DistinctIdentities (naryConstraints csp) ->
             Solved (withNaryIndex csp) result /\ Singletons result /\
             NoDup (Obj.keys result) /\
             (forall k, In k (Obj.keys result)
                        <-> In k (Obj.keys (@nil (string * list V))) \/
                            In k (Obj.keys (cloneVars (variables csp))))).
  { intros Hown Hid.
    apply (backtrack_sound toKey (withNaryIndex csp) eq_refl Hid) in Hb; auto.
    - constructor.
    - apply cloneVars_NoDup.
    - intros k d Hd. discriminate.
    - intros k [].
    - intros k Hk. apply Hown. exact (proj1 (cloneVars_keys (variables csp) k) Hk).
    - intros _. split.
      + intros c _ hv tv Hh. discriminate.
      + intros C _ x dom _ Hx. discriminate. }
  split; [exact Hdom|].
  intros Hown Hid. destruct (Hsound Hown Hid) as (Hs & Hsing & Hnd & Hk).
  split; [exact Hs|]. split; [exact Hsing|]. split; [exact Hnd|].
  intros k. rewrite Hk. simpl. rewrite cloneVars_keys. tauto.
Qed.

End SolveResult.

(** * Facts about the puzzle generator *)

Module GencwFacts.
Import Gencw.

(** ** Cell names *)

Lemma numberToString_inj n m : numberToString n = numberToString m -> n = m.
Proof.
  unfold numberToString. intros H.
  assert (E : Nat.to_uint n = Nat.to_uint m).
  { apply (f_equal NilEmpty.uint_of_string) in H. rewrite !NilEmpty.usu in H.
    congruence. }
  rewrite <- (Unsigned.of_to n), <- (Unsigned.of_to m). congruence.
Qed.

Lemma string_of_uint_digits d : freeOf "c" (NilEmpty.string_of_uint d).
Proof. induction d; simpl; auto; split; auto; discriminate. Qed.

Lemma split_at (ch : ascii) (a b x y : string) :
  freeOf ch a -> freeOf ch b ->
  (a ++ String ch x)%string = (b ++ String ch y)%string -> a = b /\ x = y.
Proof.
  revert b. induction a as [|c1 a IH]; intros [|c2 b]; simpl; intros Ha Hb H.
  - inversion H. auto.
  - inversion H; subst. destruct Hb as (Hb & _). now contradiction Hb.
  - inversion H; subst. destruct Ha as (Ha & _). now contradiction Ha.
  - inversion H; subst. destruct (IH b (proj2 Ha) (proj2 Hb)) as (-> & ->); auto.
Qed.

Lemma id_inj r c r' c' : id r c = id r' c' -> r = r' /\ c = c'.
Proof.
  unfold id. simpl. intros H. inversion H as [H1].
  apply split_at in H1; try apply string_of_uint_digits.
  destruct H1 as (Hr & Hc).
  split; now apply numberToString_inj.
Qed.

Lemma arrayIndex_id r c : Obj.arrayIndex (id r c) = None.
Proof. reflexivity. Qed.

(** ** [evaluate] *)

Lemma evaluateFrom_snoc currentVal rest ops x op :
  length rest = length ops ->
  evaluateFrom currentVal (rest ++ [x]) (ops ++ [op])
  = match evaluateFrom currentVal rest ops with
    | Some cur => step op cur x
    | None => None
    end.
Proof.
  revert currentVal rest. induction ops as [|o ops IH]; intros currentVal rest Hl.
  - destruct rest; [|discriminate]. simpl. now destruct (step op currentVal x).
  - destruct rest as [|y rest]; [discriminate|]. simpl.
    destruct (step o currentVal y); [|reflexivity]. apply IH. simpl in Hl. lia.
Qed.

Lemma step_number op a b r :
  step op (Num a) (Num b) = Some r ->
  (exists z, r = Num z) /\ In op ["+"; "−"; "×"; "÷"]%string.
Proof.
  unfold step.
  destruct (String.eqb_spec op "+") as [->|_];
    [intros H; inversion H; simpl; eauto 6|].
  destruct (String.eqb_spec op "−") as [->|_];
    [intros H; inversion H; simpl; eauto 6|].
  destruct (String.eqb_spec op "×") as [->|_];
    [intros H; inversion H; simpl; eauto 7|].
  destruct (String.eqb_spec op "÷") as [->|_]; [|discriminate].
  destruct (Z.eqb b 0 || negb (Z.eqb (Z.rem a b) 0)); [discriminate|].
  intros H; inversion H; simpl; eauto 8.
Qed.

Lemma evaluateFrom_number ops : forall a zs r,
  evaluateFrom (Num a) (map Num zs) ops = Some r ->
  length zs = length ops ->
  (exists z, r = Num z) /\ Forall (fun op => In op ["+"; "−"; "×"; "÷"]%string) ops.
Proof.
  induction ops as [|op ops IH]; intros a zs r H Hl; simpl in H.
  - inversion H. split; [eauto | constructor].
  - destruct zs as [|b zs]; [discriminate|]. simpl in H.
    destruct (step op (Num a) (Num b)) as [cur|] eqn:Es; [|discriminate].
    destruct (step_number _ _ _ _ Es) as ((z & ->) & Hop).
    destruct (IH z zs r H) as (Hr & Hf); [simpl in Hl; lia|].
    split; [exact Hr | now constructor].
Qed.

(** ** The domains *)

(** *** The magnitude of the results *)

Lemma step_bound op a b c (B M : Z) :
  step op (Num a) (Num b) = Some (Num c) ->
  (2 <= M)%Z -> (M <= B)%Z -> (Z.abs a <= B)%Z -> (Z.abs b <= M)%Z ->
  (Z.abs c <= B * M)%Z.
Proof.
  unfold step. intros H HM HB Ha Hb.
  destruct (String.eqb op "+"); [inversion H; subst; simpl; nia|].
  destruct (String.eqb op "−"); [inversion H; subst; simpl; nia|].
  destruct (String.eqb op "×");
    [inversion H; subst; simpl; rewrite Z.abs_mul; nia|].
  destruct (String.eqb op "÷"); [|discriminate].
  destruct (Z.eqb_spec b 0) as [|Hb0]; [discriminate|]. simpl in H.
  destruct (Z.eqb_spec (Z.rem a b) 0) as [Hr|]; [|discriminate]. simpl in H.
  inversion H; subst c.
  pose proof (Z.quot_rem' a b) as E. rewrite Hr, Z.add_0_r in E.
  assert (Ea : Z.abs a = (Z.abs b * Z.abs (Z.quot a b))%Z)
    by (rewrite <- Z.abs_mul; congruence).
  assert (1 <= Z.abs b)%Z by lia. nia.
Qed.

Lemma evaluateFrom_bound (M : Z) ops : forall a zs z (B : Z),
  (2 <= M)%Z -> (M <= B)%Z -> (Z.abs a <= B)%Z ->
  (forall x, In x zs -> (Z.abs x <= M)%Z) ->
  length zs = length ops ->
  evaluateFrom (Num a) (map Num zs) ops = Some (Num z) ->
  (Z.abs z <= B * M ^ Z.of_nat (length zs))%Z.
Proof.
  induction ops as [|op ops IH]; intros a zs z B HM HB Ha Hzs Hl H.
  - destruct zs; [|discriminate]. simpl in H. inversion H; subst. simpl. lia.
  - destruct zs as [|b zs]; [discriminate|]. simpl in H.
    destruct (step op (Num a) (Num b)) as [cur|] eqn:Es; [|discriminate].
    destruct (step_number _ _ _ _ Es) as ((c & ->) & _).
    assert (Hc : (Z.abs c <= B * M)%Z).
    { apply (step_bound op a b c B M Es HM HB Ha). apply Hzs. now left. }
    assert (Hz : (Z.abs z <= B * M * M ^ Z.of_nat (length zs))%Z).
    { apply (IH c zs z (B * M)%Z HM).
      - nia.
      - exact Hc.
      - intros x Hx. apply Hzs. now right.
      - simpl in Hl. lia.
      - exact H. }
    cbn [length]. rewrite Nat2Z.inj_succ, Z.pow_succ_r by lia. lia.
Qed.

(** On operands of magnitude at most [M], every number that [evaluate]
    returns is of magnitude at most [M] to the number of operands. *)
Lemma evaluate_bound (M : Z) zs ops z :
  (2 <= M)%Z ->
  (forall x, In x zs -> (Z.abs x <= M)%Z) ->
  evaluate (map Num zs) ops = Some (Num z) ->
  (Z.abs z <= M ^ Z.of_nat (length zs))%Z.
Proof.
  intros HM Hzs H. unfold evaluate in H. rewrite length_map in H.
  destruct (Nat.eqb_spec (length zs) (length ops + 1)) as [Hl|]; [|discriminate].
  simpl in H. destruct zs as [|a zs]; [simpl in Hl; lia|]. simpl in H.
  pose proof (evaluateFrom_bound M ops a zs z M HM (Z.le_refl M)) as Hb.
  cbn [length]. rewrite Nat2Z.inj_succ, Z.pow_succ_r by lia.
  apply Hb; auto.
  - apply Hzs. now left.
  - intros x Hx. apply Hzs. now right.
  - simpl in Hl. lia.
Qed.

Lemma magnitude_base config (clues : Obj.t Z) :
  (Z.max 2 (Z.max (Z.abs (MIN_N config)) (Z.abs (MAX_N config)))
   <= magnitude config clues)%Z.
Proof.
  unfold magnitude. induction clues as [|kc clues IH]; simpl; lia.
Qed.

Lemma magnitude_clue config (clues : Obj.t Z) k clue :
  In (k, clue) clues -> (Z.abs clue <= magnitude config clues)%Z.
Proof.
  unfold magnitude. induction clues as [|kc clues IH]; simpl; [intros []|].
  intros [->|Hin]; [simpl; lia|]. specialize (IH Hin). lia.
Qed.

(** Every value of a cell is within the magnitude of the puzzle. *)
Lemma cellDomain_bound config (clues : Obj.t Z) r c x :
  In x (cellDomain config clues r c) -> (Z.abs x <= magnitude config clues)%Z.
Proof.
  unfold cellDomain. destruct (Obj.get (id r c) clues) as [clue|] eqn:Hg.
  - intros [<-|[]]. apply (magnitude_clue config clues (id r c)).
    now apply ObjFacts.get_In.
  - intros Hx. pose proof (magnitude_base config clues).
    unfold fullDomain in Hx. apply in_map_iff in Hx. destruct Hx as (i & <- & Hi).
    apply in_seq in Hi. lia.
Qed.

(** No cell has a name that [Object.prototype] defines. *)
Lemma id_own r c : inherited (id r c) = false.
Proof. reflexivity. Qed.

Lemma fullDomain_In config z :
  In z (fullDomain config) <-> (MIN_N config <= z <= MAX_N config)%Z.
Proof.
  unfold fullDomain. rewrite in_map_iff. split.
  - intros (i & <- & Hi). apply in_seq in Hi. lia.
  - intros Hz. exists (Z.to_nat (z - MIN_N config)). split; [lia|].
    apply in_seq. lia.
Qed.

Lemma cells_In n r c : In (r, c) (cells n) <-> r < n /\ c < n.
Proof.
  unfold cells. rewrite in_flat_map. split.
  - intros (r' & Hr & Hin). apply in_map_iff in Hin. destruct Hin as (c' & E & Hc).
    inversion E; subst. apply in_seq in Hr. apply in_seq in Hc. lia.
  - intros (Hr & Hc). exists r. split; [apply in_seq; lia|].
    apply in_map_iff. exists c. split; [reflexivity | apply in_seq; lia].
Qed.

Lemma NoDup_map_injective {A B : Type} (f : A -> B) (l : list A) :
  (forall x y, In x l -> In y l -> f x = f y -> x = y) ->
  NoDup l -> NoDup (map f l).
Proof.
  intros Hinj Hnd. induction Hnd as [|x l Hx Hnd IH]; simpl; constructor.
  - intros Hin. apply in_map_iff in Hin. destruct Hin as (y & Hy & Hin).
    apply Hx. rewrite <- (Hinj y x); auto; [now right | now left].
  - apply IH. intros a b Ha Hb. apply Hinj; now right.
Qed.

Lemma rows_NoDup n (rs : list nat) :
  NoDup rs ->
  NoDup (map (fun rc => id (fst rc) (snd rc))
           (flat_map (fun r => map (fun c => (r, c)) (seq 0 n)) rs)).
Proof.
  assert (Hrow : forall r, NoDup (map (fun rc => id (fst rc) (snd rc))
                                    (map (fun c => (r, c)) (seq 0 n)))).
  { intros r. rewrite map_map. simpl.
    apply NoDup_map_injective; [|apply seq_NoDup].
    intros c c' _ _ H. now apply id_inj in H. }
  induction rs as [|r rs IH]; intros Hnd; simpl; [constructor|].
  inversion Hnd as [|? ? Hnr Hnd']; subst.
  rewrite map_app. apply NoDup_app; [apply Hrow | now apply IH |].
  intros k Hk Hk'. apply in_map_iff in Hk. destruct Hk as ([r1 c1] & <- & H1).
  apply in_map_iff in H1. destruct H1 as (c0 & E & _). inversion E; subst.
  apply in_map_iff in Hk'. destruct Hk' as ([r2 c2] & E2 & H2).
  apply id_inj in E2. simpl in E2. destruct E2 as (-> & ->).
  apply in_flat_map in H2. destruct H2 as (r3 & Hr3 & H3).
  apply in_map_iff in H3. destruct H3 as (c3 & E3 & _). inversion E3; subst.
  contradiction.
Qed.

Lemma cells_NoDup n : NoDup (map (fun rc => id (fst rc) (snd rc)) (cells n)).
Proof. apply rows_NoDup, seq_NoDup. Qed.

End GencwFacts.

Module PuzzleFacts.
Import Gencw GencwFacts.

Section Puzzle.
Variable config : Config.
Variable ops : OpLayout.
Variable clues : Obj.t Z.

Let n := GRID_N config.
Let raw := buildPuzzleConstraints config ops clues.
Let csp := normalizeProblem raw.

(** ** The variables *)

Lemma puzzleVariables_fold :
  puzzleVariables config clues
  = fold_left (fun out kd => Obj.set (fst kd) (snd kd) out)
      (map (fun rc => (id (fst rc) (snd rc),
                       RawArray (cellDomain config clues (fst rc) (snd rc))))
         (cells n))
      [].
Proof.
  unfold puzzleVariables. fold n. generalize (@nil (string * @RawDomain Z)).
  induction (cells n) as [|rc l IH]; intros init; simpl; [reflexivity|].
  rewrite <- IH. unfold cellDomain.
  now destruct (Obj.get (id (fst rc) (snd rc)) clues).
Qed.

Lemma cellEntries_NoDup :
  NoDup (Obj.keys
           (map (fun rc => (id (fst rc) (snd rc),
                            @RawArray Z (cellDomain config clues (fst rc) (snd rc))))
              (cells n))).
Proof. unfold Obj.keys. rewrite map_map. simpl. apply cells_NoDup. Qed.

Lemma puzzleVariables_get r c :
  r < n -> c < n ->
  Obj.get (id r c) (puzzleVariables config clues)
  = Some (RawArray (cellDomain config clues r c)).
Proof.
  intros Hr Hc. rewrite puzzleVariables_fold.
  rewrite (get_foldSet (fun d : @RawDomain Z => d) _ [] (id r c) cellEntries_NoDup).
  rewrite (ObjFacts.In_get (id r c) (RawArray (cellDomain config clues r c)) _
             cellEntries_NoDup); [reflexivity|].
  apply in_map_iff. exists (r, c). split; [reflexivity|]. now apply cells_In.
Qed.

Lemma puzzleVariables_keys k :
  In k (Obj.keys (puzzleVariables config clues))
  <-> exists r c, r < n /\ c < n /\ k = id r c.
Proof.
  rewrite puzzleVariables_fold.
  rewrite (keys_foldSet (fun d : @RawDomain Z => d)). simpl.
  unfold Obj.keys. rewrite map_map. simpl. rewrite in_map_iff. split.
  - intros [([r c] & <- & Hin)|[]]. apply cells_In in Hin. exists r, c. tauto.
  - intros (r & c & Hr & Hc & ->). left. exists (r, c).
    split; [reflexivity|]. now apply cells_In.
Qed.

Lemma puzzleVariables_NoDup : NoDup (Obj.keys (puzzleVariables config clues)).
Proof.
  rewrite puzzleVariables_fold.
  apply (NoDup_foldSet (fun d : @RawDomain Z => d)). constructor.
Qed.

Lemma variables_get r c :
  r < n -> c < n ->
  Obj.get (id r c) (variables csp) = Some (RawArray (cellDomain config clues r c)).
Proof.
  intros Hr Hc. unfold csp, normalizeProblem, raw.
  cbn [variables rawVariables buildPuzzleConstraints].
  rewrite (get_foldSet
             (fun d : @RawDomain Z =>
                if isArray d then RawArray (slice d) else RawArray [])
             _ [] (id r c) puzzleVariables_NoDup).
  now rewrite (puzzleVariables_get r c Hr Hc).
Qed.

Lemma variables_keys k :
  In k (Obj.keys (variables csp)) <-> exists r c, r < n /\ c < n /\ k = id r c.
Proof.
  unfold csp, normalizeProblem, raw.
  cbn [variables rawVariables buildPuzzleConstraints].
  rewrite (keys_foldSet
             (fun d : @RawDomain Z =>
                if isArray d then RawArray (slice d) else RawArray [])).
  simpl. rewrite puzzleVariables_keys. tauto.
Qed.

(** ** The constraints *)

Lemma flat_map_objects (l : list (@NaryConstraint Z)) :
  flat_map (fun C => match C with RawNaryObject C => [C] | RawNaryOther => [] end)
    (map RawNaryObject l) = l.
Proof. induction l as [|C l IH]; simpl; [reflexivity | now rewrite IH]. Qed.

Lemma naryConstraints_eq :
  naryConstraints csp
  = map (rowConstraint n ops) (seq 0 n) ++ map (colConstraint n ops) (seq 0 n).
Proof.
  unfold csp, normalizeProblem, raw. simpl. fold n.
  rewrite flat_map_app.
  rewrite <- (map_map (rowConstraint n ops) RawNaryObject).
  rewrite <- (map_map (colConstraint n ops) RawNaryObject).
  now rewrite !flat_map_objects.
Qed.

Lemma naryConstraints_In C :
  In C (naryConstraints csp) <->
  (exists r, r < n /\ C = rowConstraint n ops r) \/
  (exists c, c < n /\ C = colConstraint n ops c).
Proof.
  rewrite naryConstraints_eq, in_app_iff, !in_map_iff. split.
  - intros [(r & <- & Hr)|(c & <- & Hc)]; [left | right];
      eexists; (split; [|reflexivity]); apply in_seq in Hr || apply in_seq in Hc; lia.
  - intros [(r & Hr & ->)|(c & Hc & ->)]; [left | right];
      eexists; (split; [reflexivity|]); apply in_seq; lia.
Qed.

Lemma constraints_nil : constraints csp = [].
Proof. reflexivity. Qed.

Lemma puzzle_identities : DistinctIdentities (naryConstraints csp).
Proof.
  intros C C' HC HC' Hid.
  apply naryConstraints_In in HC. apply naryConstraints_In in HC'.
  destruct HC as [(r & Hr & ->)|(c & Hc & ->)],
           HC' as [(r' & Hr' & ->)|(c' & Hc' & ->)]; simpl in Hid.
  - now subst.
  - lia.
  - lia.
  - assert (c = c') by lia. now subst.
Qed.

Lemma puzzle_valid : validateProblem csp = None.
Proof.
  unfold validateProblem. cbv zeta.
  assert (E1 : firstError
                 (fun kd : string * @RawDomain Z =>
                    if isArray (snd kd) then None else Some (InvalidDomain (fst kd)))
                 (variables csp) = None).
  { apply firstError_None. intros [k d] Hin.
    pose proof (normalizeProblem_arrays raw k d Hin) as Ha.
    destruct d; simpl in *; [reflexivity | discriminate]. }
  rewrite E1. rewrite constraints_nil. simpl.
  apply firstError_None. intros C HC. apply naryConstraints_In in HC.
  assert (Hvars : forall vs,
             (forall v, In v vs -> exists r c, r < n /\ c < n /\ v = id r c) ->
             firstError
               (fun v => if negb (varsSetHas (Obj.keys (variables csp)) v)
                         then Some (UnknownVariable v) else None) vs = None).
  { intros vs Hvs. apply firstError_None. intros v Hv.
    assert (Hk : varsSetHas (Obj.keys (variables csp)) v = true).
    { apply varsSetHas_true, variables_keys. now apply Hvs. }
    now rewrite Hk. }
  destruct HC as [(r & Hr & ->)|(c & Hc & ->)]; simpl; rewrite length_map, length_seq.
  - destruct (Nat.eqb_spec n 0) as [Z|_]; [lia|]. apply Hvars.
    intros v Hv. apply in_map_iff in Hv. destruct Hv as (c & <- & Hc).
    apply in_seq in Hc. exists r, c. repeat split; lia.
  - destruct (Nat.eqb_spec n 0) as [Z|_]; [lia|]. apply Hvars.
    intros v Hv. apply in_map_iff in Hv. destruct Hv as (r & <- & Hr).
    apply in_seq in Hr. exists r, c. repeat split; lia.
Qed.

Lemma puzzle_ownNames : OwnNames (variables csp).
Proof.
  intros k Hk. apply variables_keys in Hk. destruct Hk as (r & c & _ & _ & ->).
  apply id_own.
Qed.

(** [buildNaryIndex] does not throw on the constraints of a puzzle. *)
Lemma puzzle_indexed :
  existsb inherited (flat_map (@cvars Z) (naryConstraints csp)) = false.
Proof.
  destruct (existsb inherited (flat_map (@cvars Z) (naryConstraints csp))) eqn:E;
    [|reflexivity].
  apply existsb_exists in E. destruct E as (v & Hv & Hi).
  apply in_flat_map in Hv. destruct Hv as (C & HC & Hv).
  apply naryConstraints_In in HC.
  destruct HC as [(r & _ & ->)|(c & _ & ->)]; simpl in Hv;
    apply in_map_iff in Hv; destruct Hv as (i & <- & _);
    rewrite id_own in Hi; discriminate.
Qed.

End Puzzle.
End PuzzleFacts.

(** * More on the store: what [backtrack] leaves in [unassigned] *)

Module MemMore.
Import Mem(Ref, Slot(..), Cell(..), Heap, M, ret, fail, bind, update, alloc,
  load, store, loadObject, loadArray, setProp, deleteProp, sliceArray,
  forProps, arrayAt, ReprProps, Repr, Keeps, ReprResult, ReprRaw).

Section More.
Context {V : Type}.
Variable toKey : V -> string.
Implicit Types (h : @Heap V) (props : Obj.t (@Slot V)) (A U : @Vars V).

(** The object [solve] returns is created by the call. *)
Lemma Safe_solve_fresh base csp :
  Mem.Safe base (Mem.solve toKey csp)
    (fun out =>
       match out with
       | Returned (Value o) => base <= o
       | _ => True
       end).
Proof.
  unfold Mem.solve.
  eapply MemFacts.Safe_bind; [apply MemFacts.Safe_normalizeProblem|]. intros out Hout.
  eapply MemFacts.Safe_bind; [apply MemFacts.Safe_loadProblem|]. intros loaded _.
  destruct (validateProblem (snd loaded)); [now apply MemFacts.Safe_ret|].
  destruct (buildNaryIndex (naryConstraints (snd loaded)));
    [now apply MemFacts.Safe_ret|].
  eapply MemFacts.Safe_bind; [now apply MemFacts.Safe_setNaryIndex|]. intros _ _.
  eapply MemFacts.Safe_bind; [apply MemFacts.Safe_alloc|]. intros empty _.
  eapply MemFacts.Safe_bind; [apply MemFacts.Safe_cloneVars|]. intros unassigned Hu.
  eapply MemFacts.Safe_bind; [now apply MemFacts.Safe_backtrack|]. intros [|result] Hr;
    [now apply MemFacts.Safe_ret|].
  eapply MemFacts.Safe_bind; [apply MemFacts.Safe_loadObject|]. intros props _.
  eapply MemFacts.Safe_bind;
    [apply MemFacts.Safe_forProps; intros; now apply MemFacts.Safe_unwrapProp|].
  intros _ _. now apply MemFacts.Safe_ret.
Qed.

(** The properties of [unassigned] when [backtrack] returns. *)
Lemma backtrack_unassigned csp fuel h a u A U res r h' :
  Repr h a A -> Repr h u U -> a <> u ->
  backtrack toKey fuel A U csp = Some res ->
  Mem.backtrack toKey fuel a u csp h = Some (r, h') ->
  exists props props',
    nth_error h u = Some (CObject props) /\
    nth_error h' u = Some (CObject props') /\
    match res with
    | FAILURE => forall k, Obj.get k props' = Obj.get k props
    | Value _ =>
        match selectUnassignedVariable U with
        | Some nextKey => props' = Obj.del nextKey props
        | None => props' = props
        end
    end.
Proof.
  intros Ha Hu Hne H Hm. destruct fuel as [|fuel]; [discriminate|].
  simpl in H. simpl Mem.backtrack in Hm.
  pose proof Hu as (props & Hp & Hprops). exists props.
  pose proof (MemSim.Repr_lt _ _ _ Hu) as Lu.
  destruct (MemSim.cloneAssignment_sim h a A Ha) as (a' & h1 & E1 & Ha1 & K1 & L1).
  unfold bind at 1 in Hm. rewrite E1 in Hm.
  pose proof (MemSim.Repr_kept_all _ _ _ _ Hu K1) as Hu1.
  assert (Hp1 : nth_error h1 u = Some (CObject props)).
  { destruct K1 as (_ & K & _). now apply K. }
  unfold bind at 1 in Hm. rewrite (MemSim.finished_sim _ _ _ Hu1) in Hm.
  destruct (finished U) eqn:Hfin.
  - inversion H; subst res. inversion Hm; subst. exists props.
    split; [exact Hp|]. split; [exact Hp1|].
    apply finished_true in Hfin. subst U. reflexivity.
  - unfold bind at 1 in Hm.
    rewrite (MemSim.selectUnassignedVariable_sim _ _ _ Hu1) in Hm.
    destruct (selectUnassignedVariable U) as [nextKey|] eqn:Hsel.
    + destruct (orderValues toKey nextKey (cloneAssignment A) U csp)
        as [values|] eqn:Ev; [|discriminate].
      destruct (MemSim.orderValues_sim toKey nextKey csp h1 a' u _ U values Ha1 Hu1 Ev)
        as (h2 & E2 & K2).
      unfold bind at 1 in Hm. rewrite E2 in Hm. simpl in H.
      pose proof (MemSim.Repr_kept_all _ _ _ _ Ha1 K2) as Ha2.
      pose proof (MemSim.Repr_kept_all _ _ _ _ Hu1 K2) as Hu2.
      assert (Hp2 : nth_error h2 u = Some (CObject props)).
      { destruct K2 as (_ & K & _). now apply K. }
      unfold bind at 1 in Hm. rewrite (MemSim.loadObject_eq _ _ _ Hp2) in Hm.
      destruct (MemSim.deleteProp_sim h2 u U nextKey Hu2) as (h3 & E3 & Hu3 & K3).
      pose proof (MemSim.deleteProp_eq h2 u props nextKey Hp2) as E3'.
      rewrite E3 in E3'. inversion E3' as [Eh3].
      unfold bind at 1 in Hm. rewrite E3 in Hm.
      assert (Hne' : a' <> u) by lia.
      pose proof (MemSim.Repr_kept_other _ _ _ _ _ Ha2 K3 Hne') as Ha3.
      assert (Hp3 : nth_error h3 u = Some (CObject (Obj.del nextKey props))).
      { rewrite Eh3. apply MemSim.nth_error_update_same.
        now apply MemSim.nth_error_lt in Hp2. }
      destruct (MemSim.tryValues_sim toKey _
                  (fun a u => Mem.backtrack toKey fuel a u csp)
                  nextKey csp
                  (fun h a u A U res => MemSim.backtrack_sim toKey csp fuel h a u A U res)
                  values h3 a' u _ _ res Ha3 Hu3 Hne' H)
        as (r4 & h4 & E4 & K4 & Hr4 & _).
      unfold bind at 1 in Hm. rewrite E4 in Hm.
      assert (Hp4 : nth_error h4 u = Some (CObject (Obj.del nextKey props))).
      { destruct K4 as (_ & K & _). apply K; [exact Hp3|].
        intros [E|[]]. now apply Hne'. }
      destruct res as [|vars].
      * simpl in Hr4. subst r4.
        unfold bind at 1 in Hm. rewrite (MemSim.setProp_eq _ _ _ nextKey _ Hp4) in Hm.
        inversion Hm; subst. eexists. split; [exact Hp|].
        split; [apply MemSim.nth_error_update_same;
                now apply MemSim.nth_error_lt in Hp4|].
        intros k. rewrite ObjFacts.get_set.
        destruct (String.eqb_spec k nextKey) as [->|Hk].
        -- pose proof (selectUnassignedVariable_In U nextKey Hsel) as Hin.
           rewrite <- (MemSim.ReprProps_keys _ _ _ Hprops) in Hin.
           apply ObjFacts.keys_get in Hin. destruct Hin as [s Hs]. now rewrite Hs.
        -- now apply ObjFacts.get_del_ne.
      * destruct Hr4 as (o & -> & _). inversion Hm; subst.
        exists (Obj.del nextKey props). auto.
    + inversion H; subst res. inversion Hm; subst. exists props.
      split; [exact Hp|]. split; [exact Hp1|]. reflexivity.
Qed.

End More.
End MemMore.

(** * The earlier variant: facts *)

Module LegacyFacts.

Lemma legacyLoop_min {V : Type} (entries : @Vars V) minKey minLen k :
  Legacy.selectLoop entries minKey minLen = Some k ->
  (exists dom,
      In (k, dom) entries /\
      (forall k' dom', In (k', dom') entries -> length dom <= length dom') /\
      (forall m, minLen = Some m -> length dom < m)) \/
  (minKey = Some k /\
   forall m, minLen = Some m ->
     forall k' dom', In (k', dom') entries -> m <= length dom').
Proof.
  revert minKey minLen.
  induction entries as [|[key dom] rest IH]; intros minKey minLen H; simpl in H.
  - right. split; [exact H|]. intros m _ k' dom' [].
  - destruct minLen as [m|].
    + destruct (Nat.ltb_spec (length dom) m) as [Hlt|Hge].
      * apply IH in H. left. destruct H as [(d & Hin & Hmin & Hl)|(Hk & Hm)].
        -- exists d. specialize (Hl _ eq_refl). split; [now right|]. split.
           ++ intros k' dom' [E|Hin']; [inversion E; subst; lia | eauto].
           ++ intros m' Hm'. inversion Hm'; subst. lia.
        -- inversion Hk; subst. exists dom. split; [now left|]. split.
           ++ intros k' dom' [E|Hin']; [inversion E; subst; lia|].
              exact (Hm _ eq_refl _ _ Hin').
           ++ intros m' Hm'. inversion Hm'; subst. lia.
      * apply IH in H. destruct H as [(d & Hin & Hmin & Hl)|(Hk & Hm)].
        -- left. exists d. specialize (Hl _ eq_refl). split; [now right|]. split.
           ++ intros k' dom' [E|Hin']; [inversion E; subst; lia | eauto].
           ++ intros m' Hm'. inversion Hm'; subst. lia.
        -- right. split; [exact Hk|]. intros m' Hm' k' dom' [E|Hin'].
           ++ inversion E; inversion Hm'; subst. lia.
           ++ exact (Hm _ Hm' _ _ Hin').
    + apply IH in H. left. destruct H as [(d & Hin & Hmin & Hl)|(Hk & Hm)].
      * exists d. specialize (Hl _ eq_refl). split; [now right|]. split.
        -- intros k' dom' [E|Hin']; [inversion E; subst; lia | eauto].
        -- discriminate.
      * inversion Hk; subst. exists dom. split; [now left|]. split.
        -- intros k' dom' [E|Hin']; [inversion E; subst; lia|].
           exact (Hm _ eq_refl _ _ Hin').
        -- discriminate.
Qed.

(** Once a singleton has been recorded, no later non-empty domain
    replaces it. *)
Lemma legacyLoop_after_singleton {V : Type} (entries : @Vars V) minKey :
  (forall k dom, In (k, dom) entries -> dom <> []) ->
  Legacy.selectLoop entries minKey (Some 1) = minKey.
Proof.
  induction entries as [|[key dom] rest IH]; intros Hne; simpl; [reflexivity|].
  destruct (Nat.ltb_spec (length dom) 1) as [Hlt|Hge].
  - destruct dom; [|simpl in Hlt; lia].
    exfalso. now apply (Hne key []); [left|].
  - apply IH. intros k d Hin. apply (Hne k d). now right.
Qed.

Lemma legacyLoop_agree {V : Type} (entries : @Vars V) minKey minLen :
  (forall k dom, In (k, dom) entries -> dom <> []) ->
  selectLoop entries minKey minLen = Legacy.selectLoop entries minKey minLen.
Proof.
  revert minKey minLen.
  induction entries as [|[key dom] rest IH]; intros minKey minLen Hne; simpl;
    [reflexivity|].
  assert (Hrest : forall k d, In (k, d) rest -> d <> [])
    by (intros k d Hin; apply (Hne k d); now right).
  destruct (match minLen with Some m => Nat.ltb (length dom) m | None => true end).
  - destruct (Nat.eqb_spec (length dom) 1) as [E1|N1].
    + rewrite E1. now rewrite legacyLoop_after_singleton.
    + now apply IH.
  - now apply IH.
Qed.

End LegacyFacts.

(** * Further properties of the solver *)

Section SearchProperties.
Context {V : Type}.
Variable toKey : V -> string.
Implicit Types (vars A U : @Vars V) (csp : @Problem V) (C : @NaryConstraint V)
  (raw : @RawProblem V).


End SearchProperties.



(** ** The two propagation loops *)

(** X2. The verdict of [runAC3].  When it returns [true], every arc is
    consistent in the mapping it leaves: each value left in the domain of
    a tail has a value in the domain of the head on which the predicate
    is true.  When it returns [false], it has just emptied a domain. *)
Theorem runAC3_verdict {V : Type} (vars : @Vars V) (cs : list (@BinaryConstraint V))
  (ok : bool) (vars' : @Vars V) :
  runAC3 vars cs = Some (ok, vars') ->
  if ok then
    forall head tail predicate hv tv,
      In (head, tail, predicate) cs ->
      Obj.get head vars' = Some hv -> Obj.get tail vars' = Some tv ->
      forall t, In t tv -> exists h, In h hv /\ predicate h t = true
  else exists tail, Obj.get tail vars' = Some [].
Proof.
  intros H. destruct ok.
  - intros head tail predicate hv tv Hin Hh Ht t Hit.
    pose proof (runAC3_consistent vars cs vars' H _ Hin hv tv Hh Ht t Hit) as He.
    simpl in He. apply existsb_exists in He. exact He.
  - unfold runAC3 in H. now apply ac3Loop_false in H.
Qed.

Lemma runAC3_verdict_witness :
  runAC3 Examples.arcVars [("x", "y", Nat.ltb)]
  = Some (true, [("x", [1; 2; 3]); ("y", [2; 3])]) /\
  exists h, In h [1; 2; 3] /\ Nat.ltb h 2 = true.
Proof.
  assert (H : runAC3 Examples.arcVars [("x", "y", Nat.ltb)]
              = Some (true, [("x", [1; 2; 3]); ("y", [2; 3])]))
    by (vm_compute; reflexivity).
  split; [exact H|].
  apply (runAC3_verdict Examples.arcVars [("x", "y", Nat.ltb)] true _ H
           "x" "y" Nat.ltb [1; 2; 3] [2; 3]).
  - left. reflexivity.
  - reflexivity.
  - reflexivity.
  - left. reflexivity.
Defined.

(** X3. The verdict of [runGAC], run with the index [solve] builds.  When
    it returns [true], every value left in the domain of a participant of
    an n-ary constraint has a support: a tuple that binds the participant
    to the value and the other participants to values of their domains,
    on which the predicate is true.  When it returns [false], it has just
    emptied a domain. *)
Theorem runGAC_verdict {V : Type} (csp : @Problem V) (vars : @Vars V)
  (ok : bool) (vars' : @Vars V) :
  WellIndexed csp -> DistinctIdentities (naryConstraints csp) ->
  runGAC vars csp = Some (ok, vars') ->
  if ok then
    forall C x dom val,
      In C (naryConstraints csp) -> In x (cvars C) ->
      Obj.get x vars' = Some dom -> In val dom ->
      exists tuple,
        SupportTuple x val C vars' tuple /\ cpredicate C tuple = Some true
  else exists x, Obj.get x vars' = Some [].
Proof.
  intros Hidx Hid H. destruct ok.
  - intros C x dom val HC Hx Hdom Hval. apply hasSupport_sound.
    unfold runGAC in H. cbv zeta in H.
    assert (Hc : forall C v, In C (naryConstraints csp) -> In v (cvars C) ->
                   In C (getOrNil v (naryIndexOf csp))).
    { intros C0 v HC0 Hv. rewrite Hidx. apply adjacency_spec. auto. }
    assert (Hsd : forall C, In C (concat (map snd (naryIndexOf csp))) ->
                    In C (naryConstraints csp)).
    { intros C0 HC0. rewrite Hidx in HC0. eapply adjacency_sound; eauto. }
    assert (Hst : forall C, In C (naryConstraints csp) -> gacStable C vars').
    { refine (gacLoop_stable (naryConstraints csp) (naryIndexOf csp) Hid Hc Hsd
                _ vars (naryConstraints csp) vars' _ _ H); auto.
      intros C0 HC0. left. exists C0. auto. }
    exact (Hst C HC x dom Hx Hdom val Hval).
  - unfold runGAC in H. now apply gacLoop_false in H.
Qed.

Lemma runGAC_verdict_witness :
  runGAC Examples.mixedVars Examples.mixedProblem
  = Some (true, [("x", [1]); ("y", [1; 2])]) /\
  exists tuple,
    SupportTuple "x" 1 Examples.onlyOne [("x", [1]); ("y", [1; 2])] tuple /\
    cpredicate Examples.onlyOne tuple = Some true.
Proof.
  assert (H : runGAC Examples.mixedVars Examples.mixedProblem
              = Some (true, [("x", [1]); ("y", [1; 2])]))
    by (vm_compute; reflexivity).
  split; [exact H|].
  apply (runGAC_verdict Examples.mixedProblem Examples.mixedVars true _ eq_refl)
    with (dom := [1]).
  - intros C C' [<-|[]] [<-|[]] _. reflexivity.
  - exact H.
  - left. reflexivity.
  - left. reflexivity.
  - reflexivity.
  - left. reflexivity.
Defined.

(** X4. Pruning is safe.  An assignment that satisfies every constraint
    and takes each value from the domains handed to [enforceConsistency]
    survives the pass: the pass succeeds, and the assignment still takes
    each value from the pruned domains. *)
Theorem pass_keeps_solutions {V : Type} (csp : @Problem V) (sol : Obj.t V)
  (A U : @Vars V) :
  WellIndexed csp ->
  (forall C, In C (naryConstraints csp) -> Extensional (cpredicate C)) ->
  SatisfiesBinary sol (constraints csp) ->
  (forall C, In C (naryConstraints csp) -> SatisfiesNary sol C) ->
  Covered csp (partialAssignment A U) ->
  Within sol (partialAssignment A U) ->
  exists vars', enforceConsistency A U csp = Some (Value vars') /\ Within sol vars'.
Proof.
  intros Hidx Hext Hbin Hnary Hcov Hw.
  destruct (enforceConsistency_returns A U csp) as [res Hres].
  destruct (enforceConsistency_keeps csp sol Hidx Hext Hbin Hnary A U res Hcov Hw Hres)
    as (vars' & -> & Hw' & _).
  exists vars'. auto.
Qed.

Lemma pass_keeps_solutions_witness :
  exists vars',
    enforceConsistency [] Examples.arcVars Examples.arcProblem = Some (Value vars') /\
    Within [("x", 1); ("y", 2)] vars'.
Proof.
  apply (pass_keeps_solutions Examples.arcProblem [("x", 1); ("y", 2)]
           [] Examples.arcVars).
  - reflexivity.
  - intros C [].
  - intros head tail predicate [E|[]]. inversion E; subst.
    exists 1, 2. repeat split.
  - intros C [].
  - intros C v [].
  - intros k dom Hg. vm_compute in Hg.
    destruct k as [|[[] [] [] [] [] [] [] []] [|]]; try discriminate;
      inversion Hg; subst; eexists; (split; [reflexivity | simpl; auto]).
Defined.

(** X5. Supports only disappear.  For a predicate that reads its tuple
    through its properties, a value that has a support after domains were
    pruned had one before: pruning never creates a support. *)
Theorem hasSupport_antitone {V : Type} (C : @NaryConstraint V)
  (vars vars' : @Vars V) (x : string) (v : V) :
  Extensional (cpredicate C) -> Shrunk vars vars' ->
  hasSupport x v C vars' = true -> hasSupport x v C vars = true.
Proof.
  intros Hext Hsh H. apply hasSupport_sound in H.
  destruct H as (tuple & (Hx & Ho & Hn) & Hp).
  apply (hasSupport_complete x v C vars tuple Hext); [|exact Hp].
  split; [exact Hx|]. split; [|exact Hn].
  intros o Hin Hne. destruct (Ho o Hin Hne) as (dom' & val & Hd' & Hv & Ht).
  destruct (Shrunk_get _ _ _ _ Hsh Hd') as (dom & Hd & Hsub).
  exists dom, val. split; [exact Hd|]. split; [|exact Ht].
  exact (Subseq_In _ _ _ Hsub Hv).
Qed.

Lemma hasSupport_antitone_witness :
  hasSupport "a" 1 Examples.tripleConstraint
    [("a", [1; 2; 3]); ("b", [1; 2; 3]); ("c", [1; 2; 3])] = true.
Proof.
  apply (hasSupport_antitone Examples.tripleConstraint
           [("a", [1; 2; 3]); ("b", [1; 2; 3]); ("c", [1; 2; 3])]
           [("a", [1]); ("b", [2]); ("c", [3])] "a" 1
           allDifferentSum6_extensional).
  - intros k. simpl.
    destruct (String.eqb k "a");
      [repeat first [apply Subseq_nil | apply Subseq_keep | apply Subseq_skip]|].
    destruct (String.eqb k "b");
      [repeat first [apply Subseq_nil | apply Subseq_keep | apply Subseq_skip]|].
    destruct (String.eqb k "c");
      [repeat first [apply Subseq_nil | apply Subseq_keep | apply Subseq_skip]
      | exact I].
  - reflexivity.
Defined.

(** ** The index, the heuristics, and the driver *)

Lemma getOrNil_set {E : Type} (index : Obj.t (list E)) x l v :
  getOrNil v (Obj.set x l index) = if String.eqb v x then l else getOrNil v index.
Proof.
  unfold getOrNil. rewrite ObjFacts.get_set. now destruct (String.eqb v x).
Qed.

Lemma indexVars_lookup {V : Type} (C : @NaryConstraint V) (vs : list string)
  (index : Obj.t (list (@NaryConstraint V))) v :
  getOrNil v
    (fold_left (fun index v => Obj.set v (getOrNil v index ++ [C]) index) vs index)
  = getOrNil v index ++ repeat C (count_occ string_dec vs v).
Proof.
  revert index. induction vs as [|x vs IH]; intros index; simpl.
  - now rewrite app_nil_r.
  - rewrite IH, getOrNil_set. destruct (string_dec x v) as [->|Hne].
    + rewrite String.eqb_refl. rewrite <- app_assoc. reflexivity.
    + destruct (String.eqb_spec v x) as [->|_]; [contradiction | reflexivity].
Qed.

Lemma indexAll_lookup {V : Type} (nary : list (@NaryConstraint V))
  (index : Obj.t (list (@NaryConstraint V))) v :
  getOrNil v
    (fold_left
       (fun index C =>
          fold_left (fun index v => Obj.set v (getOrNil v index ++ [C]) index)
            (cvars C) index)
       nary index)
  = getOrNil v index
    ++ flat_map (fun C => repeat C (count_occ string_dec (cvars C) v)) nary.
Proof.
  revert index. induction nary as [|C nary IH]; intros index; simpl.
  - now rewrite app_nil_r.
  - rewrite IH, indexVars_lookup. now rewrite app_assoc.
Qed.

Lemma has_set {E : Type} (o : Obj.t E) x (e : E) v :
  Obj.has v (Obj.set x e o) = String.eqb v x || Obj.has v o.
Proof.
  unfold Obj.has. rewrite ObjFacts.get_set. now destruct (String.eqb v x).
Qed.

Lemma indexVars_has {V : Type} (C : @NaryConstraint V) (vs : list string)
  (index : Obj.t (list (@NaryConstraint V))) v :
  Obj.has v
    (fold_left (fun index v => Obj.set v (getOrNil v index ++ [C]) index) vs index)
  = Obj.has v index || existsb (String.eqb v) vs.
Proof.
  revert index. induction vs as [|x vs IH]; intros index; simpl.
  - now rewrite orb_false_r.
  - rewrite IH, has_set. destruct (String.eqb v x), (Obj.has v index); reflexivity.
Qed.

Lemma indexAll_has {V : Type} (nary : list (@NaryConstraint V))
  (index : Obj.t (list (@NaryConstraint V))) v :
  Obj.has v
    (fold_left
       (fun index C =>
          fold_left (fun index v => Obj.set v (getOrNil v index ++ [C]) index)
            (cvars C) index)
       nary index)
  = Obj.has v index || existsb (fun C => existsb (String.eqb v) (cvars C)) nary.
Proof.
  revert index. induction nary as [|C nary IH]; intros index; simpl.
  - now rewrite orb_false_r.
  - rewrite IH, indexVars_has. now rewrite orb_assoc.
Qed.

(** X6. What [buildNaryIndex] returns.  It throws, a [TypeError],
    exactly when a constraint lists a name that [Object.prototype]
    defines.  Otherwise it returns an index with a property for each
    name that some constraint lists, and no other: the property holds
    the constraints that list the name, in the order of the constraint
    list, a constraint that lists the name several times that many
    times. *)
Theorem buildNaryIndex_lookup {V : Type} (nary : list (@NaryConstraint V)) :
  (forall e, buildNaryIndex nary = inl e -> e = TypeError) /\
  (buildNaryIndex nary = inl TypeError <->
   exists C v, In C nary /\ In v (cvars C) /\ inherited v = true) /\
  (forall index,
     buildNaryIndex nary = inr index ->
     forall v,
       Obj.get v index
       = if existsb (fun C => existsb (String.eqb v) (cvars C)) nary
         then Some (flat_map (fun C => repeat C (count_occ string_dec (cvars C) v)) nary)
         else None).
Proof.
  rewrite buildNaryIndex_adjacency.
  destruct (existsb inherited (flat_map (@cvars V) nary)) eqn:E.
  - split; [intros e H; now inversion H|]. split; [|discriminate].
    split; [intros _|reflexivity].
    apply existsb_exists in E. destruct E as (v & Hv & Hi).
    apply in_flat_map in Hv. destruct Hv as (C & HC & Hv). eauto.
  - split; [discriminate|]. split.
    + split; [discriminate|]. intros (C & v & HC & Hv & Hi). exfalso.
      assert (Ht : existsb inherited (flat_map (@cvars V) nary) = true).
      { apply existsb_exists. exists v. split; [|exact Hi].
        apply in_flat_map. eauto. }
      congruence.
    + intros index H v. inversion H; subst index; clear H.
      pose proof (indexAll_lookup nary [] v) as Hl.
      pose proof (indexAll_has nary [] v) as Hh.
      fold (adjacency nary) in Hl, Hh. simpl in Hl, Hh. rewrite <- Hh, <- Hl.
      unfold Obj.has, getOrNil. destruct (Obj.get v (adjacency nary)); reflexivity.
Qed.

(** X7. The variable [selectUnassignedVariable] picks.  It returns [null]
    exactly on the empty mapping.  Otherwise the variable it returns has
    a domain of length 1 (the loop stops at the first one it meets while
    no shorter domain has been seen), or a domain that is no longer than
    any other: an empty domain met after a singleton is not picked. *)
Theorem selectUnassignedVariable_smallest {V : Type} (U : @Vars V) :
  (selectUnassignedVariable U = None <-> U = []) /\
  (forall k, selectUnassignedVariable U = Some k ->
     exists dom,
       In (k, dom) U /\
       (length dom = 1 \/
        forall k' dom', In (k', dom') U -> length dom <= length dom')) /\
  selectUnassignedVariable [("p", [1]); ("q", @nil nat)] = Some "p".
Proof.
  split; [|split; [|reflexivity]].
  - split.
    + intros H. destruct U as [|kd U]; [reflexivity|].
      destruct (selectUnassignedVariable_Some (kd :: U)) as [k Hk]; [discriminate|].
      congruence.
    + intros ->. reflexivity.
  - intros k H. unfold selectUnassignedVariable in H.
    destruct (selectLoop_min U None None k H) as [(dom & Hin & Hd)|(Hk & _)];
      [|discriminate].
    exists dom. split; [exact Hin|]. destruct Hd as [Hd|(Hmin & _)]; auto.
Qed.

Section OrderProperties.
Context {V : Type}.
Variable toKey : V -> string.
Implicit Types (vars A U : @Vars V) (csp : @Problem V) (raw : @RawProblem V).

(** X8. The order [orderValues] returns.  It is a permutation of the
    domain of the variable; a domain of at most one value is returned as
    it is.  For a longer domain the values come by score, highest first
    (no value has a higher score than a value before it), where the score
    of a value is the total size of the domains that a consistency pass
    leaves once the value is tentatively assigned, or minus infinity when
    the pass fails or leaves an empty domain: such values are tried last.
    Scores are filed under [String(val)]. *)
Theorem orderValues_descending nextKey A U csp :
  exists values,
    orderValues toKey nextKey A U csp = Some values /\
    Permutation values (getOrNil nextKey U) /\
    (length (getOrNil nextKey U) <= 1 -> values = getOrNil nextKey U) /\
    (1 < length (getOrNil nextKey U) ->
     exists score,
       scoreValues toKey nextKey A U csp (getOrNil nextKey U) [] = Some score /\
       StronglySorted
         (fun a b =>
            scoreGreater (Obj.get (toKey b) score) (Obj.get (toKey a) score) = false)
         values /\
       (NoDup (map toKey (getOrNil nextKey U)) ->
        forall v, In v (getOrNil nextKey U) ->
          exists res,
            enforceConsistency (Obj.set nextKey [v] (cloneAssignment A))
              (Obj.del nextKey (cloneVars U)) csp = Some res /\
            Obj.get (toKey v) score
            = Some match res with
                   | FAILURE => NegInfinity
                   | Value r =>
                       if anyEmpty r then NegInfinity else Count (countValues r)
                   end)).
Proof.
  destruct (orderValues_perm toKey nextKey A U csp) as (values & Hv & Hperm).
  exists values. split; [exact Hv|]. split; [exact Hperm|].
  unfold orderValues in Hv. cbv zeta in Hv.
  destruct (Nat.leb_spec (length (getOrNil nextKey U)) 1) as [Hle|Hgt].
  - inversion Hv; subst. split; [reflexivity | lia].
  - split; [lia|]. intros _.
    destruct (scoreValues toKey nextKey A U csp (getOrNil nextKey U) [])
      as [score|] eqn:Es; [|discriminate].
    simpl in Hv. inversion Hv; subst. exists score. split; [reflexivity|].
    destruct (scoreValues_scores toKey nextKey A U csp _ _ _ Es) as (H1 & _ & H3).
    split; [|exact H3].
    apply sortBy_sorted.
    + intros x y _ _. apply scoreGreater_asym.
    + intros x y z _ Hy _ Hxy Hyz.
      apply (scoreGreater_trans _ (Obj.get (toKey y) score)); auto.
Qed.

(** X11. The fuel of [backtrack].  Every recursive call has one
    unassigned variable fewer, so [backtrack] returns as soon as the fuel
    exceeds the number of unassigned variables, and then its result does
    not depend on the fuel: it is the result with the fuel [solve]
    passes for that many variables. *)
Theorem backtrack_fuel_enough csp fuel A U :
  length U < fuel ->
  exists r,
    backtrack toKey fuel A U csp = Some r /\
    backtrack toKey (S (length U)) A U csp = Some r.
Proof.
  intros Hf.
  destruct (backtrack_total toKey (S (length U)) A U csp) as [r Hr]; [lia|].
  exists r. split; [|exact Hr].
  apply (backtrack_mono toKey csp (S (length U))); [lia | exact Hr].
Qed.


End OrderProperties.

(** X9. What a consistency pass starts from.  [partialAssignment] holds
    every variable of [assigned] or [unassigned], each once; a variable
    of both has the domain [assigned] gives it. *)
Theorem partialAssignment_lookup {V : Type} (A U : @Vars V) :
  NoDup (Obj.keys A) -> NoDup (Obj.keys U) ->
  (forall k,
     Obj.get k (partialAssignment A U)
     = match Obj.get k A with Some d => Some d | None => Obj.get k U end) /\
  NoDup (Obj.keys (partialAssignment A U)).
Proof.
  intros HA HU. split; [|apply partialAssignment_NoDup].
  intros k. now apply partialAssignment_get.
Qed.

Lemma partialAssignment_lookup_witness :
  Obj.get "x" (partialAssignment [("x", [3])] [("x", [1; 2; 3]); ("y", [4])])
  = Some [3] /\
  Obj.get "y" (partialAssignment [("x", [3])] [("x", [1; 2; 3]); ("y", [4])])
  = Some [4].
Proof.
  destruct (partialAssignment_lookup [("x", [3])] [("x", [1; 2; 3]); ("y", [4])])
    as (Hget & _).
  - repeat constructor; simpl; intuition discriminate.
  - repeat constructor; simpl; intuition discriminate.
  - split; [exact (Hget "x") | exact (Hget "y")].
Defined.

Lemma backtrack_fuel_enough_witness :
  exists r,
    backtrack Examples.natKey 7 [] Examples.arcVars Examples.arcProblem = Some r /\
    backtrack Examples.natKey 3 [] Examples.arcVars Examples.arcProblem = Some r.
Proof.
  apply (backtrack_fuel_enough Examples.natKey Examples.arcProblem 7 [] Examples.arcVars).
  simpl. lia.
Defined.



(** * Properties of the puzzle generator *)

(** X13. [evaluate] works strictly from left to right.  A single operand
    is its own value; an expression with one more operator and operand
    is that operator applied to the value of the shorter expression and
    the new operand, and [null] when the shorter expression is [null].
    There is no precedence: [2 + 3 x 4] is 20. *)
Theorem evaluate_left_to_right :
  (forall x, Gencw.evaluate [x] [] = Some x) /\
  (forall operands ops x op,
     Gencw.evaluate (operands ++ [x]) (ops ++ [op])
     = match Gencw.evaluate operands ops with
       | Some cur => Gencw.step op cur x
       | None => None
       end) /\
  Gencw.evaluate [Gencw.Num 2; Gencw.Num 3; Gencw.Num 4] ["+"; "×"]
  = Some (Gencw.Num 20).
Proof.
  split; [reflexivity|]. split; [|reflexivity].
  intros operands ops x op. unfold Gencw.evaluate.
  rewrite !length_app. simpl.
  destruct (Nat.eqb_spec (length operands) (length ops + 1)) as [E|N].
  - destruct (Nat.eqb_spec (length operands + 1) (length ops + 1 + 1)) as [_|N];
      [|lia].
    simpl. destruct operands as [|o rest]; [simpl in E; lia|]. simpl.
    apply GencwFacts.evaluateFrom_snoc. simpl in E. lia.
  - destruct (Nat.eqb_spec (length operands + 1) (length ops + 1 + 1)) as [E|_];
      [lia | reflexivity].
Qed.

(** X14. When [evaluate] gives a number.  On numbers it returns a number
    or [null], and a number only when there is one operand more than
    operators and every operator is one of the four.  A division gives a
    number exactly when the divisor is not zero and divides the dividend:
    the quotient is then exact. *)
Theorem evaluate_number :
  (forall zs ops r,
     Gencw.evaluate (map Gencw.Num zs) ops = Some r ->
     (exists z, r = Gencw.Num z) /\
     length zs = length ops + 1 /\
     Forall (fun op => In op ["+"; "−"; "×"; "÷"]%string) ops) /\
  (forall a b r,
     Gencw.evaluate [Gencw.Num a; Gencw.Num b] ["÷"] = Some r <->
     b <> 0%Z /\ exists q, a = (q * b)%Z /\ r = Gencw.Num q).
Proof.
  split.
  - intros zs ops r H. unfold Gencw.evaluate in H. rewrite length_map in H.
    destruct (Nat.eqb_spec (length zs) (length ops + 1)) as [E|_]; [|discriminate].
    simpl in H. destruct zs as [|a zs]; [simpl in E; lia|]. simpl in H.
    destruct (GencwFacts.evaluateFrom_number ops a zs r H) as (Hr & Hf);
      [simpl in E; lia|].
    auto.
  - intros a b r. unfold Gencw.evaluate. simpl. unfold Gencw.step. simpl.
    destruct (Z.eqb_spec b 0) as [Hb|Hb]; simpl.
    + split; [discriminate | intros (Hn & _); contradiction].
    + destruct (Z.eqb_spec (Z.rem a b) 0) as [Hr|Hr]; simpl.
      * split.
        -- intros H. inversion H. split; [exact Hb|]. exists (Z.quot a b).
           split; [|reflexivity]. pose proof (Z.quot_rem' a b). lia.
        -- intros (_ & q & -> & ->). now rewrite Z.quot_mul.
      * split; [discriminate|]. intros (_ & q & -> & _).
        exfalso. apply Hr. now apply Z.rem_mul.
Qed.

(** X15. Cell names are distinct: two cells with the same name are the
    same cell, so no variable of a puzzle stands for two cells. *)
Theorem id_injective (r c r' c' : nat) :
  Gencw.id r c = Gencw.id r' c' -> r = r' /\ c = c'.
Proof. apply GencwFacts.id_inj. Qed.

Lemma id_injective_witness : 10 = 10 /\ 2 = 2.
Proof. apply (id_injective 10 2 10 2). reflexivity. Defined.

(** X16. The problem [buildPuzzleConstraints] hands to the solver.  It
    declares exactly the cells of the grid; a cell with a clue has the
    clue as its only value, any other cell the whole range from [MIN_N]
    to [MAX_N]; there are [GRID_N] row and [GRID_N] column constraints.
    The problem passes validation: [CSP.solve] never throws on it. *)
Theorem buildPuzzleConstraints_valid (toKey : Z -> string)
  (config : Gencw.Config) (ops : Gencw.OpLayout) (clues : Obj.t Z) :
  let n := Gencw.GRID_N config in
  let raw := Gencw.buildPuzzleConstraints config ops clues in
  let csp := normalizeProblem raw in
  (forall k, In k (Obj.keys (variables csp))
             <-> exists r c, r < n /\ c < n /\ k = Gencw.id r c) /\
  (forall r c, r < n -> c < n ->
     Obj.get (Gencw.id r c) (variables csp)
     = Some (RawArray
               match Obj.get (Gencw.id r c) clues with
               | Some clue => [clue]
               | None => Gencw.fullDomain config
               end)) /\
  (forall z, In z (Gencw.fullDomain config)
             <-> (Gencw.MIN_N config <= z <= Gencw.MAX_N config)%Z) /\
  length (naryConstraints csp) = 2 * n /\
  validateProblem csp = None /\
  exists result, solve toKey raw = Some (Returned result).
Proof.
  intros n raw csp.
  split; [apply PuzzleFacts.variables_keys|].
  split; [apply PuzzleFacts.variables_get|].
  split; [apply GencwFacts.fullDomain_In|].
  split.
  { unfold csp, raw. rewrite PuzzleFacts.naryConstraints_eq.
    rewrite length_app, !length_map, !length_seq. fold n. lia. }
  pose proof (PuzzleFacts.puzzle_valid config ops clues) as Hval.
  split; [exact Hval|].
  destruct (solve_total toKey raw) as [[e|result] Hs]; [|eauto].
  exfalso. rewrite solve_steps in Hs. cbv zeta in Hs. fold csp in Hs.
  unfold csp, raw in Hs.
  rewrite Hval, (PuzzleFacts.puzzle_indexed config ops clues) in Hs.
  destruct (backtrack toKey _ _ _ _) as [[|r]|]; discriminate.
Qed.

(** X17. A solved puzzle checks, where the arithmetic is exact.  Let the
    range and the clues be small enough for the size of the grid
    ([ExactRange]: the largest magnitude of a value, to the power
    [GRID_N - 1], is at most 2^53, and the range has fewer than 2^32
    values).  Then every number that [evaluate]
    computes on values of the cells, for a line or for the beginning of
    one, is at most 2^53 in magnitude, so that the doubles of the source
    hold the integers of the model.  And when [CSP.solve] returns an
    assignment for the problem of [buildPuzzleConstraints], every cell
    has a value of its domain (its clue, if it has one), and every row
    and every column has its operators and satisfies its equation:
    [evaluate] on the first [GRID_N - 1] cells of the line gives the
    last cell. *)
Theorem puzzle_solution_checks (toKey : Z -> string)
  (config : Gencw.Config) (ops : Gencw.OpLayout) (clues : Obj.t Z)
  (sol : Obj.t (option Z)) :
  Gencw.ExactRange config clues ->
  solve toKey (Gencw.buildPuzzleConstraints config ops clues)
  = Some (Returned (Value sol)) ->
  let n := Gencw.GRID_N config in
  (forall zs lineOps z,
     length zs <= n - 1 ->
     (forall x, In x zs -> exists r c, In x (Gencw.cellDomain config clues r c)) ->
     Gencw.evaluate (map Gencw.Num zs) lineOps = Some (Gencw.Num z) ->
     (Z.abs z <= Gencw.maxExact)%Z) /\
  exists grid : nat -> nat -> Z,
    (forall r c, r < n -> c < n ->
       Obj.get (Gencw.id r c) sol = Some (Some (grid r c)) /\
       In (grid r c) (Gencw.cellDomain config clues r c)) /\
    (forall r, r < n ->
       exists rowOps,
         nth_error (Gencw.rows ops) r = Some rowOps /\
         Gencw.evaluate (map (fun c => Gencw.Num (grid r c)) (seq 0 (n - 1))) rowOps
         = Some (Gencw.Num (grid r (n - 1)))) /\
    (forall c, c < n ->
       exists colOps,
         nth_error (Gencw.cols ops) c = Some colOps /\
         Gencw.evaluate (map (fun r => Gencw.Num (grid r c)) (seq 0 (n - 1))) colOps
         = Some (Gencw.Num (grid (n - 1) c))).
Proof.
  intros Hexact H n. split.
  { intros zs lineOps z Hlen Hzs Hev.
    pose proof (GencwFacts.magnitude_base config clues) as Hbase.
    assert (HM : (2 <= Gencw.magnitude config clues)%Z) by lia.
    assert (Hb : (Z.abs z <= Gencw.magnitude config clues ^ Z.of_nat (length zs))%Z).
    { apply (GencwFacts.evaluate_bound _ zs lineOps z HM); [|exact Hev].
      intros x Hx. destruct (Hzs x Hx) as (r & c & Hin).
      exact (GencwFacts.cellDomain_bound config clues r c x Hin). }
    destruct Hexact as [Hexact _]. fold n in Hexact.
    assert (Hmono : (Gencw.magnitude config clues ^ Z.of_nat (length zs)
                     <= Gencw.magnitude config clues ^ Z.of_nat (Nat.max 1 (n - 1)))%Z)
      by (apply Z.pow_le_mono_r; lia).
    lia. }
  set (raw := Gencw.buildPuzzleConstraints config ops clues) in *.
  destruct (solve_result toKey raw sol H) as (result & -> & _ & Hdom & Hsolved).
  destruct (Hsolved (PuzzleFacts.puzzle_ownNames config ops clues)
              (PuzzleFacts.puzzle_identities config ops clues))
    as ((_ & Hgac) & Hsing & _ & Hkeys).
  set (grid := fun r c =>
                 match Obj.get (Gencw.id r c) result with
                 | Some (z :: _) => z
                 | _ => 0%Z
                 end).
  (* every cell holds one value *)
  assert (Hcell : forall r c, r < n -> c < n ->
             Obj.get (Gencw.id r c) result = Some [grid r c] /\
             In (grid r c) (Gencw.cellDomain config clues r c)).
  { intros r c Hr Hc.
    assert (Hin : In (Gencw.id r c) (Obj.keys result)).
    { apply Hkeys. apply PuzzleFacts.variables_keys. exists r, c. auto. }
    apply ObjFacts.keys_get in Hin. destruct Hin as [dom Hd].
    destruct (singleton_shape dom (Hsing _ _ Hd)) as [z ->].
    assert (Eg : grid r c = z) by (unfold grid; now rewrite Hd).
    rewrite Eg. split; [exact Hd|].
    destruct (Hdom _ _ Hd) as (_ & d & Hv & Hi).
    unfold raw in Hv. rewrite (PuzzleFacts.variables_get config ops clues r c Hr Hc) in Hv.
    inversion Hv; subst d. apply Hi. now left. }
  (* the equation of a line, from the support of its first cell *)
  assert (Hline : forall (C : @NaryConstraint Z) (cell : nat -> string)
                    (value : nat -> Z) lineOps,
             In C (naryConstraints (normalizeProblem raw)) ->
             cvars C = map cell (seq 0 n) ->
             cpredicate C = Gencw.linePredicate (map cell (seq 0 n)) lineOps ->
             (forall i j, i < n -> j < n -> cell i = cell j -> i = j) ->
             (forall i, i < n -> Obj.get (cell i) result = Some [value i]) ->
             0 < n ->
             exists lops,
               lineOps = Some lops /\
               Gencw.evaluate (map (fun i => Gencw.Num (value i)) (seq 0 (n - 1))) lops
               = Some (Gencw.Num (value (n - 1)))).
  { intros C cell value lineOps HC Hvars Hpred Hinj Hval Hn.
    assert (Hx : In (cell 0) (cvars C)).
    { rewrite Hvars. apply in_map_iff. exists 0. split; [reflexivity|].
      apply in_seq. lia. }
    pose proof (Hgac C HC (cell 0) [value 0] Hx (Hval 0 Hn) (value 0)
                  (or_introl eq_refl)) as Hsup.
    apply hasSupport_sound in Hsup.
    destruct Hsup as (tuple & (Hfocus & Hothers & _) & Hp).
    assert (Htuple : forall i, i < n -> Obj.get (cell i) tuple = Some (value i)).
    { intros i Hi. destruct (Nat.eq_dec i 0) as [->|Hne]; [exact Hfocus|].
      destruct (Hothers (cell i)) as (dom & val & Hd & Hv & Ht).
      - rewrite Hvars. apply in_map_iff. exists i. split; [reflexivity|].
        apply in_seq. lia.
      - intros E. apply Hne. apply (Hinj i 0 Hi Hn E).
      - rewrite (Hval i Hi) in Hd. inversion Hd; subst dom.
        destruct Hv as [<-|[]]. exact Ht. }
    rewrite Hpred in Hp. unfold Gencw.linePredicate in Hp. cbv zeta in Hp.
    destruct lineOps as [lops|]; [|discriminate]. exists lops.
    split; [reflexivity|].
    assert (Evals : map (fun v => match Obj.get v tuple with
                                  | Some z => Gencw.Num z
                                  | None => Gencw.Undefined
                                  end) (map cell (seq 0 n))
                    = map (fun i => Gencw.Num (value i)) (seq 0 (n - 1))
                      ++ [Gencw.Num (value (n - 1))]).
    { rewrite map_map.
      replace n with (S (n - 1)) at 1 by lia. rewrite seq_S, map_app. simpl.
      f_equal.
      - apply map_ext_in. intros i Hi. apply in_seq in Hi.
        now rewrite (Htuple i) by lia.
      - now rewrite (Htuple (n - 1)) by lia. }
    rewrite Evals in Hp. rewrite removelast_last, last_last in Hp.
    inversion Hp as [Hs]. unfold Gencw.strictEq in Hs.
    destruct (Gencw.evaluate _ lops) as [[| |a]|]; try discriminate.
    apply Z.eqb_eq in Hs. now subst. }
  exists grid. split; [|split].
  - intros r c Hr Hc. destruct (Hcell r c Hr Hc) as (Hg & Hi).
    split; [|exact Hi]. rewrite get_unwrap, Hg. reflexivity.
  - intros r Hr.
    destruct (Hline (Gencw.rowConstraint n ops r) (fun c => Gencw.id r c)
                (fun c => grid r c) (nth_error (Gencw.rows ops) r))
      as (rowOps & E & Hev); auto; try lia.
    + apply PuzzleFacts.naryConstraints_In. left. exists r. auto.
    + intros i j _ _ E. now apply GencwFacts.id_inj in E.
    + intros i Hi. now apply Hcell.
    + exists rowOps. auto.
  - intros c Hc.
    destruct (Hline (Gencw.colConstraint n ops c) (fun r => Gencw.id r c)
                (fun r => grid r c) (nth_error (Gencw.cols ops) c))
      as (colOps & E & Hev); auto; try lia.
    + apply PuzzleFacts.naryConstraints_In. right. exists c. auto.
    + intros i j _ _ E. now apply GencwFacts.id_inj in E.
    + intros i Hi. now apply Hcell.
    + exists colOps. auto.
Qed.

Lemma puzzle_solution_checks_witness :
  Gencw.ExactRange Gencw.sumConfig Gencw.sumClues /\
  (forall zs lineOps z,
     length zs <= 2 ->
     (forall x, In x zs ->
        exists r c, In x (Gencw.cellDomain Gencw.sumConfig Gencw.sumClues r c)) ->
     Gencw.evaluate (map Gencw.Num zs) lineOps = Some (Gencw.Num z) ->
     (Z.abs z <= Gencw.maxExact)%Z) /\
  exists grid : nat -> nat -> Z,
    (forall r c, r < 3 -> c < 3 ->
       Obj.get (Gencw.id r c)
         [("r0c0", Some 1%Z); ("r0c1", Some 1%Z); ("r0c2", Some 2%Z);
          ("r1c0", Some 1%Z); ("r1c1", Some 1%Z); ("r1c2", Some 2%Z);
          ("r2c0", Some 2%Z); ("r2c1", Some 2%Z); ("r2c2", Some 4%Z)]
       = Some (Some (grid r c)) /\
       In (grid r c) (Gencw.cellDomain Gencw.sumConfig Gencw.sumClues r c)) /\
    (forall r, r < 3 ->
       exists rowOps,
         nth_error (Gencw.rows Gencw.sumOps) r = Some rowOps /\
         Gencw.evaluate (map (fun c => Gencw.Num (grid r c)) (seq 0 2)) rowOps
         = Some (Gencw.Num (grid r 2))) /\
    (forall c, c < 3 ->
       exists colOps,
         nth_error (Gencw.cols Gencw.sumOps) c = Some colOps /\
         Gencw.evaluate (map (fun r => Gencw.Num (grid r c)) (seq 0 2)) colOps
         = Some (Gencw.Num (grid 2 c))).
Proof.
  assert (Hx : Gencw.ExactRange Gencw.sumConfig Gencw.sumClues)
    by (split; vm_compute; [discriminate | reflexivity]).
  split; [exact Hx|].
  apply (puzzle_solution_checks Gencw.numberKey Gencw.sumConfig Gencw.sumOps
           Gencw.sumClues _ Hx).
  vm_compute. reflexivity.
Defined.

(** * Properties on the store *)

Lemma ownMapping_repr :
  Mem.Repr Examples.ownMappingHeap 1 [("x", [1])] /\
  Mem.Repr Examples.ownMappingHeap 2 [].
Proof.
  split.
  - exists [("x", Mem.SRef 0)]. split; [reflexivity|].
    constructor; [|constructor]. split; [reflexivity|].
    exists 0. split; reflexivity.
  - exists []. split; [reflexivity | constructor].
Qed.

(** X18. [cloneVars] makes a new object.  It returns an object created
    by the call, which holds the same variables with the same domains;
    the object it copies and every other object that existed are left
    as they were. *)
Theorem cloneVars_fresh_copy {V : Type} (h : @Mem.Heap V) (v : Mem.Ref)
  (vars : @Vars V) :
  Mem.Repr h v vars ->
  exists out h',
    Mem.cloneVars v h = Some (out, h') /\
    length h <= out /\
    Mem.Repr h' out (cloneVars vars) /\
    Mem.Repr h' v vars /\
    (forall r c, nth_error h r = Some c -> nth_error h' r = Some c).
Proof.
  intros Hv. destruct (MemSim.cloneVars_sim h v vars Hv) as (out & h' & E & Ho & K & L).
  exists out, h'. split; [exact E|]. split; [exact L|]. split; [exact Ho|].
  split; [exact (MemSim.Repr_kept_all _ _ _ _ Hv K)|].
  intros r c Hr. destruct K as (_ & K & _). now apply K.
Qed.

Lemma cloneVars_fresh_copy_witness :
  exists out h',
    Mem.cloneVars 1 Examples.ownMappingHeap = Some (out, h') /\
    length Examples.ownMappingHeap <= out /\
    Mem.Repr h' out (cloneVars [("x", [1])]) /\
    Mem.Repr h' 1 [("x", [1])] /\
    (forall r c, nth_error Examples.ownMappingHeap r = Some c ->
                 nth_error h' r = Some c).
Proof.
  apply (cloneVars_fresh_copy Examples.ownMappingHeap 1 [("x", [1])]).
  exact (proj1 ownMapping_repr).
Defined.

(** X19. What [backtrack] does to [unassigned].  It deletes the variable
    it selects from the object it is given.  When it returns the failure
    sentinel it has put the variable back with the domain it had: every
    variable reads as before (the restored one now comes last in the
    enumeration).  When it returns an assignment, the selected variable
    stays deleted. *)
Theorem backtrack_restores_unassigned {V : Type} (toKey : V -> string)
  (csp : @Problem V) (fuel : nat) (h : @Mem.Heap V) (a u : Mem.Ref)
  (A U : @Vars V) (r : Result Mem.Ref) (h' : @Mem.Heap V) :
  Mem.Repr h a A -> Mem.Repr h u U -> a <> u -> length U < fuel ->
  Mem.backtrack toKey fuel a u csp h = Some (r, h') ->
  exists props props',
    nth_error h u = Some (Mem.CObject props) /\
    nth_error h' u = Some (Mem.CObject props') /\
    match r with
    | FAILURE => forall k, Obj.get k props' = Obj.get k props
    | Value _ =>
        match selectUnassignedVariable U with
        | Some nextKey => props' = Obj.del nextKey props
        | None => props' = props
        end
    end.
Proof.
  intros Ha Hu Hne Hf Hm.
  destruct (backtrack_total toKey fuel A U csp Hf) as [res Hres].
  destruct (MemSim.backtrack_sim toKey csp fuel h a u A U res Ha Hu Hne Hres)
    as (r0 & h0 & E0 & _ & Hr0 & _).
  rewrite Hm in E0. inversion E0; subst r0 h0.
  destruct (MemMore.backtrack_unassigned toKey csp fuel h a u A U res r h'
              Ha Hu Hne Hres Hm) as (props & props' & Hp & Hp' & Hres').
  exists props, props'. split; [exact Hp|]. split; [exact Hp'|].
  destruct res as [|vars]; simpl in Hr0.
  - subst r. exact Hres'.
  - destruct Hr0 as (o & -> & _). exact Hres'.
Qed.

Lemma backtrack_restores_unassigned_witness :
  exists r h' props props',
    Mem.backtrack Examples.natKey 5 2 1 Examples.arcProblem Examples.ownMappingHeap
    = Some (r, h') /\
    nth_error Examples.ownMappingHeap 1 = Some (Mem.CObject props) /\
    nth_error h' 1 = Some (Mem.CObject props') /\
    match r with
    | FAILURE => forall k, Obj.get k props' = Obj.get k props
    | Value _ =>
        match selectUnassignedVariable [("x", [1])] with
        | Some nextKey => props' = Obj.del nextKey props
        | None => props' = props
        end
    end.
Proof.
  destruct (Mem.backtrack Examples.natKey 5 2 1 Examples.arcProblem
              Examples.ownMappingHeap) as [[r h']|] eqn:E.
  - destruct (backtrack_restores_unassigned Examples.natKey Examples.arcProblem 5
                Examples.ownMappingHeap 2 1 [] [("x", [1])] r h'
                (proj2 ownMapping_repr) (proj1 ownMapping_repr))
      as (props & props' & H1 & H2 & H3).
    + discriminate.
    + simpl. lia.
    + exact E.
    + exists r, h', props, props'. auto.
  - vm_compute in E. discriminate E.
Defined.

(** X20. The object [CSP.solve] returns.  On a store that holds the
    caller's description, an assignment is returned in an object created
    by the call, never in one of the caller's; its properties are the
    values themselves, and they are what [solve] computes on values. *)
Theorem solve_returns_new_object {V : Type} (toKey : V -> string)
  (h : @Mem.Heap V) (root : Mem.Ref) (raw : @RawProblem V)
  (o : Mem.Ref) (h' : @Mem.Heap V) :
  Mem.ReprRaw h root raw ->
  Mem.solve toKey root h = Some (Returned (Value o), h') ->
  length h <= o /\
  exists record,
    Mem.loadRecord o h' = Some (record, h') /\
    solve toKey raw = Some (Returned (Value record)).
Proof.
  intros Hraw Hm. split.
  - exact (proj2 (MemMore.Safe_solve_fresh toKey (length h) root h _ h' (le_n _) Hm)).
  - destruct (solve_total toKey raw) as [out Hout].
    destruct (MemSim.solve_sim toKey h root raw out Hraw Hout) as (r & h0 & E & _ & Hr).
    rewrite Hm in E. inversion E; subst r h0.
    destruct out as [e|[|record]]; try discriminate.
    destruct Hr as (o' & Eo & Hrec). inversion Eo; subst o'.
    exists record. auto.
Qed.

Lemma solve_returns_new_object_witness :
  exists o h',
    Mem.solve Examples.natKey 6 Examples.tripleHeap = Some (Returned (Value o), h') /\
    length Examples.tripleHeap <= o /\
    exists record,
      Mem.loadRecord o h' = Some (record, h') /\
      solve Examples.natKey Examples.tripleProblem = Some (Returned (Value record)).
Proof.
  destruct (Mem.solve Examples.natKey 6 Examples.tripleHeap)
    as [[[e|[|o]] h']|] eqn:E; try (vm_compute in E; discriminate E).
  exists o, h'. split; [reflexivity|].
  apply (solve_returns_new_object Examples.natKey Examples.tripleHeap 6
           Examples.tripleProblem o h' tripleHeap_holds_tripleProblem E).
Defined.

(** X21. [orderValues] leaves the state of the search alone.  The
    tentative assignments it scores are made on copies: when it returns,
    [assigned], [unassigned] and every other object that existed hold
    what they held, and the order it returns is the one computed on
    values. *)
Theorem orderValues_leaves_state {V : Type} (toKey : V -> string)
  (nextKey : string) (csp : @Problem V) (h : @Mem.Heap V) (a u : Mem.Ref)
  (A U : @Vars V) :
  Mem.Repr h a A -> Mem.Repr h u U ->
  exists values h',
    Mem.orderValues toKey nextKey a u csp h = Some (values, h') /\
    orderValues toKey nextKey A U csp = Some values /\
    (forall r c, nth_error h r = Some c -> nth_error h' r = Some c) /\
    Mem.Repr h' a A /\ Mem.Repr h' u U.
Proof.
  intros Ha Hu.
  destruct (orderValues_perm toKey nextKey A U csp) as (values & Hv & _).
  destruct (MemSim.orderValues_sim toKey nextKey csp h a u A U values Ha Hu Hv)
    as (h' & E & K).
  exists values, h'. split; [exact E|]. split; [exact Hv|].
  split; [intros r c Hr; destruct K as (_ & K & _); now apply K|].
  split; apply (MemSim.Repr_kept_all h h'); assumption.
Qed.

Lemma orderValues_leaves_state_witness :
  exists values h',
    Mem.orderValues Examples.natKey "x" 2 1 Examples.arcProblem Examples.ownMappingHeap
    = Some (values, h') /\
    orderValues Examples.natKey "x" [] [("x", [1])] Examples.arcProblem = Some values /\
    (forall r c, nth_error Examples.ownMappingHeap r = Some c ->
                 nth_error h' r = Some c) /\
    Mem.Repr h' 2 [] /\ Mem.Repr h' 1 [("x", [1])].
Proof.
  apply (orderValues_leaves_state Examples.natKey "x" Examples.arcProblem
           Examples.ownMappingHeap 2 1 [] [("x", [1])]
           (proj2 ownMapping_repr) (proj1 ownMapping_repr)).
Defined.

(** * The earlier variant of the solver *)

(** X22. The earlier [selectUnassignedVariable] has no early exit: the
    variable it returns has a domain that is no longer than any other.
    It picks the same variable as the current one whenever no domain is
    empty; with an empty domain after a singleton the two differ. *)
Theorem legacy_select_minimum {V : Type} (U : @Vars V) :
  (Legacy.selectUnassignedVariable U = None <-> U = []) /\
  (forall k, Legacy.selectUnassignedVariable U = Some k ->
     exists dom,
       In (k, dom) U /\
       forall k' dom', In (k', dom') U -> length dom <= length dom') /\
  ((forall k dom, In (k, dom) U -> dom <> []) ->
   selectUnassignedVariable U = Legacy.selectUnassignedVariable U) /\
  Legacy.selectUnassignedVariable [("p", [1]); ("q", @nil nat)] = Some "q".
Proof.
  split; [|split; [|split; [|reflexivity]]].
  - split; [|intros ->; reflexivity].
    destruct U as [|[key dom] rest]; [reflexivity|]. intros H. exfalso.
    unfold Legacy.selectUnassignedVariable in H. simpl in H.
    destruct (Legacy.selectLoop rest (Some key) (Some (length dom))) as [k|] eqn:E;
      [discriminate|].
    clear H. revert E. generalize (Some (length dom)). generalize key.
    induction rest as [|[key' dom'] rest IH]; intros k0 ml E; simpl in E;
      [discriminate|].
    destruct (match ml with Some m => Nat.ltb (length dom') m | None => true end);
      eapply IH; exact E.
  - intros k H. unfold Legacy.selectUnassignedVariable in H.
    destruct (LegacyFacts.legacyLoop_min U None None k H)
      as [(d & Hin & Hmin & _)|(Hk & _)]; [|discriminate].
    exists d. auto.
  - intros Hne. now apply LegacyFacts.legacyLoop_agree.
Qed.
